(** * jsTools: duplicate-song detection, normalisation and ranking

    A shallow embedding of the duplicate-detection core of the jsTools
    scripts (check_duplicates_enhanced.js, check_duplicates_utils.js,
    check_duplicates.js, the duplicate mover and the song-key test
    script), with the properties of its parser, normaliser, classifier,
    ranking and plan emitter; and of the scans of directories, of
    split_cd.js and of the lyrics that embed_lyrics.js writes in WAVE
    files.

    JavaScript strings are sequences of UTF-16 code units; they are
    modelled as [list N].  String literals of the scripts are written as
    Rocq string literals (UTF-8) and decoded by [js]. *)

From Stdlib Require Import String Ascii DecimalString.
From Stdlib Require Import List NArith ZArith QArith Bool Arith Lia.
From Stdlib Require Import Permutation Sorted Lqa Qround Qpower.
Import ListNotations.

Local Open Scope N_scope.

(* ------------------------------------------------------------------ *)
(** ** JavaScript strings *)
(* ------------------------------------------------------------------ *)

Module Js.

(** A JavaScript string: its UTF-16 code units. *)
Definition jsstring := list N.

Fixpoint bytes (s : string) : list N :=
  match s with
  | EmptyString => []
  | String c s' => N_of_ascii c :: bytes s'
  end.

(** UTF-8 decoder: [acc] is the code point under construction and [need]
    the number of continuation bytes still expected. *)
Fixpoint utf8_points (bs : list N) (acc : N) (need : nat) : list N :=
  match bs with
  | [] => []
  | b :: bs' =>
      match need with
      | O =>
          if b <? 0x80 then b :: utf8_points bs' 0 0
          else if b <? 0xE0 then utf8_points bs' (b - 0xC0) 1
          else if b <? 0xF0 then utf8_points bs' (b - 0xE0) 2
          else utf8_points bs' (b - 0xF0) 3
      | S k =>
          let acc' := acc * 64 + (b - 0x80) in
          match k with
          | O => acc' :: utf8_points bs' 0 0
          | S _ => utf8_points bs' acc' k
          end
      end
  end.

(** UTF-16 encoding of one code point. *)
Definition utf16_units (cp : N) : list N :=
  if cp <? 0x10000 then [cp]
  else [0xD800 + (cp - 0x10000) / 0x400; 0xDC00 + (cp - 0x10000) mod 0x400].

(** The JavaScript value of a string literal. *)
Definition js (s : string) : jsstring :=
  flat_map utf16_units (utf8_points (bytes s) 0 0).

Definition eqb (a b : jsstring) : bool :=
  if list_eq_dec N.eq_dec a b then true else false.

(** Truthiness of a string value: the empty string is falsy. *)
Definition truthy (s : jsstring) : bool :=
  match s with [] => false | _ :: _ => true end.

(** *** Character classes *)

(** [\s] of a regular expression, which is also the set removed by
    [String.prototype.trim]: WhiteSpace and LineTerminator. *)
Definition isSpace (c : N) : bool :=
  ((0x09 <=? c) && (c <=? 0x0D)) || (c =? 0x20) || (c =? 0xA0)
  || (c =? 0x1680) || ((0x2000 <=? c) && (c <=? 0x200A))
  || (c =? 0x2028) || (c =? 0x2029) || (c =? 0x202F) || (c =? 0x205F)
  || (c =? 0x3000) || (c =? 0xFEFF).

(** [\d] *)
Definition isDigit (c : N) : bool := (0x30 <=? c) && (c <=? 0x39).

Definition isUpper (c : N) : bool := (0x41 <=? c) && (c <=? 0x5A).
Definition isLower (c : N) : bool := (0x61 <=? c) && (c <=? 0x7A).

(** [[A-Za-z]] *)
Definition isLetter (c : N) : bool := isUpper c || isLower c.

(** Line terminators, which [.] does not match. *)
Definition isLineTerminator (c : N) : bool :=
  (c =? 0x0A) || (c =? 0x0D) || (c =? 0x2028) || (c =? 0x2029).

(** The small form of a code unit: [A-Z] and the fullwidth capitals
    move to their small forms and every other unit is kept. *)
Definition lowerUnit (c : N) : N :=
  if isUpper c then c + 0x20
  else if (0xFF21 <=? c) && (c <=? 0xFF3A) then c + 0x20
  else c.

(** What lowering writes for one code unit.  U+0130, the capital I with
    a dot above, is the one code point that lowering turns into two
    units: [i] and the combining dot U+0307. *)
Definition lowerUnits (c : N) : jsstring :=
  if c =? 0x130 then [0x69; 0x307] else [lowerUnit c].

(** [String.prototype.toLowerCase].  The capitals of the other
    alphabets (Latin beyond ASCII, Greek, Cyrillic, Armenian and the
    like) are kept as they are, where JavaScript lowers them; on the
    units of [lowersAlone] below and on U+0130 the function is the one
    of JavaScript. *)
Definition toLowerCase (s : jsstring) : jsstring := flat_map lowerUnits s.

(** The code units that JavaScript lowers as [lowerUnit] does, whatever
    stands around them: ASCII and the signs of Latin-1 below U+00C0,
    the general punctuation, the CJK blocks from the radicals to the Yi
    syllables (with kana and bopomofo), the Hangul syllables, the CJK
    compatibility ideographs and forms, and the halfwidth and fullwidth
    forms.  No unit of these is a capital other than [A-Z] and the
    fullwidth capitals, and none is a surrogate. *)
Definition lowersAlone (c : N) : bool :=
  (c <? 0xC0)
  || ((0x2000 <=? c) && (c <=? 0x206F))
  || ((0x2E80 <=? c) && (c <=? 0xA4CF))
  || ((0xAC00 <=? c) && (c <=? 0xD7A3))
  || ((0xF900 <=? c) && (c <=? 0xFAFF))
  || ((0xFE30 <=? c) && (c <=? 0xFE4F))
  || ((0xFF00 <=? c) && (c <=? 0xFFEF)).

(** Equality of a pattern character [p] and an input unit [c] under the
    [i] flag (without [u]): both are canonicalised by the simple
    upper-case map, and a non-ASCII unit never folds onto an ASCII one.
    The patterns of the scripts hold ASCII and CJK characters only, so
    folding [a-z] onto [A-Z] is the whole canonicalisation for them. *)
Definition foldUnit (c : N) : N := if isLower c then c - 0x20 else c.

Definition ciEqb (p c : N) : bool := foldUnit p =? foldUnit c.

(** *** String operations *)

Fixpoint startsWith (p s : jsstring) : bool :=
  match p, s with
  | [], _ => true
  | _ :: _, [] => false
  | a :: p', b :: s' => (a =? b) && startsWith p' s'
  end.

(** Case-insensitive prefix test, [p] being the pattern text. *)
Fixpoint startsWithCi (p s : jsstring) : bool :=
  match p, s with
  | [], _ => true
  | _ :: _, [] => false
  | a :: p', b :: s' => ciEqb a b && startsWithCi p' s'
  end.

(** [s.indexOf(p)]: [None] stands for -1. *)
Fixpoint indexOf (p s : jsstring) : option nat :=
  if startsWith p s then Some O
  else match s with
       | [] => None
       | _ :: s' => option_map S (indexOf p s')
       end.

Definition includes (p s : jsstring) : bool :=
  match indexOf p s with Some _ => true | None => false end.

Definition includesUnit (c : N) (s : jsstring) : bool :=
  existsb (N.eqb c) s.

(** [s.substring(i)] and [s.substring(0, i)] for [0 <= i]. *)
Definition substringFrom (i : nat) (s : jsstring) : jsstring := skipn i s.
Definition substringTo (i : nat) (s : jsstring) : jsstring := firstn i s.

Fixpoint trimStart (s : jsstring) : jsstring :=
  match s with
  | [] => []
  | c :: s' => if isSpace c then trimStart s' else s
  end.

Definition trimEnd (s : jsstring) : jsstring := rev (trimStart (rev s)).

Definition trim (s : jsstring) : jsstring := trimEnd (trimStart s).

(** [s.replace(/\s+/g, '')] *)
Definition stripSpaces (s : jsstring) : jsstring :=
  filter (fun c => negb (isSpace c)) s.

(** [/^\d+$/.test(s)] *)
Definition allDigits (s : jsstring) : bool :=
  truthy s && forallb isDigit s.

(** [s.split(sep)] for a non-empty separator: the pieces between the
    occurrences of [sep], found from left to right without overlap.
    [cur] holds, reversed, the units of the piece being read, and
    [skip] counts the units of a separator occurrence still to pass. *)
Fixpoint splitAux (sep : jsstring) (s : jsstring) (cur : jsstring)
    (skip : nat) : list jsstring :=
  match s with
  | [] => [rev cur]
  | c :: s' =>
      match skip with
      | S k => splitAux sep s' cur k
      | O =>
          if startsWith sep s
          then rev cur :: splitAux sep s' [] (List.length sep - 1)
          else splitAux sep s' (c :: cur) O
      end
  end.

Definition split (sep s : jsstring) : list jsstring := splitAux sep s [] O.

(** Length of the longest prefix of [s] made of units in the class [p]:
    what a greedy [p*] reads. *)
Fixpoint spanLen (p : N -> bool) (s : jsstring) : nat :=
  match s with
  | [] => O
  | c :: s' => if p c then S (spanLen p s') else O
  end.

(** [s.replace(pattern, '')] for a pattern that ends in [$], [matches]
    telling whether the whole of a string matches it: the match is
    looked for from the left and runs to the end, so the string is cut
    where the first match starts. *)
Fixpoint cutAt (matches : jsstring -> bool) (s : jsstring) : jsstring :=
  if matches s then []
  else match s with
       | [] => []
       | c :: s' => c :: cutAt matches s'
       end.

(** The loop [do { prev = result; result = step(result); }
    while (result !== prev)]; [None] when the fuel is used up before
    the loop exits. *)
Fixpoint untilUnchanged (step : jsstring -> jsstring) (fuel : nat)
    (result : jsstring) : option jsstring :=
  match fuel with
  | O => None
  | S fuel' =>
      let prev := result in
      let result' := step prev in
      if eqb result' prev then Some result' else untilUnchanged step fuel' result'
  end.

(** Property lookup in an object literal used as a table. *)
Fixpoint lookup {A : Type} (k : jsstring) (t : list (jsstring * A)) : option A :=
  match t with
  | [] => None
  | (k', v) :: t' => if eqb k k' then Some v else lookup k t'
  end.

(** Parentheses, ASCII and fullwidth: [[（(]] and [[)）]]. *)
Definition isOpenParen (c : N) : bool := (c =? 0x28) || (c =? 0xFF08).
Definition isCloseParen (c : N) : bool := (c =? 0x29) || (c =? 0xFF09).

End Js.

Import Js.

(* ------------------------------------------------------------------ *)
(** ** Numbers *)
(* ------------------------------------------------------------------ *)

(** The numbers of JavaScript are doubles: binary fractions with 53
    significant bits, and every operation gives the double nearest to
    the exact result, the one with an even last bit when two are as
    near.  A finite double is modelled by the rational number that it
    is; the model covers the magnitudes below [2^1024], where the
    doubles end. *)

Module Double.

(** [2^e] *)
Definition pow2 (e : Z) : Q := (2 ^ e)%Q.

(** The integer nearest to [x], the even one of the two when [x] is
    half way. *)
Definition roundEven (x : Q) : Z :=
  let f := Qfloor x in
  match (x - inject_Z f ?= 1 # 2)%Q with
  | Lt => f
  | Gt => (f + 1)%Z
  | Eq => if Z.even f then f else (f + 1)%Z
  end.

(** For [0 < x], the exponent [e] with [2^e <= x < 2^(e+1)]. *)
Definition exponent (x : Q) : Z :=
  if Qle_bool 1 x then Z.log2 (Qfloor x)
  else (- Z.log2_up (Qceiling (/ x)%Q))%Z.

(** For [0 < x], the double nearest to [x]: a multiple of [2^(e-52)],
    and of [2^-1074] below the normal numbers. *)
Definition nearest (x : Q) : Q :=
  let q := (Z.max (exponent x) (-1022) - 52)%Z in
  Qred (inject_Z (roundEven (x / pow2 q)) * pow2 q)%Q.

Definition round (x : Q) : Q :=
  match (x ?= 0)%Q with
  | Eq => 0%Q
  | Gt => nearest x
  | Lt => (- nearest (- x))%Q
  end.

(** [x + y] and [x / y] on doubles: the exact result, rounded. *)
Definition add (x y : Q) : Q := round (x + y)%Q.
Definition div (x y : Q) : Q := round (x / y)%Q.

(** The double that stands for a whole number. *)
Definition ofN (n : N) : Q := round (inject_Z (Z.of_N n)).

End Double.

(* ------------------------------------------------------------------ *)
(** ** Arrays and Maps *)
(* ------------------------------------------------------------------ *)

Module JsArray.

Section Sort.
Context {A : Type}.

(** The sign of [compareFn(a, b)]: [Lt] when negative ([a] goes first),
    [Gt] when positive. *)
Variable sgn : A -> A -> comparison.

(** [x], which stood before every element of the sorted [l], takes its
    place before the first element it need not follow. *)
Fixpoint insert (x : A) (l : list A) : list A :=
  match l with
  | [] => [x]
  | y :: l' =>
      match sgn x y with
      | Gt => y :: insert x l'
      | _ => x :: y :: l'
      end
  end.

(** [Array.prototype.sort(compareFn)].  The sort is stable (ECMAScript
    2019) and, for a consistent comparator, its result is the one sorted
    arrangement that keeps ties in their order: the one insertion
    builds. *)
Definition sort (l : list A) : list A := fold_right insert [] l.

End Sort.

(** [arr.forEach((x, idx) => ...)]: the elements with their indices. *)
Definition indexed {A : Type} (l : list A) : list (nat * A) :=
  combine (seq 0 (List.length l)) l.

(** [arr.slice(1)] *)
Definition slice1 {A : Type} (l : list A) : list A := tl l.

End JsArray.

Module JsMap.

Section Map.
Context {K V : Type}.
Variable keqb : K -> K -> bool.

(** [if (!m.has(k)) m.set(k, []); m.get(k).push(v)] on a Map whose
    entries are kept in insertion order. *)
Fixpoint push (k : K) (v : V) (m : list (K * list V)) : list (K * list V) :=
  match m with
  | [] => [(k, [v])]
  | (k', vs) :: m' =>
      if keqb k k' then (k', vs ++ [v]) :: m'
      else (k', vs) :: push k v m'
  end.

(** [m.get(k)] *)
Fixpoint get (k : K) (m : list (K * list V)) : option (list V) :=
  match m with
  | [] => None
  | (k', vs) :: m' => if keqb k k' then Some vs else get k m'
  end.

(** The elements of [l] that go under the key [k]. *)
Definition keyIs (key : V -> option K) (k : K) (v : V) : bool :=
  match key v with Some k' => keqb k' k | None => false end.

(** The Map built by a [forEach] that pushes each element with a key
    under it and passes the others. *)
Definition groupBy (key : V -> option K) (l : list V) : list (K * list V) :=
  fold_left
    (fun m v => match key v with Some k => push k v m | None => m end)
    l [].

End Map.

(** [set.add(x)] on a Set of strings kept in insertion order. *)
Definition setAdd (x : jsstring) (s : list jsstring) : list jsstring :=
  if existsb (eqb x) s then s else s ++ [x].

End JsMap.

(* ------------------------------------------------------------------ *)
(** ** The path functions of Node (POSIX) *)
(* ------------------------------------------------------------------ *)

Module Path.

Definition slash : N := 0x2F.
Definition dot : N := 0x2E.

Definition isSlash (c : N) : bool := c =? slash.

Definition dropTrailingSlashes (p : jsstring) : jsstring :=
  rev (skipn (spanLen isSlash (rev p)) (rev p)).

(** The units after the last slash of [p], read from the left: [cur]
    holds the component being read, reversed. *)
Fixpoint lastComponentAux (p cur : jsstring) : jsstring :=
  match p with
  | [] => rev cur
  | c :: p' => if isSlash c then lastComponentAux p' [] else lastComponentAux p' (c :: cur)
  end.

(** [path.basename(p)]: the last portion of the path, trailing
    separators being ignored. *)
Definition basename (p : jsstring) : jsstring :=
  lastComponentAux (dropTrailingSlashes p) [].

(** Index of the last unit of [s] in the class [f], if any. *)
Fixpoint lastIndexAux (f : N -> bool) (s : jsstring) (i : nat)
    (found : option nat) : option nat :=
  match s with
  | [] => found
  | c :: s' => lastIndexAux f s' (S i) (if f c then Some i else found)
  end.

Definition lastIndex (f : N -> bool) (s : jsstring) : option nat :=
  lastIndexAux f s O None.

(** [path.extname(p)]: from the last dot of the last portion to its end;
    empty when there is no dot, when the only dot is the first unit of
    the portion, and for the portion [..]. *)
Definition extname (p : jsstring) : jsstring :=
  let c := basename p in
  match lastIndex (N.eqb dot) c with
  | None => []
  | Some O => []
  | Some (S i) => if eqb c [dot; dot] then [] else skipn (S i) c
  end.

Definition endsWith (suffix s : jsstring) : bool :=
  startsWith (rev suffix) (rev s).

(** [path.basename(p, ext)]: the last portion without its ending [ext];
    a portion equal to [ext] is kept whole, and a path equal to [ext]
    gives the empty string. *)
Definition basenameExt (p ext : jsstring) : jsstring :=
  let c := basename p in
  if eqb ext p then []
  else if truthy ext && endsWith ext c && negb (eqb ext c)
  then firstn (List.length c - List.length ext) c
  else c.

(** [path.dirname(p)]: the path up to the last separator before the last
    portion; [.] when there is none and [/] when that separator is the
    first unit. *)
Definition dirname (p : jsstring) : jsstring :=
  let q := dropTrailingSlashes p in
  match lastIndex isSlash q with
  | None => match p with c :: _ => if isSlash c then [slash] else [dot] | [] => [dot] end
  | Some O => [slash]
  | Some (S i) => firstn (S i) q
  end.

(** [path.join(dir, file)] for a normalised directory [dir], as
    [dirname] gives for the paths that [findAllFiles] builds, and a
    file name without separator. *)
Definition join (dir file : jsstring) : jsstring :=
  if eqb dir [dot] then file
  else if endsWith [slash] dir then dir ++ file
  else dir ++ [slash] ++ file.

End Path.

(* ------------------------------------------------------------------ *)
(** ** check_duplicates_enhanced.js: strings *)
(* ------------------------------------------------------------------ *)

Module Enhanced.

Definition DESCRIPTIVE_SUFFIXES : list jsstring := Eval vm_compute in
  map js
    ["live"; "remix"; "mix"; "cover"; "demo"; "acoustic"; "instrumental";
     "dj"; "伴奏"; "演唱会"; "现场"; "版"; "大合唱"; "合唱"; "独唱";
     "钢琴版"; "吉他版"; "纯音乐"; "karaoke"; "ktv"; "radio edit";
     "remaster"; "remastered"; "bonus"; "edit"; "extended"; "short";
     "蛰伏"; "国语"; "粤语"; "日语"; "英语"; "翻唱"]%string.

(** The table of traditional and simplified characters.  Two keys are
    written twice in the script, with the same value each time. *)
Definition TRAD_TO_SIMP : list (jsstring * jsstring) := Eval vm_compute in
  map (fun p : string * string => (js (fst p), js (snd p)))
    [("齊", "齐"); ("學", "学"); ("華", "华"); ("國", "国"); ("愛", "爱");
     ("戀", "恋"); ("夢", "梦"); ("風", "风"); ("雲", "云"); ("時", "时");
     ("間", "间"); ("東", "东"); ("車", "车"); ("馬", "马"); ("鳥", "鸟");
     ("魚", "鱼"); ("長", "长"); ("門", "门"); ("開", "开"); ("關", "关");
     ("聽", "听"); ("說", "说"); ("話", "话"); ("語", "语"); ("紅", "红");
     ("綠", "绿"); ("藍", "蓝"); ("黃", "黄"); ("頭", "头"); ("臉", "脸");
     ("體", "体"); ("發", "发"); ("無", "无"); ("從", "从"); ("來", "来");
     ("過", "过"); ("裡", "里"); ("頭", "头"); ("葉", "叶"); ("電", "电");
     ("腦", "脑"); ("機", "机"); ("書", "书"); ("畫", "画"); ("詩", "诗");
     ("歌", "歌"); ("聲", "声"); ("響", "响"); ("樂", "乐"); ("東", "东");
     ("見", "见"); ("親", "亲"); ("對", "对"); ("這", "这"); ("裏", "里");
     ("誰", "谁"); ("讓", "让"); ("還", "还"); ("後", "后"); ("隨", "随")]%string.

Definition ROMAN_TO_ARABIC : list (jsstring * jsstring) := Eval vm_compute in
  map (fun p : string * string => (js (fst p), js (snd p)))
    [("VIII", "8"); ("VII", "7"); ("III", "3"); ("II", "2");
     ("IV", "4"); ("VI", "6"); ("IX", "9"); ("V", "5"); ("X", "10");
     ("I", "1")]%string.

(** [TRAD_TO_SIMP[c] || c] *)
Definition simpUnit (c : N) : jsstring :=
  match lookup [c] TRAD_TO_SIMP with
  | Some v => if truthy v then v else [c]
  | None => [c]
  end.

Definition toSimplified (str : jsstring) : jsstring := flat_map simpUnit str.

Definition prevIsLetter (prev : option N) : bool :=
  match prev with Some c => isLetter c | None => false end.

Definition nextIsLetter (s : jsstring) : bool :=
  match s with c :: _ => isLetter c | [] => false end.

(** [str.replace(/(?<![A-Za-z])ROMAN(?![A-Za-z])/gi, rep)]: a scan from
    the left; [prev] is the unit before the position read and [skip] the
    number of units of the last match still to pass. *)
Fixpoint replaceStandalone (roman rep s : jsstring) (prev : option N)
    (skip : nat) : jsstring :=
  match s with
  | [] => []
  | c :: s' =>
      match skip with
      | S k => replaceStandalone roman rep s' (Some c) k
      | O =>
          if negb (prevIsLetter prev) && startsWithCi roman s
             && negb (nextIsLetter (skipn (List.length roman) s))
          then rep ++ replaceStandalone roman rep s' (Some c)
                        (List.length roman - 1)
          else c :: replaceStandalone roman rep s' (Some c) O
      end
  end.

Definition romans : list jsstring := Eval vm_compute in
  map js ["VIII"; "VII"; "III"; "IV"; "VI"; "IX"; "II"; "V"; "X"; "I"]%string.

Definition romanValue (roman : jsstring) : jsstring :=
  match lookup roman ROMAN_TO_ARABIC with Some v => v | None => js "undefined" end.

(** The body of [romans.forEach]. *)
Definition romanStep (result roman : jsstring) : jsstring :=
  replaceStandalone roman (romanValue roman) result None O.

Definition normalizeRomanNumerals (str : jsstring) : jsstring :=
  fold_left romanStep romans str.

(** [[\d\-\.]] and [[\s\.\-]] *)
Definition isTrackUnit (c : N) : bool := isDigit c || (c =? 0x2D) || (c =? 0x2E).
Definition isTrackSep (c : N) : bool := isSpace c || (c =? 0x2E) || (c =? 0x2D).

(** The match of [^A+B+] with greedy quantifiers: [A+] first reads its
    longest run and gives units back one at a time until [B+] can read
    at least one unit.  [j] is the number of units left to [A+]; the
    result is the length of the match. *)
Fixpoint plusPlusFrom (B : N -> bool) (s : jsstring) (j : nat) : option nat :=
  match j with
  | O => None
  | S j' =>
      match spanLen B (skipn j s) with
      | O => plusPlusFrom B s j'
      | S k => Some (j + S k)%nat
      end
  end.

Definition matchPlusPlus (A B : N -> bool) (s : jsstring) : option nat :=
  plusPlusFrom B s (spanLen A s).

(** [/^\d+\./] *)
Definition matchDigitsDot (s : jsstring) : option nat :=
  match spanLen isDigit s with
  | O => None
  | S k =>
      match skipn (S k) s with
      | c :: _ => if c =? 0x2E then Some (S (S k)) else None
      | [] => None
      end
  end.

Definition dropMatch (m : option nat) (s : jsstring) : jsstring :=
  match m with Some n => skipn n s | None => s end.

Definition removeTrackNumber (name : jsstring) : jsstring :=
  let name1 := dropMatch (matchPlusPlus isTrackUnit isTrackSep name) name in
  dropMatch (matchDigitsDot name1) name1.

(** [[^)）]*[)）]$] *)
Fixpoint closesAtEnd (s : jsstring) : bool :=
  match s with
  | [] => false
  | [c] => isCloseParen c
  | c :: s' => negb (isCloseParen c) && closesAtEnd s'
  end.

(** The whole of [s] matches
    [\s*[（(]\s*(live|remix|...)[^)）]*[)）]$] under the [i] flag.  The
    unit after each [\s*] is not white space, so the star reads all the
    white space there is. *)
Definition suffixMatches (s : jsstring) : bool :=
  match trimStart s with
  | [] => false
  | c :: s1 =>
      isOpenParen c &&
      (let s2 := trimStart s1 in
       existsb
         (fun word => startsWithCi word s2
                      && closesAtEnd (skipn (List.length word) s2))
         DESCRIPTIVE_SUFFIXES)
  end.

(** [result.replace(suffixPattern, '')] *)
Definition replaceSuffix (s : jsstring) : jsstring := cutAt suffixMatches s.

(** The loop that takes the suffixes off, one at each round. *)
Definition suffixLoop (fuel : nat) (result : jsstring) : option jsstring :=
  untilUnchanged replaceSuffix fuel result.

Definition removeDescriptiveSuffix (name : jsstring) : jsstring :=
  trim (match suffixLoop (S (List.length name)) name with
        | Some result => result
        | None => name
        end).

Record songInfo := mkSongInfo {
  si_artist : jsstring;
  si_title : jsstring;
  si_original : jsstring
}.

(** [!/^\d+$/.test(possibleArtist) && possibleArtist.length > 0] *)
Definition looksLikeArtist (possibleArtist : jsstring) : bool :=
  negb (allDigits possibleArtist) && truthy possibleArtist.

(** The split of [nameNoExt] at the first [sep]: artist and title when
    the first part looks like an artist. *)
Definition splitArtistTitle (sep nameNoExt : jsstring) : jsstring * jsstring :=
  match indexOf sep nameNoExt with
  | Some idx =>
      let possibleArtist := trim (substringTo idx nameNoExt) in
      let possibleTitle := trim (substringFrom (idx + List.length sep) nameNoExt) in
      if looksLikeArtist possibleArtist
      then (possibleArtist, possibleTitle)
      else ([], nameNoExt)
  | None => ([], nameNoExt)
  end.

(** [defaultArtist || 'Unknown'] *)
Definition orUnknown (defaultArtist : option jsstring) : jsstring :=
  match defaultArtist with
  | Some a => if truthy a then a else js "Unknown"
  | None => js "Unknown"
  end.

Definition parseSongInfo (fileName : jsstring) (defaultArtist : option jsstring)
    : songInfo :=
  let ext := Path.extname fileName in
  let nameNoExt := removeTrackNumber (Path.basenameExt fileName ext) in
  let '(artist, title) :=
    if includes (js " - ") nameNoExt
    then splitArtistTitle (js " - ") nameNoExt
    else if includes (js "-") nameNoExt && negb (startsWith (js "-") nameNoExt)
    then splitArtistTitle (js "-") nameNoExt
    else ([], nameNoExt) in
  let title := removeDescriptiveSuffix title in
  let artist := if truthy artist then artist else orUnknown defaultArtist in
  mkSongInfo artist title fileName.

(** [[、&,\/×x]] under the [i] flag. *)
Definition isCollabUnit (c : N) : bool :=
  (c =? 0x3001) || (c =? 0x26) || (c =? 0x2C) || (c =? 0x2F) || (c =? 0xD7)
  || ciEqb 0x78 c.

(** [word\.?\s+] or, without [dotted], [word\s+], read at the head of
    [s]: the length of the match. *)
Definition matchWordSpaces (word : jsstring) (dotted : bool) (s : jsstring)
    : option nat :=
  if startsWithCi word s then
    let r := skipn (List.length word) s in
    let d := match r with
             | c :: _ => if dotted && (c =? 0x2E) then 1%nat else O
             | [] => O
             end in
    match spanLen isSpace (skipn d r) with
    | O => None
    | S k => Some (List.length word + d + S k)%nat
    end
  else None.

Definition orElse {A : Type} (a b : option A) : option A :=
  match a with Some _ => a | None => b end.

(** A match of [COLLABORATION_SEPARATORS] at the head of [s]: its
    length.  The alternatives are tried in the order of the pattern. *)
Definition matchCollabSep (s : jsstring) : option nat :=
  match s with
  | [] => None
  | c :: _ =>
      if isCollabUnit c then Some 1%nat
      else
        match spanLen isSpace s with
        | O => None
        | S k =>
            let r := skipn (S k) s in
            option_map (fun n => (S k + n)%nat)
              (orElse (matchWordSpaces (js "feat") true r)
                 (orElse (matchWordSpaces (js "ft") true r)
                    (matchWordSpaces (js "with") false r)))
        end
  end.

(** [fileArtist.split(COLLABORATION_SEPARATORS)] *)
Fixpoint splitCollabAux (s cur : jsstring) (skip : nat) : list jsstring :=
  match s with
  | [] => [rev cur]
  | c :: s' =>
      match skip with
      | S k => splitCollabAux s' cur k
      | O =>
          match matchCollabSep s with
          | Some n => rev cur :: splitCollabAux s' [] (n - 1)
          | None => splitCollabAux s' (c :: cur) O
          end
      end
  end.

Definition splitCollab (s : jsstring) : list jsstring := splitCollabAux s [] O.

Definition artistMatches (fileArtist dirArtist : jsstring) : bool :=
  if negb (truthy fileArtist) || negb (truthy dirArtist) then false
  else
    let normFile := toSimplified (stripSpaces (toLowerCase fileArtist)) in
    let normDir := toSimplified (stripSpaces (toLowerCase dirArtist)) in
    if eqb normFile normDir then true
    else
      let collaborators :=
        filter truthy
          (map (fun s => toSimplified (stripSpaces (toLowerCase (trim s))))
               (splitCollab fileArtist)) in
      existsb
        (fun c => eqb c normDir || includes normDir c || includes c normDir)
        collaborators.

(** The title half of the key. *)
Definition normTitle (title : jsstring) : jsstring :=
  stripSpaces (toLowerCase (normalizeRomanNumerals (toSimplified title))).

Definition normArtist (finalArtist : jsstring) : jsstring :=
  stripSpaces (toLowerCase (toSimplified finalArtist)).

Definition getSongKey (artist title dirArtist : jsstring) : jsstring :=
  let finalArtist := if artistMatches artist dirArtist then dirArtist else artist in
  normArtist finalArtist ++ js "|" ++ normTitle title.

(** The title half of the key of a title as it stands in a file name:
    [parseSongInfo] takes the descriptive suffix off and [getSongKey]
    folds what is left. *)
Definition titleKey (rawTitle : jsstring) : jsstring :=
  normTitle (removeDescriptiveSuffix rawTitle).

End Enhanced.

(* ------------------------------------------------------------------ *)
(** ** check_duplicates_enhanced.js: scoring, classification, script *)
(* ------------------------------------------------------------------ *)

Module EnhancedRun.
Import Enhanced.

Record fileInfo := mkFileInfo {
  path : jsstring;
  name : jsstring;
  size : N;
  artist : jsstring;
  title : jsstring;
  key : jsstring;
  lrcPath : option jsstring
}.

Definition tradBlacklist : jsstring := Eval vm_compute in
  js "齊學華國愛戀夢風雲時間東車馬鳥魚長門開關聽說話語紅綠藍黃頭臉體發無從來過".

(** [/[...]/.test(name)] *)
Definition hasTraditional (name : jsstring) : bool :=
  existsb (fun c => includesUnit c tradBlacklist) name.

(** [/\.ext$/i.test(name)] *)
Definition endsWithCi (ext name : jsstring) : bool :=
  startsWithCi (rev ext) (rev name).

(** [fileInfo.size / 1024 / 1024], the size being the double that
    [fs.statSync] gives. *)
Definition sizeMB (size : N) : Q :=
  Double.div (Double.div (Double.ofN size) 1024) 1024.

(** The score is a sum of doubles, each [+=] rounding its result. *)
Definition getScore (fileInfo : fileInfo) : Q :=
  let name := name fileInfo in
  let score := 0%Q in
  let score := if includes (js " - ") name then Double.add score 100 else score in
  let score := if negb (hasTraditional name) then Double.add score 20 else score in
  let score := if 0 <? size fileInfo
               then Double.add score (sizeMB (size fileInfo)) else score in
  let score := if endsWithCi (js ".flac") name then Double.add score 50 else score in
  let score := if endsWithCi (js ".ape") name then Double.add score 40 else score in
  let score := if endsWithCi (js ".wav") name then Double.add score 30 else score in
  score.

(** The sign of [getScore(b) - getScore(a)].  The difference of two
    doubles has the sign of their exact difference: it rounds to zero
    only when it is zero. *)
Definition byScore (a b : fileInfo) : comparison :=
  (getScore b - getScore a ?= 0)%Q.

Definition sortFiles (files : list fileInfo) : list fileInfo :=
  JsArray.sort byScore files.

(** [lrcIndex.has(p)] *)
Definition has (lrcIndex : list jsstring) (p : jsstring) : bool :=
  existsb (eqb p) lrcIndex.

Definition findAssociatedLrc (audioPath : jsstring) (lrcIndex : list jsstring)
    : option jsstring :=
  let dir := Path.dirname audioPath in
  let baseName := Path.basenameExt audioPath (Path.extname audioPath) in
  let lrcPath := Path.join dir (baseName ++ js ".lrc") in
  if has lrcIndex lrcPath then Some lrcPath else None.

(** The units that [safeDirName] replaces by [_]: slash, backslash,
    colon, star, question mark, double quote, angle brackets and bar. *)
Definition isUnsafeUnit (c : N) : bool :=
  (c =? 0x2F) || (c =? 0x5C) || (c =? 0x3A) || (c =? 0x2A) || (c =? 0x3F)
  || (c =? 0x22) || (c =? 0x3C) || (c =? 0x3E) || (c =? 0x7C).

Definition safeDirName (name : jsstring) : jsstring :=
  firstn 50 (map (fun c => if isUnsafeUnit c then 0x5F else c) name).

(** An audio file as the scan finds it: its path and [stat.size]. *)
Record audioFile := mkAudioFile {
  af_path : jsstring;
  af_size : N
}.

Record exactDup := mkExactDup {
  ed_hash : jsstring;
  ed_size : N;
  ed_files : list fileInfo
}.

Record semanticDup := mkSemanticDup {
  sd_key : jsstring;
  sd_files : list fileInfo
}.

Section Run.

(** [getFileHash]: the MD5 of the file at a path, [None] for the [null]
    of a failed read.  No file is written before every hash is taken. *)
Variable getFileHash : jsstring -> option jsstring.

(** [path.relative(targetDir, p)] *)
Variable relative : jsstring -> jsstring -> jsstring.

(** [new Date().toLocaleString()] *)
Variable now : jsstring.

Variable targetDir : jsstring.

Definition dirArtist : jsstring := Path.basename targetDir.

Definition preprocess (lrcIndex : list jsstring) (f : audioFile) : fileInfo :=
  let songInfo := parseSongInfo (Path.basename (af_path f)) (Some dirArtist) in
  let lrcPath := findAssociatedLrc (af_path f) lrcIndex in
  mkFileInfo (af_path f) (Path.basename (af_path f)) (af_size f)
    (si_artist songInfo) (si_title songInfo)
    (getSongKey (si_artist songInfo) (si_title songInfo) dirArtist)
    lrcPath.

(** *** A. exact duplicates *)

Definition sizeMap (fileInfos : list fileInfo) : list (N * list fileInfo) :=
  JsMap.groupBy N.eqb (fun f => Some (size f)) fileInfos.

Definition sizeGroups (fileInfos : list fileInfo) : list (N * list fileInfo) :=
  filter (fun e => (1 <? List.length (snd e))%nat && (0 <? fst e))
         (sizeMap fileInfos).

(** [const hash = getFileHash(f.path); if (hash) ...] *)
Definition hashOf (f : fileInfo) : option jsstring :=
  match getFileHash (path f) with
  | Some hash => if truthy hash then Some hash else None
  | None => None
  end.

Definition exactOfGroup (e : N * list fileInfo) : list exactDup :=
  let hashMap := JsMap.groupBy eqb hashOf (snd e) in
  flat_map
    (fun h => if (1 <? List.length (snd h))%nat
              then [mkExactDup (fst h) (fst e) (snd h)] else [])
    hashMap.

Definition exactDuplicates (fileInfos : list fileInfo) : list exactDup :=
  flat_map exactOfGroup (sizeGroups fileInfos).

(** The Set [exactDupPaths], as the list of the paths added. *)
Definition exactDupPaths (exact : list exactDup) : list jsstring :=
  flat_map (fun d => map path (ed_files d)) exact.

(** *** B. semantic duplicates *)

Definition songMap (fileInfos : list fileInfo) : list (jsstring * list fileInfo) :=
  JsMap.groupBy eqb
    (fun f => if truthy (title f) && truthy (key f) then Some (key f) else None)
    fileInfos.

(** [exactDuplicates.find(e => e.files.some(ef => ef.path === f.path))] *)
Definition exactGroupOf (exact : list exactDup) (f : fileInfo) : option exactDup :=
  find (fun e => existsb (fun ef => eqb (path ef) (path f)) (ed_files e)) exact.

Definition uniqueHashes (exact : list exactDup) (group : list fileInfo)
    : list jsstring :=
  fold_left
    (fun set f => match exactGroupOf exact f with
                  | Some ed => JsMap.setAdd (ed_hash ed) set
                  | None => set
                  end)
    group [].

Definition allInExact (exact : list exactDup) (group : list fileInfo) : bool :=
  forallb (fun f => existsb (eqb (path f)) (exactDupPaths exact)) group.

(** A group of the song Map is passed over ([continue]) when all its
    files are exact duplicates under one hash. *)
Definition skipped (exact : list exactDup) (group : list fileInfo) : bool :=
  allInExact exact group
  && (List.length (uniqueHashes exact group) <=? 1)%nat.

Definition semanticDuplicates (exact : list exactDup) (fileInfos : list fileInfo)
    : list semanticDup :=
  flat_map
    (fun e => if (1 <? List.length (snd e))%nat
              then if skipped exact (snd e) then []
                   else [mkSemanticDup (fst e) (snd e)]
              else [])
    (songMap fileInfos).

(** *** C. the report sorts every group in place *)

Definition sortExact (d : exactDup) : exactDup :=
  mkExactDup (ed_hash d) (ed_size d) (sortFiles (ed_files d)).

Definition sortSemantic (d : semanticDup) : semanticDup :=
  mkSemanticDup (sd_key d) (sortFiles (sd_files d)).

(** *** D. the clean-up script *)

Definition quote : jsstring := [0x22].

(** [String(n).padStart(3, '0')] *)
Definition pad3 (n : nat) : jsstring :=
  let d := js (NilEmpty.string_of_uint (Nat.to_uint n)) in
  repeat 0x30 (3 - List.length d) ++ d.

Definition tempDir : jsstring := js "_duplicates_temp".

Definition mkdirLine (groupDir : jsstring) : jsstring :=
  js "mkdir -p " ++ quote ++ js "./" ++ groupDir ++ quote.

Definition mvLine (relPath groupDir : jsstring) : jsstring :=
  js "mv " ++ quote ++ js "./" ++ relPath ++ quote ++ js " " ++ quote
  ++ js "./" ++ groupDir ++ js "/" ++ quote ++ js " 2>/dev/null || true".

(** The lines of one file to move: the file, then its lyric file. *)
Definition moveLines (groupDir : jsstring) (f : fileInfo) : list jsstring :=
  mvLine (relative targetDir (path f)) groupDir
  :: match lrcPath f with
     | Some lrc =>
         if truthy lrc then [mvLine (relative targetDir lrc) groupDir] else []
     | None => []
     end.

Definition groupNo (idx : nat) : jsstring :=
  js "# [组 " ++ js (NilEmpty.string_of_uint (Nat.to_uint (idx + 1))) ++ js "] ".

Definition exactGroupDir (idx : nat) : jsstring :=
  tempDir ++ js "/exact/group_" ++ pad3 (idx + 1).

Definition exactLines (e : nat * exactDup) : list jsstring :=
  let idx := fst e in
  let files := sortFiles (ed_files (snd e)) in
  let groupDir := exactGroupDir idx in
  let heading :=
    match files with
    | f :: _ => if truthy (title f) then title f else js "Unknown"
    | [] => js "undefined"
    end in
  [groupNo idx ++ heading; mkdirLine groupDir]
  ++ flat_map (moveLines groupDir) (JsArray.slice1 files)
  ++ [[]].

(** [d.key.split('|')], the element at [i]; a missing element prints as
    [undefined]. *)
Definition keyPart (i : nat) (key : jsstring) : jsstring :=
  nth i (split (js "|") key) (js "undefined").

Definition semanticGroupDir (idx : nat) (key : jsstring) : jsstring :=
  tempDir ++ js "/semantic/group_" ++ pad3 (idx + 1) ++ js "_"
  ++ safeDirName (keyPart 1 key).

Definition semanticLines (e : nat * semanticDup) : list jsstring :=
  let idx := fst e in
  let files := sortFiles (sd_files (snd e)) in
  let groupDir := semanticGroupDir idx (sd_key (snd e)) in
  [groupNo idx ++ keyPart 0 (sd_key (snd e)) ++ js " - "
     ++ keyPart 1 (sd_key (snd e));
   mkdirLine groupDir]
  ++ flat_map (moveLines groupDir) (JsArray.slice1 files)
  ++ [[]].

Definition rule : jsstring := js "# ═══════════════════════════════════════".

Definition scriptLines (exact : list exactDup) (semantic : list semanticDup)
    : list jsstring :=
  [js "#!/bin/bash";
   js "# 重复文件清理脚本 (自动生成)";
   js "# 生成时间: " ++ now;
   js "# 扫描目录: " ++ targetDir;
   js "#";
   js "# ⚠️  此脚本将文件移动到 _duplicates_temp 目录，不会删除";
   js "# 请检查后手动删除临时目录";
   [];
   js "set -e";
   [];
   js "cd " ++ quote ++ targetDir ++ quote;
   []]
  ++ (match exact with
      | [] => []
      | _ :: _ =>
          [rule; js "# 完全重复 (内容完全相同)"; rule; []]
          ++ flat_map exactLines (JsArray.indexed exact)
      end)
  ++ (match semantic with
      | [] => []
      | _ :: _ =>
          [rule; js "# 语义重复 (同名歌曲不同版本)"; rule; []]
          ++ flat_map semanticLines (JsArray.indexed semantic)
      end)
  ++ [js "echo " ++ quote ++ quote;
      js "echo " ++ quote ++ js "✅ 清理完成！" ++ quote;
      js "echo " ++ quote ++ js "📁 重复文件已移动到: " ++ tempDir ++ quote;
      js "echo " ++ quote ++ js "请检查后手动删除临时目录" ++ quote].

(** What a run leaves: the two lists of groups, sorted by the report,
    and the lines of the script when one is written. *)
Record outcome := mkOutcome {
  o_exact : list exactDup;
  o_semantic : list semanticDup;
  o_script : option (list jsstring)
}.

Definition run (audioFiles : list audioFile) (lrcIndex : list jsstring) : outcome :=
  match audioFiles with
  | [] => mkOutcome [] [] None
  | _ :: _ =>
      let fileInfos := map (preprocess lrcIndex) audioFiles in
      let exact := exactDuplicates fileInfos in
      let semantic := semanticDuplicates exact fileInfos in
      let exact := map sortExact exact in
      let semantic := map sortSemantic semantic in
      match exact, semantic with
      | [], [] => mkOutcome exact semantic None
      | _, _ => mkOutcome exact semantic (Some (scriptLines exact semantic))
      end
  end.

End Run.

End EnhancedRun.

(* ------------------------------------------------------------------ *)
(** ** check_duplicates_utils.js *)
(* ------------------------------------------------------------------ *)

Module Utils.

Record songInfo := mkSongInfo {
  si_artist : jsstring;
  si_title : jsstring;
  si_original : jsstring
}.

(** [/^(\d+[\.\-]?\s+)/]: the length of the match. *)
Definition matchTrackPrefix (s : jsstring) : option nat :=
  match spanLen isDigit s with
  | O => None
  | S k =>
      let r := skipn (S k) s in
      let o := match r with
               | c :: _ => if (c =? 0x2E) || (c =? 0x2D) then 1%nat else O
               | [] => O
               end in
      match spanLen isSpace (skipn o r) with
      | O => None
      | S w => Some (S k + o + S w)%nat
      end
  end.

(** The two replacements that take the number off the head of the name. *)
Definition stripTrackPrefix (nameNoExt : jsstring) : jsstring :=
  let n1 := Enhanced.dropMatch (matchTrackPrefix nameNoExt) nameNoExt in
  Enhanced.dropMatch (Enhanced.matchDigitsDot n1) n1.

(** [(.+?)[)）]$] read on the whole of [s]: the units before the closing
    parenthesis that ends [s], when there is one at least and none is a
    line terminator. *)
Definition matchInner (s : jsstring) : option jsstring :=
  match rev s with
  | c :: (_ :: _) as m =>
      if isCloseParen c && forallb (fun x => negb (isLineTerminator x)) m
      then Some (rev m) else None
  | _ => None
  end.

(** [nameNoExt.match(/^(.+?)[（(](.+?)[)）]$/)]: the two groups.  The
    first group is lazy: it grows, from one unit, until the rest of the
    pattern matches; [pre] holds it reversed. *)
Fixpoint matchTitleArtist (pre s : jsstring) : option (jsstring * jsstring) :=
  match s with
  | [] => None
  | c :: s' =>
      match (if truthy pre && isOpenParen c then matchInner s' else None) with
      | Some inner => Some (rev pre, inner)
      | None =>
          if isLineTerminator c then None else matchTitleArtist (c :: pre) s'
      end
  end.

Definition tags : list jsstring := Eval vm_compute in
  map js ["Live"; "Mix"; "Remix"; "Cover"; "DJ"; "伴奏"; "演唱会"; "版"]%string.

(** The whole of [s] matches
    [[（(](Live|Mix|Remix|Cover|DJ|伴奏|演唱会|版)[)）]$] under the [i] flag. *)
Definition tagMatches (s : jsstring) : bool :=
  match s with
  | [] => false
  | c :: r =>
      isOpenParen c &&
      existsb
        (fun word =>
           startsWithCi word r &&
           match skipn (List.length word) r with
           | [x] => isCloseParen x
           | _ => false
           end)
        tags
  end.

(** [suffixRegex.test(title)] *)
Fixpoint hasTag (s : jsstring) : bool :=
  tagMatches s || match s with [] => false | _ :: s' => hasTag s' end.

(** [title.replace(suffixRegex, '')] *)
Definition replaceTag (s : jsstring) : jsstring := cutAt tagMatches s.

(** [defaultArtist ? defaultArtist : 'Unknown'] *)
Definition orUnknown (defaultArtist : option jsstring) : jsstring :=
  match defaultArtist with
  | Some a => if truthy a then a else js "Unknown"
  | None => js "Unknown"
  end.

(** The artist and the title that the three patterns read, each empty
    when not read. *)
Definition readPatterns (nameNoExt : jsstring) : jsstring * jsstring :=
  if includes (js " - ") nameNoExt then
    match split (js " - ") nameNoExt with
    | p0 :: p1 :: _ => (trim p0, trim p1)
    | _ => ([], [])
    end
  else if includes (js "-") nameNoExt then
    match split (js "-") nameNoExt with
    | p0 :: p1 :: _ => (trim p0, trim p1)
    | _ => ([], [])
    end
  else if existsb isOpenParen nameNoExt && existsb isCloseParen nameNoExt then
    match matchTitleArtist [] nameNoExt with
    | Some (t, a) => (trim a, trim t)
    | None => ([], [])
    end
  else ([], []).

Definition parseSongInfo (fileName : jsstring) (defaultArtist : option jsstring)
    : songInfo :=
  let ext := Path.extname fileName in
  let nameNoExt := stripTrackPrefix (Path.basenameExt fileName ext) in
  let '(artist, title) := readPatterns nameNoExt in
  let title := if truthy title then title else nameNoExt in
  let title := if hasTag title then trim (replaceTag title) else title in
  let artist :=
    if negb (truthy artist) || eqb (toLowerCase artist) (js "unknown")
    then orUnknown defaultArtist
    else artist in
  mkSongInfo artist title fileName.

Record fileInfo := mkFileInfo {
  path : jsstring;
  size : N;
  name : jsstring
}.

Definition getScore (fileInfo : fileInfo) : Q :=
  let name := Path.basename (path fileInfo) in
  let score := 0%Q in
  let score := if includes (js " - ") name then Double.add score 100 else score in
  let score := if includes (js "爱") name && negb (includes (js "愛") name)
               then Double.add score 10 else score in
  let score := if includes (js "亲") name && negb (includes (js "親") name)
               then Double.add score 10 else score in
  let score := if 0 <? size fileInfo
               then Double.add score (EnhancedRun.sizeMB (size fileInfo))
               else score in
  score.

Definition byScore (a b : fileInfo) : comparison :=
  (getScore b - getScore a ?= 0)%Q.

End Utils.

(* ------------------------------------------------------------------ *)
(** ** test_song_key.js *)
(* ------------------------------------------------------------------ *)

Module SongKey.

(** [[^\]]*\]\s*$] *)
Fixpoint bracketCloses (s : jsstring) : bool :=
  match s with
  | [] => false
  | c :: s' => if c =? 0x5D then forallb isSpace s' else bracketCloses s'
  end.

(** The whole of [s] matches [\s*\[[^\]]*\]\s*$]. *)
Definition bracketMatches (s : jsstring) : bool :=
  match trimStart s with
  | [] => false
  | c :: r => (c =? 0x5B) && bracketCloses r
  end.

(** [[^)）]*[)）]\s*$] *)
Fixpoint parenCloses (s : jsstring) : bool :=
  match s with
  | [] => false
  | c :: s' => if isCloseParen c then forallb isSpace s' else parenCloses s'
  end.

(** The whole of [s] matches the pattern of the parenthesised suffix:
    white space, an opening parenthesis, white space, a group that is a
    starred class, then [[^)）]*[)）]\s*$].  The class of the group holds
    no closing parenthesis, so all that stands between the parentheses
    is any run of units that are not closing parentheses. *)
Definition parenMatches (s : jsstring) : bool :=
  match trimStart s with
  | [] => false
  | c :: r => isOpenParen c && parenCloses r
  end.

(** One round of the loop. *)
Definition stripOnce (result : jsstring) : jsstring :=
  cutAt parenMatches (cutAt bracketMatches result).

Definition suffixLoop (fuel : nat) (result : jsstring) : option jsstring :=
  untilUnchanged stripOnce fuel result.

Definition removeDescriptiveSuffix (name : jsstring) : jsstring :=
  trim (match suffixLoop (S (List.length name)) name with
        | Some result => result
        | None => name
        end).

Section Key.

(** The converter of opencc-js, from Hong Kong traditional to mainland
    simplified characters. *)
Variable converter : jsstring -> jsstring.

Definition toSimplified (str : jsstring) : jsstring := converter str.

Definition getSongKey (trackName : jsstring) : jsstring :=
  let normalized := trackName in
  let normalized := removeDescriptiveSuffix normalized in
  let normalized := toSimplified normalized in
  stripSpaces (toLowerCase normalized).

End Key.

End SongKey.

(* ------------------------------------------------------------------ *)
(** ** check_duplicates.js: ranking and the isolation script *)
(* ------------------------------------------------------------------ *)

Module Checker.

Record musicFile := mkMusicFile {
  originalName : jsstring;
  fullPath : jsstring;
  size : N
}.

(** The positions of [s] where [p] starts, counted from [pos]: what the
    loop on [indexOf(p, pos + 1)] visits. *)
Fixpoint allIndexOf (p s : jsstring) (pos : nat) : list nat :=
  (if startsWith p s then [pos] else [])
  ++ match s with
     | [] => []
     | _ :: s' => allIndexOf p s' (S pos)
     end.

Definition exclusions : list jsstring := Eval vm_compute in
  map js
    ["long live"; "live forever"; "live it up"; "love live";
     "live your life"; "live my life"; "live for"; "live a lie";
     "live to tell"; "live and let die"; "live wire"; "live high";
     "live like"]%string.

(** The ranges [start, end) that the phrases of the white list take. *)
Definition blockedRanges (lowerName : jsstring) : list (nat * nat) :=
  flat_map
    (fun ex => map (fun pos => (pos, pos + List.length ex)%nat)
                   (allIndexOf ex lowerName O))
    exclusions.

(** [mid >= range.start && mid < range.end] with [mid = (start + end) / 2],
    both sides doubled. *)
Definition isBlocked (ranges : list (nat * nat)) (start end_ : nat) : bool :=
  existsb
    (fun range => (2 * fst range <=? start + end_)%nat
                  && (start + end_ <? 2 * snd range)%nat)
    ranges.

Definition cnKeywords : list jsstring := Eval vm_compute in
  map js ["现场"; "演唱会"; "演出"; "音乐会"]%string.

Definition enKeywords : list jsstring := Eval vm_compute in
  map js ["live"; "concert"; "tour"; "unplugged"; "demo"]%string.

(** [[a-z0-9]] under the [i] flag. *)
Definition isAlnum (c : N) : bool := isLetter c || isDigit c.

(** A keyword followed by [(?:$|[^a-z0-9])], read at the head of [s]:
    the length of the keyword and the length of the match. *)
Definition matchKeyword (s : jsstring) : option (nat * nat) :=
  match find (fun kw => startsWithCi kw s) enKeywords with
  | Some kw =>
      match skipn (List.length kw) s with
      | [] => Some (List.length kw, List.length kw)
      | c :: _ => if isAlnum c then None
                  else Some (List.length kw, S (List.length kw))
      end
  | None => None
  end.

(** The match of the whole pattern at the position [pos] of the name,
    [s] being the rest of the name from there: the place of the keyword
    in the name, its length, and the length of the match. *)
Definition matchLiveAt (s : jsstring) (pos : nat) : option (nat * nat * nat) :=
  let atStart :=
    match pos with
    | O => option_map (fun m => (pos, fst m, snd m)) (matchKeyword s)
    | S _ => None
    end in
  match atStart with
  | Some m => Some m
  | None =>
      match s with
      | c :: s' =>
          if isAlnum c then None
          else option_map (fun m => (S pos, fst m, S (snd m))) (matchKeyword s')
      | [] => None
      end
  end.

(** The loop on [pattern.exec(lowerName)]: [skip] counts the units of
    the last match still to pass. *)
Fixpoint scanKeywords (ranges : list (nat * nat)) (s : jsstring) (pos skip : nat)
    : bool :=
  match s with
  | [] => false
  | _ :: s' =>
      match skip with
      | S k => scanKeywords ranges s' (S pos) k
      | O =>
          match matchLiveAt s pos with
          | Some (realStart, len, matched) =>
              if negb (isBlocked ranges realStart (realStart + len)) then true
              else scanKeywords ranges s' (S pos) (matched - 1)
          | None => scanKeywords ranges s' (S pos) O
          end
      end
  end.

Definition isLiveVersion (filename : jsstring) : bool :=
  let lowerName := toLowerCase filename in
  let ranges := blockedRanges lowerName in
  if existsb
       (fun kw =>
          existsb (fun pos => negb (isBlocked ranges pos (pos + List.length kw)))
                  (allIndexOf kw lowerName O))
       cnKeywords
  then true
  else scanKeywords ranges lowerName O O.

(** [/(副本|copy|拷贝)/i.test(name)] *)
Fixpoint hasCopy (name : jsstring) : bool :=
  startsWithCi (js "副本") name || startsWithCi (js "copy") name
  || startsWithCi (js "拷贝") name
  || match name with [] => false | _ :: s' => hasCopy s' end.

Definition lengthOf (s : jsstring) : Z := Z.of_nat (List.length s).

(** The comparator of the sort. *)
Definition compareFiles (a b : musicFile) : Z :=
  let isALive := isLiveVersion (originalName a) in
  let isBLive := isLiveVersion (originalName b) in
  if isALive && negb isBLive then 1%Z
  else if negb isALive && isBLive then (-1)%Z
  else if negb (size a =? size b) then (Z.of_N (size b) - Z.of_N (size a))%Z
  else if negb (lengthOf (originalName a) =? lengthOf (originalName b))%Z
  then (lengthOf (originalName a) - lengthOf (originalName b))%Z
  else
    let aHasCopy := hasCopy (originalName a) in
    let bHasCopy := hasCopy (originalName b) in
    if aHasCopy && negb bHasCopy then 1%Z
    else if negb aHasCopy && bHasCopy then (-1)%Z
    else 0%Z.

Definition sgnFiles (a b : musicFile) : comparison :=
  (compareFiles a b ?= 0)%Z.

Definition sortFiles (files : list musicFile) : list musicFile :=
  JsArray.sort sgnFiles files.

Record group := mkGroup {
  cleanName : jsstring;
  files : list musicFile
}.

Definition quote : jsstring := [0x22].

Definition TRASH_DIR_NAME : jsstring := js "_doubles_trash".

(** The shell function that the script defines, line by line. *)
Definition safeMoveLines : list jsstring :=
    [[];
     js "safe_move() {";
     js "    src=" ++ quote ++ js "$1" ++ quote;
     js "    dest_dir=" ++ quote ++ js "$2" ++ quote;
     js "    filename=$(basename " ++ quote ++ js "$src" ++ quote ++ js ")";
     js "    dest=" ++ quote ++ js "$dest_dir/$filename" ++ quote;
     [];
     js "    # 如果目标文件已存在，则添加时间戳后缀";
     js "    if [ -e " ++ quote ++ js "$dest" ++ quote ++ js " ]; then";
     js "        timestamp=$(date +%s)";
     js "        filename=" ++ quote ++ js "${filename%.*}_${timestamp}.${filename##*.}" ++ quote;
     js "        dest=" ++ quote ++ js "$dest_dir/$filename" ++ quote;
     js "    fi";
     [];
     js "    mv " ++ quote ++ js "$src" ++ quote ++ js " " ++ quote ++ js "$dest" ++ quote;
     js "    echo " ++ quote ++ js "Moved: $src -> $dest" ++ quote;
     js "}";
     []].

(** The lines joined by line feeds: the template literal. *)
Definition joinLines (ls : list jsstring) : jsstring :=
  match ls with
  | [] => []
  | l :: ls' => l ++ flat_map (fun x => 0x0A :: x) ls'
  end.

Section Report.

(** [fs.existsSync] *)
Variable existsSync : jsstring -> bool.

(** [process.platform === 'win32'] *)
Variable win32 : bool.

Definition moveCommand (p : jsstring) : jsstring :=
  if win32
  then js "move " ++ quote ++ p ++ quote ++ js " " ++ quote
       ++ TRASH_DIR_NAME ++ [0x5C] ++ quote
  else js "safe_move " ++ quote ++ p ++ quote ++ js " " ++ quote
       ++ TRASH_DIR_NAME ++ quote.

(** [s.slice(0, -n)]: with [n = 0] the end index is 0. *)
Definition sliceOff (n : nat) (s : jsstring) : jsstring :=
  match n with
  | O => []
  | S _ => firstn (List.length s - n) s
  end.

Definition lrcPathOf (f : musicFile) : jsstring :=
  let ext := Path.extname (originalName f) in
  let baseName := sliceOff (List.length ext) (originalName f) in
  let lrcName := baseName ++ js ".lrc" in
  Path.join (Path.dirname (fullPath f)) lrcName.

(** The commands of one file to remove: the file, then its lyric file
    when there is one. *)
Definition removeCommands (f : musicFile) : list jsstring :=
  moveCommand (fullPath f)
  :: (if existsSync (lrcPathOf f) then [moveCommand (lrcPathOf f)] else []).

Definition keepFile (g : group) : option musicFile := hd_error (sortFiles (files g)).

Definition deleteFiles (g : group) : list musicFile :=
  JsArray.slice1 (sortFiles (files g)).

Definition header : list jsstring :=
  if win32
  then [js "@echo off";
        js "echo Start moving files to trash folder...";
        js "if not exist " ++ quote ++ TRASH_DIR_NAME ++ quote ++ js " mkdir "
        ++ quote ++ TRASH_DIR_NAME ++ quote]
  else [js "#!/bin/bash";
        js "echo " ++ quote ++ js "Start moving files to trash folder..." ++ quote;
        js "mkdir -p " ++ quote ++ TRASH_DIR_NAME ++ quote;
        joinLines safeMoveLines].

(** [deleteCommands] at the end of the report; nothing is written when
    no group was found. *)
Definition deleteCommands (results : list group) : option (list jsstring) :=
  match results with
  | [] => None
  | _ :: _ =>
      Some (header ++ flat_map (fun g => flat_map removeCommands (deleteFiles g))
                               results)
  end.

End Report.

End Checker.

(* ------------------------------------------------------------------ *)
(** ** The duplicate mover *)
(* ------------------------------------------------------------------ *)

Module Mover.
Import Utils.

(** [audioRegex.test(name)] *)
Definition isAudio (name : jsstring) : bool :=
  existsb (fun ext => EnhancedRun.endsWithCi (0x2E :: ext) name)
          (map js ["mp3"; "m4a"; "flac"; "wav"; "wma"; "ape"]%string).

(** The whole of [s] matches [\.[^/.]+$]. *)
Definition extMatches (s : jsstring) : bool :=
  match s with
  | c :: (_ :: _) as r =>
      (c =? 0x2E) && forallb (fun x => negb ((x =? 0x2F) || (x =? 0x2E))) r
  | _ => false
  end.

(** [p.replace(/\.[^/.]+$/, '.lrc')] *)
Fixpoint lrcOf (p : jsstring) : jsstring :=
  if extMatches p then js ".lrc"
  else match p with
       | [] => []
       | c :: p' => c :: lrcOf p'
       end.

(** The key under which phase B files a candidate, if any.  [processed]
    is the set of the paths moved so far. *)
Definition songKey (processed : list jsstring) (f : fileInfo) : option jsstring :=
  if negb (isAudio (name f)) then None
  else if existsb (eqb (path f)) processed then None
  else
    let info := parseSongInfo (name f) None in
    if negb (truthy (si_title info)) || eqb (si_title info) (js "Unknown")
    then None
    else
      let cleanArtist := stripSpaces (toLowerCase (si_artist info)) in
      let cleanTitle := stripSpaces (toLowerCase (si_title info)) in
      if truthy cleanArtist && negb (eqb cleanArtist (js "unknown"))
      then Some (cleanArtist ++ js "|" ++ cleanTitle)
      else if (4 <? List.length cleanTitle)%nat
      then Some (js "unknown|" ++ cleanTitle)
      else None.

Definition songMap (processed : list jsstring) (fileInfos : list fileInfo)
    : list (jsstring * list fileInfo) :=
  JsMap.groupBy eqb (songKey processed) fileInfos.

(** The groups that phase B ranks: the entries with two files or more. *)
Definition semanticGroups (processed : list jsstring) (fileInfos : list fileInfo)
    : list (jsstring * list fileInfo) :=
  filter (fun e => (1 <? List.length (snd e))%nat) (songMap processed fileInfos).

Section Run.

(** The file system, which the moves change. *)
Variable World : Type.

(** [getFileHash], [fs.existsSync] and [moveFile] on the file system;
    [moveFile] gives the new path, or [None] for [null]. *)
Variable getFileHash : World -> jsstring -> option jsstring.
Variable existsSync : World -> jsstring -> bool.
Variable moveFile : jsstring -> jsstring -> World -> option jsstring * World.

Variable tempDir : jsstring.

Record state := mkState {
  world : World;
  processed : list jsstring;
  movedCount : nat
}.

(** The body of [losers.forEach]; [exactPhase] tells the loop of phase
    A, which moves audio files only. *)
Definition moveLoser (exactPhase : bool) (st : state) (l : fileInfo) : state :=
  if existsb (eqb (path l)) (processed st) then st
  else if exactPhase && negb (isAudio (name l)) then st
  else
    let '(dest, w1) := moveFile (path l) tempDir (world st) in
    match dest with
    | Some d =>
        if truthy d then
          let lrc := lrcOf (path l) in
          let w2 := if existsSync w1 lrc then snd (moveFile lrc tempDir w1) else w1 in
          mkState w2 (processed st ++ [path l]) (S (movedCount st))
        else mkState w1 (processed st) (movedCount st)
    | None => mkState w1 (processed st) (movedCount st)
    end.

Definition hashOf (w : World) (f : fileInfo) : option jsstring :=
  match getFileHash w (path f) with
  | Some hash => if truthy hash then Some hash else None
  | None => None
  end.

(** One entry of the size Map in phase A. *)
Definition exactStep (st : state) (e : N * list fileInfo) : state :=
  if (List.length (snd e) <? 2)%nat || (fst e =? 0) then st
  else
    let hashMap := JsMap.groupBy eqb (hashOf (world st)) (snd e) in
    fold_left
      (fun st h =>
         if (1 <? List.length (snd h))%nat
         then fold_left (moveLoser true) (JsArray.slice1 (JsArray.sort byScore (snd h))) st
         else st)
      hashMap st.

Definition phaseA (w : World) (fileInfos : list fileInfo) : state :=
  fold_left exactStep
    (JsMap.groupBy N.eqb (fun f => Some (size f)) fileInfos)
    (mkState w [] O).

Definition phaseB (st : state) (fileInfos : list fileInfo) : state :=
  fold_left
    (fun st e => fold_left (moveLoser false)
                   (JsArray.slice1 (JsArray.sort byScore (snd e))) st)
    (semanticGroups (processed st) fileInfos) st.

Definition run (w : World) (fileInfos : list fileInfo) : state :=
  phaseB (phaseA w fileInfos) fileInfos.

End Run.

End Mover.

(* ------------------------------------------------------------------ *)
(** ** Sample libraries *)
(* ------------------------------------------------------------------ *)

Module Samples.
Import EnhancedRun.

(** [path.relative(from, p)] for a path [p] under the directory [from]:
    what comes after [from] and the separator, which is the last unit
    of [from] when [from] is the root. *)
Definition relative (from p : jsstring) : jsstring :=
  if Path.endsWith [Path.slash] from
  then skipn (List.length from) p
  else skipn (List.length from + 1) p.

Definition now : jsstring := js "2024/1/1 12:00:00".

(** A library of one artist: a song twice, byte for byte, on two discs,
    and a live recording of it in another format. *)
Definition beyondDir : jsstring := js "/music/Beyond".

Definition beyondFiles : list audioFile :=
  [mkAudioFile (js "/music/Beyond/cd1/海阔天空.mp3") 4000000;
   mkAudioFile (js "/music/Beyond/cd2/海阔天空.mp3") 4000000;
   mkAudioFile (js "/music/Beyond/海阔天空 (Live).flac") 30000000].

Definition beyondLyrics : list jsstring :=
  [js "/music/Beyond/cd1/海阔天空.lrc"; js "/music/Beyond/cd2/海阔天空.lrc"].

Definition beyondHash (p : jsstring) : option jsstring :=
  if includes (js "Live") p
  then Some (js "9e107d9d372bb6826bd81d3542a419d6")
  else Some (js "e4d909c290d0fb1ca068ffaddf22cbd0").

Definition beyondRun : outcome :=
  run beyondHash relative now beyondDir beyondFiles beyondLyrics.

Definition beyondInfos : list fileInfo :=
  map (preprocess beyondDir beyondLyrics) beyondFiles.

Definition cd1 : fileInfo :=
  preprocess beyondDir beyondLyrics
    (mkAudioFile (js "/music/Beyond/cd1/海阔天空.mp3") 4000000).

Definition cd2 : fileInfo :=
  preprocess beyondDir beyondLyrics
    (mkAudioFile (js "/music/Beyond/cd2/海阔天空.mp3") 4000000).

Definition live : fileInfo :=
  preprocess beyondDir beyondLyrics
    (mkAudioFile (js "/music/Beyond/海阔天空 (Live).flac") 30000000).

Definition beyondExact : exactDup :=
  mkExactDup (js "e4d909c290d0fb1ca068ffaddf22cbd0") 4000000 [cd1; cd2].

Definition beyondSemantic : semanticDup :=
  mkSemanticDup (js "beyond|海阔天空") [live; cd1; cd2].

Definition beyondScript : list jsstring :=
  scriptLines relative now beyondDir (o_exact beyondRun) (o_semantic beyondRun).

(** A song in a lossless format, named by artist and title: 30
    megabytes. *)
Definition scored : fileInfo :=
  preprocess beyondDir beyondLyrics
    (mkAudioFile (js "/music/Beyond/Beyond - 海阔天空.FLAC") 31457280).

(** A file of [2^53 - 1] bytes, the largest size that a double counts
    to the byte. *)
Definition huge : fileInfo :=
  preprocess beyondDir beyondLyrics
    (mkAudioFile (js "/music/Beyond/a.mp3") 9007199254740991).

(** A song and a copy of it, byte for byte, in one directory. *)
Definition copyFiles : list audioFile :=
  [mkAudioFile (js "/music/Beyond/Song copy.mp3") 1000;
   mkAudioFile (js "/music/Beyond/Song.mp3") 1000].

Definition copyRun : outcome :=
  run beyondHash relative now beyondDir copyFiles [].

(** Two files named by a track number alone, found from the root
    directory, whose name gives no artist. *)
Definition rootFiles : list audioFile :=
  [mkAudioFile (js "/05.mp3") 3000000;
   mkAudioFile (js "/rip/05.flac") 20000000].

Definition rootHash (p : jsstring) : option jsstring :=
  if includes (js "rip") p
  then Some (js "9e107d9d372bb6826bd81d3542a419d6")
  else Some (js "e4d909c290d0fb1ca068ffaddf22cbd0").

Definition rootRun : outcome :=
  run rootHash relative now (js "/") rootFiles [].

Definition rootInfos : list fileInfo := map (preprocess (js "/") []) rootFiles.

Definition track05 : fileInfo :=
  preprocess (js "/") [] (mkAudioFile (js "/05.mp3") 3000000).

(** The same two files as the mover reads them, with a song in two
    formats beside them. *)
Definition moverInfos : list Utils.fileInfo :=
  [Utils.mkFileInfo (js "/music/05.mp3") 3000000 (js "05.mp3");
   Utils.mkFileInfo (js "/music/rip/05.flac") 20000000 (js "05.flac");
   Utils.mkFileInfo (js "/music/Beyond - 海阔天空.mp3") 4000000
     (js "Beyond - 海阔天空.mp3");
   Utils.mkFileInfo (js "/music/rip/Beyond - 海阔天空.flac") 30000000
     (js "Beyond - 海阔天空.flac")].

Definition moverTrack05 : Utils.fileInfo :=
  Utils.mkFileInfo (js "/music/05.mp3") 3000000 (js "05.mp3").

(** A song with no artist in its name, in two formats.  Its title has
    four code units, the first of them the capital I with a dot. *)
Definition moverInci : Utils.fileInfo :=
  Utils.mkFileInfo (js "/music/rip/İnci.mp3") 3000000 (js "İnci.mp3").

Definition inciInfos : list Utils.fileInfo :=
  [Utils.mkFileInfo (js "/music/İnci.flac") 20000000 (js "İnci.flac");
   moverInci].

End Samples.

(* ------------------------------------------------------------------ *)
(** ** embed_lyrics.js: lyrics in the ID3 chunk of a WAV file *)
(* ------------------------------------------------------------------ *)

Module EmbedLyrics.

Local Open Scope Z_scope.

(** A Buffer: its bytes, each from 0 to 255.  The numbers of the script,
    offsets and sizes, are integers. *)
Definition buffer := list Z.

Definition len (buf : buffer) : Z := Z.of_nat (List.length buf).

(** [Buffer.from(str)] for a string of ASCII characters. *)
Definition ascii (s : string) : buffer := map Z.of_N (Js.bytes s).

Definition beq (a b : buffer) : bool :=
  if list_eq_dec Z.eq_dec a b then true else false.

(** An index brought back between 0 and the length, as [slice] and
    [toString] do with the bounds they are given. *)
Definition clamp (buf : buffer) (i : Z) : Z := Z.max 0 (Z.min i (len buf)).

(** [buf.slice(start, end)], for bounds that are not negative, as all
    the bounds of the script are. *)
Definition slice (buf : buffer) (start end_ : Z) : buffer :=
  let s := clamp buf start in
  let e := clamp buf end_ in
  firstn (Z.to_nat (e - s)) (skipn (Z.to_nat s) buf).

(** [buf.slice(start)] *)
Definition sliceFrom (buf : buffer) (start : Z) : buffer :=
  skipn (Z.to_nat (clamp buf start)) buf.

(** [buf.toString('ascii', start, end)]: decoding as ASCII unsets the
    highest bit of each byte. *)
Definition toAscii (buf : buffer) (start end_ : Z) : buffer :=
  map (fun b => Z.land b 0x7F) (slice buf start end_).

(** [buf[i]] as an operand of a shift: [undefined], out of the buffer,
    counts as 0. *)
Definition byteAt (buf : buffer) (i : Z) : Z :=
  if (0 <=? i) && (i <? len buf) then nth (Z.to_nat i) buf 0 else 0.

(** [buf.readUInt32LE(offset)]; [None] stands for the RangeError thrown
    when the four bytes are not all in the buffer. *)
Definition readUInt32LE (buf : buffer) (offset : Z) : option Z :=
  if (0 <=? offset) && (offset + 4 <=? len buf)
  then Some (byteAt buf offset + byteAt buf (offset + 1) * 2 ^ 8
             + byteAt buf (offset + 2) * 2 ^ 16
             + byteAt buf (offset + 3) * 2 ^ 24)
  else None.

(** The four bytes of a number below 2^32, the lowest first. *)
Definition uint32LE (value : Z) : buffer :=
  [value mod 256; (value / 2 ^ 8) mod 256; (value / 2 ^ 16) mod 256;
   (value / 2 ^ 24) mod 256].

(** [buf.writeUInt32LE(value, offset)]; [None] stands for the RangeError
    thrown for a value out of range or bytes out of the buffer. *)
Definition writeUInt32LE (buf : buffer) (value offset : Z) : option buffer :=
  if (0 <=? value) && (value <? 2 ^ 32) && (0 <=? offset)
     && (offset + 4 <=? len buf)
  then Some (firstn (Z.to_nat offset) buf ++ uint32LE value
             ++ skipn (Z.to_nat (offset + 4)) buf)
  else None.

(** The four bytes [(size >> 21) & 0x7F], [(size >> 14) & 0x7F],
    [(size >> 7) & 0x7F] and [size & 0x7F] of a size that is not
    negative. *)
Definition syncsafe (size : Z) : buffer :=
  [Z.land (Z.shiftr size 21) 0x7F; Z.land (Z.shiftr size 14) 0x7F;
   Z.land (Z.shiftr size 7) 0x7F; Z.land size 0x7F].

(** [(buf[i] << 21) | (buf[i + 1] << 14) | (buf[i + 2] << 7) | buf[i + 3]] *)
Definition readSyncsafe (buf : buffer) (i : Z) : Z :=
  Z.lor (Z.lor (Z.lor (Z.shiftl (byteAt buf i) 21)
                      (Z.shiftl (byteAt buf (i + 1)) 14))
               (Z.shiftl (byteAt buf (i + 2)) 7))
        (byteAt buf (i + 3)).

(** [big.includes(small)] on Buffers. *)
Fixpoint includesBytes (small big : buffer) : bool :=
  beq (firstn (List.length small) big) small
  || match big with
     | [] => false
     | _ :: big' => includesBytes small big'
     end.

(** [/^[\x20-\x7e]{4}$/.test(chunkId)] *)
Definition isValidChunk (chunkId : buffer) : bool :=
  (List.length chunkId =? 4)%nat
  && forallb (fun c => (0x20 <=? c) && (c <=? 0x7E)) chunkId.

(** [/^[A-Z0-9]{4}$/.test(frameId)] *)
Definition isFrameId (frameId : buffer) : bool :=
  (List.length frameId =? 4)%nat
  && forallb (fun c => ((0x41 <=? c) && (c <=? 0x5A))
                       || ((0x30 <=? c) && (c <=? 0x39))) frameId.

(** The offset of the chunk after one of [chunkSize] bytes at [offset]:
    chunks are aligned on two bytes. *)
Definition nextChunk (offset chunkSize : Z) : Z :=
  let offset := offset + 8 + chunkSize in
  if negb (chunkSize mod 2 =? 0) then offset + 1 else offset.

(** *** hasEmbeddedLyrics *)

(** The loop on the chunks; [None] when the fuel is used up before the
    loop ends.  A read out of the buffer throws, and the function
    catches what is thrown and gives [false]. *)
Fixpoint lyricsLoop (fuel : nat) (buf : buffer) (offset : Z) : option bool :=
  match fuel with
  | O => None
  | S fuel' =>
      if offset <? len buf - 8 then
        let chunkId := toAscii buf offset (offset + 4) in
        match readUInt32LE buf (offset + 4) with
        | None => Some false
        | Some chunkSize =>
            let id3Start := offset + 8 in
            if beq chunkId (ascii "ID3 ")
               && beq (toAscii buf id3Start (id3Start + 3)) (ascii "ID3")
            then
              let id3Data := slice buf id3Start (id3Start + chunkSize) in
              Some (includesBytes (ascii "USLT") id3Data)
            else lyricsLoop fuel' buf (nextChunk offset chunkSize)
        end
      else Some false
  end.

(** The function on the bytes read from the file. *)
Definition hasLyrics (buf : buffer) : bool :=
  if negb (beq (toAscii buf 0 4) (ascii "RIFF")) then false
  else match lyricsLoop (S (List.length buf)) buf 12 with
       | Some found => found
       | None => false
       end.

(** *** extractExistingFrames *)

(** The loop on the frames of the tag that starts at [id3Start];
    [frames] holds the frames kept so far. *)
Fixpoint framesLoop (fuel : nat) (wavBuf : buffer) (id3Start id3Size : Z)
    (frameOffset : Z) (frames : list buffer) : option (list buffer) :=
  match fuel with
  | O => None
  | S fuel' =>
      if frameOffset <? id3Start + 10 + id3Size - 10 then
        let frameId := toAscii wavBuf frameOffset (frameOffset + 4) in
        if negb (isFrameId frameId) then Some frames
        else
          let frameSize := readSyncsafe wavBuf (frameOffset + 4) in
          if (frameSize <=? 0) || (id3Size <? frameSize) then Some frames
          else
            let frames :=
              if negb (beq frameId (ascii "USLT"))
              then frames ++ [slice wavBuf frameOffset (frameOffset + 10 + frameSize)]
              else frames in
            framesLoop fuel' wavBuf id3Start id3Size
              (frameOffset + 10 + frameSize) frames
      else Some frames
  end.

(** What a loop leaves: its value, or the exception that ended it. *)
Inductive thrown (A : Type) : Type :=
| Value (a : A)
| RangeError.

Arguments Value {A} a.
Arguments RangeError {A}.

(** The loop on the chunks, which ends at the first chunk named
    [ID3 ]. *)
Fixpoint chunksLoop (fuel : nat) (wavBuf : buffer) (offset : Z)
    : option (thrown (list buffer)) :=
  match fuel with
  | O => None
  | S fuel' =>
      if offset <? len wavBuf - 8 then
        let chunkId := toAscii wavBuf offset (offset + 4) in
        match readUInt32LE wavBuf (offset + 4) with
        | None => Some RangeError
        | Some chunkSize =>
            if negb (isValidChunk chunkId) || (len wavBuf - offset <? chunkSize)
            then Some (Value [])
            else if beq chunkId (ascii "ID3 ") then
              let id3Start := offset + 8 in
              if beq (toAscii wavBuf id3Start (id3Start + 3)) (ascii "ID3")
              then
                let id3Size := readSyncsafe wavBuf (id3Start + 6) in
                option_map Value
                  (framesLoop (S (List.length wavBuf)) wavBuf id3Start id3Size
                     (id3Start + 10) [])
              else Some (Value [])
            else chunksLoop fuel' wavBuf (nextChunk offset chunkSize)
        end
      else Some (Value [])
  end.

Definition extractExistingFrames (wavBuf : buffer) : thrown (list buffer) :=
  if negb (beq (toAscii wavBuf 0 4) (ascii "RIFF")) then Value []
  else match chunksLoop (S (List.length wavBuf)) wavBuf 12 with
       | Some r => r
       | None => Value []
       end.

(** *** createUSLTFrame and createID3v24Tag *)

Definition isHighSurrogate (c : N) : bool := ((0xD800 <=? c) && (c <=? 0xDBFF))%N.
Definition isLowSurrogate (c : N) : bool := ((0xDC00 <=? c) && (c <=? 0xDFFF))%N.

(** The UTF-8 bytes of a code point. *)
Definition utf8Point (cp : Z) : buffer :=
  if cp <? 0x80 then [cp]
  else if cp <? 0x800 then [0xC0 + cp / 64; 0x80 + cp mod 64]
  else if cp <? 0x10000
  then [0xE0 + cp / 4096; 0x80 + (cp / 64) mod 64; 0x80 + cp mod 64]
  else [0xF0 + cp / 262144; 0x80 + (cp / 4096) mod 64;
        0x80 + (cp / 64) mod 64; 0x80 + cp mod 64].

(** [Buffer.from(str, 'utf-8')]: a surrogate pair is one code point and
    a surrogate that stands alone is written as U+FFFD. *)
Fixpoint utf8 (s : jsstring) : buffer :=
  match s with
  | [] => []
  | c :: s' =>
      if isHighSurrogate c then
        match s' with
        | d :: s'' =>
            if isLowSurrogate d
            then utf8Point (0x10000 + (Z.of_N c - 0xD800) * 0x400
                            + (Z.of_N d - 0xDC00)) ++ utf8 s''
            else utf8Point 0xFFFD ++ utf8 s'
        | [] => utf8Point 0xFFFD
        end
      else if isLowSurrogate c then utf8Point 0xFFFD ++ utf8 s'
      else utf8Point (Z.of_N c) ++ utf8 s'
  end.

Definition createUSLTFrame (lyrics : jsstring) : buffer :=
  let encoding := [0x03] in
  let language := ascii "XXX" in
  let descriptor := [0x00] in
  let lyricsBuffer := utf8 lyrics in
  let frameData := encoding ++ language ++ descriptor ++ lyricsBuffer in
  let frameId := ascii "USLT" in
  let frameSize := syncsafe (len frameData) in
  let frameFlags := [0x00; 0x00] in
  frameId ++ frameSize ++ frameFlags ++ frameData.

Definition createID3v24Tag (frames : list buffer) : buffer :=
  let allFrames := concat frames in
  let id3Header := ascii "ID3" ++ [0x04; 0x00; 0x00] ++ syncsafe (len allFrames) in
  id3Header ++ allFrames.

(** *** removeExistingID3Chunk *)

(** The loop on the chunks; [chunks] holds the chunks kept so far. *)
Fixpoint keepLoop (fuel : nat) (wavBuf : buffer) (offset : Z)
    (chunks : list buffer) : option (thrown (list buffer)) :=
  match fuel with
  | O => None
  | S fuel' =>
      if offset <? len wavBuf - 8 then
        let chunkId := toAscii wavBuf offset (offset + 4) in
        match readUInt32LE wavBuf (offset + 4) with
        | None => Some RangeError
        | Some chunkSize =>
            if negb (isValidChunk chunkId) || (len wavBuf - offset <? chunkSize)
            then Some (Value chunks)
            else
              let chunks :=
                if negb (beq chunkId (ascii "ID3 ")) then
                  let chunkEnd := offset + 8 + chunkSize in
                  let chunkEnd :=
                    if negb (chunkSize mod 2 =? 0) then chunkEnd + 1 else chunkEnd in
                  chunks ++ [slice wavBuf offset (Z.min chunkEnd (len wavBuf))]
                else chunks in
              keepLoop fuel' wavBuf (nextChunk offset chunkSize) chunks
        end
      else Some (Value chunks)
  end.

Definition removeExistingID3Chunk (wavBuf : buffer) : thrown buffer :=
  let wavBuf :=
    if beq (toAscii wavBuf 0 3) (ascii "ID3") then
      let size := readSyncsafe wavBuf 6 in
      let totalID3Size := 10 + size in
      if beq (toAscii wavBuf totalID3Size (totalID3Size + 4)) (ascii "RIFF")
      then sliceFrom wavBuf totalID3Size
      else wavBuf
    else wavBuf in
  if negb (beq (toAscii wavBuf 0 4) (ascii "RIFF")) then Value wavBuf
  else
    match keepLoop (S (List.length wavBuf)) wavBuf 12 [] with
    | Some (Value chunks) =>
        let header := slice wavBuf 0 12 in
        let newData := header ++ concat chunks in
        match writeUInt32LE newData (len newData - 8) 4 with
        | Some newData => Value newData
        | None => RangeError
        end
    | Some RangeError => RangeError
    | None => RangeError
    end.

(** *** embedLyrics *)

(** What an attempt comes to: the bytes to write with the two numbers
    of the report, the answer that the file is no WAV file, or an
    exception. *)
Inductive attempt : Type :=
| Embedded (newBuf : buffer) (lrcSize preservedFrames : nat)
| NotWav
| Thrown.

(** The body of [embedLyrics] between the reads and the write. *)
Definition embed (wavBuf : buffer) (lrcContent : jsstring) : attempt :=
  match extractExistingFrames wavBuf with
  | RangeError => Thrown
  | Value existingFrames =>
      match removeExistingID3Chunk wavBuf with
      | RangeError => Thrown
      | Value wavBuf =>
          if negb (beq (toAscii wavBuf 0 4) (ascii "RIFF"))
             || negb (beq (toAscii wavBuf 8 12) (ascii "WAVE"))
          then NotWav
          else
            let usltFrame := createUSLTFrame lrcContent in
            let allFrames := existingFrames ++ [usltFrame] in
            let id3Tag := createID3v24Tag allFrames in
            let id3ChunkId := ascii "ID3 " in
            match writeUInt32LE [0; 0; 0; 0] (len id3Tag) 0 with
            | None => Thrown
            | Some id3ChunkSize =>
                let id3Chunk := id3ChunkId ++ id3ChunkSize ++ id3Tag in
                let newBuf := wavBuf ++ id3Chunk in
                let newRiffSize := len newBuf - 8 in
                match writeUInt32LE newBuf newRiffSize 4 with
                | None => Thrown
                | Some newBuf =>
                    Embedded newBuf (List.length lrcContent)
                      (List.length existingFrames)
                end
            end
      end
  end.

Section Files.

(** The file system: [fs.readFileSync] of a file as bytes and as UTF-8
    text, and [fs.writeFileSync]; [None] stands for an exception. *)
Variable World : Type.
Variable readFileSync : World -> jsstring -> option buffer.
Variable readFileText : World -> jsstring -> option jsstring.
Variable writeFileSync : jsstring -> buffer -> World -> option World.

Definition hasEmbeddedLyrics (w : World) (audioPath : jsstring) : bool :=
  match readFileSync w audioPath with
  | Some buf => hasLyrics buf
  | None => false
  end.

(** The report of [embedLyrics]: [success] with the two numbers, or the
    failure, told by the script itself or by an exception. *)
Inductive report : Type :=
| Success (lrcSize preservedFrames : nat)
| Failure (notWav : bool).

Definition embedLyrics (w : World) (audioPath lrcPath : jsstring)
    : report * World :=
  match readFileSync w audioPath with
  | None => (Failure false, w)
  | Some wavBuf =>
      match readFileText w lrcPath with
      | None => (Failure false, w)
      | Some lrcContent =>
          match embed wavBuf lrcContent with
          | Embedded newBuf lrcSize preservedFrames =>
              match writeFileSync audioPath newBuf w with
              | Some w' => (Success lrcSize preservedFrames, w')
              | None => (Failure false, w)
              end
          | NotWav => (Failure true, w)
          | Thrown => (Failure false, w)
          end
      end
  end.

End Files.

End EmbedLyrics.

(* ------------------------------------------------------------------ *)
(** ** Notions used to state the properties *)
(* ------------------------------------------------------------------ *)

Module Spec.

(** *** Maps and arrays *)

Definition nonEmpty {V : Type} (vs : list V) : option (list V) :=
  match vs with [] => None | _ :: _ => Some vs end.

(** [x] need not follow [y]. *)
Definition notAfter {A : Type} (sgn : A -> A -> comparison) (x y : A) : Prop :=
  sgn x y <> Gt.

(** [y] ties with [x]. *)
Definition tied {A : Type} (sgn : A -> A -> comparison) (x y : A) : bool :=
  match sgn x y with Eq => true | _ => false end.

(** A comparator that orders by keys: swapping the arguments swaps the
    sign, what need not follow is transitive, and a tie with an element
    is a tie with all that tie with it. *)
Record consistent {A : Type} (sgn : A -> A -> comparison) : Prop := {
  c_opp : forall x y, sgn y x = CompOpp (sgn x y);
  c_trans : forall x y z, sgn x y <> Gt -> sgn y z <> Gt -> sgn x z <> Gt;
  c_tie : forall x y z, sgn x y = Eq -> sgn x z = sgn y z
}.

(** The sign of the first key that tells the two elements apart. *)
Definition lexc (c1 c2 : comparison) : comparison :=
  match c1 with Eq => c2 | _ => c1 end.

Definition byKey {A : Type} (k : A -> Z) (a b : A) : comparison :=
  (k a ?= k b)%Z.

(** *** Lines *)

(** [seg] stands in [l], as a run of neighbours. *)
Definition infix {A : Type} (seg l : list A) : Prop :=
  exists l1 l2, l = l1 ++ seg ++ l2.

(** [x] is in [l] and [y] is the next element. *)
Definition adjacent {A : Type} (x y : A) (l : list A) : Prop := infix [x; y] l.

(** *** The commands of the scripts *)

Definition inQuotes (s : jsstring) : jsstring := [0x22] ++ s ++ [0x22].

(** The command that moves the file at [rel], a path from the scanned
    directory, into the directory [dir]: the word [mv], the two paths
    in quotes, and the end that keeps the script going when the file is
    not there. *)
Definition shellMove (rel dir : jsstring) : jsstring :=
  js "mv " ++ inQuotes (js "./" ++ rel) ++ js " "
  ++ inQuotes (js "./" ++ dir ++ js "/") ++ js " 2>/dev/null || true".

(** The command of check_duplicates.js that moves the file at [p] into
    the trash directory: [safe_move] in the shell script and [move],
    with a backslash after the directory, in the batch file. *)
Definition trashMove (win32 : bool) (p : jsstring) : jsstring :=
  if win32
  then js "move " ++ inQuotes p ++ js " " ++ inQuotes (js "_doubles_trash" ++ [0x5C])
  else js "safe_move " ++ inQuotes p ++ js " " ++ inQuotes (js "_doubles_trash").

(** *** The enhanced detector *)

(** [f] is one of the files of the exact group [d]; files are told
    apart by their paths. *)
Definition inExactGroup (d : EnhancedRun.exactDup) (f : EnhancedRun.fileInfo)
    : Prop :=
  In (EnhancedRun.path f) (map EnhancedRun.path (EnhancedRun.ed_files d)).

(** The bonus of the format, by the extension of the name. *)
Definition formatBonus (name : jsstring) : Q :=
  if EnhancedRun.endsWithCi (js ".flac") name then 50
  else if EnhancedRun.endsWithCi (js ".ape") name then 40
  else if EnhancedRun.endsWithCi (js ".wav") name then 30
  else 0.

Definition sameScore (x y : EnhancedRun.fileInfo) : bool :=
  Qeq_bool (EnhancedRun.getScore x) (EnhancedRun.getScore y).

(** *** check_duplicates.js *)

Definition liveKey (f : Checker.musicFile) : Z :=
  if Checker.isLiveVersion (Checker.originalName f) then 1 else 0.
Definition sizeKey (f : Checker.musicFile) : Z := (- Z.of_N (Checker.size f))%Z.
Definition lengthKey (f : Checker.musicFile) : Z :=
  Checker.lengthOf (Checker.originalName f).
Definition copyKey (f : Checker.musicFile) : Z :=
  if Checker.hasCopy (Checker.originalName f) then 1 else 0.

(** No rule of the comparator tells [x] and [y] apart. *)
Definition sameRank (x y : Checker.musicFile) : bool :=
  Bool.eqb (Checker.isLiveVersion (Checker.originalName x))
           (Checker.isLiveVersion (Checker.originalName y))
  && (Checker.size x =? Checker.size y)%N
  && (List.length (Checker.originalName x)
      =? List.length (Checker.originalName y))%nat
  && Bool.eqb (Checker.hasCopy (Checker.originalName x))
              (Checker.hasCopy (Checker.originalName y)).

(** *** The parsers *)

(** [sub] stands somewhere in [s]. *)
Definition holds (sub s : jsstring) : Prop :=
  exists pre post, s = pre ++ sub ++ post.

(** [pre] and [post] are what stands before and after the first [sep]
    of [s]. *)
Definition firstSplit (sep s pre post : jsstring) : Prop :=
  s = pre ++ sep ++ post
  /\ forall pre' post', s = pre' ++ sep ++ post' ->
                        (List.length pre <= List.length pre')%nat.

(** [piece] is what stands in [rest] before its first [sep], and the
    whole of [rest] when it has none. *)
Definition firstPiece (sep rest piece : jsstring) : Prop :=
  (~ holds sep rest /\ piece = rest)
  \/ exists post, firstSplit sep rest piece post.

(** Digits and nothing else, one at least. *)
Definition digitsOnly (s : jsstring) : Prop :=
  s <> [] /\ Forall (fun c => 0x30 <= c <= 0x39) s.

Definition openParen (c : N) : Prop := c = 0x28 \/ c = 0xFF08.
Definition closeParen (c : N) : Prop := c = 0x29 \/ c = 0xFF09.

Definition lineBreak (c : N) : Prop :=
  c = 0x0A \/ c = 0x0D \/ c = 0x2028 \/ c = 0x2029.

(** [s] is a title [t] followed by an artist [a] in parentheses that
    end the name, neither empty nor broken over lines. *)
Definition parenSplit (s t a : jsstring) : Prop :=
  exists o c,
    s = t ++ [o] ++ a ++ [c] /\ openParen o /\ closeParen c
    /\ t <> [] /\ a <> []
    /\ (forall x, In x t -> ~ lineBreak x)
    /\ (forall x, In x a -> ~ lineBreak x).

(** The split with the shortest title, the one that a lazy group
    finds. *)
Definition firstParenSplit (s t a : jsstring) : Prop :=
  parenSplit s t a
  /\ forall t' a', parenSplit s t' a' -> (List.length t <= List.length t')%nat.

(** A split of [s] with [pre] read before it, in reverse. *)
Definition splitAfter (pre s t2 a : jsstring) : Prop :=
  exists o c,
    s = t2 ++ [o] ++ a ++ [c] /\ openParen o /\ closeParen c
    /\ rev pre ++ t2 <> [] /\ a <> []
    /\ (forall x, In x t2 -> ~ lineBreak x)
    /\ (forall x, In x a -> ~ lineBreak x).

(** Two units that are one letter, whatever the case in ASCII. *)
Definition sameLetter (x y : N) : Prop :=
  x = y
  \/ (0x41 <= x <= 0x5A /\ y = x + 0x20)
  \/ (0x41 <= y <= 0x5A /\ x = y + 0x20).

Definition sameText (a b : jsstring) : Prop := Forall2 sameLetter a b.

(** The words of the suffix pattern of check_duplicates_utils.js. *)
Definition tagWords : list jsstring := Eval vm_compute in
  map js ["Live"; "Mix"; "Remix"; "Cover"; "DJ"; "伴奏"; "演唱会"; "版"]%string.

(** [title] is [body] followed by one of the words in parentheses. *)
Definition tagged (title body : jsstring) : Prop :=
  exists o w c tag,
    title = body ++ [o] ++ w ++ [c] /\ openParen o /\ closeParen c
    /\ In tag tagWords /\ sameText w tag.

(** [out] is [title] less the word in parentheses at its end, if it has
    one. *)
Definition lessTag (title out : jsstring) : Prop :=
  (forall body, tagged title body -> out = trim body)
  /\ ((forall body, ~ tagged title body) -> out = title).

(** [artist] is the fallback artist when one is given, and the sentinel
    when none is, the empty string counting as none. *)
Definition isFallback (defaultArtist : option jsstring) (artist : jsstring)
    : Prop :=
  (forall d, defaultArtist = Some d -> d <> [] -> artist = d)
  /\ (defaultArtist = None \/ defaultArtist = Some [] -> artist = js "Unknown").

(** What the two patterns of the enhanced detector read in a name: the
    parts around the first [" - "], or around the first ["-"] of a name
    that has no [" - "] and does not start with the dash. *)
Inductive dashesRead (n : jsstring) : option (jsstring * jsstring) -> Prop :=
| dashes_spaced pre post :
    firstSplit (js " - ") n pre post ->
    dashesRead n (Some (trim pre, trim post))
| dashes_bare pre post :
    ~ holds (js " - ") n -> firstSplit (js "-") n pre post -> pre <> [] ->
    dashesRead n (Some (trim pre, trim post))
| dashes_none :
    ~ holds (js " - ") n ->
    (~ holds (js "-") n \/ exists post, n = js "-" ++ post) ->
    dashesRead n None.

(** What the three patterns of check_duplicates_utils.js read in a
    name, artist first: the first two parts between [" - "]; or between
    ["-"]; or a title and an artist in parentheses; or nothing. *)
Inductive patternsRead (n : jsstring) : jsstring -> jsstring -> Prop :=
| read_spaced pre rest mid :
    firstSplit (js " - ") n pre rest -> firstPiece (js " - ") rest mid ->
    patternsRead n (trim pre) (trim mid)
| read_dash pre rest mid :
    ~ holds (js " - ") n ->
    firstSplit (js "-") n pre rest -> firstPiece (js "-") rest mid ->
    patternsRead n (trim pre) (trim mid)
| read_paren t a :
    ~ holds (js "-") n -> firstParenSplit n t a ->
    patternsRead n (trim a) (trim t)
| read_nothing :
    ~ holds (js "-") n -> (forall t a, ~ parenSplit n t a) ->
    patternsRead n [] [].

(** *** The score *)

(** The code points of the characters that the score takes for
    traditional ones. *)
Definition traditionalUnits : list N :=
  [0x9F4A; 0x5B78; 0x83EF; 0x570B; 0x611B; 0x6200; 0x5922; 0x98A8;
   0x96F2; 0x6642; 0x9593; 0x6771; 0x8ECA; 0x99AC; 0x9CE5; 0x9B5A;
   0x9577; 0x9580; 0x958B; 0x95DC; 0x807D; 0x8AAA; 0x8A71; 0x8A9E;
   0x7D05; 0x7DA0; 0x85CD; 0x9EC3; 0x982D; 0x81C9; 0x9AD4; 0x767C;
   0x7121; 0x5F9E; 0x4F86; 0x904E].

(** [name] ends with [ext], whatever the case of its ASCII letters. *)
Definition endsLike (ext name : jsstring) : Prop :=
  exists pre e, name = pre ++ e /\ sameText e ext.

(** *** Roman numerals *)

(** The test of the pattern at the head of [s], [prev] being the unit
    before: the numeral stands there, between units that are no letters. *)
Definition standaloneAt (roman : jsstring) (prev : option N) (s : jsstring)
    : bool :=
  negb (Enhanced.prevIsLetter prev) && startsWithCi roman s
  && negb (Enhanced.nextIsLetter (skipn (List.length roman) s)).

(** The numeral stands alone somewhere in [s]. *)
Fixpoint occurs (roman : jsstring) (prev : option N) (s : jsstring) : bool :=
  match s with
  | [] => false
  | c :: s' => standaloneAt roman prev s || occurs roman (Some c) s'
  end.

(** The run of letters [run] is the numeral, in any case. *)
Definition runIs (roman run : jsstring) : bool :=
  (List.length run =? List.length roman)%nat && startsWithCi roman run.

Definition letters (s : jsstring) : bool := forallb isLetter s.

Definition noLetters (s : jsstring) : bool :=
  forallb (fun c => negb (isLetter c)) s.

(** Some letter before the position read. *)
Definition aLetter : option N := Some 65.

(** The table of characters leaves the unit as it is. *)
Definition plain (c : N) : bool := eqb (Enhanced.simpUnit c) [c].

(** Lowering leaves the unit as it is. *)
Definition lowered (c : N) : bool := lowerUnit c =? c.

(** A unit other than the capital I with a dot. *)
Definition undotted (c : N) : bool := negb (c =? 0x130).

End Spec.

(* ------------------------------------------------------------------ *)
(** ** Further notions and samples *)
(* ------------------------------------------------------------------ *)

Module Notions.

Section MoverTrace.
Variable World : Type.
Variable getFileHash : World -> jsstring -> option jsstring.
Variable existsSync : World -> jsstring -> bool.
Variable moveFile : jsstring -> jsstring -> World -> option jsstring * World.
Variable tempDir : jsstring.

(** The entries of the size Map in phase A of the mover, each with the
    state in which the loop reaches it. *)
Fixpoint statesA (st : Mover.state World)
    (entries : list (N * list Utils.fileInfo))
    : list (Mover.state World * (N * list Utils.fileInfo)) :=
  match entries with
  | [] => []
  | e :: entries' =>
      (st, e)
      :: statesA (Mover.exactStep World getFileHash existsSync moveFile tempDir st e)
           entries'
  end.

(** The bookkeeping of the state: no path is recorded twice, and the
    count is the number of the paths recorded. *)
Definition counted (st : Mover.state World) : Prop :=
  NoDup (Mover.processed World st)
  /\ Mover.movedCount World st = List.length (Mover.processed World st).

(** One turn of the loop on the entries of the hash Map in phase A. *)
Definition hashStep (st : Mover.state World) (h : jsstring * list Utils.fileInfo)
    : Mover.state World :=
  if (1 <? List.length (snd h))%nat
  then fold_left (Mover.moveLoser World existsSync moveFile tempDir true)
         (JsArray.slice1 (JsArray.sort Utils.byScore (snd h))) st
  else st.

(** One turn of the loop on the groups of phase B. *)
Definition songStep (st : Mover.state World) (e : jsstring * list Utils.fileInfo)
    : Mover.state World :=
  fold_left (Mover.moveLoser World existsSync moveFile tempDir false)
    (JsArray.slice1 (JsArray.sort Utils.byScore (snd e))) st.

End MoverTrace.

End Notions.

Module MoverSamples.

(** A file system that the moves leave as it is, for the samples: every
    move succeeds and there are no lyric files. *)
Definition World : Type := unit.

Definition getFileHash (_ : World) (p : jsstring) : option jsstring :=
  if includes (js "flac") p
  then Some (js "9e107d9d372bb6826bd81d3542a419d6")
  else Some (js "e4d909c290d0fb1ca068ffaddf22cbd0").

Definition existsSync (_ : World) (_ : jsstring) : bool := false.

Definition moveFile (src destDir : jsstring) (w : World)
    : option jsstring * World :=
  (Some (Path.join destDir (Path.basename src)), w).

Definition tempDir : jsstring := js "/music/_duplicates_tmp".

(** A song and a copy of it, byte for byte, with a lossless file of the
    same song. *)
Definition infos : list Utils.fileInfo :=
  [Utils.mkFileInfo (js "/music/Beyond - 海阔天空 copy.mp3") 4000000
     (js "Beyond - 海阔天空 copy.mp3");
   Utils.mkFileInfo (js "/music/Beyond - 海阔天空.mp3") 4000000
     (js "Beyond - 海阔天空.mp3");
   Utils.mkFileInfo (js "/music/cd/Beyond - 海阔天空.mp3") 5000000
     (js "Beyond - 海阔天空.mp3");
   Utils.mkFileInfo (js "/music/cd/Beyond - 海阔天空.flac") 30000000
     (js "Beyond - 海阔天空.flac")].

Definition copy : Utils.fileInfo :=
  Utils.mkFileInfo (js "/music/Beyond - 海阔天空 copy.mp3") 4000000
    (js "Beyond - 海阔天空 copy.mp3").

Definition song : Utils.fileInfo :=
  Utils.mkFileInfo (js "/music/Beyond - 海阔天空.mp3") 4000000
    (js "Beyond - 海阔天空.mp3").

Definition cd : Utils.fileInfo :=
  Utils.mkFileInfo (js "/music/cd/Beyond - 海阔天空.mp3") 5000000
    (js "Beyond - 海阔天空.mp3").

Definition flac : Utils.fileInfo :=
  Utils.mkFileInfo (js "/music/cd/Beyond - 海阔天空.flac") 30000000
    (js "Beyond - 海阔天空.flac").

Definition start : Mover.state World := Mover.mkState World tt [] O.

Definition afterA : Mover.state World :=
  Mover.phaseA World getFileHash existsSync moveFile tempDir tt infos.

Definition final : Mover.state World :=
  Mover.run World getFileHash existsSync moveFile tempDir tt infos.

End MoverSamples.

(** ** WAVE files as the script reads and writes them *)

Module Wave.
Import EmbedLyrics.
Local Open Scope Z_scope.

(** A chunk of a RIFF file: its name of four characters and its data. *)
Record chunk := mkChunk {
  c_id : buffer;
  c_data : buffer
}.

(** The byte that brings the data to an even length. *)
Definition pad (data : buffer) : buffer :=
  if Z.odd (len data) then [0] else [].

Definition chunkBytes (c : chunk) : buffer :=
  c_id c ++ uint32LE (len (c_data c)) ++ c_data c ++ pad (c_data c).

Definition body (cs : list chunk) : buffer := flat_map chunkBytes cs.

Definition printable (b : Z) : bool := (0x20 <=? b) && (b <=? 0x7E).

(** A chunk as the audio data of a file has them: a printable name that
    is not [ID3 ], and data that is not empty and has its length in four
    bytes. *)
Definition chunkOk (c : chunk) : bool :=
  (List.length (c_id c) =? 4)%nat && forallb printable (c_id c)
  && negb (beq (c_id c) (ascii "ID3 "))
  && (0 <? len (c_data c)) && (len (c_data c) <? 2 ^ 32).

(** A WAVE file with the chunks [rest] after its header. *)
Definition wave (sizeField rest : buffer) : buffer :=
  ascii "RIFF" ++ sizeField ++ ascii "WAVE" ++ rest.

(** The same with the size that the header must give: the length of
    the file less eight bytes. *)
Definition sized (rest : buffer) : buffer :=
  wave (uint32LE (len rest + 4)) rest.

(** The chunk that [embedLyrics] writes at the end of the file. *)
Definition id3Chunk (frames : list buffer) : buffer :=
  ascii "ID3 " ++ uint32LE (len (createID3v24Tag frames))
  ++ createID3v24Tag frames.

(** A frame of an ID3v2.4 tag. *)
Record frame := mkFrame {
  f_id : buffer;
  f_flags : buffer;
  f_data : buffer
}.

Definition frameBytes (fr : frame) : buffer :=
  f_id fr ++ syncsafe (len (f_data fr)) ++ f_flags fr ++ f_data fr.

Definition frameOk (fr : frame) : bool :=
  isFrameId (f_id fr) && (List.length (f_flags fr) =? 2)%nat
  && (0 <? len (f_data fr)).

Definition isLyrics (fr : frame) : bool := beq (f_id fr) (ascii "USLT").

(** The frame of the lyrics, as [createUSLTFrame] builds it. *)
Definition lyricsFrame (lyrics : jsstring) : frame :=
  mkFrame (ascii "USLT") [0; 0]
          ([0x03] ++ ascii "XXX" ++ [0x00] ++ utf8 lyrics).


(** Every element is a byte. *)
Definition isByte (b : Z) : bool := (0 <=? b) && (b <? 256).
Definition bytesOk (buf : buffer) : bool := forallb isByte buf.

End Wave.

Module WaveSamples.
Import EmbedLyrics Wave.
Local Open Scope Z_scope.

(** A small file: the format chunk and three bytes of samples. *)
Definition fmt : chunk :=
  mkChunk (ascii "fmt ")
    [1; 0; 2; 0; 0x44; 0xAC; 0; 0; 0x10; 0xB1; 2; 0; 4; 0; 16; 0].

Definition data : chunk := mkChunk (ascii "data") [1; 2; 3].

Definition sizeField : buffer := [0; 0; 0; 0].

Definition plain : buffer := wave sizeField (body [fmt; data]).

(** A picture frame, as another tool may have left in the tag. *)
Definition picture : frame := mkFrame (ascii "APIC") [0; 0] [0; 1; 2; 3; 4].

Definition tagged : buffer :=
  wave sizeField
    (body [fmt; data]
     ++ id3Chunk (map frameBytes [picture; lyricsFrame (js "la la")])).

End WaveSamples.

(* ------------------------------------------------------------------ *)
(** ** split_cd.js: the songs of a directory in directories of a size *)
(* ------------------------------------------------------------------ *)

Module SplitCd.

(** A song of [getAudioFiles]: the path of the audio file and that of
    its lyric file, if it has one. *)
Record song := mkSong {
  audio : jsstring;
  lrc : option jsstring
}.

(** [`CD${index}`] *)
Definition cdName (index : nat) : jsstring :=
  js "CD" ++ js (NilEmpty.string_of_uint (Nat.to_uint index)).

Section Disk.

(** The file system: [None] stands for an exception. *)
Variable World : Type.
Variable existsSync : World -> jsstring -> bool.
Variable mkdirSync : jsstring -> World -> option World.
Variable renameSync : jsstring -> jsstring -> World -> option World.
Variable writeFileSync : jsstring -> jsstring -> World -> option World.

(** [ensureCdDir]; [None] stands for [process.exit(1)]. *)
Definition ensureCdDir (baseDir : jsstring) (index : nat) (w : World)
    : option (jsstring * World) :=
  let name := cdName index in
  let dir := Path.join baseDir name in
  if negb (existsSync w dir) then
    match mkdirSync dir w with
    | Some w => Some (dir, w)
    | None => None
    end
  else Some (dir, w).

Definition moveFile (src dest : jsstring) (dryRun : bool) (w : World) : World :=
  if dryRun then w
  else if existsSync w dest then w
  else match renameSync src dest w with
       | Some w' => w'
       | None => w
       end.

(** The variables of the loop of [splitDirectory].  The keys of
    [cdTracks] are the texts [String(cdIndex)], kept here as the
    numbers that they write. *)
Record state := mkState {
  cdIndex : nat;
  cdTracks : list (nat * list jsstring);
  disk : World
}.

(** One turn of the loop, for the song at the index [i]. *)
Definition splitStep (targetDir : jsstring) (size : nat) (dryRun : bool)
    (st : state) (entry : nat * song) : option state :=
  let (i, song) := entry in
  let slot := (i / size + 1)%nat in
  let cdIndex := if negb (slot =? cdIndex st)%nat then slot else cdIndex st in
  match ensureCdDir targetDir cdIndex (disk st) with
  | None => None
  | Some (cdDir, w) =>
      let destAudio := Path.join cdDir (Path.basename (audio song)) in
      let w := moveFile (audio song) destAudio dryRun w in
      let cdTracks :=
        JsMap.push Nat.eqb cdIndex (Path.basename (audio song)) (cdTracks st) in
      let w :=
        match lrc song with
        | Some l =>
            if truthy l
            then moveFile l (Path.join cdDir (Path.basename l)) dryRun w
            else w
        | None => w
        end in
      Some (mkState cdIndex cdTracks w)
  end.

Definition splitLoop (targetDir : jsstring) (size : nat) (dryRun : bool)
    (songs : list song) (w : World) : option state :=
  fold_left
    (fun (st : option state) (entry : nat * song) =>
       match st with
       | Some st => splitStep targetDir size dryRun st entry
       | None => None
       end)
    (JsArray.indexed songs) (Some (mkState 1 [] w)).

(** [Object.keys(cdTracks)]: the keys that write a number come in the
    order of the numbers. *)
Definition objectKeys (cdTracks : list (nat * list jsstring))
    : list (nat * list jsstring) :=
  JsArray.sort (fun a b => Nat.compare (fst a) (fst b)) cdTracks.

(** The playlist of one directory. *)
Definition writePlaylist (targetDir : jsstring) (w : option World)
    (entry : nat * list jsstring) : option World :=
  match w with
  | None => None
  | Some w =>
      match ensureCdDir targetDir (fst entry) w with
      | None => None
      | Some (cdDir, w) =>
          let playlistPath := Path.join cdDir (js "playlist.m3u") in
          let lines := js "#EXTM3U" :: snd entry in
          match writeFileSync playlistPath (Checker.joinLines lines) w with
          | Some w' => Some w'
          | None => Some w
          end
      end
  end.

(** [splitDirectory] on the songs that [getAudioFiles] gave, for a
    [size] that is a whole number, 1 at least, as [parseArgs] gives
    it. *)
Definition splitDirectory (songs : list song) (targetDir : jsstring) (size : nat)
    (dryRun : bool) (w : World) : option World :=
  if (List.length songs =? 0)%nat then Some w
  else
    match splitLoop targetDir size dryRun songs w with
    | None => None
    | Some st =>
        if negb dryRun
        then fold_left (writePlaylist targetDir) (objectKeys (cdTracks st))
               (Some (disk st))
        else Some (disk st)
    end.

End Disk.

End SplitCd.

Module SplitSamples.
Import SplitCd.

(** A disk of which only the names matter: everything is there to be
    made, nothing exists and no call throws. *)
Definition World : Type := unit.
Definition existsSync (_ : World) (_ : jsstring) : bool := false.
Definition mkdirSync (_ : jsstring) (w : World) : option World := Some w.
Definition renameSync (_ _ : jsstring) (w : World) : option World := Some w.

(** A disk on which no file can be renamed or written. *)
Definition renameFails (_ _ : jsstring) (_ : World) : option World := None.
Definition writeFails (_ _ : jsstring) (_ : World) : option World := None.

Definition songs : list song :=
  [mkSong (js "/m/a.mp3") (Some (js "/m/a.lrc"));
   mkSong (js "/m/b.mp3") None;
   mkSong (js "/m/c.flac") None;
   mkSong (js "/m/d.wav") None;
   mkSong (js "/m/e.mp3") None].

Definition afterLoop : state World :=
  mkState World 3
    [(1%nat, [js "a.mp3"; js "b.mp3"]); (2%nat, [js "c.flac"; js "d.wav"]);
     (3%nat, [js "e.mp3"])]
    tt.

End SplitSamples.

(* ------------------------------------------------------------------ *)
(** ** The scans of the directories *)
(* ------------------------------------------------------------------ *)

Module Tree.

#[local] Set Warnings "-register-all".

(** What the scans meet on the disk: something that is no directory, a
    name that [fs.statSync] throws on, and a directory with what
    [fs.readdirSync] gives for it, or [None] when that throws. *)
Inductive node : Type :=
| File
| Missing
| Dir (listing : option (list (jsstring * node))).

(** [findAllFiles] of check_duplicates_enhanced.js; [n] is what [dir]
    names.  A path that does not exist and one that cannot be read give
    the empty array alike. *)
Fixpoint findAllFiles (dir : jsstring) (n : node) {struct n} : list jsstring :=
  match n with
  | Dir (Some listing) =>
      fold_left
        (fun (results : list jsstring) (entry : jsstring * node) =>
           let (file, sub) := entry in
           if startsWith (js ".") file then results
           else
             let fullPath := Path.join dir file in
             match sub with
             | Dir _ => results ++ findAllFiles fullPath sub
             | File => results ++ [fullPath]
             | Missing => results
             end)
        listing []
  | _ => []
  end.

(** [findFiles] of check_duplicates_utils.js, with [options.audioOnly]. *)
Fixpoint findFiles (dir : jsstring) (audioOnly : bool) (n : node) {struct n}
    : list jsstring :=
  match n with
  | Dir (Some listing) =>
      fold_left
        (fun (results : list jsstring) (entry : jsstring * node) =>
           let (file, sub) := entry in
           if startsWith (js ".") file then results
           else if audioOnly && negb (Mover.isAudio file) then
             let fullPath := Path.join dir file in
             match sub with
             | Dir _ => results ++ findFiles fullPath audioOnly sub
             | _ => results
             end
           else
             let fullPath := Path.join dir file in
             match sub with
             | Dir _ => results ++ findFiles fullPath audioOnly sub
             | File => results ++ [fullPath]
             | Missing => results
             end)
        listing []
  | _ => []
  end.

(** The names that [scanEmptyDirs] passes over. *)
Definition isSystemFile (item : jsstring) : bool :=
  eqb item (js ".DS_Store") || eqb item (js "Thumbs.db")
  || eqb item (js "Desktop.ini").

(** [scanEmptyDirs] of check_duplicates.js: the answer of the function
    with the array [emptyDirs] after the call. *)
Fixpoint scanEmptyDirs (absoluteTargetDir dir : jsstring) (n : node)
    (emptyDirs : list jsstring) {struct n} : bool * list jsstring :=
  match n with
  | Dir (Some items) =>
      let (hasValidFiles, emptyDirs) :=
        fold_left
          (fun (st : bool * list jsstring) (entry : jsstring * node) =>
             let (hasValidFiles, emptyDirs) := st in
             let (item, sub) := entry in
             if isSystemFile item then st
             else
               let fullPath := Path.join dir item in
               match sub with
               | Missing => st
               | Dir _ =>
                   let (isSubDirEmpty, emptyDirs) :=
                     scanEmptyDirs absoluteTargetDir fullPath sub emptyDirs in
                   (if negb isSubDirEmpty then true else hasValidFiles, emptyDirs)
               | File =>
                   if eqb (toLowerCase item) (js "cover.jpg") then st
                   else (true, emptyDirs)
               end)
          items (false, emptyDirs) in
      if negb hasValidFiles then
        (true,
         if negb (eqb dir absoluteTargetDir) then emptyDirs ++ [dir] else emptyDirs)
      else (false, emptyDirs)
  | _ => (false, emptyDirs)
  end.


End Tree.

(** The notions in which the properties of the scans are stated. *)
Module TreeNotions.
Import Tree.

(** A name as [fs.readdirSync] gives them: not empty, without
    separator. *)
Definition plainName (file : jsstring) : bool :=
  truthy file && negb (existsb Path.isSlash file).

Fixpoint noRepeat (names : list jsstring) : bool :=
  match names with
  | [] => true
  | x :: rest => negb (existsb (eqb x) rest) && noRepeat rest
  end.

(** The names of every directory are plain and differ from one
    another. *)
Fixpoint wellFormed (n : node) : bool :=
  match n with
  | Dir (Some listing) =>
      noRepeat (map fst listing)
      && forallb (fun entry : jsstring * node =>
                    let (file, sub) := entry in plainName file && wellFormed sub)
                 listing
  | _ => true
  end.

(** [found dir n p]: from the directory [n] at [dir] the path [p]
    leads, through names that do not start with a dot, to something
    that is no directory. *)
Inductive found : jsstring -> node -> jsstring -> Prop :=
| found_file dir listing file :
    In (file, File) listing -> startsWith (js ".") file = false ->
    found dir (Dir (Some listing)) (Path.join dir file)
| found_below dir listing file l p :
    In (file, Dir l) listing -> startsWith (js ".") file = false ->
    found (Path.join dir file) (Dir l) p ->
    found dir (Dir (Some listing)) p.

(** A directory that holds nothing to keep: it can be read, and what
    it lists are system files, names without a target, covers and
    directories of the same kind. *)
Fixpoint hollow (n : node) : bool :=
  match n with
  | Dir (Some items) =>
      forallb (fun entry : jsstring * node =>
                 let (item, sub) := entry in
                 isSystemFile item
                 || match sub with
                    | Missing => true
                    | File => eqb (toLowerCase item) (js "cover.jpg")
                    | Dir _ => hollow sub
                    end)
              items
  | _ => false
  end.

(** [below dir n p m]: [p] is the path of the directory [m], which is
    [n] at [dir] or is reached from it through directories that are no
    system files. *)
Inductive below : jsstring -> node -> jsstring -> node -> Prop :=
| below_here dir n : below dir n dir n
| below_entry dir items item l p m :
    In (item, Dir l) items -> isSystemFile item = false ->
    below (Path.join dir item) (Dir l) p m ->
    below dir (Dir (Some items)) p m.

End TreeNotions.

Module TreeSamples.
Import Tree.

(** An album with a hidden file, two songs, an empty directory and a
    directory that holds only a cover. *)
Definition album : node :=
  Dir (Some [(js ".DS_Store", File);
             (js "a.mp3", File);
             (js "notes.txt", File);
             (js "CD1", Dir (Some [(js "b.flac", File); (js "c.jpg", File)]));
             (js "old", Dir (Some []));
             (js "art", Dir (Some [(js "Cover.JPG", File)]))]).

End TreeSamples.

(** ** A group of the checker *)

Module CheckerSamples.
Import Checker.

(** A group of three: a concert recording, the largest of the files,
    and two studio files. *)
Definition concert : musicFile :=
  mkMusicFile (js "七里香 (Live).flac") (js "/m/七里香 (Live).flac") 30000000.

Definition studio : musicFile :=
  mkMusicFile (js "七里香.mp3") (js "/m/七里香.mp3") 9000000.

Definition small : musicFile :=
  mkMusicFile (js "七里香 副本.mp3") (js "/m/七里香 副本.mp3") 5000000.

Definition qilixiang : group :=
  mkGroup (js "七里香") [concert; small; studio].

End CheckerSamples.

(* ================================================================== *)
(** * Properties *)
(* ================================================================== *)

(** ** Strings *)

Lemma eqb_eq (a b : jsstring) : eqb a b = true <-> a = b.
Proof.
  unfold eqb. destruct (list_eq_dec N.eq_dec a b); split; congruence.
Qed.

Lemma eqb_refl (a : jsstring) : eqb a a = true.
Proof. apply eqb_eq. reflexivity. Qed.

Lemma eqb_neq (a b : jsstring) : eqb a b = false <-> a <> b.
Proof.
  unfold eqb. destruct (list_eq_dec N.eq_dec a b); split; congruence.
Qed.

(** ** Lower case *)

Lemma lowersAlone_undotted c : lowersAlone c = true -> c <> 0x130.
Proof. intros H ->. vm_compute in H. discriminate. Qed.

(** Without the capital I with a dot, lowering is a map on the units. *)
Lemma toLowerCase_undotted s : ~ In 0x130 s -> toLowerCase s = map lowerUnit s.
Proof.
  induction s as [|c s IH]; [reflexivity|]. intros H.
  change (toLowerCase (c :: s)) with (lowerUnits c ++ toLowerCase s).
  unfold lowerUnits. destruct (N.eqb_spec c 0x130) as [->|_].
  - exfalso. apply H. left. reflexivity.
  - simpl. f_equal. apply IH. intros Hs. apply H. right. exact Hs.
Qed.

Lemma toLowerCase_alone s :
  forallb lowersAlone s = true -> toLowerCase s = map lowerUnit s.
Proof.
  intros H. apply toLowerCase_undotted. intros Hin.
  rewrite forallb_forall in H. exact (lowersAlone_undotted _ (H _ Hin) eq_refl).
Qed.

(** Lowering adds one unit for each capital I with a dot. *)
Lemma toLowerCase_length s :
  List.length (toLowerCase s)
  = (List.length s + count_occ N.eq_dec s 0x130%N)%nat.
Proof.
  induction s as [|c s IH]; [reflexivity|].
  change (toLowerCase (c :: s)) with (lowerUnits c ++ toLowerCase s).
  rewrite length_app, IH. unfold lowerUnits. simpl count_occ.
  destruct (N.eqb_spec c 0x130) as [->|Hc].
  - destruct (N.eq_dec 0x130 0x130) as [_|E]; [simpl; lia | congruence].
  - destruct (N.eq_dec c 0x130) as [E|_]; [congruence | simpl; lia].
Qed.

(** ** Maps in insertion order *)

Module JsMapFacts.
Import JsMap Spec.

Section Facts.
Context {K V : Type}.
Variable keqb : K -> K -> bool.
Hypothesis keqb_spec : forall a b, keqb a b = true <-> a = b.
Variable key : V -> option K.

Lemma keqb_refl k : keqb k k = true.
Proof. apply keqb_spec. reflexivity. Qed.

Lemma push_keys k v (m : list (K * list V)) k' :
  In k' (map fst (push keqb k v m)) <-> k' = k \/ In k' (map fst m).
Proof.
  induction m as [|[k0 vs] m IH]; simpl.
  - intuition congruence.
  - destruct (keqb k k0) eqn:E; simpl.
    + apply keqb_spec in E. subst. intuition congruence.
    + rewrite IH. intuition congruence.
Qed.

Lemma push_NoDup k v (m : list (K * list V)) :
  NoDup (map fst m) -> NoDup (map fst (push keqb k v m)).
Proof.
  induction m as [|[k0 vs] m IH]; simpl; intros H.
  - constructor; [simpl; tauto | constructor].
  - inversion H; subst. destruct (keqb k k0) eqn:E; simpl.
    + constructor; assumption.
    + constructor; [|auto]. rewrite push_keys. intros [->|?]; [|tauto].
      rewrite keqb_refl in E. discriminate.
Qed.

Lemma get_push k v (m : list (K * list V)) k' :
  get keqb k' (push keqb k v m) =
  if keqb k' k
  then Some (match get keqb k m with Some vs => vs | None => [] end ++ [v])
  else get keqb k' m.
Proof.
  induction m as [|[k0 vs] m IH]; simpl.
  - reflexivity.
  - destruct (keqb k k0) eqn:E; simpl.
    + apply keqb_spec in E. subst k0. destruct (keqb k' k); reflexivity.
    + rewrite IH. destruct (keqb k' k0) eqn:E0; [|reflexivity].
      apply keqb_spec in E0. subst k0.
      destruct (keqb k' k) eqn:E1; [|reflexivity].
      apply keqb_spec in E1. subst k'. rewrite keqb_refl in E. discriminate.
Qed.

Lemma get_In k vs (m : list (K * list V)) :
  NoDup (map fst m) -> (In (k, vs) m <-> get keqb k m = Some vs).
Proof.
  induction m as [|[k0 vs0] m IH]; simpl; intros H.
  - split; [tauto | discriminate].
  - inversion H as [|? ? Hn Hd]; subst. destruct (keqb k k0) eqn:E.
    + apply keqb_spec in E. subst k0. split.
      * intros [H0|H0]; [congruence|]. exfalso. apply Hn.
        change k with (fst (k, vs)). apply in_map. assumption.
      * intros H0. left. congruence.
    + rewrite <- (IH Hd). split; [|tauto]. intros [H0|H0]; [|assumption].
      inversion H0; subst. rewrite keqb_refl in E. discriminate.
Qed.

Lemma nonEmpty_app (vs : list V) v : nonEmpty (vs ++ [v]) = Some (vs ++ [v]).
Proof. destruct vs; reflexivity. Qed.

Lemma groupBy_NoDup (l : list V) : NoDup (map fst (groupBy keqb key l)).
Proof.
  unfold groupBy. induction l as [|v l IH] using rev_ind; simpl.
  - constructor.
  - rewrite fold_left_app. simpl. destruct (key v); [|assumption].
    apply push_NoDup. assumption.
Qed.

Lemma get_groupBy (l : list V) k :
  get keqb k (groupBy keqb key l) = nonEmpty (filter (keyIs keqb key k) l).
Proof.
  unfold groupBy. induction l as [|v l IH] using rev_ind; simpl.
  - reflexivity.
  - rewrite fold_left_app, filter_app. simpl. unfold keyIs at 2.
    destruct (key v) as [k0|] eqn:Ek.
    + rewrite get_push. destruct (keqb k k0) eqn:E.
      * apply keqb_spec in E. subst k0. rewrite keqb_refl, IH, nonEmpty_app.
        destruct (filter (keyIs keqb key k) l); reflexivity.
      * destruct (keqb k0 k) eqn:E'.
        { apply keqb_spec in E'. subst k0. rewrite keqb_refl in E. discriminate. }
        rewrite app_nil_r. assumption.
    + rewrite app_nil_r. assumption.
Qed.

(** The entries of the Map: under each key that occurs, the elements of
    that key, in the order of the array. *)
Lemma groupBy_In (l : list V) k vs :
  In (k, vs) (groupBy keqb key l) <->
  vs = filter (keyIs keqb key k) l /\ vs <> [].
Proof.
  rewrite (get_In _ _ _ (groupBy_NoDup l)), get_groupBy.
  destruct (filter (keyIs keqb key k) l) as [|x r] eqn:E; simpl.
  - split; [discriminate | intros [-> H]; congruence].
  - split; [intros H; inversion H; split; [reflexivity | discriminate]
           | intros [-> _]; reflexivity].
Qed.

Lemma groupBy_member (l : list V) k vs v :
  In (k, vs) (groupBy keqb key l) -> In v vs -> In v l /\ key v = Some k.
Proof.
  intros H Hv. apply groupBy_In in H. destruct H as [-> _].
  apply filter_In in Hv. destruct Hv as [Hv Hk]. split; [assumption|].
  unfold keyIs in Hk. destruct (key v); [|discriminate].
  apply keqb_spec in Hk. congruence.
Qed.

End Facts.

End JsMapFacts.

(** ** Sorting *)

Module JsArrayFacts.
Import JsArray Spec.

Section Facts.
Context {A : Type}.
Variable sgn : A -> A -> comparison.

Lemma insert_perm x (l : list A) : Permutation (insert sgn x l) (x :: l).
Proof.
  induction l as [|y l IH]; simpl.
  - apply Permutation_refl.
  - destruct (sgn x y); try apply Permutation_refl.
    apply perm_trans with (y :: x :: l).
    + apply perm_skip. assumption.
    + apply perm_swap.
Qed.

Lemma sort_perm (l : list A) : Permutation (sort sgn l) l.
Proof.
  induction l as [|x l IH]; simpl.
  - apply perm_nil.
  - apply perm_trans with (x :: sort sgn l).
    + apply insert_perm.
    + apply perm_skip. assumption.
Qed.

Lemma sort_In (l : list A) x : In x (sort sgn l) <-> In x l.
Proof.
  split; apply Permutation_in;
    [apply sort_perm | apply Permutation_sym, sort_perm].
Qed.

Lemma sort_length (l : list A) : List.length (sort sgn l) = List.length l.
Proof. apply Permutation_length, sort_perm. Qed.

(** A comparator never puts each of two elements after the other. *)
Hypothesis sgn_asym : forall x y, sgn x y = Gt -> sgn y x <> Gt.

Lemma insert_hd x (l : list A) y :
  HdRel (notAfter sgn) y l -> notAfter sgn y x -> HdRel (notAfter sgn) y (insert sgn x l).
Proof.
  intros Hl Hx. destruct l as [|z l]; simpl.
  - constructor. assumption.
  - inversion Hl; subst. destruct (sgn x z); constructor; assumption.
Qed.

Lemma insert_sorted x (l : list A) :
  Sorted (notAfter sgn) l -> Sorted (notAfter sgn) (insert sgn x l).
Proof.
  induction l as [|y l IH]; simpl; intros H.
  - repeat constructor.
  - inversion H; subst. destruct (sgn x y) eqn:E.
    + repeat constructor; try assumption. unfold notAfter. congruence.
    + repeat constructor; try assumption. unfold notAfter. congruence.
    + constructor; [auto|]. apply insert_hd; [assumption|].
      apply sgn_asym. assumption.
Qed.

Lemma sort_sorted (l : list A) : Sorted (notAfter sgn) (sort sgn l).
Proof.
  induction l as [|x l IH]; simpl; [constructor | apply insert_sorted, IH].
Qed.

Lemma sort_of_sorted (l : list A) : Sorted (notAfter sgn) l -> sort sgn l = l.
Proof.
  induction l as [|x l IH]; simpl; intros H; [reflexivity|].
  inversion H as [|? ? Hs Hh]; subst. rewrite (IH Hs).
  destruct l as [|y l]; simpl; [reflexivity|].
  inversion Hh as [|? ? Hxy]; subst. unfold notAfter in Hxy.
  destruct (sgn x y); congruence.
Qed.

(** Sorting again changes nothing. *)
Lemma sort_idem (l : list A) : sort sgn (sort sgn l) = sort sgn l.
Proof. apply sort_of_sorted, sort_sorted. Qed.

End Facts.

Lemma nth_error_indexed {A : Type} (l : list A) i x :
  nth_error l i = Some x -> In (i, x) (indexed l).
Proof.
  unfold indexed. change i with (0 + i)%nat at 2. generalize O.
  revert i. induction l as [|y l IH]; intros [|i] s H; simpl in *;
    try discriminate.
  - inversion H. left. f_equal. lia.
  - right. replace (s + S i)%nat with (S s + i)%nat by lia. apply IH, H.
Qed.

End JsArrayFacts.

(** ** Runs of lines *)

Module Lines.
Import Spec.

Lemma infix_refl {A : Type} (l : list A) : infix l l.
Proof. exists [], []. rewrite app_nil_r. reflexivity. Qed.

Lemma infix_app_r {A : Type} (seg l pre : list A) :
  infix seg l -> infix seg (pre ++ l).
Proof.
  intros [l1 [l2 ->]]. exists (pre ++ l1), l2. rewrite app_assoc. reflexivity.
Qed.

Lemma infix_app_l {A : Type} (seg l post : list A) :
  infix seg l -> infix seg (l ++ post).
Proof.
  intros [l1 [l2 ->]]. exists l1, (l2 ++ post).
  rewrite <- !app_assoc. reflexivity.
Qed.

Lemma infix_flat_map {A B : Type} (f : A -> list B) (l : list A) x seg :
  In x l -> infix seg (f x) -> infix seg (flat_map f l).
Proof.
  intros Hx Hs. apply in_split in Hx. destruct Hx as [l1 [l2 ->]].
  rewrite flat_map_app. simpl. apply infix_app_r, infix_app_l, Hs.
Qed.

End Lines.


(** ** Trimming and the units of a string *)

Module StringFacts.
Import Spec.

Lemma trimStart_units (P : N -> bool) s :
  forallb P s = true -> forallb P (trimStart s) = true.
Proof.
  induction s as [|c s IH]; [reflexivity|]. intros H. simpl.
  destruct (isSpace c); [|exact H].
  simpl in H. apply andb_true_iff in H. apply IH, H.
Qed.

Lemma rev_units (P : N -> bool) s : forallb P (rev s) = forallb P s.
Proof.
  induction s as [|c s IH]; [reflexivity|]. simpl.
  rewrite forallb_app, IH. simpl. rewrite andb_true_r. apply andb_comm.
Qed.

Lemma trim_units (P : N -> bool) s :
  forallb P s = true -> forallb P (trim s) = true.
Proof.
  intros H. unfold trim, trimEnd. rewrite rev_units.
  apply trimStart_units. rewrite rev_units. apply trimStart_units, H.
Qed.

Lemma prefix_units (P : N -> bool) (s out block : jsstring) :
  s = out ++ block -> forallb P s = true -> forallb P out = true.
Proof.
  intros -> H. rewrite forallb_app in H. apply andb_true_iff in H. tauto.
Qed.

(** A string with no white space is its own trimmed form. *)
Lemma trimStart_spaceless s :
  forallb (fun c => negb (isSpace c)) s = true -> trimStart s = s.
Proof.
  destruct s as [|c s]; [reflexivity|]. simpl. intros H.
  apply andb_true_iff in H. destruct H as [H _].
  apply negb_true_iff in H. rewrite H. reflexivity.
Qed.

Lemma trim_spaceless s :
  forallb (fun c => negb (isSpace c)) s = true -> trim s = s.
Proof.
  intros H. unfold trim, trimEnd. rewrite (trimStart_spaceless s H).
  rewrite trimStart_spaceless; [apply rev_involutive|].
  rewrite rev_units. exact H.
Qed.

Lemma stripSpaces_spaceless s :
  forallb (fun c => negb (isSpace c)) (stripSpaces s) = true.
Proof.
  unfold stripSpaces. apply forallb_forall. intros c Hc.
  apply filter_In in Hc. tauto.
Qed.

(** What [trimStart] takes off is white space at the start. *)
Lemma trimStart_split s :
  exists ws, s = ws ++ trimStart s /\ forallb isSpace ws = true.
Proof.
  induction s as [|c s [ws [E H]]]; [exists []; auto|]. simpl.
  destruct (isSpace c) eqn:Ec.
  - exists (c :: ws). simpl. rewrite Ec, H. split; [congruence | reflexivity].
  - exists []. auto.
Qed.

(** The last unit of a string that ends with a block that is not empty
    is the last unit of the block. *)
Lemma last_of_app (a b : jsstring) d : b <> [] -> last (a ++ b) d = last b d.
Proof.
  intros Hb. induction a as [|x a IH]; [reflexivity|].
  simpl app. change (last (x :: a ++ b) d)
    with (match a ++ b with [] => x | _ :: _ => last (a ++ b) d end).
  destruct (a ++ b) eqn:E; [|exact IH].
  apply app_eq_nil in E. tauto.
Qed.

Lemma last_of_skipn (s : jsstring) n d :
  skipn n s <> [] -> last (skipn n s) d = last s d.
Proof.
  intros H. rewrite <- (firstn_skipn n s) at 2. symmetry. apply last_of_app, H.
Qed.

(** *** Occurrences *)

Lemma startsWith_prefix p s :
  startsWith p s = true <-> exists post, s = p ++ post.
Proof.
  revert s. induction p as [|a p IH]; intros s; simpl.
  - split; [intros _; exists s; reflexivity | reflexivity].
  - destruct s as [|b s].
    + split; [discriminate | intros [post H]; discriminate].
    + rewrite andb_true_iff, N.eqb_eq, IH. split.
      * intros [-> [post ->]]. exists post. reflexivity.
      * intros [post H]. inversion H. eauto.
Qed.

Lemma indexOf_first p s i :
  indexOf p s = Some i ->
  firstSplit p s (firstn i s) (skipn (i + List.length p) s)
  /\ List.length (firstn i s) = i.
Proof.
  revert i. induction s as [|c s IH]; intros i.
  - simpl. destruct (startsWith p []) eqn:E; [|discriminate].
    intros H. inversion H. subst i. apply startsWith_prefix in E.
    destruct E as [post E]. symmetry in E. apply app_eq_nil in E.
    destruct E as [-> ->]. split; [|reflexivity]. split; [reflexivity|].
    intros pre' post' _. simpl. lia.
  - simpl indexOf. destruct (startsWith p (c :: s)) eqn:E.
    + intros H. inversion H. subst i. apply startsWith_prefix in E.
      destruct E as [post E]. split; [|reflexivity]. split.
      * simpl firstn. simpl plus. rewrite E. rewrite skipn_app, skipn_all.
        rewrite Nat.sub_diag. reflexivity.
      * intros pre' post' _. simpl. lia.
    + destruct (indexOf p s) as [k|] eqn:Ek; [|discriminate].
      intros H. inversion H. subst i. destruct (IH k eq_refl) as [[H1 H2] H3].
      split; [|simpl; rewrite H3; reflexivity]. split.
      * simpl. rewrite H1 at 1. reflexivity.
      * intros pre' post' E'. destruct pre' as [|x pre'].
        -- exfalso. assert (T : startsWith p (c :: s) = true)
             by (apply startsWith_prefix; exists post'; exact E').
           congruence.
        -- simpl in E'. injection E' as Ex Es.
           specialize (H2 pre' post' Es).
           change (firstn (S k) (c :: s)) with (c :: firstn k s).
           cbn [List.length]. lia.
Qed.

Lemma indexOf_none p s : indexOf p s = None -> ~ holds p s.
Proof.
  induction s as [|c s IH]; simpl.
  - destruct (startsWith p []) eqn:E; [discriminate|]. intros _ [pre [post H]].
    symmetry in H. apply app_eq_nil in H. destruct H as [-> H].
    apply app_eq_nil in H. destruct H as [-> ->]. discriminate.
  - destruct (startsWith p (c :: s)) eqn:E; [discriminate|].
    destruct (indexOf p s) as [k|]; [discriminate|]. intros _ [pre [post H]].
    destruct pre as [|x pre].
    + assert (T : startsWith p (c :: s) = true)
        by (apply startsWith_prefix; exists post; exact H).
      congruence.
    + simpl in H. injection H as Hx Hs. apply IH; [reflexivity|].
      exists pre, post. exact Hs.
Qed.

Lemma includes_holds p s : includes p s = true <-> holds p s.
Proof.
  unfold includes. destruct (indexOf p s) as [i|] eqn:E.
  - split; [|reflexivity]. intros _. destruct (indexOf_first p s i E) as [[H _] _].
    eexists. eexists. exact H.
  - split; [discriminate|]. intros H. exfalso. exact (indexOf_none p s E H).
Qed.

Lemma includes_not p s : includes p s = false <-> ~ holds p s.
Proof.
  rewrite <- includes_holds. destruct (includes p s); split; congruence.
Qed.

(** The first split is one split only. *)
Lemma firstSplit_one sep s pre post pre' post' :
  firstSplit sep s pre post -> firstSplit sep s pre' post' ->
  pre = pre' /\ post = post'.
Proof.
  intros [E1 M1] [E2 M2].
  pose proof (M1 _ _ E2). pose proof (M2 _ _ E1).
  assert (L : List.length pre = List.length pre') by lia.
  rewrite E1 in E2.
  assert (P : pre = pre').
  { apply (f_equal (firstn (List.length pre))) in E2.
    rewrite firstn_app, firstn_all, Nat.sub_diag in E2. simpl in E2.
    rewrite app_nil_r in E2. rewrite L in E2 at 1.
    rewrite firstn_app, firstn_all, Nat.sub_diag in E2. simpl in E2.
    rewrite app_nil_r in E2. exact E2. }
  subst pre'. apply app_inv_head in E2. apply app_inv_head in E2. tauto.
Qed.

Lemma firstSplit_indexOf sep s pre post :
  firstSplit sep s pre post ->
  indexOf sep s = Some (List.length pre)
  /\ firstn (List.length pre) s = pre
  /\ skipn (List.length pre + List.length sep) s = post.
Proof.
  intros H. destruct (indexOf sep s) as [i|] eqn:E.
  - destruct (indexOf_first sep s i E) as [H1 H2].
    destruct (firstSplit_one _ _ _ _ _ _ H H1) as [P Q].
    rewrite P at 1. rewrite H2. split; [reflexivity|].
    rewrite P at 1. rewrite H2. split; [symmetry; exact P|].
    rewrite P at 1. rewrite H2. symmetry. exact Q.
  - exfalso. apply (indexOf_none sep s E). destruct H as [H _].
    exists pre, post. exact H.
Qed.

Lemma holds_firstSplit sep s :
  holds sep s -> exists pre post, firstSplit sep s pre post.
Proof.
  intros H. apply includes_holds in H. unfold includes in H.
  destruct (indexOf sep s) as [i|] eqn:E; [|discriminate].
  destruct (indexOf_first sep s i E) as [H1 _]. eauto.
Qed.

Lemma firstSplit_holds sep s pre post : firstSplit sep s pre post -> holds sep s.
Proof. intros [H _]. exists pre, post. exact H. Qed.

Lemma splitAux_skip sep x s cur :
  splitAux sep (x ++ s) cur (List.length x) = splitAux sep s cur O.
Proof.
  induction x as [|c x IH]; [reflexivity|]. exact IH.
Qed.

Lemma splitAux_none sep s :
  sep <> [] -> ~ holds sep s ->
  forall cur, splitAux sep s cur O = [rev cur ++ s].
Proof.
  intros Hs. induction s as [|c s IH]; intros H cur.
  - simpl. rewrite app_nil_r. reflexivity.
  - simpl. destruct (startsWith sep (c :: s)) eqn:E.
    + exfalso. apply H. apply startsWith_prefix in E. destruct E as [post E].
      exists [], post. exact E.
    + rewrite IH.
      * simpl. rewrite <- app_assoc. reflexivity.
      * intros [pre [post E']]. apply H. exists (c :: pre), post.
        simpl. congruence.
Qed.

Lemma splitAux_first sep pre :
  sep <> [] ->
  forall s rest cur,
    firstSplit sep s pre rest ->
    splitAux sep s cur O = (rev cur ++ pre) :: splitAux sep rest [] O.
Proof.
  intros Hs. induction pre as [|c pre IH]; intros s rest cur [E M].
  - destruct sep as [|a sep]; [congruence|]. simpl in E. subst s.
    simpl splitAux.
    assert (T : startsWith (a :: sep) (a :: sep ++ rest) = true).
    { apply startsWith_prefix. exists rest. reflexivity. }
    simpl in T. rewrite T. rewrite app_nil_r. f_equal.
    rewrite Nat.sub_0_r. apply splitAux_skip.
  - subst s. simpl app. simpl splitAux.
    destruct (startsWith sep (c :: pre ++ sep ++ rest)) eqn:T.
    + exfalso. apply startsWith_prefix in T. destruct T as [post T].
      specialize (M [] post T). simpl in M. lia.
    + rewrite (IH (pre ++ sep ++ rest) rest (c :: cur)).
      * simpl. rewrite <- app_assoc. reflexivity.
      * split; [reflexivity|]. intros pre' post' E'.
        specialize (M (c :: pre') post'). simpl in M.
        rewrite E' in M. specialize (M eq_refl). lia.
Qed.

(** The first two parts that [split] gives. *)
Lemma split_two sep n pre rest mid :
  sep <> [] -> firstSplit sep n pre rest -> firstPiece sep rest mid ->
  exists more, split sep n = pre :: mid :: more.
Proof.
  intros Hs H1 H2. unfold split. rewrite (splitAux_first sep pre Hs n rest [] H1).
  simpl. destruct H2 as [[H2 ->] | [post H2]].
  - rewrite (splitAux_none sep rest Hs H2). exists []. reflexivity.
  - rewrite (splitAux_first sep mid Hs rest post [] H2). eexists. reflexivity.
Qed.

(** *** Letters in any case *)

Ltac bounds :=
  repeat match goal with
         | H : _ && _ = true |- _ => apply andb_true_iff in H; destruct H
         | H : _ && _ = false |- _ => apply andb_false_iff in H; destruct H
         | H : (_ <=? _) = true |- _ => apply N.leb_le in H
         | H : (_ <=? _) = false |- _ => apply N.leb_gt in H
         end.

Lemma ciEqb_sameLetter p c : ciEqb p c = true <-> sameLetter c p.
Proof.
  unfold ciEqb, foldUnit, isLower, sameLetter. rewrite N.eqb_eq.
  destruct ((97 <=? p) && (p <=? 122)) eqn:E1;
    destruct ((97 <=? c) && (c <=? 122)) eqn:E2;
    cbv beta iota; bounds; (split; [intros G | intros [G | [G | G]]]); lia.
Qed.

Lemma startsWithCi_iff word r :
  startsWithCi word r = true
  <-> exists w rest, r = w ++ rest /\ sameText w word.
Proof.
  revert r. induction word as [|p word IH]; intros r.
  - simpl. split; [|reflexivity]. intros _. exists [], r. split; [reflexivity|constructor].
  - destruct r as [|c r]; simpl.
    + split; [discriminate|]. intros [w [rest [E H]]]. inversion H; subst. discriminate.
    + rewrite andb_true_iff, ciEqb_sameLetter, IH. split.
      * intros [H1 [w [rest [-> H2]]]]. exists (c :: w), rest.
        split; [reflexivity | constructor; assumption].
      * intros [w [rest [E H]]]. inversion H as [|x y w' word' Hxy Hw]; subst.
        simpl in E. injection E as -> ->. split; [assumption|]. eauto.
Qed.

Lemma sameText_length a b : sameText a b -> List.length a = List.length b.
Proof. intros H. induction H; simpl; congruence. Qed.

End StringFacts.

(** ** Doubles *)

Module DoubleFacts.
Import Double.
Local Open Scope Q_scope.

Lemma pow2_pos e : 0 < pow2 e.
Proof. apply Qpower_0_lt. reflexivity. Qed.

Lemma pow2_plus a b : pow2 (a + b) == pow2 a * pow2 b.
Proof. apply Qpower_plus. discriminate. Qed.

Lemma pow2_Z n : (0 <= n)%Z -> pow2 n == inject_Z (2 ^ n).
Proof. intros H. unfold pow2. rewrite (Zpower_Qpower 2 n H). reflexivity. Qed.

Lemma roundEven_Z x z : x == inject_Z z -> roundEven x = z.
Proof.
  intros H. unfold roundEven.
  assert (F : Qfloor x = z) by (rewrite H; apply Qfloor_Z).
  rewrite F.
  assert (L : x - inject_Z z == 0) by (rewrite H; ring).
  destruct (Qcompare_spec (x - inject_Z z) (1 # 2)) as [E|_|G].
  - rewrite L in E. discriminate.
  - reflexivity.
  - rewrite L in G. discriminate.
Qed.

(** The exponent of a number is not above the number. *)
Lemma exponent_le x : 0 < x -> pow2 (exponent x) <= x.
Proof.
  intros Hx. unfold exponent. destruct (Qle_bool 1 x) eqn:E.
  - apply Qle_bool_iff in E.
    assert (F : (1 <= Qfloor x)%Z).
    { change 1%Z with (Qfloor 1). apply Qfloor_resp_le, E. }
    rewrite pow2_Z by apply Z.log2_nonneg.
    apply Qle_trans with (inject_Z (Qfloor x)); [|apply Qfloor_le].
    rewrite <- Zle_Qle. apply Z.log2_spec. lia.
  - assert (P : 0 < / x) by (apply Qinv_lt_0_compat, Hx).
    set (c := Qceiling (/ x)).
    assert (C : / x <= inject_Z c) by apply Qle_ceiling.
    assert (Cp : (0 < c)%Z).
    { rewrite Zlt_Qlt. exact (Qlt_le_trans _ _ _ P C). }
    assert (U : (c <= 2 ^ Z.log2_up c)%Z).
    { destruct (Z.eq_dec c 1) as [->|N1]; [reflexivity|].
      apply Z.log2_up_spec. lia. }
    unfold pow2. rewrite Qpower_opp. fold (pow2 (Z.log2_up c)).
    rewrite pow2_Z by apply Z.log2_up_nonneg.
    assert (I : / x <= inject_Z (2 ^ Z.log2_up c)).
    { apply Qle_trans with (inject_Z c); [exact C|]. rewrite <- Zle_Qle. exact U. }
    assert (Pp : 0 < inject_Z (2 ^ Z.log2_up c)).
    { exact (Qlt_le_trans _ _ _ P I). }
    apply Qle_shift_inv_r; [exact Pp|].
    assert (Nx : ~ x == 0) by (intros Z0; rewrite Z0 in Hx; discriminate).
    rewrite <- (Qmult_inv_r x Nx).
    apply (proj2 (Qmult_le_l _ _ _ Hx)). exact I.
Qed.

(** A number with 53 bits at a place that the doubles have is a
    double: rounding leaves it as it is. *)
Lemma nearest_exact x k g :
  x == inject_Z k * pow2 g -> (0 < k < 2 ^ 53)%Z -> (-1074 <= g)%Z ->
  nearest x == x.
Proof.
  intros Hx Hk Hg.
  assert (Px : 0 < x).
  { rewrite Hx. apply Qmult_lt_0_compat; [|apply pow2_pos].
    change 0 with (inject_Z 0). rewrite <- Zlt_Qlt. lia. }
  unfold nearest. set (e := exponent x).
  set (q := (Z.max e (-1022) - 52)%Z).
  assert (He : (e < 53 + g)%Z).
  { apply (Qpower_lt_compat_l_inv 2); [|reflexivity].
    apply Qle_lt_trans with x; [apply exponent_le, Px|].
    rewrite Hx. fold (pow2 (53 + g)). rewrite pow2_plus.
    apply Qmult_lt_compat_r; [apply pow2_pos|].
    rewrite pow2_Z by lia. rewrite <- Zlt_Qlt. lia. }
  assert (Hq : (q <= g)%Z) by (unfold q; lia).
  assert (D : x / pow2 q == inject_Z (k * 2 ^ (g - q))).
  { rewrite Hx. replace g with ((g - q) + q)%Z at 1 by ring.
    rewrite pow2_plus, (pow2_Z (g - q)) by lia.
    rewrite inject_Z_mult. field.
    intros Z0. pose proof (pow2_pos q) as P. rewrite Z0 in P. discriminate. }
  rewrite Qred_correct, (roundEven_Z _ _ D), inject_Z_mult.
  rewrite <- (pow2_Z (g - q)) by lia.
  rewrite <- Qmult_assoc, <- pow2_plus.
  replace (g - q + q)%Z with g by ring. symmetry. exact Hx.
Qed.

Lemma round_exact x k g :
  x == inject_Z k * pow2 g -> (0 <= k < 2 ^ 53)%Z -> (-1074 <= g)%Z ->
  round x == x.
Proof.
  intros Hx Hk Hg. unfold round.
  destruct (Z.eq_dec k 0) as [->|Nk].
  - assert (Z0 : x == 0) by (rewrite Hx; ring).
    rewrite (proj1 (Qeq_alt _ _) Z0). symmetry. exact Z0.
  - assert (Px : 0 < x).
    { rewrite Hx. apply Qmult_lt_0_compat; [|apply pow2_pos].
      change 0 with (inject_Z 0). rewrite <- Zlt_Qlt. lia. }
    rewrite (proj1 (Qgt_alt _ _) Px). apply (nearest_exact x k g Hx); [lia | exact Hg].
Qed.

(** The doubles that are multiples of [2^-20] below [2^33]. *)
Lemma round_grid x k :
  x == inject_Z k / 1048576 -> (0 <= k < 2 ^ 53)%Z -> round x == x.
Proof.
  intros Hx Hk. apply (round_exact x k (-20)); [|exact Hk | lia].
  rewrite Hx. reflexivity.
Qed.

End DoubleFacts.
(** ** check_duplicates_enhanced.js: the classifier *)

Module EnhancedRunFacts.
Import Enhanced EnhancedRun Spec.

Lemma N_eqb_spec (a b : N) : N.eqb a b = true <-> a = b.
Proof. apply N.eqb_eq. Qed.

Section Facts.
Variable getFileHash : jsstring -> option jsstring.

Lemma hashOf_Some f h :
  hashOf getFileHash f = Some h -> getFileHash (path f) = Some h /\ h <> [].
Proof.
  unfold hashOf. destruct (getFileHash (path f)) as [h'|]; [|discriminate].
  destruct h'; simpl; [discriminate|]. intros H. inversion H. subst.
  split; [reflexivity | discriminate].
Qed.

(** What phase A records of a group: its files all have the size and
    the hash of the record, and are files of the scan. *)
Lemma exactDuplicates_member fileInfos d f :
  In d (exactDuplicates getFileHash fileInfos) -> In f (ed_files d) ->
  In f fileInfos /\ size f = ed_size d
  /\ hashOf getFileHash f = Some (ed_hash d).
Proof.
  unfold exactDuplicates. intros Hd Hf.
  apply in_flat_map in Hd. destruct Hd as [[sz group] [Hg Hd]].
  unfold sizeGroups in Hg. apply filter_In in Hg. destruct Hg as [Hg _].
  unfold exactOfGroup in Hd. simpl in Hd.
  apply in_flat_map in Hd. destruct Hd as [[h same] [Hh Hd]]. simpl in Hd.
  destruct (1 <? List.length same)%nat; [|destruct Hd].
  destruct Hd as [Hd|[]]. subst d. simpl in *.
  destruct (JsMapFacts.groupBy_member _ eqb_eq _ _ _ _ _ Hh Hf) as [Hf' Hk].
  unfold sizeMap in Hg.
  destruct (JsMapFacts.groupBy_member _ N_eqb_spec _ _ _ _ _ Hg Hf') as [Hf'' Hs].
  inversion Hs. auto.
Qed.

End Facts.

(** C1. Exact-duplicate soundness: any two files that a run places in
    the same exact group have the same size and the same content hash,
    which is the hash of the group and is not null. *)
Theorem exact_groups_share_size_and_hash
    getFileHash relative now targetDir audioFiles lrcIndex d a b :
  In d (o_exact (run getFileHash relative now targetDir audioFiles lrcIndex)) ->
  In a (ed_files d) -> In b (ed_files d) ->
  size a = size b
  /\ getFileHash (path a) = getFileHash (path b)
  /\ getFileHash (path a) = Some (ed_hash d)
  /\ ed_hash d <> [].
Proof.
  intros Hd Ha Hb.
  assert (Hin : exists d0,
             In d0 (exactDuplicates getFileHash
                      (map (preprocess targetDir lrcIndex) audioFiles))
             /\ d = sortExact d0).
  { unfold run in Hd. destruct audioFiles as [|x xs]; [destruct Hd|].
    set (infos := map (preprocess targetDir lrcIndex) (x :: xs)) in *.
    assert (H : In d (map sortExact (exactDuplicates getFileHash infos))).
    { destruct (map sortExact (exactDuplicates getFileHash infos)),
        (map sortSemantic
           (semanticDuplicates (exactDuplicates getFileHash infos) infos));
        exact Hd. }
    apply in_map_iff in H. destruct H as [d0 [E H]]. exists d0. auto. }
  destruct Hin as [d0 [Hd0 ->]]. simpl in *.
  unfold sortFiles in Ha, Hb.
  apply JsArrayFacts.sort_In in Ha. apply JsArrayFacts.sort_In in Hb.
  destruct (exactDuplicates_member _ _ _ _ Hd0 Ha) as [_ [Sa Ha']].
  destruct (exactDuplicates_member _ _ _ _ Hd0 Hb) as [_ [Sb Hb']].
  apply hashOf_Some in Ha'. apply hashOf_Some in Hb'.
  destruct Ha' as [Ha' Hne]. destruct Hb' as [Hb' _].
  repeat split; congruence.
Qed.

(** *** Phase B *)

Lemma setAdd_In x s h : In h (JsMap.setAdd x s) <-> h = x \/ In h s.
Proof.
  unfold JsMap.setAdd. destruct (existsb (eqb x) s) eqn:E.
  - split; [tauto|]. intros [->|H]; [|assumption].
    apply existsb_exists in E. destruct E as [y [Hy E]].
    apply eqb_eq in E. subst. assumption.
  - rewrite in_app_iff. simpl. intuition congruence.
Qed.

Lemma setAdd_NoDup x s : NoDup s -> NoDup (JsMap.setAdd x s).
Proof.
  unfold JsMap.setAdd. intros H. destruct (existsb (eqb x) s) eqn:E.
  - assumption.
  - apply NoDup_app; [assumption | repeat constructor; simpl; tauto |].
    intros y Hy [E'|[]].
    assert (existsb (eqb x) s = true); [|congruence].
    apply existsb_exists. exists y. split; [assumption | apply eqb_eq, E'].
Qed.

Lemma NoDup_le_1 (l : list jsstring) :
  NoDup l -> ((List.length l <= 1)%nat <-> forall a b, In a l -> In b l -> a = b).
Proof.
  intros H. destruct l as [|x [|y l]]; simpl.
  - split; [intros _ a b [] | lia].
  - split; [intros _ a b [<-|[]] [<-|[]]; reflexivity | lia].
  - split; [lia|]. intros E. exfalso.
    apply NoDup_cons_iff in H. destruct H as [Hn _]. apply Hn.
    rewrite (E x y); simpl; auto.
Qed.

Section PhaseB.
Variable getFileHash : jsstring -> option jsstring.
Variable fileInfos : list fileInfo.

Let exact := exactDuplicates getFileHash fileInfos.

Lemma existsb_path d f :
  existsb (fun ef => eqb (path ef) (path f)) (ed_files d) = true
  <-> inExactGroup d f.
Proof.
  unfold inExactGroup. rewrite existsb_exists, in_map_iff.
  split; intros [ef H]; exists ef; rewrite eqb_eq in *; tauto.
Qed.

Lemma exactGroupOf_Some f ed :
  exactGroupOf exact f = Some ed -> In ed exact /\ inExactGroup ed f.
Proof.
  unfold exactGroupOf. intros H. apply find_some in H.
  rewrite existsb_path in H. assumption.
Qed.

Lemma exactGroupOf_found f d :
  In d exact -> inExactGroup d f -> exists ed, exactGroupOf exact f = Some ed.
Proof.
  intros Hd Hf. unfold exactGroupOf.
  destruct (find _ exact) as [ed|] eqn:E; [eauto|].
  apply (find_none _ _ E) in Hd. apply existsb_path in Hf. congruence.
Qed.

(** The hash of an exact group is the hash of each path in it. *)
Lemma hash_of_group d f :
  In d exact -> inExactGroup d f -> hashOf getFileHash f = Some (ed_hash d).
Proof.
  intros Hd Hf. unfold inExactGroup in Hf.
  apply in_map_iff in Hf. destruct Hf as [ef [Hp Hef]].
  destruct (exactDuplicates_member _ _ _ _ Hd Hef) as [_ [_ H]].
  unfold hashOf in *. rewrite <- Hp. assumption.
Qed.

Lemma allInExact_spec group :
  allInExact exact group = true
  <-> forall f, In f group -> exists d, In d exact /\ inExactGroup d f.
Proof.
  unfold allInExact. rewrite forallb_forall.
  split; intros H f Hf; specialize (H f Hf).
  - apply existsb_exists in H. destruct H as [p [Hp E]].
    apply eqb_eq in E. subst p. unfold exactDupPaths in Hp.
    apply in_flat_map in Hp. destruct Hp as [d [Hd Hp]]. exists d. auto.
  - destruct H as [d [Hd Hp]]. apply existsb_exists. exists (path f).
    split; [|apply eqb_refl]. unfold exactDupPaths.
    apply in_flat_map. exists d. auto.
Qed.

Lemma uniqueHashes_from group set0 h :
  In h (fold_left
          (fun set f => match exactGroupOf exact f with
                        | Some ed => JsMap.setAdd (ed_hash ed) set
                        | None => set
                        end) group set0)
  <-> In h set0
      \/ exists f ed, In f group /\ exactGroupOf exact f = Some ed
                      /\ ed_hash ed = h.
Proof.
  revert set0. induction group as [|g group IH]; intros set0; simpl.
  - split; [tauto | intros [H|[f [ed [[] _]]]]; assumption].
  - rewrite IH. split.
    + intros [H|[f [ed [Hf H]]]].
      * destruct (exactGroupOf exact g) as [ed|] eqn:E; [|tauto].
        apply setAdd_In in H. destruct H as [->|H]; [|tauto].
        right. exists g, ed. auto.
      * right. exists f, ed. auto.
    + intros [H|[f [ed [[<-|Hf] [E H]]]]].
      * left. destruct (exactGroupOf exact g); [|assumption].
        apply setAdd_In. auto.
      * left. rewrite E. apply setAdd_In. auto.
      * right. exists f, ed. auto.
Qed.

Lemma uniqueHashes_In group h :
  In h (uniqueHashes exact group)
  <-> exists f ed, In f group /\ exactGroupOf exact f = Some ed /\ ed_hash ed = h.
Proof.
  unfold uniqueHashes. rewrite uniqueHashes_from. simpl. tauto.
Qed.

Lemma uniqueHashes_NoDup group : NoDup (uniqueHashes exact group).
Proof.
  unfold uniqueHashes. generalize (NoDup_nil jsstring).
  generalize (@nil jsstring). induction group as [|g group IH]; intros set0 H; simpl.
  - assumption.
  - apply IH. destruct (exactGroupOf exact g); [|assumption].
    apply setAdd_NoDup. assumption.
Qed.

(** The test of the [continue]: the files of the group are all in exact
    groups, and those exact groups have one hash. *)
Lemma skipped_spec group :
  group <> [] ->
  (skipped exact group = true
   <-> (forall f, In f group -> exists d, In d exact /\ inExactGroup d f)
       /\ (exists h, forall f d, In f group -> In d exact ->
                                 inExactGroup d f -> ed_hash d = h)).
Proof.
  intros Hne. unfold skipped.
  rewrite andb_true_iff, allInExact_spec, Nat.leb_le,
    (NoDup_le_1 _ (uniqueHashes_NoDup group)).
  split; intros [HA HB]; (split; [exact HA|]).
  - destruct group as [|f0 group]; [congruence|].
    destruct (HA f0 (or_introl eq_refl)) as [d0 [Hd0 Hf0]].
    destruct (exactGroupOf_found _ _ Hd0 Hf0) as [ed0 E0].
    exists (ed_hash ed0). intros f d Hf Hd Hfd.
    destruct (exactGroupOf_found _ _ Hd Hfd) as [ed E].
    transitivity (ed_hash ed).
    + apply exactGroupOf_Some in E. destruct E as [He Hfe].
      pose proof (hash_of_group _ _ He Hfe) as H1.
      pose proof (hash_of_group _ _ Hd Hfd) as H2. congruence.
    + apply HB; apply uniqueHashes_In.
      * exists f, ed. auto.
      * exists f0, ed0. simpl. auto.
  - destruct HB as [h HB]. intros a b Ha Hb.
    apply uniqueHashes_In in Ha, Hb.
    destruct Ha as [fa [da [Hfa [Ea <-]]]].
    destruct Hb as [fb [db [Hfb [Eb <-]]]].
    apply exactGroupOf_Some in Ea, Eb.
    rewrite (HB fa da), (HB fb db); tauto.
Qed.

Lemma semanticDuplicates_In key group :
  In (key, group) (songMap fileInfos) -> (1 < List.length group)%nat ->
  (In (mkSemanticDup key group) (semanticDuplicates exact fileInfos)
   <-> skipped exact group = false).
Proof.
  intros Hg Hl. unfold semanticDuplicates. rewrite in_flat_map. split.
  - intros [[k g] [_ H]]. simpl in H.
    destruct (1 <? List.length g)%nat; [|destruct H].
    destruct (skipped exact g) eqn:E; [destruct H|].
    destruct H as [H|[]]. inversion H. subst. assumption.
  - intros E. exists (key, group). split; [assumption|]. simpl.
    apply Nat.ltb_lt in Hl. rewrite Hl, E. left. reflexivity.
Qed.

End PhaseB.

(** C10. A group of the song Map with two files or more is left out of
    the semantic duplicates if and only if each of its files is in an
    exact group and those exact groups all have one hash; with a file
    outside every exact group, or with two hashes, the group is
    reported. *)
Theorem semantic_group_suppressed_iff getFileHash fileInfos key group :
  In (key, group) (songMap fileInfos) -> (1 < List.length group)%nat ->
  (~ In (mkSemanticDup key group)
        (semanticDuplicates (exactDuplicates getFileHash fileInfos) fileInfos)
   <-> (forall f, In f group ->
          exists d, In d (exactDuplicates getFileHash fileInfos)
                    /\ inExactGroup d f)
       /\ (exists h, forall f d,
             In f group -> In d (exactDuplicates getFileHash fileInfos) ->
             inExactGroup d f -> ed_hash d = h)).
Proof.
  intros Hg Hl.
  rewrite (semanticDuplicates_In getFileHash fileInfos key group Hg Hl).
  rewrite <- skipped_spec.
  - destruct (skipped _ group); split; congruence.
  - destruct group; [simpl in Hl; lia | discriminate].
Qed.

End EnhancedRunFacts.

(** ** check_duplicates_enhanced.js: the score *)

Module ScoreFacts.
Import Enhanced EnhancedRun Spec StringFacts DoubleFacts.
Local Open Scope Q_scope.

Lemma endsWithCi_last ext name :
  ext <> [] -> endsWithCi ext name = true ->
  exists c, hd_error (rev name) = Some c
            /\ ciEqb (last ext 0%N) c = true.
Proof.
  unfold endsWithCi. intros Hne H.
  destruct (rev ext) as [|e r] eqn:Er.
  - apply (f_equal (@rev N)) in Er. rewrite rev_involutive in Er.
    simpl in Er. congruence.
  - assert (El : last ext 0%N = e).
    { rewrite <- (rev_involutive ext), Er. simpl. apply last_last. }
    destruct (rev name) as [|c n]; simpl in H; [discriminate|].
    apply andb_true_iff in H. exists c. rewrite El. tauto.
Qed.

(** A name has one extension: no two of the three tests hold. *)
Lemma one_format name :
  (endsWithCi (js ".flac") name = true -> endsWithCi (js ".ape") name = false
     /\ endsWithCi (js ".wav") name = false)
  /\ (endsWithCi (js ".ape") name = true -> endsWithCi (js ".wav") name = false).
Proof.
  assert (X : forall e1 e2, e1 <> [] -> e2 <> [] ->
            foldUnit (last e1 0%N) <> foldUnit (last e2 0%N) ->
            endsWithCi e1 name = true -> endsWithCi e2 name = false).
  { intros e1 e2 H1 H2 Hd E1.
    destruct (endsWithCi e2 name) eqn:E2; [|reflexivity].
    destruct (endsWithCi_last _ _ H1 E1) as [c [Hc1 Hf1]].
    destruct (endsWithCi_last _ _ H2 E2) as [c' [Hc2 Hf2]].
    rewrite Hc1 in Hc2. inversion Hc2. subst c'.
    unfold ciEqb in *. apply N.eqb_eq in Hf1, Hf2. congruence. }
  split; [intros H; split; revert H |]; apply X; vm_compute; congruence.
Qed.

(** *** The tests of the score *)

Lemma sameText_rev a b : sameText a b -> sameText (rev a) (rev b).
Proof.
  intros H. induction H as [|x y a b Hxy H IH]; [constructor|]. simpl.
  apply Forall2_app; [exact IH | constructor; [exact Hxy | constructor]].
Qed.

Lemma endsWithCi_iff ext name : endsWithCi ext name = true <-> endsLike ext name.
Proof.
  unfold endsWithCi, endsLike. rewrite startsWithCi_iff. split.
  - intros [w [rest [E H]]]. exists (rev rest), (rev w). split.
    + rewrite <- rev_app_distr, <- E. symmetry. apply rev_involutive.
    + rewrite <- (rev_involutive ext). apply sameText_rev, H.
  - intros [pre [e [E H]]]. exists (rev e), (rev pre). split.
    + rewrite E. apply rev_app_distr.
    + apply sameText_rev, H.
Qed.

Lemma blacklist_units : tradBlacklist = traditionalUnits.
Proof. reflexivity. Qed.

Lemma hasTraditional_iff name :
  hasTraditional name = true
  <-> exists c, In c name /\ In c traditionalUnits.
Proof.
  unfold hasTraditional, includesUnit. rewrite blacklist_units, existsb_exists.
  split; intros [c [Hc H]]; exists c; (split; [exact Hc|]).
  - apply existsb_exists in H. destruct H as [y [Hy E]].
    apply N.eqb_eq in E. subst y. exact Hy.
  - apply existsb_exists. exists c. split; [exact H | apply N.eqb_refl].
Qed.

(** *** Sums that do not round *)

Lemma add_grid a b ka kb :
  a == inject_Z ka / 1048576 -> b == inject_Z kb / 1048576 ->
  (0 <= ka + kb < 2 ^ 53)%Z ->
  Double.add a b == inject_Z (ka + kb) / 1048576.
Proof.
  intros Ha Hb Hk. unfold Double.add.
  assert (E : a + b == inject_Z (ka + kb) / 1048576).
  { rewrite Ha, Hb, inject_Z_plus. field. }
  rewrite (round_grid _ _ E Hk). exact E.
Qed.

Lemma step_grid (c : bool) a b ka kb :
  a == inject_Z ka / 1048576 -> b == inject_Z kb / 1048576 ->
  (0 <= ka)%Z -> (0 <= kb)%Z -> (ka + kb < 2 ^ 53)%Z ->
  (if c then Double.add a b else a)
  == inject_Z (ka + (if c then kb else 0)) / 1048576.
Proof.
  intros Ha Hb H1 H2 H3. destruct c.
  - apply add_grid; [assumption | assumption | lia].
  - rewrite Z.add_0_r. exact Ha.
Qed.

Lemma grid_const (n : Z) : inject_Z n == inject_Z (n * 1048576) / 1048576.
Proof. rewrite inject_Z_mult. field. Qed.

(** The size in megabytes does not round below [2^53] bytes. *)
Lemma sizeMB_exact size :
  (size < 2 ^ 53)%N -> sizeMB size == inject_Z (Z.of_N size) / 1048576.
Proof.
  intros H. unfold sizeMB, Double.div, Double.ofN.
  assert (K : (0 <= Z.of_N size < 2 ^ 53)%Z).
  { split; [lia|]. change (2 ^ 53)%Z with (Z.of_N (2 ^ 53)). lia. }
  assert (E0 : Double.round (inject_Z (Z.of_N size)) == inject_Z (Z.of_N size)).
  { apply (round_exact _ (Z.of_N size) 0); [|exact K | lia].
    unfold Double.pow2. simpl. ring. }
  assert (E1 : Double.round (inject_Z (Z.of_N size)) / 1024
               == inject_Z (Z.of_N size) * Double.pow2 (-10)).
  { rewrite E0. unfold Double.pow2. simpl. field. }
  assert (A1 : Double.round (Double.round (inject_Z (Z.of_N size)) / 1024)
               == inject_Z (Z.of_N size) * Double.pow2 (-10)).
  { rewrite (round_exact _ _ _ E1 K) by lia. exact E1. }
  assert (E2 : Double.round (Double.round (inject_Z (Z.of_N size)) / 1024) / 1024
               == inject_Z (Z.of_N size) * Double.pow2 (-20)).
  { rewrite A1. unfold Double.pow2. simpl. field. }
  rewrite (round_exact _ _ _ E2 K) by lia.
  rewrite E2. unfold Double.pow2. simpl. field.
Qed.

Lemma grid_sum (a z b : Z) :
  inject_Z (a * 1048576 + z + b * 1048576) / 1048576
  == inject_Z a + inject_Z z / 1048576 + inject_Z b.
Proof. rewrite !inject_Z_plus, !inject_Z_mult. field. Qed.

(** The score as one number of 53 bits. *)
Lemma getScore_grid (f : fileInfo) :
  (size f < 2 ^ 52)%N ->
  getScore f
  == inject_Z (((if includes (js " - ") (name f) then 100 else 0)
                + (if hasTraditional (name f) then 0 else 20)) * 1048576
               + Z.of_N (size f)
               + ((if endsWithCi (js ".flac") (name f) then 50 else 0)
                  + (if endsWithCi (js ".ape") (name f) then 40 else 0)
                  + (if endsWithCi (js ".wav") (name f) then 30 else 0))
                 * 1048576) / 1048576.
Proof.
  intros Hs.
  assert (Hz : (0 <= Z.of_N (size f) < 2 ^ 52)%Z).
  { split; [lia|]. change (2 ^ 52)%Z with (Z.of_N (2 ^ 52)). lia. }
  unfold getScore. cbv zeta.
  set (c1 := includes (js " - ") (name f)).
  set (c2 := hasTraditional (name f)).
  set (c4 := endsWithCi (js ".flac") (name f)).
  set (c5 := endsWithCi (js ".ape") (name f)).
  set (c6 := endsWithCi (js ".wav") (name f)).
  set (s1 := if c1 then Double.add 0 100 else 0).
  set (s2 := if negb c2 then Double.add s1 20 else s1).
  set (s3 := if (0 <? size f)%N then Double.add s2 (sizeMB (size f)) else s2).
  set (s4 := if c4 then Double.add s3 50 else s3).
  set (s5 := if c5 then Double.add s4 40 else s4).
  set (k1 := (0 + (if c1 then 100 * 1048576 else 0))%Z).
  set (k2 := (k1 + (if negb c2 then 20 * 1048576 else 0))%Z).
  set (k3 := (k2 + (if (0 <? size f)%N then Z.of_N (size f) else 0))%Z).
  set (k4 := (k3 + (if c4 then 50 * 1048576 else 0))%Z).
  set (k5 := (k4 + (if c5 then 40 * 1048576 else 0))%Z).
  assert (B1 : (0 <= k1 <= 100 * 1048576)%Z) by (unfold k1; destruct c1; lia).
  assert (B2 : (0 <= k2 <= 120 * 1048576)%Z) by (unfold k2; destruct c2; simpl; lia).
  assert (B3 : (0 <= k3 <= 120 * 1048576 + Z.of_N (size f))%Z).
  { unfold k3. destruct (0 <? size f)%N; lia. }
  assert (B4 : (0 <= k4 <= 170 * 1048576 + Z.of_N (size f))%Z)
    by (unfold k4; destruct c4; lia).
  assert (B5 : (0 <= k5 <= 210 * 1048576 + Z.of_N (size f))%Z)
    by (unfold k5; destruct c5; lia).
  assert (G1 : s1 == inject_Z k1 / 1048576).
  { apply step_grid; [reflexivity | apply (grid_const 100) | lia | lia | lia]. }
  assert (G2 : s2 == inject_Z k2 / 1048576).
  { apply step_grid; [exact G1 | apply (grid_const 20) | lia | lia | lia]. }
  assert (G3 : s3 == inject_Z k3 / 1048576).
  { apply step_grid; [exact G2 | apply sizeMB_exact | lia | lia | lia].
    apply N.lt_trans with (2 ^ 52)%N; [exact Hs | reflexivity]. }
  assert (G4 : s4 == inject_Z k4 / 1048576).
  { apply step_grid; [exact G3 | apply (grid_const 50) | lia | lia | lia]. }
  assert (G5 : s5 == inject_Z k5 / 1048576).
  { apply step_grid; [exact G4 | apply (grid_const 40) | lia | lia | lia]. }
  rewrite (step_grid c6 s5 30 k5 (30 * 1048576) G5 (grid_const 30))
    by lia.
  assert (E : (k5 + (if c6 then 30 * 1048576 else 0)
               = ((if c1 then 100 else 0) + (if c2 then 0 else 20)) * 1048576
                 + Z.of_N (size f)
                 + ((if c4 then 50 else 0) + (if c5 then 40 else 0)
                    + (if c6 then 30 else 0)) * 1048576)%Z).
  { unfold k5, k4, k3, k2, k1.
    destruct (N.ltb_spec 0 (size f)) as [Hp|Hp];
      destruct c1, c2, c4, c5, c6; simpl negb; lia. }
  rewrite E. reflexivity.
Qed.

(** C3.  For a file of less than [2^52] bytes the score is the sum of
    its four terms: 100 for a name that holds [" - "] and nothing for
    one that does not; 20 for a name with none of the 36 traditional
    characters of the list and nothing for a name with one of them; the
    size in bytes over 1,048,576; and 50, 40 or 30 for a name that ends
    with [.flac], [.ape] or [.wav], in any case, and nothing for any
    other name.  No sum rounds. *)
Theorem getScore_is_additive (f : fileInfo) :
  (size f < 2 ^ 52)%N ->
  exists dash simp fmt : Q,
    getScore f
    == dash + simp + inject_Z (Z.of_N (size f)) / 1048576 + fmt
    /\ (holds (js " - ") (name f) /\ dash = 100
        \/ ~ holds (js " - ") (name f) /\ dash = 0)
    /\ ((forall c, In c (name f) -> ~ In c traditionalUnits) /\ simp = 20
        \/ (exists c, In c (name f) /\ In c traditionalUnits) /\ simp = 0)
    /\ (endsLike (js ".flac") (name f) /\ fmt = 50
        \/ endsLike (js ".ape") (name f) /\ fmt = 40
        \/ endsLike (js ".wav") (name f) /\ fmt = 30
        \/ (~ endsLike (js ".flac") (name f)
            /\ ~ endsLike (js ".ape") (name f)
            /\ ~ endsLike (js ".wav") (name f)) /\ fmt = 0).
Proof.
  intros Hs. pose proof (getScore_grid f Hs) as G.
  rewrite <- Z.add_assoc, (Z.add_assoc _ (Z.of_N (size f))) in G.
  rewrite grid_sum, inject_Z_plus in G.
  destruct (one_format (name f)) as [F1 F2].
  exists (inject_Z (if includes (js " - ") (name f) then 100 else 0)),
         (inject_Z (if hasTraditional (name f) then 0 else 20)),
         (inject_Z ((if endsWithCi (js ".flac") (name f) then 50 else 0)
                    + (if endsWithCi (js ".ape") (name f) then 40 else 0)
                    + (if endsWithCi (js ".wav") (name f) then 30 else 0))).
  split; [exact G|]. split; [|split].
  - destruct (includes (js " - ") (name f)) eqn:E.
    + left. split; [apply includes_holds, E | reflexivity].
    + right. split; [apply includes_not, E | reflexivity].
  - destruct (hasTraditional (name f)) eqn:E.
    + right. split; [apply hasTraditional_iff, E | reflexivity].
    + left. split; [|reflexivity]. intros c Hc Ht.
      assert (T : hasTraditional (name f) = true)
        by (apply hasTraditional_iff; exists c; auto).
      congruence.
  - destruct (endsWithCi (js ".flac") (name f)) eqn:E1.
    + destruct (F1 eq_refl) as [-> ->]. left.
      split; [apply endsWithCi_iff, E1 | reflexivity].
    + destruct (endsWithCi (js ".ape") (name f)) eqn:E2.
      * rewrite (F2 eq_refl). right. left.
        split; [apply endsWithCi_iff, E2 | reflexivity].
      * destruct (endsWithCi (js ".wav") (name f)) eqn:E3.
        -- right. right. left. split; [apply endsWithCi_iff, E3 | reflexivity].
        -- right. right. right. split; [|reflexivity].
           rewrite <- !endsWithCi_iff. rewrite E1, E2, E3.
           repeat split; discriminate.
Qed.

Lemma getScore_is_additive_witness :
  (size Samples.scored < 2 ^ 52)%N /\ getScore Samples.scored == 200.
Proof.
  assert (H : (size Samples.scored < 2 ^ 52)%N) by (vm_compute; reflexivity).
  split; [exact H|].
  destruct (getScore_is_additive Samples.scored H)
    as [dash [simp [fmt [G [D [S F]]]]]].
  assert (Ed : dash = 100).
  { destruct D as [[_ E] | [N0 _]]; [exact E|]. exfalso. apply N0.
    apply includes_holds. vm_compute. reflexivity. }
  assert (Es : simp = 20).
  { destruct S as [[_ E] | [T _]]; [exact E|]. exfalso.
    apply hasTraditional_iff in T. vm_compute in T. discriminate. }
  assert (Ef : fmt = 50).
  { destruct F as [[_ E] | [[T _] | [[T _] | [[T _] _]]]]; [exact E | | |].
    - apply endsWithCi_iff in T. vm_compute in T. discriminate.
    - apply endsWithCi_iff in T. vm_compute in T. discriminate.
    - exfalso. apply T. apply endsWithCi_iff. vm_compute. reflexivity. }
  rewrite G, Ed, Es, Ef. vm_compute. reflexivity.
Defined.

(** The counterexample to C3: the sums are sums of doubles, and a sum
    rounds when it has more than 53 bits.  For a file of [2^53 - 1]
    bytes whose name earns the 20 alone, the size in megabytes is
    [2^33 - 2^-20], the exact sum would be [2^33 + 20 - 2^-20], and the
    score is the double [2^33 + 20]. *)
Lemma getScore_rounds_large_sizes :
  size Samples.huge = 9007199254740991%N
  /\ ~ holds (js " - ") (name Samples.huge)
  /\ (forall c, In c (name Samples.huge) -> ~ In c traditionalUnits)
  /\ ~ endsLike (js ".flac") (name Samples.huge)
  /\ ~ endsLike (js ".ape") (name Samples.huge)
  /\ ~ endsLike (js ".wav") (name Samples.huge)
  /\ getScore Samples.huge == 8589934612
  /\ ~ getScore Samples.huge
       == 0 + 20 + inject_Z (Z.of_N (size Samples.huge)) / 1048576 + 0.
Proof.
  split; [reflexivity|].
  split; [apply includes_not; vm_compute; reflexivity|].
  split.
  { intros c Hc Ht.
    assert (T : hasTraditional (name Samples.huge) = true)
      by (apply hasTraditional_iff; exists c; auto).
    vm_compute in T. discriminate. }
  split; [rewrite <- endsWithCi_iff; vm_compute; discriminate|].
  split; [rewrite <- endsWithCi_iff; vm_compute; discriminate|].
  split; [rewrite <- endsWithCi_iff; vm_compute; discriminate|].
  split; [vm_compute; reflexivity|].
  vm_compute. discriminate.
Qed.

End ScoreFacts.

(** ** The suffix loops *)

Module LoopFacts.

Lemma cutAt_prefix matches s : exists block, s = cutAt matches s ++ block.
Proof.
  induction s as [|c s IH]; simpl.
  - destruct (matches []); exists []; reflexivity.
  - destruct (matches (c :: s)).
    + exists (c :: s). reflexivity.
    + destruct IH as [block IH]. exists block. simpl. congruence.
Qed.

Section Loop.
Variable step : jsstring -> jsstring.

(** Each round takes a block off the end of the string. *)
Hypothesis step_prefix : forall s, exists block, s = step s ++ block.

Lemma step_shortens s :
  step s = s \/ (List.length (step s) < List.length s)%nat.
Proof.
  destruct (step_prefix s) as [[|c block] H].
  - left. rewrite app_nil_r in H. congruence.
  - right. rewrite H at 2. rewrite length_app. simpl. lia.
Qed.

Lemma loop_returns fuel s :
  (List.length s < fuel)%nat -> exists out, untilUnchanged step fuel s = Some out.
Proof.
  revert s. induction fuel as [|fuel IH]; intros s H; [lia|]. simpl.
  destruct (eqb (step s) s) eqn:E; [eauto|].
  apply IH. apply eqb_neq in E.
  destruct (step_shortens s); [congruence | lia].
Qed.

Lemma loop_fuel fuel1 fuel2 s out1 out2 :
  untilUnchanged step fuel1 s = Some out1 ->
  untilUnchanged step fuel2 s = Some out2 -> out1 = out2.
Proof.
  revert fuel2 s. induction fuel1 as [|fuel1 IH]; intros [|fuel2] s; simpl;
    try discriminate.
  destruct (eqb (step s) s); [congruence | apply IH].
Qed.

Lemma loop_fixed fuel s out :
  untilUnchanged step fuel s = Some out -> step out = out.
Proof.
  revert s. induction fuel as [|fuel IH]; intros s; simpl; [discriminate|].
  destruct (eqb (step s) s) eqn:E; [|apply IH].
  apply eqb_eq in E. intros H. inversion H. subst. congruence.
Qed.

Lemma loop_prefix fuel s out :
  untilUnchanged step fuel s = Some out -> exists block, s = out ++ block.
Proof.
  revert s. induction fuel as [|fuel IH]; intros s; simpl; [discriminate|].
  destruct (eqb (step s) s) eqn:E.
  - apply eqb_eq in E. intros H. inversion H. subst. exists [].
    rewrite app_nil_r. congruence.
  - intros H. destruct (IH _ H) as [b1 H1]. destruct (step_prefix s) as [b2 H2].
    exists (b1 ++ b2). rewrite app_assoc, <- H1. exact H2.
Qed.

Lemma loop_total s :
  exists out, forall fuel,
    (List.length s < fuel)%nat -> untilUnchanged step fuel s = Some out.
Proof.
  destruct (loop_returns (S (List.length s)) s (Nat.lt_succ_diag_r _)) as [out H].
  exists out. intros fuel Hf.
  destruct (loop_returns fuel s Hf) as [out' H'].
  rewrite H'. f_equal. eapply loop_fuel; eassumption.
Qed.

End Loop.

Lemma replaceSuffix_prefix s : exists block, s = Enhanced.replaceSuffix s ++ block.
Proof. apply cutAt_prefix. Qed.

Lemma stripOnce_prefix s : exists block, s = SongKey.stripOnce s ++ block.
Proof.
  unfold SongKey.stripOnce.
  destruct (cutAt_prefix SongKey.bracketMatches s) as [b1 H1].
  destruct (cutAt_prefix SongKey.parenMatches
              (cutAt SongKey.bracketMatches s)) as [b2 H2].
  exists (b2 ++ b1). rewrite app_assoc, <- H2. assumption.
Qed.

(** C6. The loop of [removeDescriptiveSuffix] ends on every string, in
    the enhanced detector and in the song-key script alike: a round
    either leaves the string as it is, and the loop exits, or takes a
    block that is not empty off its end; with fuel beyond the length of
    the name the loop returns, and the function gives the trimmed
    result. *)
Theorem removeDescriptiveSuffix_terminates (name : jsstring) :
  (forall s, Enhanced.replaceSuffix s = s
             \/ exists block, block <> [] /\ s = Enhanced.replaceSuffix s ++ block)
  /\ (forall s, SongKey.stripOnce s = s
                \/ exists block, block <> [] /\ s = SongKey.stripOnce s ++ block)
  /\ (exists out,
        (forall fuel, (List.length name < fuel)%nat ->
                      Enhanced.suffixLoop fuel name = Some out)
        /\ Enhanced.replaceSuffix out = out
        /\ Enhanced.removeDescriptiveSuffix name = trim out)
  /\ (exists out,
        (forall fuel, (List.length name < fuel)%nat ->
                      SongKey.suffixLoop fuel name = Some out)
        /\ SongKey.stripOnce out = out
        /\ SongKey.removeDescriptiveSuffix name = trim out).
Proof.
  assert (P : forall step : jsstring -> jsstring,
             (forall s, exists block, s = step s ++ block) ->
             forall s, step s = s \/ exists block, block <> [] /\ s = step s ++ block).
  { intros step H s. destruct (H s) as [[|c block] E].
    - left. rewrite app_nil_r in E. congruence.
    - right. exists (c :: block). split; [discriminate | assumption]. }
  split; [apply P, replaceSuffix_prefix|].
  split; [apply P, stripOnce_prefix|].
  split.
  - destruct (loop_total _ replaceSuffix_prefix name) as [out H].
    exists out. split; [exact H|].
    pose proof (H _ (Nat.lt_succ_diag_r _)) as H1.
    split; [eapply loop_fixed; exact H1|].
    unfold Enhanced.removeDescriptiveSuffix, Enhanced.suffixLoop. rewrite H1.
    reflexivity.
  - destruct (loop_total _ stripOnce_prefix name) as [out H].
    exists out. split; [exact H|].
    pose proof (H _ (Nat.lt_succ_diag_r _)) as H1.
    split; [eapply loop_fixed; exact H1|].
    unfold SongKey.removeDescriptiveSuffix, SongKey.suffixLoop. rewrite H1.
    reflexivity.
Qed.

End LoopFacts.

(** ** The clean-up script and the lyric files *)

Module EmitterFacts.
Import Enhanced EnhancedRun Spec Lines.

Lemma byScore_asym a b : byScore a b = Gt -> byScore b a <> Gt.
Proof.
  unfold byScore. intros H H'.
  apply Qgt_alt in H. apply Qgt_alt in H'. lra.
Qed.

Lemma sortFiles_idem files : sortFiles (sortFiles files) = sortFiles files.
Proof. apply JsArrayFacts.sort_idem, byScore_asym. Qed.

Lemma join_lrc_nonempty dir base : Path.join dir (base ++ js ".lrc") <> [].
Proof.
  unfold Path.join. destruct (eqb dir [Path.dot]).
  - destruct base; discriminate.
  - destruct (Path.endsWith [Path.slash] dir); destruct dir; try discriminate.
    destruct base; discriminate.
Qed.

Lemma findAssociatedLrc_nonempty audioPath lrcIndex lrc :
  findAssociatedLrc audioPath lrcIndex = Some lrc -> truthy lrc = true.
Proof.
  unfold findAssociatedLrc. destruct (has lrcIndex _); [|discriminate].
  intros H. inversion H.
  match goal with |- truthy ?p = true =>
    pose proof (join_lrc_nonempty (Path.dirname audioPath)
                  (Path.basenameExt audioPath (Path.extname audioPath))) as J;
    destruct p; [congruence | reflexivity]
  end.
Qed.

Section Script.
Variable getFileHash : jsstring -> option jsstring.
Variable relative : jsstring -> jsstring -> jsstring.
Variable now : jsstring.
Variable targetDir : jsstring.

(** The lines of a file with a lyric file: the two moves, side by side. *)
Lemma moveLines_pair groupDir f lrc :
  lrcPath f = Some lrc -> truthy lrc = true ->
  moveLines relative targetDir groupDir f =
  [mvLine (relative targetDir (path f)) groupDir;
   mvLine (relative targetDir lrc) groupDir].
Proof. unfold moveLines. intros -> ->. reflexivity. Qed.

Lemma exactLines_pair idx d f lrc :
  In f (JsArray.slice1 (sortFiles (ed_files d))) ->
  lrcPath f = Some lrc -> truthy lrc = true ->
  adjacent (mvLine (relative targetDir (path f)) (exactGroupDir idx))
           (mvLine (relative targetDir lrc) (exactGroupDir idx))
           (exactLines relative targetDir (idx, d)).
Proof.
  intros Hf Hl Ht. unfold exactLines, adjacent. simpl fst. simpl snd. cbv zeta.
  apply infix_app_r, infix_app_l.
  apply (infix_flat_map _ _ f); [assumption|].
  rewrite (moveLines_pair _ _ _ Hl Ht). apply infix_refl.
Qed.

Lemma semanticLines_pair idx d f lrc :
  In f (JsArray.slice1 (sortFiles (sd_files d))) ->
  lrcPath f = Some lrc -> truthy lrc = true ->
  adjacent (mvLine (relative targetDir (path f)) (semanticGroupDir idx (sd_key d)))
           (mvLine (relative targetDir lrc) (semanticGroupDir idx (sd_key d)))
           (semanticLines relative targetDir (idx, d)).
Proof.
  intros Hf Hl Ht. unfold semanticLines, adjacent. simpl fst. simpl snd. cbv zeta.
  apply infix_app_r, infix_app_l.
  apply (infix_flat_map _ _ f); [assumption|].
  rewrite (moveLines_pair _ _ _ Hl Ht). apply infix_refl.
Qed.

Lemma scriptLines_exact exact semantic idx d seg :
  nth_error exact idx = Some d ->
  infix seg (exactLines relative targetDir (idx, d)) ->
  infix seg (scriptLines relative now targetDir exact semantic).
Proof.
  intros Hn Hs. unfold scriptLines.
  apply infix_app_r, infix_app_l.
  destruct exact as [|e exact]; [destruct idx; discriminate|].
  apply infix_app_r.
  apply (infix_flat_map _ _ (idx, d));
    [apply JsArrayFacts.nth_error_indexed, Hn | exact Hs].
Qed.

Lemma scriptLines_semantic exact semantic idx d seg :
  nth_error semantic idx = Some d ->
  infix seg (semanticLines relative targetDir (idx, d)) ->
  infix seg (scriptLines relative now targetDir exact semantic).
Proof.
  intros Hn Hs. unfold scriptLines.
  apply infix_app_r. rewrite app_assoc. apply infix_app_l, infix_app_r.
  destruct semantic as [|e semantic]; [destruct idx; discriminate|].
  apply infix_app_r.
  apply (infix_flat_map _ _ (idx, d));
    [apply JsArrayFacts.nth_error_indexed, Hn | exact Hs].
Qed.

(** The files of the groups of a run are files that [preprocess] made. *)
Lemma run_groups audioFiles lrcIndex :
  let out := run getFileHash relative now targetDir audioFiles lrcIndex in
  let infos := map (preprocess targetDir lrcIndex) audioFiles in
  (forall d, In d (o_exact out) ->
     sortFiles (ed_files d) = ed_files d
     /\ forall f, In f (ed_files d) -> In f infos)
  /\ (forall d, In d (o_semantic out) ->
        sortFiles (sd_files d) = sd_files d
        /\ forall f, In f (sd_files d) -> In f infos)
  /\ (forall lines, o_script out = Some lines ->
        lines = scriptLines relative now targetDir (o_exact out) (o_semantic out)).
Proof.
  cbv zeta. unfold run. destruct audioFiles as [|x xs].
  { simpl. repeat split; try tauto; discriminate. }
  set (infos := map (preprocess targetDir lrcIndex) (x :: xs)).
  set (E0 := exactDuplicates getFileHash infos).
  set (S0 := semanticDuplicates E0 infos).
  assert (HE : forall d, In d (map sortExact E0) ->
             sortFiles (ed_files d) = ed_files d
             /\ forall f, In f (ed_files d) -> In f infos).
  { intros d Hd. apply in_map_iff in Hd. destruct Hd as [d0 [<- Hd0]]. simpl.
    split; [apply sortFiles_idem|]. intros f Hf.
    apply JsArrayFacts.sort_In in Hf.
    apply (EnhancedRunFacts.exactDuplicates_member _ _ _ _ Hd0 Hf). }
  assert (HS : forall d, In d (map sortSemantic S0) ->
             sortFiles (sd_files d) = sd_files d
             /\ forall f, In f (sd_files d) -> In f infos).
  { intros d Hd. apply in_map_iff in Hd. destruct Hd as [d0 [<- Hd0]]. simpl.
    split; [apply sortFiles_idem|]. intros f Hf.
    apply JsArrayFacts.sort_In in Hf.
    unfold S0, semanticDuplicates in Hd0. apply in_flat_map in Hd0.
    destruct Hd0 as [[k g] [Hg Hd0]]. simpl in Hd0.
    destruct (1 <? List.length g)%nat; [|destruct Hd0].
    destruct (skipped E0 g); [destruct Hd0|].
    destruct Hd0 as [<-|[]]. simpl in Hf.
    apply (JsMapFacts.groupBy_member _ eqb_eq _ _ _ _ _ Hg Hf). }
  destruct (map sortExact E0) eqn:Ee; destruct (map sortSemantic S0) eqn:Es;
    simpl; (split; [exact HE | split; [exact HS|]]);
    intros lines H; try discriminate; inversion H; reflexivity.
Qed.

End Script.

(** The commands that the scripts write are the commands that move. *)
Lemma mvLine_moves rel dir : mvLine rel dir = shellMove rel dir.
Proof.
  unfold mvLine, shellMove, inQuotes, quote. rewrite <- !app_assoc. reflexivity.
Qed.

Lemma moveCommand_moves win32 p : Checker.moveCommand win32 p = trashMove win32 p.
Proof.
  unfold Checker.moveCommand, trashMove, inQuotes, Checker.quote, Checker.TRASH_DIR_NAME.
  destruct win32; rewrite <- !app_assoc; reflexivity.
Qed.

(** The same pairing in the isolation script of check_duplicates.js,
    where the lyric file is looked for on the disk, beside the file and
    under its name; the paths are the ones that the scan of the
    directory builds. *)
Lemma checker_moves_lyrics_too existsSync win32 results cmds g f :
  Checker.deleteCommands existsSync win32 results = Some cmds ->
  In g results -> In f (Checker.deleteFiles g) ->
  existsSync (Checker.lrcPathOf f) = true ->
  adjacent (trashMove win32 (Checker.fullPath f))
           (trashMove win32 (Checker.lrcPathOf f)) cmds.
Proof.
  intros Hc Hg Hf He. rewrite <- !moveCommand_moves.
  assert (E : cmds = Checker.header win32
                ++ flat_map (fun g => flat_map (Checker.removeCommands existsSync win32)
                                               (Checker.deleteFiles g)) results).
  { unfold Checker.deleteCommands in Hc.
    destruct results; [discriminate | injection Hc; intros <-; reflexivity]. }
  rewrite E. apply infix_app_r. apply (infix_flat_map _ _ g); [assumption|].
  apply (infix_flat_map _ _ f); [assumption|].
  unfold Checker.removeCommands. rewrite He. apply infix_refl.
Qed.

(** C9. In the script of a run, each file of a group after the first
    (the one kept) that has a lyric file has its [mv] command, from its
    place under the scanned directory into the directory of the group,
    followed at once by the [mv] command of the lyric file into the
    same directory, in the exact groups and in the semantic groups
    alike. *)
Theorem lyric_file_moves_with_its_audio
    getFileHash relative now targetDir audioFiles lrcIndex lines :
  let out := run getFileHash relative now targetDir audioFiles lrcIndex in
  o_script out = Some lines ->
  (forall idx d f lrc,
     nth_error (o_exact out) idx = Some d ->
     In f (JsArray.slice1 (ed_files d)) -> lrcPath f = Some lrc ->
     adjacent (shellMove (relative targetDir (path f)) (exactGroupDir idx))
              (shellMove (relative targetDir lrc) (exactGroupDir idx)) lines)
  /\ (forall idx d f lrc,
        nth_error (o_semantic out) idx = Some d ->
        In f (JsArray.slice1 (sd_files d)) -> lrcPath f = Some lrc ->
        adjacent (shellMove (relative targetDir (path f))
                            (semanticGroupDir idx (sd_key d)))
                 (shellMove (relative targetDir lrc)
                            (semanticGroupDir idx (sd_key d))) lines).
Proof.
  intros out Hs.
  destruct (run_groups getFileHash relative now targetDir audioFiles lrcIndex)
    as [HE [HS HL]].
  fold out in HE, HS, HL. rewrite (HL _ Hs).
  assert (T : forall f lrc,
             In f (map (preprocess targetDir lrcIndex) audioFiles) ->
             lrcPath f = Some lrc -> truthy lrc = true).
  { intros f lrc Hf Hl. apply in_map_iff in Hf. destruct Hf as [a [<- _]].
    simpl in Hl. eapply findAssociatedLrc_nonempty, Hl. }
  split; intros idx d f lrc Hn Hf Hl; rewrite <- !mvLine_moves.
  - destruct (HE d (nth_error_In _ _ Hn)) as [Hd Hin].
    apply (scriptLines_exact _ _ _ _ _ idx d); [assumption|].
    apply exactLines_pair; [rewrite Hd; assumption | assumption |].
    apply (T f); [|assumption]. apply Hin.
    destruct (ed_files d); [destruct Hf | right; exact Hf].
  - destruct (HS d (nth_error_In _ _ Hn)) as [Hd Hin].
    apply (scriptLines_semantic _ _ _ _ _ idx d); [assumption|].
    apply semanticLines_pair; [rewrite Hd; assumption | assumption |].
    apply (T f); [|assumption]. apply Hin.
    destruct (sd_files d); [destruct Hf | right; exact Hf].
Qed.

End EmitterFacts.

(** ** The properties on the sample libraries *)

Module SampleFacts.
Import EnhancedRun Samples Spec.

Lemma exact_groups_share_size_and_hash_witness :
  (In beyondExact (o_exact beyondRun)
   /\ In cd1 (ed_files beyondExact) /\ In cd2 (ed_files beyondExact))
  /\ size cd1 = size cd2
  /\ beyondHash (path cd1) = beyondHash (path cd2)
  /\ beyondHash (path cd1) = Some (ed_hash beyondExact)
  /\ ed_hash beyondExact <> [].
Proof.
  assert (H : In beyondExact (o_exact beyondRun)
              /\ In cd1 (ed_files beyondExact) /\ In cd2 (ed_files beyondExact)).
  { vm_compute. auto. }
  split; [exact H|]. destruct H as [Hd [Ha Hb]].
  exact (EnhancedRunFacts.exact_groups_share_size_and_hash
           beyondHash relative now beyondDir beyondFiles beyondLyrics
           beyondExact cd1 cd2 Hd Ha Hb).
Defined.

Lemma semantic_group_suppressed_iff_witness :
  (In (js "beyond|海阔天空", [cd1; cd2; live]) (songMap beyondInfos)
   /\ (1 < List.length [cd1; cd2; live])%nat)
  /\ (~ In (mkSemanticDup (js "beyond|海阔天空") [cd1; cd2; live])
          (semanticDuplicates (exactDuplicates beyondHash beyondInfos) beyondInfos)
      <-> (forall f, In f [cd1; cd2; live] ->
             exists d, In d (exactDuplicates beyondHash beyondInfos)
                       /\ inExactGroup d f)
          /\ (exists h, forall f d,
                In f [cd1; cd2; live] ->
                In d (exactDuplicates beyondHash beyondInfos) ->
                inExactGroup d f -> ed_hash d = h)).
Proof.
  assert (H : In (js "beyond|海阔天空", [cd1; cd2; live]) (songMap beyondInfos)
              /\ (1 < List.length [cd1; cd2; live])%nat).
  { split; [vm_compute; auto | simpl; lia]. }
  split; [exact H|]. destruct H as [Hg Hl].
  exact (EnhancedRunFacts.semantic_group_suppressed_iff
           beyondHash beyondInfos _ _ Hg Hl).
Defined.

Lemma lyric_file_moves_with_its_audio_witness :
  o_script beyondRun = Some beyondScript
  /\ adjacent
       (js "mv " ++ [0x22] ++ js "./cd2/海阔天空.mp3" ++ [0x22] ++ js " " ++ [0x22]
        ++ js "./_duplicates_temp/exact/group_001/" ++ [0x22]
        ++ js " 2>/dev/null || true")
       (js "mv " ++ [0x22] ++ js "./cd2/海阔天空.lrc" ++ [0x22] ++ js " " ++ [0x22]
        ++ js "./_duplicates_temp/exact/group_001/" ++ [0x22]
        ++ js " 2>/dev/null || true")
       beyondScript.
Proof.
  assert (H : o_script beyondRun = Some beyondScript).
  { vm_compute. reflexivity. }
  split; [exact H|].
  apply (proj1 (EmitterFacts.lyric_file_moves_with_its_audio
                  beyondHash relative now beyondDir beyondFiles beyondLyrics
                  beyondScript H) 0%nat beyondExact cd2
           (js "/music/Beyond/cd2/海阔天空.lrc")).
  - vm_compute. reflexivity.
  - vm_compute. auto.
  - vm_compute. reflexivity.
Defined.

End SampleFacts.

(** ** Phase B and the exact duplicates *)

Module SemanticFacts.
Import Enhanced EnhancedRun Spec EnhancedRunFacts.

Lemma forallb_false {A : Type} (p : A -> bool) (l : list A) :
  forallb p l = false -> exists x, In x l /\ p x = false.
Proof.
  induction l as [|x l IH]; simpl; [discriminate|].
  destruct (p x) eqn:E; simpl.
  - intros H. destruct (IH H) as [y [Hy Hp]]. exists y. auto.
  - intros _. exists x. auto.
Qed.

Lemma NoDup_two (l : list jsstring) :
  NoDup l -> (1 < List.length l)%nat ->
  exists a b, In a l /\ In b l /\ a <> b.
Proof.
  intros H Hl. destruct l as [|a [|b l]]; simpl in Hl; try lia.
  exists a, b. simpl. repeat split; auto.
  apply NoDup_cons_iff in H. destruct H as [H _]. simpl in H. intros ->. tauto.
Qed.

Section Enhanced.
Variable getFileHash : jsstring -> option jsstring.
Variable fileInfos : list fileInfo.

(** A group that is not passed over has a file in no exact group, or
    two files in exact groups with two hashes. *)
Lemma not_skipped group :
  skipped (exactDuplicates getFileHash fileInfos) group = false ->
  (exists f, In f group
             /\ forall d, In d (exactDuplicates getFileHash fileInfos) ->
                          ~ inExactGroup d f)
  \/ (exists f1 f2 d1 d2,
        In f1 group /\ In f2 group
        /\ In d1 (exactDuplicates getFileHash fileInfos)
        /\ In d2 (exactDuplicates getFileHash fileInfos)
        /\ inExactGroup d1 f1 /\ inExactGroup d2 f2
        /\ ed_hash d1 <> ed_hash d2).
Proof.
  unfold skipped. intros H. apply andb_false_iff in H. destruct H as [H|H].
  - left. unfold allInExact in H. apply forallb_false in H.
    destruct H as [f [Hf H]]. exists f. split; [assumption|].
    intros d Hd Hin.
    assert (existsb (eqb (path f))
              (exactDupPaths (exactDuplicates getFileHash fileInfos)) = true);
      [|congruence].
    apply existsb_exists. exists (path f). split; [|apply eqb_refl].
    unfold exactDupPaths. apply in_flat_map. exists d. auto.
  - right. apply Nat.leb_gt in H.
    destruct (NoDup_two _ (uniqueHashes_NoDup getFileHash fileInfos group) H)
      as [a [b [Ha [Hb Hab]]]].
    apply uniqueHashes_In in Ha, Hb.
    destruct Ha as [f1 [d1 [Hf1 [E1 <-]]]]. destruct Hb as [f2 [d2 [Hf2 [E2 <-]]]].
    apply exactGroupOf_Some in E1, E2.
    exists f1, f2, d1, d2. tauto.
Qed.

End Enhanced.

Lemma inExactGroup_sorted d f : inExactGroup (sortExact d) f <-> inExactGroup d f.
Proof.
  unfold inExactGroup. simpl. rewrite !in_map_iff.
  split; intros [x [Hx Hi]]; exists x; (split; [assumption|]);
    apply (JsArrayFacts.sort_In byScore); assumption.
Qed.

Lemma run_outcome getFileHash relative now targetDir audioFiles lrcIndex :
  let out := run getFileHash relative now targetDir audioFiles lrcIndex in
  let infos := map (preprocess targetDir lrcIndex) audioFiles in
  o_exact out = map sortExact (exactDuplicates getFileHash infos)
  /\ o_semantic out =
     map sortSemantic
       (semanticDuplicates (exactDuplicates getFileHash infos) infos).
Proof.
  cbv zeta. unfold run. destruct audioFiles as [|x xs]; [split; reflexivity|].
  destruct (map sortExact _), (map sortSemantic _); split; reflexivity.
Qed.

(** C2, as the detector has it.  A file of an exact group may stand in
    a semantic group as well; what a run never reports is a semantic
    group made of exact duplicates of one content only: each semantic
    group holds a file that is in no exact group, or two files of exact
    groups with different hashes. *)
Theorem semantic_group_is_not_one_exact_set
    getFileHash relative now targetDir audioFiles lrcIndex d :
  let out := run getFileHash relative now targetDir audioFiles lrcIndex in
  In d (o_semantic out) ->
  (exists f, In f (sd_files d)
             /\ forall de, In de (o_exact out) -> ~ inExactGroup de f)
  \/ (exists f1 f2 d1 d2,
        In f1 (sd_files d) /\ In f2 (sd_files d)
        /\ In d1 (o_exact out) /\ In d2 (o_exact out)
        /\ inExactGroup d1 f1 /\ inExactGroup d2 f2
        /\ ed_hash d1 <> ed_hash d2).
Proof.
  intros out Hd.
  destruct (run_outcome getFileHash relative now targetDir audioFiles lrcIndex)
    as [HE HS].
  fold out in HE, HS. rewrite HE. rewrite HS in Hd. clear HE HS out.
  set (infos := map (preprocess targetDir lrcIndex) audioFiles) in *.
  apply in_map_iff in Hd. destruct Hd as [d0 [<- Hd0]].
  unfold semanticDuplicates in Hd0. apply in_flat_map in Hd0.
  destruct Hd0 as [[k g] [_ Hd0]]. simpl in Hd0.
  destruct (1 <? List.length g)%nat; [|destruct Hd0].
  destruct (skipped _ g) eqn:E; [destruct Hd0|].
  destruct Hd0 as [<-|[]]. simpl.
  destruct (not_skipped _ _ _ E) as [[f [Hf H]]|[f1 [f2 [d1 [d2 H]]]]].
  - left. exists f. split; [apply JsArrayFacts.sort_In, Hf|].
    intros de Hde. apply in_map_iff in Hde. destruct Hde as [de0 [<- Hde0]].
    rewrite inExactGroup_sorted. auto.
  - right. exists f1, f2, (sortExact d1), (sortExact d2).
    destruct H as [H1 [H2 [H3 [H4 [H5 [H6 H7]]]]]].
    repeat split; try (apply JsArrayFacts.sort_In; assumption);
      try (apply in_map; assumption);
      try (apply inExactGroup_sorted; assumption).
    exact H7.
Qed.

(** The counterexample to C2: in the sample library the first copy of
    the song is in the exact group and in the semantic group. *)
Lemma exact_member_in_semantic_group :
  In Samples.beyondExact (o_exact Samples.beyondRun)
  /\ In Samples.beyondSemantic (o_semantic Samples.beyondRun)
  /\ In Samples.cd1 (ed_files Samples.beyondExact)
  /\ In Samples.cd1 (sd_files Samples.beyondSemantic).
Proof. vm_compute. auto 10. Qed.

Lemma semantic_group_is_not_one_exact_set_witness :
  In Samples.beyondSemantic (o_semantic Samples.beyondRun)
  /\ ((exists f, In f (sd_files Samples.beyondSemantic)
                 /\ forall de, In de (o_exact Samples.beyondRun) ->
                               ~ inExactGroup de f)
      \/ (exists f1 f2 d1 d2,
            In f1 (sd_files Samples.beyondSemantic)
            /\ In f2 (sd_files Samples.beyondSemantic)
            /\ In d1 (o_exact Samples.beyondRun)
            /\ In d2 (o_exact Samples.beyondRun)
            /\ inExactGroup d1 f1 /\ inExactGroup d2 f2
            /\ ed_hash d1 <> ed_hash d2)).
Proof.
  assert (H : In Samples.beyondSemantic (o_semantic Samples.beyondRun)).
  { vm_compute. auto. }
  split; [exact H|].
  exact (semantic_group_is_not_one_exact_set
           Samples.beyondHash Samples.relative Samples.now Samples.beyondDir
           Samples.beyondFiles Samples.beyondLyrics Samples.beyondSemantic H).
Defined.

(** *** The mover *)

Lemma stripSpaces_length s : (List.length (stripSpaces s) <= List.length s)%nat.
Proof. apply filter_length_le. Qed.

(** The groups of phase A in the mover are sound as well: the files
    under one hash, in the Map of one size, have that size and that
    hash in the file system as it is when the group is hashed. *)
Lemma mover_exact_groups_sound
    (World : Type) (getFileHash : World -> jsstring -> option jsstring)
    (w : World) fileInfos sz group hash same a :
  In (sz, group) (JsMap.groupBy N.eqb (fun f => Some (Utils.size f)) fileInfos) ->
  In (hash, same) (JsMap.groupBy eqb (Mover.hashOf World getFileHash w) group) ->
  In a same ->
  Utils.size a = sz /\ getFileHash w (Utils.path a) = Some hash /\ hash <> [].
Proof.
  intros Hg Hh Ha.
  destruct (JsMapFacts.groupBy_member _ eqb_eq _ _ _ _ _ Hh Ha) as [Ha' Hk].
  destruct (JsMapFacts.groupBy_member _ N_eqb_spec _ _ _ _ _ Hg Ha') as [_ Hs].
  inversion Hs. split; [reflexivity|].
  unfold Mover.hashOf in Hk.
  destruct (getFileHash w (Utils.path a)) as [h|]; [|discriminate].
  destruct h; simpl in Hk; [discriminate|]. inversion Hk.
  split; [reflexivity | discriminate].
Qed.

(** The mover keeps the files that phase A moved out of phase B. *)
Lemma moved_file_is_not_regrouped processed fileInfos f key group :
  In (Utils.path f) processed ->
  In (key, group) (Mover.songMap processed fileInfos) -> ~ In f group.
Proof.
  intros Hp Hg Hf.
  destruct (JsMapFacts.groupBy_member _ eqb_eq _ _ _ _ _ Hg Hf) as [_ Hk].
  unfold Mover.songKey in Hk.
  destruct (negb (Mover.isAudio (Utils.name f))); [discriminate|].
  assert (E : existsb (eqb (Utils.path f)) processed = true).
  { apply existsb_exists. exists (Utils.path f). split; [assumption | apply eqb_refl]. }
  rewrite E in Hk. discriminate.
Qed.

(** C7, in the mover.  Phase B tests the length of the title after
    lowering and taking the white space out, and lowering writes two
    units for each capital I with a dot (U+0130).  A candidate whose
    artist is [Unknown] and whose parsed title, each U+0130 counted
    twice, has four units or fewer gets no key in phase B, whatever
    phase A moved: it is in none of the groups of the song Map. *)
Theorem short_title_without_artist_is_not_grouped
    processed fileInfos (f : Utils.fileInfo) :
  (List.length (Utils.si_title (Utils.parseSongInfo (Utils.name f) None))
   + count_occ N.eq_dec
       (Utils.si_title (Utils.parseSongInfo (Utils.name f) None)) 0x130%N
   <= 4)%nat ->
  Utils.si_artist (Utils.parseSongInfo (Utils.name f) None) = js "Unknown" ->
  forall key group,
    In (key, group) (Mover.songMap processed fileInfos) -> ~ In f group.
Proof.
  intros Hl Ha key group Hg Hf.
  destruct (JsMapFacts.groupBy_member _ eqb_eq _ _ _ _ _ Hg Hf) as [_ Hk].
  unfold Mover.songKey in Hk. rewrite Ha in Hk.
  destruct (negb (Mover.isAudio (Utils.name f))); [discriminate|].
  destruct (existsb (eqb (Utils.path f)) processed); [discriminate|].
  destruct (_ || _); [discriminate|].
  change (stripSpaces (toLowerCase (js "Unknown"))) with (js "unknown") in Hk.
  rewrite eqb_refl in Hk. simpl in Hk.
  match type of Hk with
  | (if (4 <? ?n)%nat then _ else _) = _ =>
      assert (E : (4 <? n)%nat = false)
  end.
  { apply Nat.ltb_ge.
    etransitivity; [apply stripSpaces_length|].
    rewrite toLowerCase_length. assumption. }
  rewrite E in Hk. discriminate.
Qed.

Lemma short_title_without_artist_is_not_grouped_witness :
  Utils.si_title (Utils.parseSongInfo (Utils.name Samples.moverTrack05) None)
  = js "05"
  /\ Utils.si_artist (Utils.parseSongInfo (Utils.name Samples.moverTrack05) None)
     = js "Unknown"
  /\ forall key group,
       In (key, group) (Mover.songMap [] Samples.moverInfos) ->
       ~ In Samples.moverTrack05 group.
Proof.
  assert (Ht : Utils.si_title
                 (Utils.parseSongInfo (Utils.name Samples.moverTrack05) None)
               = js "05") by (vm_compute; reflexivity).
  assert (Ha : Utils.si_artist
                 (Utils.parseSongInfo (Utils.name Samples.moverTrack05) None)
               = js "Unknown") by (vm_compute; reflexivity).
  split; [exact Ht|]. split; [exact Ha|].
  apply (short_title_without_artist_is_not_grouped
           [] Samples.moverInfos Samples.moverTrack05); [|exact Ha].
  rewrite Ht. vm_compute. lia.
Defined.

(** The counterexample to C7.  The enhanced detector has no such rule:
    scanning from the root directory, where no directory name stands
    for the artist, it files the two tracks named [05] under one key
    and reports them as a semantic group.  And the mover counts the
    units of the lowered title: [İnci] has four units and no artist,
    its lowered title has five, and its two files are filed under one
    key. *)
Lemma short_title_without_artist_is_grouped :
  (artist Samples.track05 = js "Unknown"
   /\ title Samples.track05 = js "05"
   /\ exists d, In d (o_semantic Samples.rootRun)
                /\ In Samples.track05 (sd_files d))
  /\ (Utils.si_artist (Utils.parseSongInfo (Utils.name Samples.moverInci) None)
      = js "Unknown"
      /\ Utils.si_title (Utils.parseSongInfo (Utils.name Samples.moverInci) None)
         = [0x130; 0x6E; 0x63; 0x69]
      /\ In (js "unknown|" ++ [0x69; 0x307; 0x6E; 0x63; 0x69], Samples.inciInfos)
            (Mover.songMap [] Samples.inciInfos)
      /\ In Samples.moverInci Samples.inciInfos).
Proof.
  split.
  - split; [vm_compute; reflexivity|].
    split; [vm_compute; reflexivity|].
    exists (mkSemanticDup (js "unknown|05")
              [preprocess (js "/") [] (mkAudioFile (js "/rip/05.flac") 20000000);
               Samples.track05]).
    vm_compute. auto.
  - split; [vm_compute; reflexivity|].
    split; [vm_compute; reflexivity|].
    split; [vm_compute; auto | vm_compute; auto].
Qed.

End SemanticFacts.

(** ** Ranking *)

Module RankFacts.
Import JsArray Spec.

Lemma byKey_consistent {A : Type} (k : A -> Z) : consistent (byKey k).
Proof.
  unfold byKey. split.
  - intros x y. apply Z.compare_antisym.
  - intros x y z. rewrite !Z.compare_le_iff. lia.
  - intros x y z H. apply Z.compare_eq in H. rewrite H. reflexivity.
Qed.

Lemma lexc_consistent {A : Type} (c1 c2 : A -> A -> comparison) :
  consistent c1 -> consistent c2 ->
  consistent (fun a b => lexc (c1 a b) (c2 a b)).
Proof.
  intros [o1 t1 e1] [o2 t2 e2].
  assert (e1' : forall x y z, c1 x y = Eq -> c1 z x = c1 z y).
  { intros x y z H. rewrite (o1 x z), (o1 y z), (e1 _ _ _ H). reflexivity. }
  split.
  - intros x y. rewrite (o1 x y), (o2 x y). destruct (c1 x y); reflexivity.
  - intros x y z. unfold lexc.
    destruct (c1 x y) eqn:Exy; try congruence;
      destruct (c1 y z) eqn:Eyz; try congruence; intros Hxy Hyz.
    + rewrite (e1 _ _ _ Exy), Eyz. apply (t2 x y z); assumption.
    + rewrite (e1 _ _ _ Exy), Eyz. discriminate.
    + rewrite <- (e1' _ _ x Eyz), Exy. discriminate.
    + assert (E : c1 x z <> Gt) by (apply (t1 x y z); congruence).
      destruct (c1 x z) eqn:Exz; try congruence.
      exfalso. pose proof (e1 _ _ y Exz) as E'. rewrite Exy in E'.
      rewrite (o1 y z), Eyz in E'. discriminate.
  - intros x y z. unfold lexc. destruct (c1 x y) eqn:Exy; try discriminate.
    intros H. rewrite (e1 _ _ _ Exy). destruct (c1 y z); auto.
Qed.

Section Sorted.
Context {A : Type}.
Variable sgn : A -> A -> comparison.
Hypothesis sgn_consistent : consistent sgn.

Lemma consistent_asym x y : sgn x y = Gt -> sgn y x <> Gt.
Proof. intros H. rewrite (c_opp _ sgn_consistent x y), H. discriminate. Qed.

(** In the sorted array no element need follow one that stands after it. *)
Lemma sort_strongly_sorted (l : list A) :
  StronglySorted (notAfter sgn) (sort sgn l).
Proof.
  apply Sorted_StronglySorted.
  - intros x y z. apply (c_trans _ sgn_consistent).
  - apply JsArrayFacts.sort_sorted. exact consistent_asym.
Qed.

Lemma strongly_sorted_before (R : A -> A -> Prop) l1 a l2 b l3 :
  StronglySorted R (l1 ++ a :: l2 ++ b :: l3) -> R a b.
Proof.
  induction l1 as [|x l1 IH]; simpl; intros H.
  - inversion H as [|? ? _ Hall]; subst.
    rewrite Forall_forall in Hall. apply Hall.
    apply in_or_app. right. left. reflexivity.
  - inversion H; subst. auto.
Qed.

Lemma sort_before l l1 a l2 b l3 :
  sort sgn l = l1 ++ a :: l2 ++ b :: l3 -> sgn a b <> Gt.
Proof.
  intros E. change (notAfter sgn a b).
  apply (strongly_sorted_before _ l1 a l2 b l3).
  rewrite <- E. apply sort_strongly_sorted.
Qed.

Lemma insert_stable x0 x (l : list A) :
  filter (tied sgn x0) (insert sgn x l) = filter (tied sgn x0) (x :: l).
Proof.
  induction l as [|y l IH]; [reflexivity|].
  simpl insert. destruct (sgn x y) eqn:E; try reflexivity.
  simpl filter in *. rewrite IH.
  destruct (tied sgn x0 y) eqn:Ty; [|reflexivity].
  destruct (tied sgn x0 x) eqn:Tx; [|reflexivity].
  exfalso. unfold tied in Ty, Tx.
  destruct (sgn x0 y) eqn:Ey; try discriminate.
  destruct (sgn x0 x) eqn:Ex; try discriminate.
  pose proof (c_tie _ sgn_consistent _ _ y Ex) as H.
  rewrite Ey, E in H. discriminate.
Qed.

(** The sort is stable: the elements that tie with a given one keep
    their order. *)
Lemma sort_stable x0 (l : list A) :
  filter (tied sgn x0) (sort sgn l) = filter (tied sgn x0) l.
Proof.
  induction l as [|x l IH]; [reflexivity|].
  simpl sort. rewrite insert_stable. simpl. rewrite IH. reflexivity.
Qed.

End Sorted.

(** *** check_duplicates.js *)

Import Checker.

(** The comparator reads four keys in turn: Live or not, the size from
    the largest, the length of the name, a copy or not. *)
Lemma sgnFiles_lex a b :
  sgnFiles a b =
  lexc (byKey liveKey a b)
    (lexc (byKey sizeKey a b) (lexc (byKey lengthKey a b) (byKey copyKey a b))).
Proof.
  unfold sgnFiles, compareFiles, byKey, liveKey, sizeKey, lengthKey, copyKey.
  destruct (isLiveVersion (originalName a)), (isLiveVersion (originalName b));
    simpl; try reflexivity;
    (destruct (N.eqb_spec (size a) (size b)) as [Es|Es]; simpl;
     [ rewrite Es, Z.compare_refl; simpl;
       destruct (Z.eqb_spec (lengthOf (originalName a)) (lengthOf (originalName b)))
         as [El|El]; simpl;
       [ rewrite El, Z.compare_refl; simpl;
         destruct (hasCopy (originalName a)), (hasCopy (originalName b));
         reflexivity
       | rewrite <- Z.compare_sub;
         destruct (Z.compare_spec (lengthOf (originalName a))
                     (lengthOf (originalName b))); try reflexivity; congruence ]
     | rewrite <- Z.compare_sub;
       destruct (Z.compare_spec (Z.of_N (size b)) (Z.of_N (size a))) as [H|H|H];
       [ exfalso; apply Es; lia
       | assert ((- Z.of_N (size a) ?= - Z.of_N (size b))%Z = Lt) as ->
           by (apply Z.compare_lt_iff; lia); reflexivity
       | assert ((- Z.of_N (size a) ?= - Z.of_N (size b))%Z = Gt) as ->
           by (apply Z.compare_gt_iff; lia); reflexivity ] ]).
Qed.

Lemma sgnFiles_consistent : consistent sgnFiles.
Proof.
  assert (H : consistent
                (fun a b =>
                   lexc (byKey liveKey a b)
                     (lexc (byKey sizeKey a b)
                        (lexc (byKey lengthKey a b) (byKey copyKey a b))))).
  { repeat apply lexc_consistent; apply byKey_consistent. }
  destruct H as [o t e]. split; intros; rewrite !sgnFiles_lex; auto.
  - rewrite !sgnFiles_lex in *. eapply t; eassumption.
  - rewrite !sgnFiles_lex in *. auto.
Qed.

Lemma tied_sameRank x y : tied sgnFiles x y = sameRank x y.
Proof.
  unfold tied, sameRank. rewrite sgnFiles_lex.
  unfold byKey, liveKey, sizeKey, lengthKey, copyKey, lengthOf.
  destruct (isLiveVersion (originalName x)), (isLiveVersion (originalName y));
    simpl; try reflexivity;
    (destruct (N.eqb_spec (size x) (size y)) as [Es|Es]; simpl;
     [ rewrite Es, Z.compare_refl; simpl;
       destruct (Nat.eqb_spec (List.length (originalName x))
                   (List.length (originalName y))) as [El|El]; simpl;
       [ rewrite El, Z.compare_refl; simpl;
         destruct (hasCopy (originalName x)), (hasCopy (originalName y));
         reflexivity
       | destruct (Z.compare_spec (Z.of_nat (List.length (originalName x)))
                     (Z.of_nat (List.length (originalName y))));
         try reflexivity; lia ]
     | destruct (Z.compare_spec (- Z.of_N (size x)) (- Z.of_N (size y)));
       try reflexivity; lia ]).
Qed.

(** C4, in check_duplicates.js.  The sort of a group rearranges its
    files; of two files with the same Live mark and the same size, the
    one that comes first has the name that is not longer and, the
    lengths being equal, is not a copy when the other is none; and the
    files that no rule tells apart keep the order of the scan. *)
Theorem checker_rank_breaks_ties (files : list musicFile) :
  Permutation (sortFiles files) files
  /\ (forall l1 a l2 b l3,
        sortFiles files = l1 ++ a :: l2 ++ b :: l3 ->
        isLiveVersion (originalName a) = isLiveVersion (originalName b) ->
        size a = size b ->
        (List.length (originalName a) <= List.length (originalName b))%nat
        /\ (List.length (originalName a) = List.length (originalName b) ->
            hasCopy (originalName a) = true -> hasCopy (originalName b) = true))
  /\ (forall x, filter (sameRank x) (sortFiles files) = filter (sameRank x) files).
Proof.
  split; [apply JsArrayFacts.sort_perm|]. split.
  - intros l1 a l2 b l3 E Hl Hs.
    pose proof (sort_before _ sgnFiles_consistent _ _ _ _ _ _ E) as H.
    rewrite sgnFiles_lex in H.
    unfold byKey, liveKey, sizeKey, lengthKey, copyKey, lengthOf in H.
    rewrite Hl, Hs, !Z.compare_refl in H. simpl in H.
    destruct (Z.compare_spec (Z.of_nat (List.length (originalName a)))
                (Z.of_nat (List.length (originalName b)))) as [E1|E1|E1];
      simpl in H; try congruence.
    + split; [lia|]. intros _ Ha. rewrite Ha in H.
      destruct (hasCopy (originalName b)); [reflexivity|].
      exfalso. apply H. reflexivity.
    + split; [lia|]. intros E2. lia.
  - intros x.
    rewrite (filter_ext _ _ (fun y => eq_sym (tied_sameRank x y))).
    rewrite (filter_ext _ _ (fun y => eq_sym (tied_sameRank x y)) files).
    apply sort_stable, sgnFiles_consistent.
Qed.

(** *** check_duplicates_enhanced.js *)

Lemma byScore_compare a b :
  EnhancedRun.byScore a b
  = (EnhancedRun.getScore b ?= EnhancedRun.getScore a)%Q.
Proof.
  unfold EnhancedRun.byScore.
  destruct (Qcompare_spec (EnhancedRun.getScore b) (EnhancedRun.getScore a))
    as [H|H|H].
  - apply (proj1 (Qeq_alt _ _)). lra.
  - apply (proj1 (Qlt_alt _ _)). lra.
  - apply (proj1 (Qgt_alt _ _)). lra.
Qed.

Lemma byScore_consistent : consistent EnhancedRun.byScore.
Proof.
  split.
  - intros x y. rewrite !byScore_compare. symmetry. apply Qcompare_antisym.
  - intros x y z. rewrite !byScore_compare. intros H1 H2.
    apply (proj2 (Qle_alt _ _)) in H1. apply (proj2 (Qle_alt _ _)) in H2.
    apply (proj1 (Qle_alt _ _)). lra.
  - intros x y z. rewrite !byScore_compare. intros H.
    apply (proj2 (Qeq_alt _ _)) in H.
    destruct (Qcompare_spec (EnhancedRun.getScore z) (EnhancedRun.getScore y))
      as [H'|H'|H'];
      [ apply (proj1 (Qeq_alt _ _)) | apply (proj1 (Qlt_alt _ _))
      | apply (proj1 (Qgt_alt _ _)) ]; lra.
Qed.

Lemma tied_sameScore x y : tied EnhancedRun.byScore x y = sameScore x y.
Proof.
  unfold tied, sameScore. rewrite byScore_compare.
  destruct (Qcompare_spec (EnhancedRun.getScore y) (EnhancedRun.getScore x))
    as [H|H|H]; symmetry.
  - apply Qeq_bool_iff. lra.
  - destruct (Qeq_bool _ _) eqn:E; [|reflexivity]. apply Qeq_bool_iff in E. lra.
  - destruct (Qeq_bool _ _) eqn:E; [|reflexivity]. apply Qeq_bool_iff in E. lra.
Qed.

(** In the enhanced detector the score is the only rule: files with the
    same score keep the order of the scan. *)
Lemma enhanced_equal_scores_keep_order (files : list EnhancedRun.fileInfo) x :
  filter (sameScore x) (EnhancedRun.sortFiles files) = filter (sameScore x) files.
Proof.
  rewrite (filter_ext _ _ (fun y => eq_sym (tied_sameScore x y))).
  rewrite (filter_ext _ _ (fun y => eq_sym (tied_sameScore x y)) files).
  apply sort_stable, byScore_consistent.
Qed.

(** The counterexample to C4: for a song and its copy, byte for byte,
    the scores are equal, and the detector keeps the copy, whose name
    is the longer one and comes first in the scan. *)
Lemma enhanced_tie_keeps_the_copy_first :
  exists d a b,
    EnhancedRun.o_exact Samples.copyRun = [d]
    /\ EnhancedRun.ed_files d = [a; b]
    /\ EnhancedRun.name a = js "Song copy.mp3"
    /\ EnhancedRun.name b = js "Song.mp3"
    /\ (EnhancedRun.getScore a == EnhancedRun.getScore b)%Q
    /\ (List.length (EnhancedRun.name b) < List.length (EnhancedRun.name a))%nat
    /\ hasCopy (EnhancedRun.name a) = true
    /\ hasCopy (EnhancedRun.name b) = false.
Proof.
  eexists. eexists. eexists.
  split; [vm_compute; reflexivity|].
  split; [reflexivity|].
  split; [vm_compute; reflexivity|].
  split; [vm_compute; reflexivity|].
  split; [vm_compute; reflexivity|].
  split; [vm_compute; lia|].
  split; vm_compute; reflexivity.
Qed.

End RankFacts.

(** ** The file-name parsers *)

Module ParserFacts.
Import Spec StringFacts.


Lemma allDigits_digitsOnly a : allDigits a = true <-> digitsOnly a.
Proof.
  unfold allDigits, digitsOnly. rewrite andb_true_iff, forallb_forall, Forall_forall.
  split.
  - intros [H1 H2]. split; [destruct a; [discriminate | discriminate]|].
    intros c Hc. specialize (H2 c Hc). unfold isDigit in H2.
    apply andb_true_iff in H2. rewrite !N.leb_le in H2. exact H2.
  - intros [H1 H2]. split; [destruct a; [congruence | reflexivity]|].
    intros c Hc. unfold isDigit. apply andb_true_iff. rewrite !N.leb_le.
    exact (H2 c Hc).
Qed.

Lemma enhanced_fallback d : isFallback d (Enhanced.orUnknown d).
Proof.
  split.
  - intros a -> Ha. destruct a; [congruence | reflexivity].
  - intros [-> | ->]; reflexivity.
Qed.

Lemma utils_fallback d : isFallback d (Utils.orUnknown d).
Proof.
  split.
  - intros a -> Ha. destruct a; [congruence | reflexivity].
  - intros [-> | ->]; reflexivity.
Qed.

Lemma truthy_nonempty (s : jsstring) : truthy s = true <-> s <> [].
Proof. destruct s; simpl; split; congruence. Qed.

(** What the enhanced detector makes of the two parts around a dash. *)
Lemma splitArtistTitle_first sep n pre post :
  firstSplit sep n pre post ->
  (trim pre <> [] -> ~ digitsOnly (trim pre) ->
   Enhanced.splitArtistTitle sep n = (trim pre, trim post))
  /\ (trim pre = [] \/ digitsOnly (trim pre) ->
      Enhanced.splitArtistTitle sep n = ([], n)).
Proof.
  intros H. destruct (firstSplit_indexOf _ _ _ _ H) as [E [P Q]].
  unfold Enhanced.splitArtistTitle, substringTo, substringFrom.
  rewrite E, P, Q. unfold Enhanced.looksLikeArtist. split.
  - intros H1 H2. apply truthy_nonempty in H1. rewrite H1.
    destruct (allDigits (trim pre)) eqn:Ed; [|reflexivity].
    apply allDigits_digitsOnly in Ed. tauto.
  - intros [H1|H1].
    + rewrite H1. reflexivity.
    + apply allDigits_digitsOnly in H1. rewrite H1. reflexivity.
Qed.

Lemma dashesRead_some n : exists x, dashesRead n x.
Proof.
  destruct (includes (js " - ") n) eqn:E1.
  - apply includes_holds, holds_firstSplit in E1. destruct E1 as [pre [post H]].
    eexists. apply (dashes_spaced n pre post H).
  - apply includes_not in E1.
    destruct (includes (js "-") n) eqn:E2.
    + apply includes_holds, holds_firstSplit in E2. destruct E2 as [pre [post H]].
      destruct pre as [|c pre].
      * exists None. apply dashes_none; [exact E1|]. right. exists post.
        destruct H as [H _]. exact H.
      * eexists. apply (dashes_bare n (c :: pre) post E1 H). discriminate.
    + apply includes_not in E2. exists None. apply dashes_none; auto.
Qed.

Lemma enhanced_reads fileName defaultArtist x :
  dashesRead (Enhanced.removeTrackNumber
                (Path.basenameExt fileName (Path.extname fileName))) x ->
  let n := Enhanced.removeTrackNumber
             (Path.basenameExt fileName (Path.extname fileName)) in
  let r := Enhanced.parseSongInfo fileName defaultArtist in
  match x with
  | Some (a, t) =>
      (a <> [] -> ~ digitsOnly a ->
       Enhanced.si_artist r = a
       /\ Enhanced.si_title r = Enhanced.removeDescriptiveSuffix t)
      /\ (a = [] \/ digitsOnly a ->
          isFallback defaultArtist (Enhanced.si_artist r)
          /\ Enhanced.si_title r = Enhanced.removeDescriptiveSuffix n)
  | None =>
      isFallback defaultArtist (Enhanced.si_artist r)
      /\ Enhanced.si_title r = Enhanced.removeDescriptiveSuffix n
  end.
Proof.
  intros H. cbv zeta. unfold Enhanced.parseSongInfo.
  set (n := Enhanced.removeTrackNumber
              (Path.basenameExt fileName (Path.extname fileName))) in *.
  inversion H as [pre post Hs | pre post Hn Hs Hp | Hn Hd]; subst.
  - rewrite (proj2 (includes_holds _ _) (firstSplit_holds _ _ _ _ Hs)).
    destruct (splitArtistTitle_first _ _ _ _ Hs) as [S1 S2]. split.
    + intros H1 H2. rewrite (S1 H1 H2). simpl.
      rewrite (proj2 (truthy_nonempty _) H1). split; reflexivity.
    + intros H1. rewrite (S2 H1). simpl. split; [apply enhanced_fallback | reflexivity].
  - rewrite (proj2 (includes_not _ _) Hn).
    rewrite (proj2 (includes_holds _ _) (firstSplit_holds _ _ _ _ Hs)).
    assert (Es : startsWith (js "-") n = false).
    { destruct (startsWith (js "-") n) eqn:Es; [|reflexivity]. exfalso.
      apply startsWith_prefix in Es. destruct Es as [post' Es].
      destruct Hs as [_ Hm]. specialize (Hm [] post' Es).
      destruct pre; [congruence | simpl in Hm; lia]. }
    rewrite Es. cbn [negb andb].
    destruct (splitArtistTitle_first _ _ _ _ Hs) as [S1 S2]. split.
    + intros H1 H2. rewrite (S1 H1 H2). simpl.
      rewrite (proj2 (truthy_nonempty _) H1). split; reflexivity.
    + intros H1. rewrite (S2 H1). simpl. split; [apply enhanced_fallback | reflexivity].
  - rewrite (proj2 (includes_not _ _) Hn).
    assert (E : includes (js "-") n && negb (startsWith (js "-") n) = false).
    { destruct Hd as [Hd | [post Hd]].
      - rewrite (proj2 (includes_not _ _) Hd). reflexivity.
      - rewrite (proj2 (startsWith_prefix _ _) (ex_intro _ post Hd)).
        apply andb_false_r. }
    rewrite E. simpl. split; [apply enhanced_fallback | reflexivity].
Qed.

(** *** The artist in parentheses *)


Lemma isOpenParen_iff c : isOpenParen c = true <-> openParen c.
Proof. unfold isOpenParen, openParen. rewrite orb_true_iff, !N.eqb_eq. tauto. Qed.

Lemma isCloseParen_iff c : isCloseParen c = true <-> closeParen c.
Proof. unfold isCloseParen, closeParen. rewrite orb_true_iff, !N.eqb_eq. tauto. Qed.

Lemma isLineTerminator_iff c : isLineTerminator c = true <-> lineBreak c.
Proof.
  unfold isLineTerminator, lineBreak. rewrite !orb_true_iff, !N.eqb_eq. tauto.
Qed.

Lemma unbroken_iff (m : jsstring) :
  forallb (fun x => negb (isLineTerminator x)) m = true
  <-> forall x, In x m -> ~ lineBreak x.
Proof.
  rewrite forallb_forall. split; intros H x Hx.
  - specialize (H x Hx). apply negb_true_iff in H. rewrite <- isLineTerminator_iff.
    congruence.
  - specialize (H x Hx). apply negb_true_iff.
    destruct (isLineTerminator x) eqn:E; [|reflexivity].
    apply isLineTerminator_iff in E. tauto.
Qed.

(** The artist in parentheses at the end of a string. *)
Lemma matchInner_iff s inner :
  Utils.matchInner s = Some inner
  <-> exists c, s = inner ++ [c] /\ closeParen c /\ inner <> []
                /\ forall x, In x inner -> ~ lineBreak x.
Proof.
  unfold Utils.matchInner. split.
  - destruct (rev s) as [|c [|y m]] eqn:E; try discriminate.
    destruct (isCloseParen c && _) eqn:T; [|discriminate].
    intros H. inversion H. subst inner. clear H.
    apply andb_true_iff in T. destruct T as [T1 T2].
    exists c. split; [|split; [apply isCloseParen_iff, T1|split]].
    + rewrite <- (rev_involutive s), E. reflexivity.
    + intros H. apply (f_equal (@List.length N)) in H. simpl in H.
      rewrite ?length_app, ?length_rev in H. simpl in H. lia.
    + intros x Hx. apply (proj2 (in_rev (y :: m) x)) in Hx.
      revert x Hx. apply unbroken_iff, T2.
  - intros [c [-> [Hc [Hn Hb]]]]. rewrite rev_app_distr. simpl.
    destruct (rev inner) as [|y m] eqn:E.
    + exfalso. apply Hn. rewrite <- (rev_involutive inner), E. reflexivity.
    + apply isCloseParen_iff in Hc. rewrite Hc.
      assert (T : forallb (fun x => negb (isLineTerminator x)) (y :: m) = true).
      { apply unbroken_iff. intros x Hx. apply Hb. apply in_rev. rewrite E. exact Hx. }
      rewrite T. cbn [andb]. rewrite <- E, rev_involutive. reflexivity.
Qed.

Lemma matchTitleArtist_spec s :
  forall pre,
    match Utils.matchTitleArtist pre s with
    | Some (t, a) =>
        exists t2, t = rev pre ++ t2 /\ splitAfter pre s t2 a
                   /\ forall t2' a', splitAfter pre s t2' a' ->
                                     (List.length t2 <= List.length t2')%nat
    | None => forall t2 a, ~ splitAfter pre s t2 a
    end.
Proof.
  induction s as [|c s IH]; intros pre.
  - simpl. intros t2 a [o [x [E _]]]. destruct t2; discriminate.
  - simpl Utils.matchTitleArtist.
    destruct (if truthy pre && isOpenParen c then Utils.matchInner s else None)
      as [inner|] eqn:T.
    + destruct (truthy pre && isOpenParen c) eqn:G; [|discriminate].
      apply andb_true_iff in G. destruct G as [G1 G2].
      apply matchInner_iff in T. destruct T as [x [E [Hx [Hn Hb]]]].
      exists []. rewrite app_nil_r. split; [reflexivity|]. split.
      * exists c, x. simpl. rewrite E.
        repeat split; try assumption.
        -- apply isOpenParen_iff, G2.
        -- rewrite app_nil_r. destruct pre; [discriminate|]. simpl.
           intros H. apply app_eq_nil in H. destruct H; discriminate.
        -- intros y [].
      * intros. simpl. lia.
    + assert (N0 : forall a, ~ splitAfter pre (c :: s) [] a).
      { intros a [o [x [E [Ho [Hx [Hp [Ha [_ Hb]]]]]]]].
        simpl in E. injection E as Ec Es. subst o.
        rewrite app_nil_r in Hp.
        assert (G1 : truthy pre = true).
        { destruct pre; [simpl in Hp; congruence | reflexivity]. }
        apply isOpenParen_iff in Ho. rewrite G1, Ho in T. simpl in T.
        assert (M : Utils.matchInner s = Some a).
        { apply matchInner_iff. exists x. auto. }
        congruence. }
      destruct (isLineTerminator c) eqn:L.
      * intros t2 a H. destruct t2 as [|y t2]; [exact (N0 a H)|].
        destruct H as [o [x [E [_ [_ [_ [_ [Hb _]]]]]]]].
        simpl in E. injection E as Ec Es. subst y.
        apply (Hb c); [left; reflexivity | apply isLineTerminator_iff, L].
      * assert (Step : forall t2 a, splitAfter (c :: pre) s t2 a
                                    <-> splitAfter pre (c :: s) (c :: t2) a).
        { intros t2 a. split.
          - intros [o [x [E [Ho [Hx [Hp [Ha [Hb1 Hb2]]]]]]]].
            exists o, x. simpl. rewrite E. repeat split; try assumption.
            + simpl in Hp. rewrite <- app_assoc in Hp. exact Hp.
            + intros y [<-|Hy]; [|apply Hb1, Hy].
              rewrite <- isLineTerminator_iff. congruence.
          - intros [o [x [E [Ho [Hx [Hp [Ha [Hb1 Hb2]]]]]]]].
            exists o, x. simpl in E. injection E as Es.
            repeat split; try assumption.
            + simpl. rewrite <- app_assoc. exact Hp.
            + intros y Hy. apply Hb1. right. exact Hy. }
        specialize (IH (c :: pre)).
        destruct (Utils.matchTitleArtist (c :: pre) s) as [[t a]|].
        -- destruct IH as [t2 [Et [Hsp Hmin]]]. exists (c :: t2).
           split; [rewrite Et; simpl; rewrite <- app_assoc; reflexivity|].
           split; [apply Step, Hsp|].
           intros t2' a' H'. destruct t2' as [|y t2']; [exfalso; exact (N0 a' H')|].
           assert (y = c).
           { destruct H' as [o [x [E _]]]. simpl in E. congruence. }
           subst y. apply Step in H'. specialize (Hmin _ _ H'). simpl. lia.
        -- intros t2 a H. destruct t2 as [|y t2]; [exact (N0 a H)|].
           assert (y = c).
           { destruct H as [o [x [E _]]]. simpl in E. congruence. }
           subst y. apply Step in H. exact (IH _ _ H).
Qed.

Lemma splitAfter_nil s t a : splitAfter [] s t a <-> parenSplit s t a.
Proof. unfold splitAfter, parenSplit. simpl. tauto. Qed.

Lemma firstParenSplit_one s t a t' a' :
  firstParenSplit s t a -> firstParenSplit s t' a' -> t = t' /\ a = a'.
Proof.
  intros [H1 M1] [H2 M2].
  pose proof (M1 _ _ H2). pose proof (M2 _ _ H1).
  assert (L : List.length t = List.length t') by lia.
  destruct H1 as [o [c [E1 _]]]. destruct H2 as [o' [c' [E2 _]]].
  rewrite E1 in E2.
  assert (P : t = t').
  { apply (f_equal (firstn (List.length t))) in E2.
    rewrite firstn_app, firstn_all, Nat.sub_diag in E2. simpl in E2.
    rewrite app_nil_r in E2. rewrite L in E2 at 1.
    rewrite firstn_app, firstn_all, Nat.sub_diag in E2. simpl in E2.
    rewrite app_nil_r in E2. exact E2. }
  subst t'. split; [reflexivity|]. apply app_inv_head in E2.
  simpl in E2. injection E2 as Eo E2. apply app_inj_tail in E2. tauto.
Qed.

Lemma matchTitleArtist_first n t a :
  firstParenSplit n t a -> Utils.matchTitleArtist [] n = Some (t, a).
Proof.
  intros H. pose proof (matchTitleArtist_spec n []) as S.
  destruct (Utils.matchTitleArtist [] n) as [[t' a']|].
  - destruct S as [t2 [Et [Hsp Hmin]]]. simpl in Et. subst t2.
    assert (F : firstParenSplit n t' a').
    { split; [apply splitAfter_nil, Hsp|]. intros t2 a2 H2.
      apply (Hmin t2 a2), splitAfter_nil, H2. }
    destruct (firstParenSplit_one _ _ _ _ _ F H) as [-> ->]. reflexivity.
  - exfalso. destruct H as [H _]. apply (S t a), splitAfter_nil, H.
Qed.

Lemma matchTitleArtist_none n :
  (forall t a, ~ parenSplit n t a) -> Utils.matchTitleArtist [] n = None.
Proof.
  intros H. pose proof (matchTitleArtist_spec n []) as S.
  destruct (Utils.matchTitleArtist [] n) as [[t' a']|]; [|reflexivity].
  exfalso. destruct S as [t2 [_ [Hsp _]]]. exact (H _ _ (proj1 (splitAfter_nil _ _ _) Hsp)).
Qed.

Lemma parenSplit_parens n t a :
  parenSplit n t a ->
  existsb isOpenParen n && existsb isCloseParen n = true.
Proof.
  intros [o [c [E [Ho [Hc _]]]]]. apply andb_true_iff. split; apply existsb_exists.
  - exists o. split; [|apply isOpenParen_iff, Ho]. rewrite E.
    rewrite !in_app_iff. simpl. tauto.
  - exists c. split; [|apply isCloseParen_iff, Hc]. rewrite E.
    rewrite !in_app_iff. simpl. tauto.
Qed.

(** *** The word in parentheses at the end of a title *)


Lemma tags_words : Utils.tags = tagWords.
Proof. reflexivity. Qed.

(** The suffix pattern of check_duplicates_utils.js on a whole string. *)
Lemma tagMatches_iff m :
  Utils.tagMatches m = true
  <-> exists o w c tag,
        m = [o] ++ w ++ [c] /\ openParen o /\ closeParen c
        /\ In tag tagWords /\ sameText w tag.
Proof.
  unfold Utils.tagMatches. rewrite tags_words. split.
  - destruct m as [|o r]; [discriminate|]. intros H.
    apply andb_true_iff in H. destruct H as [Ho H].
    apply existsb_exists in H. destruct H as [tag [Ht H]].
    apply andb_true_iff in H. destruct H as [H1 H2].
    apply startsWithCi_iff in H1. destruct H1 as [w [rest [-> Hw]]].
    rewrite <- (sameText_length _ _ Hw) in H2.
    rewrite skipn_app, skipn_all, Nat.sub_diag in H2. simpl in H2.
    destruct rest as [|c [|? ?]]; try discriminate.
    exists o, w, c, tag. repeat split; try assumption.
    + apply isOpenParen_iff, Ho.
    + apply isCloseParen_iff, H2.
  - intros [o [w [c [tag [-> [Ho [Hc [Ht Hw]]]]]]]].
    change ([o] ++ w ++ [c]) with (o :: w ++ [c]). cbv beta iota.
    apply isOpenParen_iff in Ho. rewrite Ho. cbn [andb].
    apply existsb_exists. exists tag. split; [assumption|].
    apply andb_true_iff. split.
    + apply startsWithCi_iff. exists w, [c]. auto.
    + rewrite <- (sameText_length _ _ Hw).
      rewrite skipn_app, skipn_all, Nat.sub_diag. simpl.
      apply isCloseParen_iff, Hc.
Qed.

Lemma hasTag_iff s :
  Utils.hasTag s = true
  <-> exists body m, s = body ++ m /\ Utils.tagMatches m = true.
Proof.
  induction s as [|c s IH].
  - simpl. split; [discriminate|]. intros [body [m [E H]]].
    symmetry in E. apply app_eq_nil in E. destruct E as [_ ->]. discriminate.
  - change (Utils.hasTag (c :: s))
      with (Utils.tagMatches (c :: s) || Utils.hasTag s).
    rewrite orb_true_iff, IH. split.
    + intros [H | [body [m [-> H]]]].
      * exists [], (c :: s). auto.
      * exists (c :: body), m. auto.
    + intros [[|x body] [m [E H]]].
      * left. simpl in E. subst m. exact H.
      * right. simpl in E. injection E as -> ->. eauto.
Qed.

Lemma cutAt_match (matches : jsstring -> bool) s :
  (exists body m, s = body ++ m /\ matches m = true) ->
  exists m, s = cutAt matches s ++ m /\ matches m = true.
Proof.
  induction s as [|c s IH]; intros [body [m [E H]]].
  - symmetry in E. apply app_eq_nil in E. destruct E as [_ ->].
    simpl. rewrite H. exists []. auto.
  - simpl. destruct (matches (c :: s)) eqn:T.
    + exists (c :: s). auto.
    + destruct body as [|x body]; [simpl in E; subst m; congruence|].
      simpl in E. injection E as -> ->.
      destruct IH as [m' [E' H']]; [eauto|]. exists m'. simpl.
      rewrite <- E'. auto.
Qed.

Lemma words_plain tag w x :
  In tag tagWords -> sameText w tag -> In x w -> ~ openParen x /\ ~ closeParen x.
Proof.
  intros Ht Hw Hx.
  assert (G : forallb (forallb (fun y => negb (isOpenParen y || isCloseParen y)
                                          && negb (isOpenParen (y + 32)
                                                   || isCloseParen (y + 32))))
                tagWords = true) by (vm_compute; reflexivity).
  rewrite forallb_forall in G. specialize (G tag Ht). rewrite forallb_forall in G.
  clear Ht. induction Hw as [|a b w tag' Hab Hw IH]; [destruct Hx|].
  destruct Hx as [<-|Hx].
  - specialize (G b (or_introl eq_refl)). unfold isOpenParen, isCloseParen in G.
    rewrite !andb_true_iff, !negb_true_iff, !orb_false_iff, !N.eqb_neq in G.
    unfold openParen, closeParen. unfold sameLetter in Hab. lia.
  - apply IH; [exact Hx|]. intros y Hy. apply G. right. exact Hy.
Qed.

(** A title ends with one word in parentheses at most. *)
Lemma tagged_one title b1 b2 : tagged title b1 -> tagged title b2 -> b1 = b2.
Proof.
  assert (G : forall (o1 : N) (w1 : jsstring) (c1 o2 : N) (w2 : jsstring)
                     (c2 : N) tag2 l,
             l <> [] ->
             [o2] ++ w2 ++ [c2] = l ++ [o1] ++ w1 ++ [c1] ->
             openParen o1 -> In tag2 tagWords -> sameText w2 tag2 -> False).
  { intros o1 w1 c1 o2 w2 c2 tag2 l Hl E Ho Ht Hw.
    destruct l as [|z l]; [congruence|]. simpl in E. injection E as _ E.
    change (l ++ o1 :: w1 ++ [c1]) with (l ++ [o1] ++ w1 ++ [c1]) in E.
    rewrite !app_assoc in E. apply app_inj_tail in E. destruct E as [E _].
    assert (Hin : In o1 w2).
    { rewrite E. rewrite !in_app_iff. simpl. tauto. }
    destruct (words_plain _ _ _ Ht Hw Hin) as [H _]. exact (H Ho). }
  intros [o1 [w1 [c1 [t1 [E1 [Ho1 [Hc1 [Ht1 Hw1]]]]]]]]
         [o2 [w2 [c2 [t2 [E2 [Ho2 [Hc2 [Ht2 Hw2]]]]]]]].
  rewrite E1 in E2. apply app_eq_app in E2. destruct E2 as [l [[P Q] | [P Q]]].
  - destruct l as [|z l]; [rewrite app_nil_r in P; exact P|]. exfalso.
    exact (G o1 w1 c1 o2 w2 c2 t2 (z :: l) ltac:(discriminate) Q Ho1 Ht2 Hw2).
  - destruct l as [|z l]; [rewrite app_nil_r in P; symmetry; exact P|]. exfalso.
    exact (G o2 w2 c2 o1 w1 c1 t1 (z :: l) ltac:(discriminate) Q Ho2 Ht1 Hw1).
Qed.

(** The title that check_duplicates_utils.js keeps is the title less
    the word in parentheses at its end. *)
Lemma lessTag_title title :
  lessTag title (if Utils.hasTag title then trim (Utils.replaceTag title) else title).
Proof.
  split.
  - intros body H.
    assert (T : Utils.hasTag title = true).
    { apply hasTag_iff. destruct H as [o [w [c [tag [E H]]]]].
      exists body, ([o] ++ w ++ [c]). split; [exact E|].
      apply tagMatches_iff. exists o, w, c, tag. tauto. }
    rewrite T. f_equal. apply (tagged_one title); [|exact H].
    apply hasTag_iff in T. apply cutAt_match in T. destruct T as [m [E Hm]].
    apply tagMatches_iff in Hm. destruct Hm as [o [w [c [tag [-> Hm]]]]].
    exists o, w, c, tag. split; [exact E | exact Hm].
  - intros H. destruct (Utils.hasTag title) eqn:T; [|reflexivity]. exfalso.
    apply hasTag_iff in T. destruct T as [body [m [E Hm]]].
    apply tagMatches_iff in Hm. destruct Hm as [o [w [c [tag [-> Hm]]]]].
    apply (H body). exists o, w, c, tag. split; [exact E | exact Hm].
Qed.

(** *** The sentinel in any case *)

Lemma lowerUnit_sameLetter x y :
  sameLetter x y -> isLower y = true -> lowerUnits x = [y].
Proof.
  unfold sameLetter, isLower, lowerUnits, lowerUnit, isUpper. intros H Hy.
  apply andb_true_iff in Hy. rewrite !N.leb_le in Hy.
  destruct (N.eqb_spec x 304) as [->|_]; [lia|].
  destruct ((65 <=? x) && (x <=? 90)) eqn:E1.
  - apply andb_true_iff in E1. rewrite !N.leb_le in E1. f_equal. lia.
  - apply andb_false_iff in E1. rewrite !N.leb_gt in E1.
    destruct ((65313 <=? x) && (x <=? 65338)) eqn:E2.
    + apply andb_true_iff in E2. rewrite !N.leb_le in E2. lia.
    + f_equal. lia.
Qed.

Lemma sameText_lower a b :
  sameText a b -> forallb isLower b = true -> toLowerCase a = b.
Proof.
  intros H. induction H as [|x y a b Hxy H IH]; [reflexivity|]. intros Hb.
  simpl in Hb. apply andb_true_iff in Hb. destruct Hb as [Hy Hb].
  change (toLowerCase (x :: a)) with (lowerUnits x ++ toLowerCase a).
  rewrite (lowerUnit_sameLetter x y Hxy Hy), (IH Hb). reflexivity.
Qed.

Lemma lower_sameText a b :
  map lowerUnit a = b -> forallb isLower b = true -> sameText a b.
Proof.
  revert b. induction a as [|x a IH]; intros b E Hb.
  - simpl in E. subst b. constructor.
  - simpl in E. subst b. simpl in Hb. apply andb_true_iff in Hb.
    destruct Hb as [Hy Hb]. constructor; [|apply IH; [reflexivity | exact Hb]].
    unfold sameLetter. unfold isLower, lowerUnit, isUpper in *.
    apply andb_true_iff in Hy. rewrite !N.leb_le in Hy.
    destruct ((65 <=? x) && (x <=? 90)) eqn:E1.
    + apply andb_true_iff in E1. rewrite !N.leb_le in E1. lia.
    + destruct ((65313 <=? x) && (x <=? 65338)) eqn:E2.
      * apply andb_true_iff in E2. rewrite !N.leb_le in E2. lia.
      * left. reflexivity.
Qed.

(** *** The patterns of check_duplicates_utils.js *)


Lemma holds_dash n : holds (js " - ") n -> holds (js "-") n.
Proof.
  intros [pre [post E]]. exists (pre ++ js " "), (js " " ++ post).
  rewrite E, <- !app_assoc. reflexivity.
Qed.

Lemma firstPiece_some sep rest : exists mid, firstPiece sep rest mid.
Proof.
  destruct (includes sep rest) eqn:E.
  - apply includes_holds, holds_firstSplit in E. destruct E as [mid [post H]].
    exists mid. right. exists post. exact H.
  - apply includes_not in E. exists rest. left. auto.
Qed.

Lemma patternsRead_some n : exists a t, patternsRead n a t.
Proof.
  destruct (includes (js " - ") n) eqn:E1.
  - apply includes_holds, holds_firstSplit in E1. destruct E1 as [pre [rest H]].
    destruct (firstPiece_some (js " - ") rest) as [mid Hm].
    eexists. eexists. exact (read_spaced n pre rest mid H Hm).
  - apply includes_not in E1. destruct (includes (js "-") n) eqn:E2.
    + apply includes_holds, holds_firstSplit in E2. destruct E2 as [pre [rest H]].
      destruct (firstPiece_some (js "-") rest) as [mid Hm].
      eexists. eexists. exact (read_dash n pre rest mid E1 H Hm).
    + apply includes_not in E2.
      pose proof (matchTitleArtist_spec n []) as S.
      destruct (Utils.matchTitleArtist [] n) as [[t a]|].
      * destruct S as [t2 [Et [Hsp Hmin]]]. simpl in Et. subst t2.
        eexists. eexists. apply (read_paren n t a E2). split.
        -- apply splitAfter_nil, Hsp.
        -- intros t2 a2 H2. apply (Hmin t2 a2), splitAfter_nil, H2.
      * exists [], []. apply read_nothing; [exact E2|].
        intros t a H. apply (S t a), splitAfter_nil, H.
Qed.

Lemma readPatterns_read n a t :
  patternsRead n a t -> Utils.readPatterns n = (a, t).
Proof.
  intros H. unfold Utils.readPatterns.
  inversion H as [pre rest mid Hs Hm | pre rest mid Hn Hs Hm | t0 a0 Hn Hp
                  | Hn Hp]; subst.
  - rewrite (proj2 (includes_holds _ _) (firstSplit_holds _ _ _ _ Hs)).
    destruct (split_two (js " - ") n pre rest mid ltac:(discriminate) Hs Hm)
      as [more E].
    rewrite E. reflexivity.
  - rewrite (proj2 (includes_not _ _) Hn).
    rewrite (proj2 (includes_holds _ _) (firstSplit_holds _ _ _ _ Hs)).
    destruct (split_two (js "-") n pre rest mid ltac:(discriminate) Hs Hm)
      as [more E].
    rewrite E. reflexivity.
  - assert (Hn' : ~ holds (js " - ") n) by (intros X; apply Hn, holds_dash, X).
    rewrite (proj2 (includes_not _ _) Hn'), (proj2 (includes_not _ _) Hn).
    rewrite (parenSplit_parens n t0 a0 (proj1 Hp)).
    rewrite (matchTitleArtist_first n t0 a0 Hp). reflexivity.
  - assert (Hn' : ~ holds (js " - ") n) by (intros X; apply Hn, holds_dash, X).
    rewrite (proj2 (includes_not _ _) Hn'), (proj2 (includes_not _ _) Hn).
    rewrite (matchTitleArtist_none n Hp).
    destruct (_ && _); reflexivity.
Qed.

Lemma unknown_lower : forallb isLower (js "unknown") = true.
Proof. reflexivity. Qed.

Lemma utils_reads fileName defaultArtist a t :
  patternsRead (Utils.stripTrackPrefix
                  (Path.basenameExt fileName (Path.extname fileName))) a t ->
  let n := Utils.stripTrackPrefix
             (Path.basenameExt fileName (Path.extname fileName)) in
  let r := Utils.parseSongInfo fileName defaultArtist in
  (t <> [] -> lessTag t (Utils.si_title r))
  /\ (t = [] -> lessTag n (Utils.si_title r))
  /\ (a = [] \/ sameText a (js "unknown") ->
      isFallback defaultArtist (Utils.si_artist r))
  /\ (a <> [] -> forallb lowersAlone a = true -> ~ sameText a (js "unknown") ->
      Utils.si_artist r = a).
Proof.
  intros H. cbv zeta. unfold Utils.parseSongInfo.
  rewrite (readPatterns_read _ _ _ H). cbn [Utils.si_title Utils.si_artist].
  split; [|split; [|split]].
  - intros Ht. rewrite (proj2 (truthy_nonempty t) Ht). apply lessTag_title.
  - intros ->. apply lessTag_title.
  - intros [-> | Hu].
    + simpl. apply utils_fallback.
    + rewrite (sameText_lower _ _ Hu unknown_lower), eqb_refl, orb_true_r.
      apply utils_fallback.
  - intros Ha Hd Hu. rewrite (proj2 (truthy_nonempty a) Ha). cbn [negb orb].
    destruct (eqb (toLowerCase a) (js "unknown")) eqn:E; [|reflexivity].
    exfalso. apply Hu. apply eqb_eq in E. rewrite (toLowerCase_alone a Hd) in E.
    exact (lower_sameText _ _ E unknown_lower).
Qed.

(** C8, as the parsers have it.  Parsing is a function of the name and
    the fallback artist, and one of the cases below applies to every
    name.

    In the enhanced detector the name less its track number is read
    around its first [" - "], or around its first ["-"] when it has no
    [" - "] and does not start with the dash.  When the part before the
    dash, trimmed, is neither empty nor digits only, it is the artist,
    and the title is the part after the dash less its descriptive
    suffixes.  When it is empty or digits only, and when no dash is
    read, the artist is the fallback artist if one is given and
    [Unknown] if not, and the title is the whole name less its track
    number and its descriptive suffixes.

    In check_duplicates_utils.js the three patterns read an artist and
    a title, empty when not read.  The title is the one read, or the
    name less its track prefix when none is read, less the word in
    parentheses at its end.  An artist that is empty, or [unknown] in
    any case, gives way to the fallback artist if one is given and to
    [Unknown] if not; any other artist is kept. *)
Theorem parseSongInfo_falls_back (fileName : jsstring)
    (defaultArtist : option jsstring) :
  let n' := Enhanced.removeTrackNumber
              (Path.basenameExt fileName (Path.extname fileName)) in
  let r' := Enhanced.parseSongInfo fileName defaultArtist in
  let n := Utils.stripTrackPrefix
             (Path.basenameExt fileName (Path.extname fileName)) in
  let r := Utils.parseSongInfo fileName defaultArtist in
  ((exists x, dashesRead n' x)
   /\ forall x, dashesRead n' x ->
        match x with
        | Some (a, t) =>
            (a <> [] -> ~ digitsOnly a ->
             Enhanced.si_artist r' = a
             /\ Enhanced.si_title r' = Enhanced.removeDescriptiveSuffix t)
            /\ (a = [] \/ digitsOnly a ->
                isFallback defaultArtist (Enhanced.si_artist r')
                /\ Enhanced.si_title r' = Enhanced.removeDescriptiveSuffix n')
        | None =>
            isFallback defaultArtist (Enhanced.si_artist r')
            /\ Enhanced.si_title r' = Enhanced.removeDescriptiveSuffix n'
        end)
  /\ ((exists a t, patternsRead n a t)
      /\ forall a t, patternsRead n a t ->
           (t <> [] -> lessTag t (Utils.si_title r))
           /\ (t = [] -> lessTag n (Utils.si_title r))
           /\ (a = [] \/ sameText a (js "unknown") ->
               isFallback defaultArtist (Utils.si_artist r))
           /\ (a <> [] -> forallb lowersAlone a = true ->
               ~ sameText a (js "unknown") -> Utils.si_artist r = a)).
Proof.
  cbv zeta. split; split.
  - apply dashesRead_some.
  - intros x H. exact (enhanced_reads fileName defaultArtist x H).
  - apply patternsRead_some.
  - intros a t H. exact (utils_reads fileName defaultArtist a t H).
Qed.

Lemma parseSongInfo_falls_back_witness :
  dashesRead (js "02 - Song") (Some (js "02", js "Song"))
  /\ digitsOnly (js "02")
  /\ Enhanced.si_artist
       (Enhanced.parseSongInfo (js "01 - 02 - Song.mp3") (Some (js "Beyond")))
     = js "Beyond"
  /\ Enhanced.si_title
       (Enhanced.parseSongInfo (js "01 - 02 - Song.mp3") (Some (js "Beyond")))
     = js "02 - Song".
Proof.
  assert (R : dashesRead (js "02 - Song") (Some (js "02", js "Song"))).
  { apply (dashes_spaced (js "02 - Song") (js "02") (js "Song")).
    exact (proj1 (indexOf_first (js " - ") (js "02 - Song") 2 eq_refl)). }
  assert (D : digitsOnly (js "02")) by (apply allDigits_digitsOnly; reflexivity).
  split; [exact R|]. split; [exact D|].
  pose proof (parseSongInfo_falls_back (js "01 - 02 - Song.mp3")
                (Some (js "Beyond"))) as T.
  cbv zeta in T. destruct T as [[_ T] _].
  destruct (T (Some (js "02", js "Song")) R) as [_ T2].
  destruct (T2 (or_intror D)) as [[F _] Ht].
  split.
  - apply (F (js "Beyond") eq_refl). discriminate.
  - etransitivity; [exact Ht|]. vm_compute. reflexivity.
Defined.

(** The counterexample to C8.  For [Song (Live).mp3] no pattern reads an
    artist, and the title the enhanced detector gives is not the name
    without its track prefix; for [(Live).mp3] the title that
    check_duplicates_utils.js gives is empty; and the enhanced detector
    keeps an artist read as [Unknown] when a fallback is given. *)
Lemma parsed_title_is_not_the_name :
  (Enhanced.removeTrackNumber
     (Path.basenameExt (js "Song (Live).mp3")
        (Path.extname (js "Song (Live).mp3"))) = js "Song (Live)"
   /\ ~ holds (js "-") (js "Song (Live)")
   /\ Enhanced.parseSongInfo (js "Song (Live).mp3") (Some (js "Beyond"))
      = Enhanced.mkSongInfo (js "Beyond") (js "Song") (js "Song (Live).mp3"))
  /\ (Utils.stripTrackPrefix
        (Path.basenameExt (js "(Live).mp3") (Path.extname (js "(Live).mp3")))
      = js "(Live)"
      /\ ~ holds (js "-") (js "(Live)")
      /\ (forall t a, ~ parenSplit (js "(Live)") t a)
      /\ Utils.parseSongInfo (js "(Live).mp3") (Some (js "Beyond"))
         = Utils.mkSongInfo (js "Beyond") [] (js "(Live).mp3"))
  /\ Enhanced.parseSongInfo (js "Unknown - Song.mp3") (Some (js "Beyond"))
     = Enhanced.mkSongInfo (js "Unknown") (js "Song") (js "Unknown - Song.mp3").
Proof.
  split; [|split].
  - split; [vm_compute; reflexivity|].
    split; [apply includes_not; vm_compute; reflexivity | vm_compute; reflexivity].
  - split; [vm_compute; reflexivity|].
    split; [apply includes_not; vm_compute; reflexivity|].
    split; [|vm_compute; reflexivity].
    intros t a H. apply splitAfter_nil in H.
    exact (matchTitleArtist_spec (js "(Live)") [] t a H).
  - vm_compute. reflexivity.
Qed.

End ParserFacts.

(** ** The key of a title *)

Module NormalizeFacts.
Import Enhanced Spec.

Ltac b2p :=
  repeat (rewrite ?andb_true_iff, ?orb_true_iff, ?andb_false_iff, ?orb_false_iff,
            ?negb_true_iff, ?negb_false_iff, ?N.leb_le, ?N.leb_gt, ?N.eqb_eq,
            ?N.eqb_neq in * ).

Lemma ci_letter p c : isLetter p = true -> ciEqb p c = true -> isLetter c = true.
Proof.
  unfold ciEqb, foldUnit. intros Hp H.
  destruct (isLower p) eqn:E1, (isLower c) eqn:E2;
    unfold isLetter, isLower, isUpper in *; b2p; lia.
Qed.

Lemma fold_letter p : isLetter p = true -> 65 <= foldUnit p <= 90.
Proof.
  unfold foldUnit. intros Hp.
  destruct (isLower p) eqn:E; unfold isLetter, isLower, isUpper in *; b2p; lia.
Qed.

Lemma fold_lower c :
  foldUnit (lowerUnit c) = foldUnit c
  \/ (90 < foldUnit (lowerUnit c) /\ 90 < foldUnit c).
Proof.
  unfold lowerUnit.
  destruct (isUpper c) eqn:E1.
  - left. unfold foldUnit.
    assert (E2 : isLower (c + 32) = true)
      by (unfold isLower, isUpper in *; b2p; lia).
    assert (E3 : isLower c = false)
      by (unfold isLower, isUpper in *; b2p; lia).
    rewrite E2, E3. lia.
  - destruct ((65313 <=? c) && (c <=? 65338)) eqn:E4; [|left; reflexivity].
    right. unfold foldUnit.
    assert (E2 : isLower (c + 32) = false)
      by (unfold isLower, isUpper in *; b2p; lia).
    assert (E3 : isLower c = false)
      by (unfold isLower, isUpper in *; b2p; lia).
    rewrite E2, E3. b2p. lia.
Qed.

Lemma ci_lower p c : isLetter p = true -> ciEqb p (lowerUnit c) = ciEqb p c.
Proof.
  intros Hp. unfold ciEqb. pose proof (fold_letter p Hp) as Hf.
  destruct (fold_lower c) as [->|[H1 H2]]; [reflexivity|].
  destruct (N.eqb_spec (foldUnit p) (foldUnit (lowerUnit c))),
    (N.eqb_spec (foldUnit p) (foldUnit c)); try reflexivity; lia.
Qed.

Lemma isLetter_lower c : isLetter (lowerUnit c) = isLetter c.
Proof.
  unfold lowerUnit.
  destruct (isUpper c) eqn:E1.
  - unfold isLetter. rewrite E1.
    assert (E2 : isLower (c + 32) = true)
      by (unfold isLower, isUpper in *; b2p; lia).
    rewrite E2. apply orb_true_r.
  - destruct ((65313 <=? c) && (c <=? 65338)) eqn:E4; [|reflexivity].
    unfold isLetter. rewrite E1.
    assert (E2 : isLower (c + 32) = false)
      by (unfold isLower, isUpper in *; b2p; lia).
    assert (E3 : isLower c = false)
      by (unfold isLower, isUpper in *; b2p; lia).
    assert (E5 : isUpper (c + 32) = false)
      by (unfold isLower, isUpper in *; b2p; lia).
    rewrite E2, E3, E5. reflexivity.
Qed.

Lemma lowerUnit_idem c : lowerUnit (lowerUnit c) = lowerUnit c.
Proof.
  unfold lowerUnit.
  destruct (isUpper c) eqn:E1.
  - assert (E2 : isUpper (c + 32) = false)
      by (unfold isLower, isUpper in *; b2p; lia).
    assert (E3 : (65313 <=? c + 32) && (c + 32 <=? 65338) = false)
      by (unfold isLower, isUpper in *; b2p; lia).
    rewrite E2, E3. reflexivity.
  - destruct ((65313 <=? c) && (c <=? 65338)) eqn:E4.
    + assert (E2 : isUpper (c + 32) = false)
        by (unfold isLower, isUpper in *; b2p; lia).
      assert (E3 : (65313 <=? c + 32) && (c + 32 <=? 65338) = false)
        by (unfold isLower, isUpper in *; b2p; lia).
      rewrite E2, E3. reflexivity.
    + rewrite E1, E4. reflexivity.
Qed.

Lemma isSpace_letter c : isSpace c = true -> isLetter c = false.
Proof.
  unfold isSpace, isLetter, isLower, isUpper. intros H. b2p. lia.
Qed.

Lemma letters_app a b : letters (a ++ b) = letters a && letters b.
Proof. apply forallb_app. Qed.

Lemma nextIsLetter_app run y :
  run <> [] -> letters run = true -> nextIsLetter (run ++ y) = true.
Proof.
  destruct run as [|c run]; [congruence|]. simpl. intros _ H.
  apply andb_true_iff in H. tauto.
Qed.

(** Strings are read run by run. *)
Lemma spanLen_split (p : N -> bool) s :
  s = firstn (spanLen p s) s ++ skipn (spanLen p s) s
  /\ forallb p (firstn (spanLen p s) s) = true
  /\ match skipn (spanLen p s) s with c :: _ => p c = false | [] => True end.
Proof.
  induction s as [|c s IH]; simpl; [auto|].
  destruct (p c) eqn:E; simpl.
  - destruct IH as [H1 [H2 H3]]. rewrite E. repeat split; auto. congruence.
  - auto.
Qed.

Lemma run_ind (P : jsstring -> Prop) :
  P [] ->
  (forall c s, isLetter c = false -> P s -> P (c :: s)) ->
  (forall run rest, run <> [] -> letters run = true ->
                    nextIsLetter rest = false -> P rest -> P (run ++ rest)) ->
  forall s, P s.
Proof.
  intros H0 H1 H2 s.
  assert (G : forall n s, (List.length s <= n)%nat -> P s).
  { clear s. induction n as [|n IH]; intros s Hs.
    - destruct s; [exact H0 | simpl in Hs; lia].
    - destruct s as [|c s]; [exact H0|].
      destruct (isLetter c) eqn:E.
      + destruct (spanLen_split isLetter (c :: s)) as [E1 [E2 E3]].
        simpl in E1, E2, E3. rewrite E in E1, E2, E3.
        simpl in E1, E2, E3. rewrite E1. 
        apply (H2 (c :: firstn (spanLen isLetter s) s)).
        * discriminate.
        * exact E2.
        * destruct (skipn (spanLen isLetter s) s); [reflexivity | exact E3].
        * apply IH. simpl in Hs. rewrite length_skipn. lia.
      + apply H1; [exact E|]. apply IH. simpl in Hs. lia. }
  apply (G (List.length s)). lia.
Qed.

Section Roman.
Variable r : jsstring.
Hypothesis r_letters : letters r = true.
Hypothesis r_nonempty : r <> [].

Lemma startsWithCi_nil : startsWithCi r [] = false.
Proof. destruct r; [congruence | reflexivity]. Qed.

Lemma startsWithCi_nonletter c s :
  isLetter c = false -> startsWithCi r (c :: s) = false.
Proof.
  intros H. destruct r as [|p r']; [congruence|]. simpl.
  simpl in r_letters. apply andb_true_iff in r_letters.
  destruct (ciEqb p c) eqn:E; [|reflexivity].
  rewrite (ci_letter p c) in H; [discriminate | tauto | exact E].
Qed.

Lemma startsWithCi_next s : nextIsLetter s = false -> startsWithCi r s = false.
Proof.
  destruct s as [|c s]; intros H; [apply startsWithCi_nil|].
  apply startsWithCi_nonletter, H.
Qed.

Lemma standaloneAt_next prev s :
  nextIsLetter s = false -> standaloneAt r prev s = false.
Proof.
  intros H. unfold standaloneAt. rewrite (startsWithCi_next _ H).
  rewrite andb_false_r. reflexivity.
Qed.

Lemma standaloneAt_prev_letter prev s :
  prevIsLetter prev = true -> standaloneAt r prev s = false.
Proof. unfold standaloneAt. intros ->. reflexivity. Qed.

Lemma standaloneAt_prev p1 p2 s :
  prevIsLetter p1 = prevIsLetter p2 -> standaloneAt r p1 s = standaloneAt r p2 s.
Proof. unfold standaloneAt. intros ->. reflexivity. Qed.

Lemma occurs_prev p1 p2 s :
  prevIsLetter p1 = prevIsLetter p2 -> occurs r p1 s = occurs r p2 s.
Proof.
  intros H. destruct s as [|c s]; [reflexivity|]. simpl.
  rewrite (standaloneAt_prev _ _ _ H). reflexivity.
Qed.

Lemma occurs_boundary p1 p2 s :
  nextIsLetter s = false -> occurs r p1 s = occurs r p2 s.
Proof.
  intros H. destruct s as [|c s]; [reflexivity|]. simpl.
  rewrite !(standaloneAt_next _ _ H). reflexivity.
Qed.

Lemma occurs_inside run prev y :
  prevIsLetter prev = true -> letters run = true ->
  occurs r prev (run ++ y) = occurs r aLetter y.
Proof.
  revert prev. induction run as [|c run IH]; intros prev Hp Hl; simpl.
  - apply occurs_prev. rewrite Hp. reflexivity.
  - simpl in Hl. apply andb_true_iff in Hl. destruct Hl as [Hc Hl].
    rewrite (standaloneAt_prev_letter _ _ Hp). simpl.
    apply IH; assumption.
Qed.

Lemma startsWithCi_letters s :
  startsWithCi r s = true ->
  letters (firstn (List.length r) s) = true
  /\ (List.length r <= List.length s)%nat.
Proof.
  clear r_nonempty. revert s r_letters.
  induction r as [|p r' IH]; intros s Hl; simpl.
  - intros _. split; [reflexivity | lia].
  - destruct s as [|c s]; [discriminate|]. simpl in Hl.
    apply andb_true_iff in Hl. destruct Hl as [Hp Hl].
    intros H. apply andb_true_iff in H. destruct H as [Hc H].
    destruct (IH s Hl H) as [H1 H2]. simpl.
    rewrite (ci_letter p c Hp Hc), H1. split; [reflexivity | lia].
Qed.

Lemma startsWithCi_app run rest :
  (List.length r <= List.length run)%nat ->
  startsWithCi r (run ++ rest) = startsWithCi r run.
Proof.
  clear. revert run. induction r as [|p r' IH]; intros run H; [reflexivity|].
  destruct run as [|c run]; simpl in H; [lia|]. simpl.
  rewrite IH; [reflexivity | lia].
Qed.

Lemma standaloneAt_run prev run rest :
  prevIsLetter prev = false -> run <> [] -> letters run = true ->
  nextIsLetter rest = false ->
  standaloneAt r prev (run ++ rest) = runIs r run.
Proof.
  intros Hp Hn Hl Hr. unfold standaloneAt, runIs. rewrite Hp. simpl.
  destruct (Nat.lt_trichotomy (List.length run) (List.length r)) as [H|[H|H]].
  - assert (E : (List.length run =? List.length r)%nat = false)
      by (apply Nat.eqb_neq; lia).
    rewrite E. simpl.
    destruct (startsWithCi r (run ++ rest)) eqn:Es; [|reflexivity].
    exfalso. apply startsWithCi_letters in Es. destruct Es as [E1 E2].
    rewrite firstn_app, letters_app in E1.
    apply andb_true_iff in E1. destruct E1 as [_ E1].
    rewrite length_app in E2.
    destruct rest as [|c rest]; [simpl in E2; lia|].
    replace (List.length r - List.length run)%nat
      with (S (List.length r - List.length run - 1))%nat in E1 by lia.
    simpl in E1, Hr. rewrite Hr in E1. discriminate.
  - rewrite H, Nat.eqb_refl. simpl.
    rewrite startsWithCi_app by lia.
    rewrite <- H, skipn_app, skipn_all, Nat.sub_diag. simpl.
    rewrite Hr, andb_true_r. reflexivity.
  - assert (E : (List.length run =? List.length r)%nat = false)
      by (apply Nat.eqb_neq; lia).
    rewrite E. simpl.
    rewrite skipn_app.
    rewrite (nextIsLetter_app (skipn (List.length r) run)).
    + apply andb_false_r.
    + intros E'. apply (f_equal (@List.length N)) in E'.
      rewrite length_skipn in E'. simpl in E'. lia.
    + rewrite <- (firstn_skipn (List.length r) run), letters_app in Hl.
      apply andb_true_iff in Hl. tauto.
Qed.

Lemma occurs_run prev run rest :
  prevIsLetter prev = false -> run <> [] -> letters run = true ->
  nextIsLetter rest = false ->
  occurs r prev (run ++ rest) = runIs r run || occurs r None rest.
Proof.
  intros Hp Hn Hl Hr.
  rewrite <- (standaloneAt_run prev run rest Hp Hn Hl Hr).
  destruct run as [|c run]; [congruence|].
  simpl in Hl. apply andb_true_iff in Hl. destruct Hl as [Hc Hl].
  simpl app. simpl occurs. f_equal.
  rewrite occurs_inside; [|simpl; exact Hc | exact Hl].
  apply occurs_boundary, Hr.
Qed.

Variable rep : jsstring.

Lemma replace_fixed prev s :
  occurs r prev s = false -> replaceStandalone r rep s prev 0 = s.
Proof.
  revert prev. induction s as [|c s IH]; intros prev H; [reflexivity|].
  simpl in H. apply orb_false_iff in H. destruct H as [H1 H2].
  simpl. unfold standaloneAt in H1. rewrite H1. f_equal. apply IH, H2.
Qed.

Lemma replace_prev p1 p2 s :
  prevIsLetter p1 = prevIsLetter p2 ->
  replaceStandalone r rep s p1 0 = replaceStandalone r rep s p2 0.
Proof.
  intros H. destruct s as [|c s]; [reflexivity|]. simpl. rewrite H. reflexivity.
Qed.

Lemma replace_nonletter prev c s :
  isLetter c = false ->
  replaceStandalone r rep (c :: s) prev 0 = c :: replaceStandalone r rep s (Some c) 0.
Proof.
  intros H. simpl. rewrite (startsWithCi_nonletter c s H).
  rewrite andb_false_r. reflexivity.
Qed.

Lemma replace_boundary p1 p2 s :
  nextIsLetter s = false ->
  replaceStandalone r rep s p1 0 = replaceStandalone r rep s p2 0.
Proof.
  intros H. destruct s as [|c s]; [reflexivity|].
  rewrite !replace_nonletter by exact H. reflexivity.
Qed.

Lemma replace_next prev s :
  nextIsLetter s = false ->
  nextIsLetter (replaceStandalone r rep s prev 0) = false.
Proof.
  intros H. destruct s as [|c s]; [reflexivity|].
  rewrite replace_nonletter by exact H. exact H.
Qed.

Lemma replace_inside run prev y :
  prevIsLetter prev = true -> letters run = true ->
  replaceStandalone r rep (run ++ y) prev 0
  = run ++ replaceStandalone r rep y aLetter 0.
Proof.
  revert prev. induction run as [|c run IH]; intros prev Hp Hl.
  - simpl. apply replace_prev. rewrite Hp. reflexivity.
  - simpl in Hl. apply andb_true_iff in Hl. destruct Hl as [Hc Hl].
    simpl. rewrite Hp. simpl. f_equal. apply IH; assumption.
Qed.

Lemma replace_skip x y prev :
  nextIsLetter y = false ->
  replaceStandalone r rep (x ++ y) prev (List.length x)
  = replaceStandalone r rep y None 0.
Proof.
  revert prev. induction x as [|c x IH]; intros prev H; simpl.
  - apply replace_boundary, H.
  - apply IH, H.
Qed.

Lemma replace_run prev run rest :
  prevIsLetter prev = false -> run <> [] -> letters run = true ->
  nextIsLetter rest = false ->
  replaceStandalone r rep (run ++ rest) prev 0
  = (if runIs r run then rep else run) ++ replaceStandalone r rep rest None 0.
Proof.
  intros Hp Hn Hl Hr.
  pose proof (standaloneAt_run prev run rest Hp Hn Hl Hr) as Hs.
  destruct run as [|c run]; [congruence|].
  simpl in Hl. apply andb_true_iff in Hl. destruct Hl as [Hc Hl].
  unfold standaloneAt in Hs. simpl app in *. simpl replaceStandalone.
  rewrite Hs. destruct (runIs r (c :: run)) eqn:E.
  - f_equal. unfold runIs in E. apply andb_true_iff in E. destruct E as [E _].
    apply Nat.eqb_eq in E. rewrite <- E. simpl. rewrite Nat.sub_0_r.
    apply replace_skip, Hr.
  - simpl. f_equal. rewrite replace_inside; [|exact Hc | exact Hl].
    f_equal. apply replace_boundary, Hr.
Qed.

End Roman.

Lemma occurs_noLetters r prev x y :
  letters r = true -> r <> [] -> noLetters x = true -> x <> [] ->
  occurs r prev (x ++ y) = occurs r None y.
Proof.
  intros Hl Hn Hx Hne. revert prev.
  induction x as [|c x IH]; intros prev; [congruence|].
  simpl in Hx. apply andb_true_iff in Hx. destruct Hx as [Hc Hx].
  apply negb_true_iff in Hc. simpl.
  rewrite (standaloneAt_next r Hl Hn prev (c :: x ++ y) Hc). simpl.
  destruct x as [|d x].
  - simpl. apply occurs_prev; [assumption..|]. simpl. rewrite Hc. reflexivity.
  - apply IH; [exact Hx | discriminate].
Qed.

Section Replace.
Variable r rep : jsstring.
Hypothesis r_letters : letters r = true.
Hypothesis r_nonempty : r <> [].
Hypothesis rep_noLetters : noLetters rep = true.
Hypothesis rep_nonempty : rep <> [].

(** After the replacement the numeral stands alone nowhere. *)
Lemma replaced_gone s :
  forall prev, prevIsLetter prev = false ->
    occurs r prev (replaceStandalone r rep s prev 0) = false.
Proof.
  induction s as [| c s Hc IH | run rest Hn Hl Hr IH] using run_ind;
    intros prev Hp.
  - reflexivity.
  - rewrite (replace_nonletter r r_letters r_nonempty rep prev c s Hc).
    simpl. rewrite (standaloneAt_next r r_letters r_nonempty); [|exact Hc].
    apply IH. simpl. exact Hc.
  - rewrite (replace_run r r_letters r_nonempty rep prev run rest Hp Hn Hl Hr).
    destruct (runIs r run) eqn:E.
    + rewrite (occurs_noLetters r prev rep _ r_letters r_nonempty
                 rep_noLetters rep_nonempty).
      apply IH. reflexivity.
    + rewrite (occurs_run r r_letters r_nonempty prev run _ Hp Hn Hl).
      * rewrite E. apply IH. reflexivity.
      * apply replace_next; assumption.
Qed.

(** The replacement makes no other numeral stand alone. *)
Lemma replaced_keeps r' s :
  letters r' = true -> r' <> [] ->
  forall prev, prevIsLetter prev = false ->
    occurs r' prev s = false ->
    occurs r' prev (replaceStandalone r rep s prev 0) = false.
Proof.
  intros Hl' Hn'.
  induction s as [| c s Hc IH | run rest Hn Hl Hr IH] using run_ind;
    intros prev Hp H.
  - reflexivity.
  - rewrite (replace_nonletter r r_letters r_nonempty rep prev c s Hc).
    simpl in *. rewrite (standaloneAt_next r' Hl' Hn') in *; try exact Hc.
    apply IH; [simpl; exact Hc | exact H].
  - rewrite (replace_run r r_letters r_nonempty rep prev run rest Hp Hn Hl Hr).
    rewrite (occurs_run r' Hl' Hn' prev run rest Hp Hn Hl Hr) in H.
    apply orb_false_iff in H. destruct H as [H1 H2].
    destruct (runIs r run) eqn:E.
    + rewrite (occurs_noLetters r' prev rep _ Hl' Hn' rep_noLetters rep_nonempty).
      apply IH; [reflexivity | exact H2].
    + rewrite (occurs_run r' Hl' Hn' prev run _ Hp Hn Hl).
      * rewrite H1. apply IH; [reflexivity | exact H2].
      * apply replace_next; assumption.
Qed.

End Replace.

(** *** Lower case *)

Lemma startsWithCi_lower r s :
  letters r = true ->
  startsWithCi r (map lowerUnit s) = startsWithCi r s.
Proof.
  revert s. induction r as [|p r IH]; intros s Hl; [reflexivity|].
  simpl in Hl. apply andb_true_iff in Hl. destruct Hl as [Hp Hl].
  destruct s as [|c s]; [reflexivity|]. simpl.
  rewrite (ci_lower p c Hp), (IH s Hl). reflexivity.
Qed.

Lemma nextIsLetter_lower s : nextIsLetter (map lowerUnit s) = nextIsLetter s.
Proof. destruct s as [|c s]; [reflexivity | apply isLetter_lower]. Qed.

Lemma standaloneAt_lower r prev s :
  letters r = true ->
  standaloneAt r prev (map lowerUnit s) = standaloneAt r prev s.
Proof.
  intros Hl. unfold standaloneAt.
  rewrite skipn_map.
  rewrite (startsWithCi_lower r s Hl), nextIsLetter_lower. reflexivity.
Qed.

Lemma occurs_lower r s :
  letters r = true -> r <> [] ->
  forall prev, occurs r prev (map lowerUnit s) = occurs r prev s.
Proof.
  intros Hl Hn. induction s as [|c s IH]; intros prev; [reflexivity|].
  change (map lowerUnit (c :: s)) with (lowerUnit c :: map lowerUnit s).
  simpl occurs.
  change (lowerUnit c :: map lowerUnit s) with (map lowerUnit (c :: s)).
  rewrite (standaloneAt_lower r prev (c :: s) Hl). f_equal.
  rewrite IH. apply occurs_prev; [assumption..|]. simpl. apply isLetter_lower.
Qed.

(** *** The list of numerals *)

Lemma romans_letters r : In r romans -> letters r = true /\ r <> [].
Proof.
  assert (H : forallb (fun r => letters r && truthy r) romans = true)
    by (vm_compute; reflexivity).
  intros Hr. rewrite forallb_forall in H. specialize (H r Hr).
  apply andb_true_iff in H. destruct H as [H1 H2].
  split; [exact H1|]. intros ->. discriminate.
Qed.

Lemma values_digits r :
  In r romans -> noLetters (romanValue r) = true /\ romanValue r <> [].
Proof.
  assert (H : forallb (fun r => noLetters (romanValue r) && truthy (romanValue r))
                romans = true)
    by (vm_compute; reflexivity).
  intros Hr. rewrite forallb_forall in H. specialize (H r Hr).
  apply andb_true_iff in H. destruct H as [H1 H2].
  split; [exact H1|]. intros E. rewrite E in H2. discriminate.
Qed.

(** The head of a numeral of the list, of any length, is in the list. *)
Lemma romans_prefix_closed r k :
  In r romans -> (0 < k <= List.length r)%nat -> In (firstn k r) romans.
Proof.
  assert (H : forallb
                (fun r => forallb (fun k => existsb (eqb (firstn k r)) romans)
                                  (seq 1 (List.length r)))
                romans = true)
    by (vm_compute; reflexivity).
  intros Hr Hk. rewrite forallb_forall in H. specialize (H r Hr).
  rewrite forallb_forall in H. specialize (H k).
  rewrite in_seq in H. specialize (H ltac:(lia)).
  apply existsb_exists in H. destruct H as [x [Hx E]].
  apply eqb_eq in E. rewrite E. exact Hx.
Qed.

(** *** White space *)

Lemma stripSpaces_letters run : letters run = true -> stripSpaces run = run.
Proof.
  induction run as [|c run IH]; [reflexivity|]. simpl. intros H.
  apply andb_true_iff in H. destruct H as [Hc H].
  destruct (isSpace c) eqn:E.
  - apply isSpace_letter in E. congruence.
  - simpl. rewrite (IH H). reflexivity.
Qed.

Lemma startsWithCi_firstn r run x :
  (List.length run <= List.length r)%nat ->
  startsWithCi r (run ++ x) = true ->
  startsWithCi (firstn (List.length run) r) run = true.
Proof.
  revert r. induction run as [|c run IH]; intros r Hl H; [reflexivity|].
  destruct r as [|p r]; simpl in Hl; [lia|]. simpl in *.
  apply andb_true_iff in H. destruct H as [H1 H2].
  rewrite H1. apply IH; [lia | exact H2].
Qed.

Lemma standalone_head r prev run x :
  letters r = true -> r <> [] -> run <> [] -> letters run = true ->
  standaloneAt r prev (run ++ x) = true ->
  exists k, (0 < k <= List.length r)%nat /\ runIs (firstn k r) run = true.
Proof.
  intros Hl Hn Hrn Hrl H. unfold standaloneAt in H.
  apply andb_true_iff in H. destruct H as [H H3].
  apply andb_true_iff in H. destruct H as [_ H2].
  destruct (Nat.le_gt_cases (List.length run) (List.length r)) as [Hc|Hc].
  - exists (List.length run). split.
    + destruct run; [congruence | simpl in *; lia].
    + unfold runIs. rewrite length_firstn, Nat.min_l, Nat.eqb_refl by lia.
      simpl. apply (startsWithCi_firstn r run x Hc H2).
  - exfalso. rewrite skipn_app in H3.
    rewrite (nextIsLetter_app (skipn (List.length r) run)) in H3.
    + discriminate.
    + intros E. apply (f_equal (@List.length N)) in E.
      rewrite length_skipn in E. simpl in E. lia.
    + rewrite <- (firstn_skipn (List.length r) run), letters_app in Hrl.
      apply andb_true_iff in Hrl. tauto.
Qed.

(** Taking the white space out joins runs of letters, and a run that is
    no numeral stays none however it grows. *)
Lemma strip_keeps s :
  (forall r, In r romans -> occurs r None s = false) ->
  forall r prev, In r romans -> occurs r prev (stripSpaces s) = false.
Proof.
  induction s as [| c s Hc IH | run rest Hn Hl Hr IH] using run_ind;
    intros H r prev Hin.
  - reflexivity.
  - destruct (romans_letters r Hin) as [Rl Rn].
    assert (H' : forall r, In r romans -> occurs r None s = false).
    { intros r0 Hr0. destruct (romans_letters r0 Hr0) as [Rl0 Rn0].
      specialize (H r0 Hr0). simpl in H. apply orb_false_iff in H.
      destruct H as [_ H]. rewrite <- H.
      apply occurs_prev; [assumption..|]. simpl. rewrite Hc. reflexivity. }
    unfold stripSpaces. simpl. fold (stripSpaces s).
    destruct (isSpace c) eqn:E; simpl.
    + apply IH; assumption.
    + rewrite (standaloneAt_next r Rl Rn); [|exact Hc]. simpl.
      apply IH; assumption.
  - destruct (romans_letters r Hin) as [Rl Rn].
    assert (H' : forall r, In r romans -> occurs r None rest = false).
    { intros r0 Hr0. destruct (romans_letters r0 Hr0) as [Rl0 Rn0].
      specialize (H r0 Hr0).
      rewrite (occurs_run r0 Rl0 Rn0 None run rest eq_refl Hn Hl Hr) in H.
      apply orb_false_iff in H. tauto. }
    unfold stripSpaces. rewrite filter_app. fold (stripSpaces run).
    fold (stripSpaces rest). rewrite (stripSpaces_letters run Hl).
    assert (Hin' : forall p, prevIsLetter p = true ->
                     occurs r p (run ++ stripSpaces rest) = false).
    { intros p Hp. rewrite (occurs_inside r run p _ Hp Hl).
      apply IH; assumption. }
    destruct (prevIsLetter prev) eqn:Hp; [apply Hin', Hp|].
    destruct run as [|c run]; [congruence|].
    simpl in Hl. apply andb_true_iff in Hl. destruct Hl as [Hc Hl].
    simpl app. simpl occurs. apply orb_false_iff. split.
    + destruct (standaloneAt r prev (c :: run ++ stripSpaces rest)) eqn:Es;
        [|reflexivity].
      exfalso.
      destruct (standalone_head r prev (c :: run) (stripSpaces rest) Rl Rn)
        as [k [Hk Hrun]]; try assumption.
      { simpl. rewrite Hc, Hl. reflexivity. }
      pose proof (romans_prefix_closed r k Hin Hk) as Hin2.
      destruct (romans_letters _ Hin2) as [Rl2 Rn2].
      specialize (H _ Hin2).
      rewrite (occurs_run _ Rl2 Rn2 None (c :: run) rest eq_refl Hn) in H.
      * rewrite Hrun in H. discriminate.
      * simpl. rewrite Hc, Hl. reflexivity.
      * exact Hr.
    + rewrite (occurs_inside r run (Some c) _ Hc Hl).
      apply IH; assumption.
Qed.

(** *** The loop over the numerals *)

Lemma roman_fold rs s :
  (forall r, In r rs -> In r romans) ->
  (forall r, In r rs -> occurs r None (fold_left romanStep rs s) = false)
  /\ (forall r, In r romans -> occurs r None s = false ->
        occurs r None (fold_left romanStep rs s) = false).
Proof.
  revert s. induction rs as [|r0 rs IH]; intros s Hrs; simpl.
  - split; [intros r [] | auto].
  - destruct (romans_letters r0 (Hrs r0 (or_introl eq_refl))) as [Rl Rn].
    destruct (values_digits r0 (Hrs r0 (or_introl eq_refl))) as [Vl Vn].
    destruct (IH (romanStep s r0) (fun r H => Hrs r (or_intror H))) as [I1 I2].
    split.
    + intros r [<-|Hr]; [|apply I1, Hr].
      apply I2; [apply Hrs; left; reflexivity|].
      apply (replaced_gone r0 _ Rl Rn Vl Vn s None eq_refl).
    + intros r Hr H. apply I2; [exact Hr|].
      destruct (romans_letters r Hr) as [Rl' Rn'].
      apply (replaced_keeps r0 _ Rl Rn Vl Vn r s Rl' Rn' None eq_refl H).
Qed.

Lemma normalized_clean v r :
  In r romans -> occurs r None (normalizeRomanNumerals v) = false.
Proof.
  intros Hr. apply (proj1 (roman_fold romans v (fun r H => H))). exact Hr.
Qed.

Lemma roman_fixed u :
  (forall r, In r romans -> occurs r None u = false) ->
  normalizeRomanNumerals u = u.
Proof.
  intros H. unfold normalizeRomanNumerals.
  assert (G : forall rs, (forall r, In r rs -> In r romans) ->
                fold_left romanStep rs u = u).
  { induction rs as [|r0 rs IH]; intros Hrs; [reflexivity|]. simpl.
    destruct (romans_letters r0 (Hrs r0 (or_introl eq_refl))) as [Rl Rn].
    unfold romanStep at 2. rewrite replace_fixed.
    - apply IH. intros r Hr. apply Hrs. right. exact Hr.
    - apply H, Hrs. left. reflexivity. }
  apply (G romans). auto.
Qed.

(** *** Units that the table leaves as they are *)

Lemma lookup_In {A : Type} k (t : list (jsstring * A)) v :
  lookup k t = Some v -> In (k, v) t.
Proof.
  induction t as [|[k' v'] t IH]; simpl; [discriminate|].
  destruct (eqb k k') eqn:E.
  - apply eqb_eq in E. intros H. inversion H. subst. auto.
  - auto.
Qed.

Lemma simpUnit_plain c : forallb plain (simpUnit c) = true.
Proof.
  assert (T : forallb (fun kv => forallb plain (snd kv)) TRAD_TO_SIMP = true)
    by (vm_compute; reflexivity).
  unfold simpUnit at 1. destruct (lookup [c] TRAD_TO_SIMP) as [v|] eqn:E.
  - destruct (truthy v) eqn:Ev.
    + rewrite forallb_forall in T. apply (T ([c], v)), lookup_In, E.
    + simpl. unfold plain, simpUnit. rewrite E, Ev, eqb_refl. reflexivity.
  - simpl. unfold plain, simpUnit. rewrite E, eqb_refl. reflexivity.
Qed.

Lemma toSimplified_plain t : forallb plain (toSimplified t) = true.
Proof.
  induction t as [|c t IH]; [reflexivity|].
  change (toSimplified (c :: t)) with (simpUnit c ++ toSimplified t).
  rewrite forallb_app, simpUnit_plain, IH. reflexivity.
Qed.

Lemma plain_fixed u : forallb plain u = true -> toSimplified u = u.
Proof.
  induction u as [|c u IH]; [reflexivity|]. simpl. intros H.
  apply andb_true_iff in H. destruct H as [Hc H].
  unfold plain in Hc. apply eqb_eq in Hc. rewrite Hc, (IH H). reflexivity.
Qed.

(** The keys of the table are CJK ideographs. *)
Lemma key_range c v :
  lookup [c] TRAD_TO_SIMP = Some v -> 0x4E00 <= c <= 0x9FFF.
Proof.
  assert (T : forallb (fun kv : jsstring * jsstring =>
                         match fst kv with
                         | [k] => (0x4E00 <=? k) && (k <=? 0x9FFF)
                         | _ => true
                         end) TRAD_TO_SIMP = true)
    by (vm_compute; reflexivity).
  intros E. apply lookup_In in E. rewrite forallb_forall in T.
  specialize (T _ E). simpl in T. apply andb_true_iff in T.
  destruct T as [T1 T2]. apply N.leb_le in T1, T2. lia.
Qed.

Lemma plain_outside c : (c < 0x4E00 \/ 0x9FFF < c) -> plain c = true.
Proof.
  intros H. unfold plain, simpUnit.
  destruct (lookup [c] TRAD_TO_SIMP) as [v|] eqn:E; [|apply eqb_refl].
  apply key_range in E. lia.
Qed.

Lemma plain_lower c : plain c = true -> plain (lowerUnit c) = true.
Proof.
  intros H. unfold lowerUnit.
  destruct (isUpper c) eqn:E1.
  - apply plain_outside. unfold isUpper in E1. apply andb_true_iff in E1.
    destruct E1 as [_ E1]. apply N.leb_le in E1. lia.
  - destruct ((65313 <=? c) && (c <=? 65338)) eqn:E2; [|exact H].
    apply plain_outside. apply andb_true_iff in E2.
    destruct E2 as [E2 _]. apply N.leb_le in E2. lia.
Qed.

Lemma replace_units (P : N -> bool) r rep s :
  forallb P rep = true -> forallb P s = true ->
  forall prev skip, forallb P (replaceStandalone r rep s prev skip) = true.
Proof.
  intros Hrep. induction s as [|c s IH]; intros Hs prev skip; [reflexivity|].
  simpl in Hs. apply andb_true_iff in Hs. destruct Hs as [Hc Hs]. simpl.
  destruct skip; [|apply IH, Hs].
  destruct (_ && _).
  - rewrite forallb_app, Hrep. apply IH, Hs.
  - simpl. rewrite Hc. apply IH, Hs.
Qed.

Lemma roman_units (P : N -> bool) s :
  forallb (fun r => forallb P (romanValue r)) romans = true ->
  forallb P s = true -> forallb P (normalizeRomanNumerals s) = true.
Proof.
  intros Hv. rewrite forallb_forall in Hv.
  unfold normalizeRomanNumerals.
  assert (G : forall rs, (forall r, In r rs -> In r romans) ->
                forall s, forallb P s = true ->
                          forallb P (fold_left romanStep rs s) = true).
  { induction rs as [|r0 rs IH]; intros Hrs s0 Hs; [exact Hs|]. simpl.
    apply IH; [intros r Hr; apply Hrs; right; exact Hr|].
    apply replace_units; [|exact Hs]. apply Hv, Hrs. left. reflexivity. }
  apply (G romans). auto.
Qed.

Lemma roman_plain s :
  forallb plain s = true -> forallb plain (normalizeRomanNumerals s) = true.
Proof. apply roman_units. vm_compute. reflexivity. Qed.

Lemma lower_plain s : forallb plain s = true -> forallb plain (map lowerUnit s) = true.
Proof.
  induction s as [|c s IH]; [reflexivity|]. simpl. intros H.
  apply andb_true_iff in H. destruct H as [Hc H].
  rewrite (plain_lower c Hc), (IH H). reflexivity.
Qed.

Lemma forallb_filter {A : Type} (p q : A -> bool) l :
  forallb p l = true -> forallb p (filter q l) = true.
Proof.
  induction l as [|x l IH]; [reflexivity|]. simpl. intros H.
  apply andb_true_iff in H. destruct H as [Hx H].
  destruct (q x); simpl; [rewrite Hx|]; apply IH, H.
Qed.

Lemma filter_idem {A : Type} (q : A -> bool) l : filter q (filter q l) = filter q l.
Proof.
  induction l as [|x l IH]; [reflexivity|]. simpl.
  destruct (q x) eqn:E; simpl; [rewrite E, IH|]; auto.
Qed.

Lemma map_lowered s : forallb lowered (map lowerUnit s) = true.
Proof.
  induction s as [|c s IH]; [reflexivity|]. simpl.
  rewrite IH, andb_true_r. unfold lowered. apply N.eqb_eq, lowerUnit_idem.
Qed.

Lemma lowered_fixed u : forallb lowered u = true -> map lowerUnit u = u.
Proof.
  induction u as [|c u IH]; [reflexivity|]. simpl. intros H.
  apply andb_true_iff in H. destruct H as [Hc H].
  unfold lowered in Hc. apply N.eqb_eq in Hc. rewrite Hc, (IH H). reflexivity.
Qed.

(** *** Units other than the capital I with a dot *)

Lemma undotted_In s : forallb undotted s = true -> ~ In 0x130 s.
Proof.
  intros H Hin. rewrite forallb_forall in H. specialize (H _ Hin).
  vm_compute in H. discriminate.
Qed.

Lemma alone_undotted s : forallb lowersAlone s = true -> forallb undotted s = true.
Proof.
  intros H. apply forallb_forall. intros c Hc. rewrite forallb_forall in H.
  unfold undotted. apply negb_true_iff, N.eqb_neq.
  apply lowersAlone_undotted, H, Hc.
Qed.

Lemma simpUnit_undotted c :
  undotted c = true -> forallb undotted (simpUnit c) = true.
Proof.
  assert (T : forallb (fun kv => forallb undotted (snd kv)) TRAD_TO_SIMP = true)
    by (vm_compute; reflexivity).
  intros Hc. unfold simpUnit.
  destruct (lookup [c] TRAD_TO_SIMP) as [v|] eqn:E.
  - destruct (truthy v); [|simpl; rewrite Hc; reflexivity].
    apply lookup_In in E. rewrite forallb_forall in T. apply (T _ E).
  - simpl. rewrite Hc. reflexivity.
Qed.

Lemma toSimplified_undotted s :
  forallb undotted s = true -> forallb undotted (toSimplified s) = true.
Proof.
  induction s as [|c s IH]; [reflexivity|]. simpl. intros H.
  apply andb_true_iff in H. destruct H as [Hc H].
  rewrite forallb_app, (simpUnit_undotted c Hc), (IH H). reflexivity.
Qed.

Lemma lowerUnit_undotted c : undotted c = true -> undotted (lowerUnit c) = true.
Proof.
  unfold undotted, lowerUnit, isUpper. intros H.
  apply negb_true_iff, N.eqb_neq in H. apply negb_true_iff, N.eqb_neq.
  destruct ((65 <=? c) && (c <=? 90)) eqn:E1.
  - b2p. lia.
  - destruct ((65313 <=? c) && (c <=? 65338)) eqn:E2; [b2p; lia | exact H].
Qed.

Lemma lower_undotted s :
  forallb undotted s = true -> forallb undotted (map lowerUnit s) = true.
Proof.
  induction s as [|c s IH]; [reflexivity|]. simpl. intros H.
  apply andb_true_iff in H. destruct H as [Hc H].
  rewrite (lowerUnit_undotted c Hc), (IH H). reflexivity.
Qed.

(** The key of a title without the capital I with a dot, with the
    lowering written as a map on the units. *)
Lemma normTitle_undotted t :
  forallb undotted t = true ->
  normTitle t
  = stripSpaces (map lowerUnit (normalizeRomanNumerals (toSimplified t)))
  /\ forallb undotted (normTitle t) = true.
Proof.
  intros H.
  assert (Hv : forallb undotted (normalizeRomanNumerals (toSimplified t)) = true).
  { apply roman_units; [vm_compute; reflexivity|].
    apply toSimplified_undotted, H. }
  assert (E : normTitle t
              = stripSpaces (map lowerUnit
                               (normalizeRomanNumerals (toSimplified t)))).
  { unfold normTitle. rewrite (toLowerCase_undotted _ (undotted_In _ Hv)).
    reflexivity. }
  split; [exact E|]. rewrite E. unfold stripSpaces.
  apply forallb_filter, lower_undotted, Hv.
Qed.

(** The transforms of the key, applied to a key, change nothing, when
    the title has no capital I with a dot. *)
Lemma normTitle_idem t :
  forallb undotted t = true -> normTitle (normTitle t) = normTitle t.
Proof.
  intros Ht. destruct (normTitle_undotted t Ht) as [E Hu].
  destruct (normTitle_undotted _ Hu) as [E2 _]. rewrite E2.
  set (u := normTitle t).
  assert (H1 : toSimplified u = u).
  { apply plain_fixed. unfold u. rewrite E. unfold stripSpaces.
    apply forallb_filter, lower_plain, roman_plain, toSimplified_plain. }
  assert (H2 : normalizeRomanNumerals u = u).
  { apply roman_fixed. intros r Hr. unfold u. rewrite E.
    apply strip_keeps; [|exact Hr]. intros r0 Hr0.
    destruct (romans_letters r0 Hr0) as [Rl Rn].
    rewrite (occurs_lower r0 _ Rl Rn). apply normalized_clean, Hr0. }
  assert (H3 : map lowerUnit u = u).
  { apply lowered_fixed. unfold u. rewrite E. unfold stripSpaces.
    apply forallb_filter, map_lowered. }
  assert (H4 : stripSpaces u = u).
  { unfold u. rewrite E. unfold stripSpaces. apply filter_idem. }
  rewrite H1, H2, H3, H4. reflexivity.
Qed.

(** *** The suffix of a key *)

Lemma closesAtEnd_last s d : closesAtEnd s = true -> isCloseParen (last s d) = true.
Proof.
  induction s as [|c s IH]; [discriminate|].
  destruct s as [|c' s]; [simpl; auto|].
  change (closesAtEnd (c :: c' :: s))
    with (negb (isCloseParen c) && closesAtEnd (c' :: s)).
  intros H. apply andb_true_iff in H. destruct H as [_ H].
  change (last (c :: c' :: s) d) with (last (c' :: s) d). apply IH, H.
Qed.

Lemma closesAtEnd_nonempty s : closesAtEnd s = true -> s <> [].
Proof. destruct s; [discriminate | discriminate]. Qed.

(** A string that the pattern of the suffixes matches ends with a
    closing parenthesis. *)
Lemma suffixMatches_last s d :
  suffixMatches s = true -> isCloseParen (last s d) = true.
Proof.
  unfold suffixMatches. intros H.
  destruct (StringFacts.trimStart_split s) as [ws [E _]].
  destruct (trimStart s) as [|c s1]; [discriminate|].
  apply andb_true_iff in H. destruct H as [_ H].
  destruct (StringFacts.trimStart_split s1) as [ws1 [E1 _]].
  set (s2 := trimStart s1) in *.
  apply existsb_exists in H. destruct H as [word [_ H]].
  apply andb_true_iff in H. destruct H as [_ H].
  pose proof (closesAtEnd_nonempty _ H) as Hn.
  rewrite <- (closesAtEnd_last _ d H).
  rewrite (StringFacts.last_of_skipn s2 _ d Hn).
  assert (Hs2 : s2 <> []).
  { intros E2. apply Hn. rewrite E2. destruct (List.length word); reflexivity. }
  rewrite E. rewrite StringFacts.last_of_app; [|discriminate].
  change (last (c :: s1) d) with (last ([c] ++ s1) d).
  assert (Hs1 : s1 <> []).
  { intros E3. rewrite E3 in E1. symmetry in E1. apply app_eq_nil in E1. tauto. }
  rewrite StringFacts.last_of_app; [|exact Hs1].
  rewrite E1. rewrite StringFacts.last_of_app; [reflexivity | exact Hs2].
Qed.

Lemma cutAt_fixed (matches : jsstring -> bool) s :
  (forall pre post, s = pre ++ post -> post <> [] -> matches post = false) ->
  cutAt matches s = s.
Proof.
  intros H. induction s as [|c s IH]; simpl.
  - destruct (matches []); reflexivity.
  - rewrite (H [] (c :: s) eq_refl); [|discriminate]. f_equal.
    apply IH. intros pre post E Hp. apply (H (c :: pre) post); [|exact Hp].
    simpl. congruence.
Qed.

(** Nothing is taken off a string with no white space that does not end
    with a closing parenthesis. *)
Lemma removeDescriptiveSuffix_fixed u :
  forallb (fun c => negb (isSpace c)) u = true ->
  isCloseParen (last u 0) = false ->
  removeDescriptiveSuffix u = u.
Proof.
  intros Hs Hl.
  assert (E : replaceSuffix u = u).
  { apply cutAt_fixed. intros pre post E Hp.
    destruct (suffixMatches post) eqn:Em; [|reflexivity].
    apply (suffixMatches_last post 0) in Em.
    rewrite E, (StringFacts.last_of_app pre post 0 Hp) in Hl. congruence. }
  unfold removeDescriptiveSuffix, suffixLoop. simpl untilUnchanged.
  rewrite E, eqb_refl. apply StringFacts.trim_spaceless, Hs.
Qed.

Lemma removeDescriptiveSuffix_units (P : N -> bool) s :
  forallb P s = true -> forallb P (removeDescriptiveSuffix s) = true.
Proof.
  intros H. unfold removeDescriptiveSuffix. apply StringFacts.trim_units.
  destruct (suffixLoop (S (List.length s)) s) as [out|] eqn:E; [|exact H].
  destruct (LoopFacts.loop_prefix _ LoopFacts.replaceSuffix_prefix _ _ _ E)
    as [block Hb].
  exact (StringFacts.prefix_units P s out block Hb H).
Qed.




End NormalizeFacts.

(** ** The groups of the enhanced detector *)

Module GroupFacts.
Import Enhanced EnhancedRun Spec.

Lemma sorted_head_best (files : list fileInfo) k rest f :
  sortFiles files = k :: rest -> In f rest -> (getScore f <= getScore k)%Q.
Proof.
  intros E Hf.
  pose proof (RankFacts.sort_strongly_sorted byScore RankFacts.byScore_consistent
                files) as H.
  fold (sortFiles files) in H. rewrite E in H.
  inversion H as [|? ? _ Hall]; subst.
  rewrite Forall_forall in Hall. specialize (Hall f Hf).
  unfold notAfter in Hall. rewrite RankFacts.byScore_compare in Hall.
  apply (proj2 (Qle_alt _ _)). exact Hall.
Qed.

(** The file that the report keeps, the first of its group, has the
    best score of the group: no other member scores more. *)
Theorem kept_file_has_the_best_score
    getFileHash relative now targetDir audioFiles lrcIndex :
  let out := run getFileHash relative now targetDir audioFiles lrcIndex in
  (forall d k rest f,
     In d (o_exact out) -> ed_files d = k :: rest -> In f rest ->
     (getScore f <= getScore k)%Q)
  /\ (forall d k rest f,
        In d (o_semantic out) -> sd_files d = k :: rest -> In f rest ->
        (getScore f <= getScore k)%Q).
Proof.
  intros out.
  destruct (EmitterFacts.run_groups getFileHash relative now targetDir
              audioFiles lrcIndex) as (He & Hs & _).
  fold out in He, Hs. split.
  - intros d k rest f Hd E Hf. destruct (He d Hd) as [Hsort _].
    rewrite E in Hsort. exact (sorted_head_best _ _ _ _ Hsort Hf).
  - intros d k rest f Hd E Hf. destruct (Hs d Hd) as [Hsort _].
    rewrite E in Hsort. exact (sorted_head_best _ _ _ _ Hsort Hf).
Qed.

Section Groups.
Variable getFileHash : jsstring -> option jsstring.
Variable fileInfos : list fileInfo.

Lemma exactDuplicates_files d :
  In d (exactDuplicates getFileHash fileInfos) ->
  ed_files d =
    filter (JsMap.keyIs eqb (hashOf getFileHash) (ed_hash d))
      (filter (JsMap.keyIs N.eqb (fun f => Some (size f)) (ed_size d)) fileInfos)
  /\ (1 < List.length (ed_files d))%nat
  /\ 0 < ed_size d.
Proof.
  unfold exactDuplicates. rewrite in_flat_map. intros [[sz group] [Hg Hd]].
  unfold sizeGroups in Hg. apply filter_In in Hg. destruct Hg as [Hg Hf].
  apply andb_true_iff in Hf. destruct Hf as [_ Hpos]. simpl in Hpos.
  apply N.ltb_lt in Hpos.
  unfold sizeMap in Hg.
  apply (JsMapFacts.groupBy_In _ EnhancedRunFacts.N_eqb_spec) in Hg.
  destruct Hg as [Hg _].
  unfold exactOfGroup in Hd. rewrite in_flat_map in Hd.
  destruct Hd as [[h same] [Hh Hd]]. simpl in Hh, Hd.
  destruct (1 <? List.length same)%nat eqn:El; [|contradiction].
  destruct Hd as [Hd|[]]. subst d. simpl.
  apply (JsMapFacts.groupBy_In _ eqb_eq) in Hh. destruct Hh as [Hh _].
  apply Nat.ltb_lt in El. subst group. auto.
Qed.

Lemma semanticDuplicates_entry exact d :
  In d (semanticDuplicates exact fileInfos) ->
  In (sd_key d, sd_files d) (songMap fileInfos)
  /\ (1 < List.length (sd_files d))%nat.
Proof.
  unfold semanticDuplicates. rewrite in_flat_map. intros [[k g] [Hg Hd]].
  simpl in Hd. destruct (1 <? List.length g)%nat eqn:El; [|contradiction].
  destruct (skipped exact g); [contradiction|].
  destruct Hd as [Hd|[]]. subst d. simpl. apply Nat.ltb_lt in El. auto.
Qed.

End Groups.

Lemma sortExact_inj_files d1 d2 :
  ed_hash d1 = ed_hash d2 -> ed_size d1 = ed_size d2 ->
  ed_files d1 = ed_files d2 -> sortExact d1 = sortExact d2.
Proof. unfold sortExact. intros -> -> ->. reflexivity. Qed.

(** The exact groups part the files: every group holds two files or
    more of a size that is not zero, and no file stands in two groups. *)
Theorem exact_groups_are_disjoint
    getFileHash relative now targetDir audioFiles lrcIndex :
  let out := run getFileHash relative now targetDir audioFiles lrcIndex in
  (forall d, In d (o_exact out) ->
     (2 <= List.length (ed_files d))%nat /\ 0 < ed_size d)
  /\ (forall d1 d2 f,
        In d1 (o_exact out) -> In d2 (o_exact out) ->
        In f (ed_files d1) -> In f (ed_files d2) -> d1 = d2).
Proof.
  intros out.
  destruct (SemanticFacts.run_outcome getFileHash relative now targetDir
              audioFiles lrcIndex) as [He _].
  fold out in He. rewrite He. split.
  - intros d Hd. apply in_map_iff in Hd. destruct Hd as (e & <- & He').
    destruct (exactDuplicates_files _ _ _ He') as (_ & Hl & Hp).
    simpl. unfold sortFiles. rewrite JsArrayFacts.sort_length. split; [lia|exact Hp].
  - intros d1 d2 f H1 H2 F1 F2.
    apply in_map_iff in H1. destruct H1 as (e1 & <- & H1).
    apply in_map_iff in H2. destruct H2 as (e2 & <- & H2).
    simpl in F1, F2. apply JsArrayFacts.sort_In in F1, F2.
    destruct (EnhancedRunFacts.exactDuplicates_member _ _ _ _ H1 F1)
      as (_ & S1 & K1).
    destruct (EnhancedRunFacts.exactDuplicates_member _ _ _ _ H2 F2)
      as (_ & S2 & K2).
    destruct (exactDuplicates_files _ _ _ H1) as (E1 & _).
    destruct (exactDuplicates_files _ _ _ H2) as (E2 & _).
    assert (Hh : ed_hash e1 = ed_hash e2) by congruence.
    assert (Hs : ed_size e1 = ed_size e2) by congruence.
    apply sortExact_inj_files; try assumption.
    rewrite E1, E2, Hh, Hs. reflexivity.
Qed.

(** The semantic groups: every group holds two files or more, all filed
    under the key of the group and with a title; two groups never have
    the same key, and no file stands in two groups. *)
Theorem semantic_groups_are_keyed
    getFileHash relative now targetDir audioFiles lrcIndex :
  let out := run getFileHash relative now targetDir audioFiles lrcIndex in
  (forall d, In d (o_semantic out) ->
     (2 <= List.length (sd_files d))%nat
     /\ forall f, In f (sd_files d) -> key f = sd_key d /\ title f <> [])
  /\ (forall d1 d2,
        In d1 (o_semantic out) -> In d2 (o_semantic out) ->
        sd_key d1 = sd_key d2 -> d1 = d2)
  /\ (forall d1 d2 f,
        In d1 (o_semantic out) -> In d2 (o_semantic out) ->
        In f (sd_files d1) -> In f (sd_files d2) -> d1 = d2).
Proof.
  intros out.
  destruct (SemanticFacts.run_outcome getFileHash relative now targetDir
              audioFiles lrcIndex) as [_ Hs].
  fold out in Hs. rewrite Hs.
  set (infos := map (preprocess targetDir lrcIndex) audioFiles).
  set (exact := exactDuplicates getFileHash infos).
  assert (Hmember : forall e f,
            In e (semanticDuplicates exact infos) -> In f (sd_files e) ->
            key f = sd_key e /\ title f <> []).
  { intros e f He Hf.
    destruct (semanticDuplicates_entry _ _ _ He) as [Hg _].
    destruct (JsMapFacts.groupBy_member _ eqb_eq _ _ _ _ _ Hg Hf) as [_ Hk].
    simpl in Hk. destruct (title f) as [|c t]; simpl in Hk; [discriminate|].
    destruct (truthy (key f)); [|discriminate].
    inversion Hk. split; [reflexivity | discriminate]. }
  assert (Hkey : forall e1 e2,
            In e1 (semanticDuplicates exact infos) ->
            In e2 (semanticDuplicates exact infos) ->
            sd_key e1 = sd_key e2 -> e1 = e2).
  { intros e1 e2 H1 H2 Hk.
    destruct (semanticDuplicates_entry _ _ _ H1) as [G1 _].
    destruct (semanticDuplicates_entry _ _ _ H2) as [G2 _].
    apply (JsMapFacts.groupBy_In _ eqb_eq) in G1, G2.
    destruct G1 as [G1 _], G2 as [G2 _].
    destruct e1 as [k1 f1], e2 as [k2 f2]. simpl in *. congruence. }
  split; [|split].
  - intros d Hd. apply in_map_iff in Hd. destruct Hd as (e & <- & He).
    destruct (semanticDuplicates_entry _ _ _ He) as [_ Hl].
    simpl. unfold sortFiles. rewrite JsArrayFacts.sort_length. split; [lia|].
    intros f Hf. apply JsArrayFacts.sort_In in Hf. exact (Hmember e f He Hf).
  - intros d1 d2 H1 H2 Hk.
    apply in_map_iff in H1. destruct H1 as (e1 & <- & H1).
    apply in_map_iff in H2. destruct H2 as (e2 & <- & H2).
    simpl in Hk. rewrite (Hkey e1 e2 H1 H2 Hk). reflexivity.
  - intros d1 d2 f H1 H2 F1 F2.
    apply in_map_iff in H1. destruct H1 as (e1 & <- & H1).
    apply in_map_iff in H2. destruct H2 as (e2 & <- & H2).
    simpl in F1, F2. apply JsArrayFacts.sort_In in F1, F2.
    destruct (Hmember e1 f H1 F1) as [K1 _].
    destruct (Hmember e2 f H2 F2) as [K2 _].
    rewrite (Hkey e1 e2 H1 H2); [reflexivity | congruence].
Qed.

End GroupFacts.

(** ** Names, track numbers and keys *)

Module NameFacts.
Import Enhanced EnhancedRun Spec.

(** *** Directory names *)

Lemma unsafe_replaced c :
  isUnsafeUnit (if isUnsafeUnit c then 0x5F else c) = false.
Proof. destruct (isUnsafeUnit c) eqn:E; [reflexivity | exact E]. Qed.

Lemma map_safe_fixed (s : jsstring) :
  (forall c, In c s -> isUnsafeUnit c = false) ->
  map (fun c => if isUnsafeUnit c then 0x5F else c) s = s.
Proof.
  induction s as [|c s IH]; intros H; simpl; [reflexivity|].
  rewrite (H c (or_introl eq_refl)). f_equal. apply IH.
  intros x Hx. apply H. right. exact Hx.
Qed.

Lemma In_firstn {A : Type} n (l : list A) x : In x (firstn n l) -> In x l.
Proof.
  intros H. rewrite <- (firstn_skipn n l). apply in_or_app. left. exact H.
Qed.

(** The directory name that [safeDirName] gives has fifty units at most
    and none of the nine characters that the pattern lists; a name that
    is short and safe already is given back as it is, so the function
    applied twice gives what it gives applied once. *)
Theorem safeDirName_is_safe (name : jsstring) :
  (List.length (safeDirName name) <= 50)%nat
  /\ (forall c, In c (safeDirName name) -> isUnsafeUnit c = false)
  /\ ((List.length name <= 50)%nat ->
      (forall c, In c name -> isUnsafeUnit c = false) ->
      safeDirName name = name)
  /\ safeDirName (safeDirName name) = safeDirName name.
Proof.
  assert (Hlen : (List.length (safeDirName name) <= 50)%nat).
  { unfold safeDirName. apply firstn_le_length. }
  assert (Hsafe : forall c, In c (safeDirName name) -> isUnsafeUnit c = false).
  { unfold safeDirName. intros c Hc. apply In_firstn in Hc.
    apply in_map_iff in Hc. destruct Hc as (x & <- & _). apply unsafe_replaced. }
  assert (Hfix : forall s, (List.length s <= 50)%nat ->
            (forall c, In c s -> isUnsafeUnit c = false) -> safeDirName s = s).
  { intros s Hl Hs. unfold safeDirName. rewrite (map_safe_fixed s Hs).
    apply firstn_all2. exact Hl. }
  repeat split; try assumption.
  - apply Hfix.
  - apply Hfix; assumption.
Qed.

Lemma safeDirName_is_safe_witness :
  ((List.length (js "Beyond") <= 50)%nat
   /\ forall c, In c (js "Beyond") -> isUnsafeUnit c = false)
  /\ safeDirName (js "Beyond") = js "Beyond".
Proof.
  assert (H : (List.length (js "Beyond") <= 50)%nat
              /\ forall c, In c (js "Beyond") -> isUnsafeUnit c = false).
  { split; [vm_compute; lia|]. intros c Hc. vm_compute in Hc.
    repeat (destruct Hc as [<-|Hc]; [reflexivity|]). destruct Hc. }
  split; [exact H|]. destruct H as [Hl Hs].
  exact (proj1 (proj2 (proj2 (safeDirName_is_safe (js "Beyond")))) Hl Hs).
Defined.

(** *** Track numbers *)

Lemma spanLen_run (p : N -> bool) (l r : jsstring) :
  forallb p l = true ->
  match r with [] => True | c :: _ => p c = false end ->
  spanLen p (l ++ r) = List.length l.
Proof.
  intros Hl Hr. induction l as [|c l IH]; simpl in *.
  - destruct r as [|c r]; [reflexivity|]. simpl. rewrite Hr. reflexivity.
  - apply andb_true_iff in Hl. destruct Hl as [Hc Hl]. rewrite Hc.
    f_equal. apply IH. exact Hl.
Qed.

Lemma spanLen_le (p : N -> bool) (s : jsstring) :
  (spanLen p s <= List.length s)%nat.
Proof.
  induction s as [|c s IH]; simpl; [lia|]. destruct (p c); simpl; lia.
Qed.

Lemma spanLen_app_ge (p : N -> bool) (l r : jsstring) :
  forallb p l = true -> (List.length l <= spanLen p (l ++ r))%nat.
Proof.
  intros Hl. induction l as [|c l IH]; simpl in *; [lia|].
  apply andb_true_iff in Hl. destruct Hl as [Hc Hl]. rewrite Hc.
  specialize (IH Hl). lia.
Qed.

Lemma spanLen_app_le (p : N -> bool) (l r : jsstring) :
  match r with [] => True | c :: _ => p c = false end ->
  (spanLen p (l ++ r) <= List.length l)%nat.
Proof.
  intros Hr. induction l as [|c l IH]; simpl.
  - destruct r as [|c r]; simpl; [lia|]. rewrite Hr. lia.
  - destruct (p c); simpl; lia.
Qed.

Lemma forallb_skipn {A : Type} (p : A -> bool) n (l : list A) :
  forallb p l = true -> forallb p (skipn n l) = true.
Proof.
  revert l. induction n as [|n IH]; intros l H; [exact H|].
  destruct l as [|x l]; [reflexivity|]. simpl in *.
  apply andb_true_iff in H. apply IH. tauto.
Qed.

(** After the digits [ds] and the separators [sep], the separators from
    the place [j] on are all that the second class reads. *)
Lemma separators_read (ds sep title : jsstring) j :
  forallb isTrackSep sep = true ->
  match title with [] => True | c :: _ => isTrackSep c = false end ->
  (List.length ds <= j)%nat -> (j <= List.length ds + List.length sep)%nat ->
  spanLen isTrackSep (skipn j (ds ++ sep ++ title))
  = (List.length ds + List.length sep - j)%nat.
Proof.
  intros Hsep Ht Hlo Hhi.
  rewrite skipn_app.
  rewrite (skipn_all2 ds) by lia. simpl.
  rewrite skipn_app.
  replace (j - List.length ds - List.length sep)%nat with O by lia.
  simpl skipn.
  rewrite spanLen_run.
  - rewrite length_skipn. lia.
  - apply forallb_skipn. exact Hsep.
  - exact Ht.
Qed.

Lemma plusPlusFrom_reads (ds sep title : jsstring) j :
  sep <> [] ->
  forallb isTrackSep sep = true ->
  match title with [] => True | c :: _ => isTrackSep c = false end ->
  ds <> [] ->
  (List.length ds <= j)%nat -> (j <= List.length ds + List.length sep)%nat ->
  plusPlusFrom isTrackSep (ds ++ sep ++ title) j
  = Some (List.length ds + List.length sep)%nat.
Proof.
  intros Hne Hsep Ht Hds Hlo Hhi.
  assert (Ls : (0 < List.length sep)%nat) by (destruct sep; [congruence | simpl; lia]).
  assert (Ld : (0 < List.length ds)%nat) by (destruct ds; [congruence | simpl; lia]).
  destruct j as [|j]; [lia|]. cbn [plusPlusFrom].
  rewrite (separators_read ds sep title (S j) Hsep Ht Hlo Hhi).
  destruct (List.length ds + List.length sep - S j)%nat as [|k] eqn:E.
  - assert (Ej : S j = (List.length ds + List.length sep)%nat) by lia.
    destruct j as [|j']; [lia|]. cbn [plusPlusFrom].
    rewrite (separators_read ds sep title (S j') Hsep Ht) by lia.
    replace (List.length ds + List.length sep - S j')%nat with 1%nat by lia.
    f_equal. lia.
  - f_equal. lia.
Qed.

Lemma dropMatch_suffix m (s : jsstring) : exists pre, s = pre ++ dropMatch m s.
Proof.
  destruct m as [n|]; simpl.
  - exists (firstn n s). symmetry. apply firstn_skipn.
  - exists []. reflexivity.
Qed.

(** [removeTrackNumber] takes units off the head of the name only; it
    leaves alone a name that does not start with a digit, a dash or a
    dot; and it takes off a number with the separators after it, dots,
    dashes and white space, when the title after them starts with none
    of these. *)
Theorem removeTrackNumber_strips_the_number :
  (forall name, exists pre, name = pre ++ removeTrackNumber name)
  /\ (forall name,
        match name with [] => True | c :: _ => isTrackUnit c = false end ->
        removeTrackNumber name = name)
  /\ (forall ds sep title,
        ds <> [] -> forallb isDigit ds = true ->
        sep <> [] -> forallb isTrackSep sep = true ->
        match title with
        | [] => True
        | c :: _ => isTrackUnit c = false /\ isTrackSep c = false
        end ->
        removeTrackNumber (ds ++ sep ++ title) = title).
Proof.
  split; [|split].
  - intros name. unfold removeTrackNumber.
    destruct (dropMatch_suffix (matchPlusPlus isTrackUnit isTrackSep name) name)
      as [p1 E1].
    set (name1 := dropMatch (matchPlusPlus isTrackUnit isTrackSep name) name) in *.
    destruct (dropMatch_suffix (matchDigitsDot name1) name1) as [p2 E2].
    exists (p1 ++ p2). rewrite <- app_assoc, <- E2. exact E1.
  - intros [|c r] H; [reflexivity|].
    unfold removeTrackNumber, matchPlusPlus. simpl spanLen. rewrite H. simpl.
    unfold matchDigitsDot. simpl spanLen.
    unfold isTrackUnit in H. apply orb_false_iff in H. destruct H as [H _].
    apply orb_false_iff in H. destruct H as [H _]. rewrite H. reflexivity.
  - intros ds sep title Hds Hd Hsep Hs Ht.
    assert (Ht1 : match title with [] => True | c :: _ => isTrackSep c = false end).
    { destruct title; tauto. }
    assert (Ht2 : match sep ++ title with
                  | [] => True | c :: _ => True end) by (destruct (sep ++ title); exact I).
    assert (Hu : forallb isTrackUnit ds = true).
    { clear -Hd. induction ds as [|c ds IH]; simpl in *; [reflexivity|].
      apply andb_true_iff in Hd. destruct Hd as [Hc Hd].
      unfold isTrackUnit at 1. rewrite Hc. simpl. apply IH. exact Hd. }
    assert (Hlo : (List.length ds <= spanLen isTrackUnit (ds ++ sep ++ title))%nat)
      by (apply spanLen_app_ge; exact Hu).
    assert (Hhi : (spanLen isTrackUnit (ds ++ sep ++ title)
                   <= List.length ds + List.length sep)%nat).
    { rewrite app_assoc.
      etransitivity; [apply spanLen_app_le|rewrite length_app; lia].
      destruct title; tauto. }
    unfold removeTrackNumber, matchPlusPlus.
    rewrite (plusPlusFrom_reads ds sep title _ Hsep Hs Ht1 Hds Hlo Hhi).
    simpl dropMatch.
    rewrite app_assoc, skipn_app, length_app.
    rewrite skipn_all2 by (rewrite length_app; lia).
    replace (List.length ds + List.length sep - (List.length ds + List.length sep))%nat
      with O by lia.
    simpl. unfold matchDigitsDot.
    destruct title as [|c t]; [reflexivity|]. simpl spanLen.
    destruct Ht as [Hc _]. unfold isTrackUnit in Hc.
    apply orb_false_iff in Hc. destruct Hc as [Hc _].
    apply orb_false_iff in Hc. destruct Hc as [Hc _]. rewrite Hc. reflexivity.
Qed.

Lemma removeTrackNumber_strips_the_number_witness :
  (js "01" <> [] /\ forallb isDigit (js "01") = true
   /\ js " - " <> [] /\ forallb isTrackSep (js " - ") = true
   /\ (isTrackUnit 0x6D77 = false /\ isTrackSep 0x6D77 = false))
  /\ removeTrackNumber (js "01" ++ js " - " ++ js "海阔天空") = js "海阔天空".
Proof.
  assert (H : js "01" <> [] /\ forallb isDigit (js "01") = true
              /\ js " - " <> [] /\ forallb isTrackSep (js " - ") = true
              /\ (isTrackUnit 0x6D77 = false /\ isTrackSep 0x6D77 = false)).
  { repeat split; try reflexivity; discriminate. }
  split; [exact H|]. destruct H as (H1 & H2 & H3 & H4 & H5).
  exact (proj2 (proj2 removeTrackNumber_strips_the_number)
           (js "01") (js " - ") (js "海阔天空") H1 H2 H3 H4 H5).
Defined.

(** *** The parsers *)

Lemma trimStart_fixed (s : jsstring) :
  match s with [] => True | c :: _ => isSpace c = false end -> trimStart s = s.
Proof. destruct s as [|c s]; simpl; [reflexivity|]. intros ->. reflexivity. Qed.

Lemma trimStart_head (s : jsstring) :
  match trimStart s with [] => True | c :: _ => isSpace c = false end.
Proof.
  induction s as [|c s IH]; simpl; [exact I|].
  destruct (isSpace c) eqn:E; [exact IH | exact E].
Qed.

Lemma trimStart_keeps_last (l : jsstring) c :
  isSpace c = false -> exists t, trimStart (l ++ [c]) = t ++ [c].
Proof.
  intros Hc. induction l as [|x l IH]; simpl.
  - rewrite Hc. exists []. reflexivity.
  - destruct (isSpace x); [exact IH|]. exists (x :: l). reflexivity.
Qed.

Lemma trimEnd_head (s : jsstring) :
  match s with [] => True | c :: _ => isSpace c = false end ->
  match trimEnd s with [] => True | c :: _ => isSpace c = false end.
Proof.
  destruct s as [|c s]; intros H; [exact I|].
  unfold trimEnd. simpl rev.
  destruct (trimStart_keeps_last (rev s) c H) as [t ->].
  rewrite rev_app_distr. simpl. exact H.
Qed.

Lemma trimEnd_idem (s : jsstring) : trimEnd (trimEnd s) = trimEnd s.
Proof.
  unfold trimEnd. rewrite rev_involutive.
  rewrite (trimStart_fixed (trimStart (rev s))); [reflexivity|].
  apply trimStart_head.
Qed.

Lemma trim_idem (s : jsstring) : trim (trim s) = trim s.
Proof.
  unfold trim.
  rewrite (trimStart_fixed (trimEnd (trimStart s))).
  - apply trimEnd_idem.
  - apply trimEnd_head. apply trimStart_head.
Qed.

Lemma truthy_ne (s : jsstring) : truthy s = true <-> s <> [].
Proof. destruct s; simpl; split; congruence. Qed.

Lemma enhanced_orUnknown d : Enhanced.orUnknown d <> [].
Proof.
  unfold Enhanced.orUnknown. destruct d as [a|]; [|discriminate].
  destruct (truthy a) eqn:E; [apply truthy_ne; exact E | discriminate].
Qed.

Lemma utils_orUnknown d : Utils.orUnknown d <> [].
Proof.
  unfold Utils.orUnknown. destruct d as [a|]; [|discriminate].
  destruct (truthy a) eqn:E; [apply truthy_ne; exact E | discriminate].
Qed.

Lemma splitArtistTitle_artist sep nameNoExt a t :
  splitArtistTitle sep nameNoExt = (a, t) ->
  a = [] \/ (a <> [] /\ allDigits a = false).
Proof.
  unfold splitArtistTitle. destruct (indexOf sep nameNoExt) as [idx|].
  - destruct (looksLikeArtist _) eqn:E; intros H; inversion H; subst; auto.
    right. unfold looksLikeArtist in E. apply andb_true_iff in E.
    destruct E as [E1 E2]. apply negb_true_iff in E1.
    split; [apply truthy_ne; exact E2 | exact E1].
  - intros H. inversion H. auto.
Qed.

(** Both parsers always give an artist: the one read in the name, which
    is never empty and, in the enhanced detector, never a number alone;
    else the fall-back, which is never empty.  The title of the
    enhanced parser has no white space at either end. *)
Theorem parsers_always_give_an_artist (fileName : jsstring)
    (defaultArtist : option jsstring) :
  let r := Enhanced.parseSongInfo fileName defaultArtist in
  let u := Utils.parseSongInfo fileName defaultArtist in
  Enhanced.si_artist r <> []
  /\ (Enhanced.si_artist r = Enhanced.orUnknown defaultArtist
      \/ allDigits (Enhanced.si_artist r) = false)
  /\ trim (Enhanced.si_title r) = Enhanced.si_title r
  /\ Enhanced.si_original r = fileName
  /\ Utils.si_artist u <> []
  /\ (Utils.si_artist u = Utils.orUnknown defaultArtist
      \/ toLowerCase (Utils.si_artist u) <> js "unknown")
  /\ Utils.si_original u = fileName.
Proof.
  intros r u.
  assert (Hr : (Enhanced.si_artist r = Enhanced.orUnknown defaultArtist
                \/ (Enhanced.si_artist r <> []
                    /\ allDigits (Enhanced.si_artist r) = false))
               /\ trim (Enhanced.si_title r) = Enhanced.si_title r
               /\ Enhanced.si_original r = fileName).
  { subst r. unfold Enhanced.parseSongInfo.
    set (n := removeTrackNumber _).
    destruct (if includes (js " - ") n then splitArtistTitle (js " - ") n
              else if includes (js "-") n && negb (startsWith (js "-") n)
                   then splitArtistTitle (js "-") n else ([], n))
      as [a t] eqn:E.
    simpl. split; [|split; [|reflexivity]].
    - assert (Ha : a = [] \/ (a <> [] /\ allDigits a = false)).
      { destruct (includes (js " - ") n).
        - exact (splitArtistTitle_artist _ _ _ _ E).
        - destruct (includes (js "-") n && negb (startsWith (js "-") n)).
          + exact (splitArtistTitle_artist _ _ _ _ E).
          + inversion E. auto. }
      destruct Ha as [->|[Ha Hd]]; [left; reflexivity|].
      right. apply truthy_ne in Ha. rewrite Ha. split; [apply truthy_ne|]; assumption.
    - unfold removeDescriptiveSuffix. apply trim_idem. }
  assert (Hu : (Utils.si_artist u = Utils.orUnknown defaultArtist
                \/ (Utils.si_artist u <> []
                    /\ toLowerCase (Utils.si_artist u) <> js "unknown"))
               /\ Utils.si_original u = fileName).
  { subst u. unfold Utils.parseSongInfo.
    set (n := Utils.stripTrackPrefix _).
    destruct (Utils.readPatterns n) as [a t]. simpl. split; [|reflexivity].
    destruct (truthy a) eqn:Ea; simpl; [|left; reflexivity].
    destruct (eqb (toLowerCase a) (js "unknown")) eqn:Eu; [left; reflexivity|].
    right. split; [apply truthy_ne; exact Ea | apply eqb_neq; exact Eu]. }
  destruct Hr as (Ha & Ht & Ho). destruct Hu as (Hb & Hp).
  repeat split; try assumption.
  - destruct Ha as [->|[Ha _]]; [apply enhanced_orUnknown | exact Ha].
  - destruct Ha as [Ha|[_ Ha]]; auto.
  - destruct Hb as [->|[Hb _]]; [apply utils_orUnknown | exact Hb].
  - destruct Hb as [Hb|[_ Hb]]; auto.
Qed.

(** *** Keys *)

Lemma includesUnit_false c (s : jsstring) :
  includesUnit c s = false <-> ~ In c s.
Proof.
  unfold includesUnit. split.
  - intros H Hin. assert (E : existsb (N.eqb c) s = true).
    { apply existsb_exists. exists c. split; [exact Hin | apply N.eqb_refl]. }
    congruence.
  - intros H. destruct (existsb (N.eqb c) s) eqn:E; [|reflexivity].
    apply existsb_exists in E. destruct E as (x & Hx & Ex).
    apply N.eqb_eq in Ex. subst x. contradiction.
Qed.

Lemma splitAux_unit c (b cur : jsstring) :
  ~ In c b -> splitAux [c] b cur O = [rev cur ++ b].
Proof.
  revert cur. induction b as [|x b IH]; intros cur H; simpl.
  - rewrite app_nil_r. reflexivity.
  - destruct (c =? x) eqn:E.
    + apply N.eqb_eq in E. subst x. exfalso. apply H. left. reflexivity.
    + simpl. rewrite IH.
      * simpl. rewrite <- app_assoc. reflexivity.
      * intros Hin. apply H. right. exact Hin.
Qed.

Lemma split_unit c (a b : jsstring) :
  ~ In c a -> ~ In c b -> split [c] (a ++ c :: b) = [a; b].
Proof.
  intros Ha Hb. unfold split.
  assert (G : forall cur, splitAux [c] (a ++ c :: b) cur O = [rev cur ++ a; b]).
  { induction a as [|x a IH]; intros cur; simpl.
    - rewrite N.eqb_refl. simpl. rewrite app_nil_r.
      rewrite (splitAux_unit c b [] Hb). reflexivity.
    - destruct (c =? x) eqn:E.
      + apply N.eqb_eq in E. subst x. exfalso. apply Ha. left. reflexivity.
      + simpl. rewrite IH.
        * simpl. rewrite <- app_assoc. reflexivity.
        * intros Hin. apply Ha. right. exact Hin. }
  apply (G []).
Qed.

(** The key is read back by the report: when neither half holds a bar,
    the two parts that [split] gives are the normalised artist and the
    normalised title that [getSongKey] joined. *)
Theorem song_key_splits_into_its_halves (artist title dirArtist : jsstring) :
  let finalArtist :=
    if artistMatches artist dirArtist then dirArtist else artist in
  includesUnit 0x7C (normArtist finalArtist) = false ->
  includesUnit 0x7C (normTitle title) = false ->
  split (js "|") (getSongKey artist title dirArtist)
    = [normArtist finalArtist; normTitle title]
  /\ keyPart 0 (getSongKey artist title dirArtist) = normArtist finalArtist
  /\ keyPart 1 (getSongKey artist title dirArtist) = normTitle title.
Proof.
  intros finalArtist Ha Ht.
  apply includesUnit_false in Ha, Ht.
  assert (E : split (js "|") (getSongKey artist title dirArtist)
              = [normArtist finalArtist; normTitle title]).
  { unfold getSongKey. fold finalArtist.
    change (js "|") with [0x7C]. simpl app.
    apply split_unit; assumption. }
  unfold keyPart. rewrite E. auto.
Qed.

Lemma song_key_splits_into_its_halves_witness :
  (includesUnit 0x7C
     (normArtist (if artistMatches (js "BEYOND") (js "Beyond")
                  then js "Beyond" else js "BEYOND")) = false
   /\ includesUnit 0x7C (normTitle (js "海闊天空 II")) = false)
  /\ split (js "|") (getSongKey (js "BEYOND") (js "海闊天空 II") (js "Beyond"))
     = [js "beyond"; js "海闊天空2"].
Proof.
  assert (H : includesUnit 0x7C
                (normArtist (if artistMatches (js "BEYOND") (js "Beyond")
                             then js "Beyond" else js "BEYOND")) = false
              /\ includesUnit 0x7C (normTitle (js "海闊天空 II")) = false).
  { split; vm_compute; reflexivity. }
  split; [exact H|]. destruct H as [Ha Ht].
  exact (proj1 (song_key_splits_into_its_halves
                  (js "BEYOND") (js "海闊天空 II") (js "Beyond") Ha Ht)).
Defined.

End NameFacts.

(** ** The duplicate mover: what is moved and what stays *)

Module MoverFacts.
Import Utils Mover Notions.

Lemma same_path_same_file (l : list fileInfo) a b :
  NoDup (map path l) -> In a l -> In b l -> path a = path b -> a = b.
Proof.
  induction l as [|x l IH]; simpl; intros Hn Ha Hb E; [contradiction|].
  apply NoDup_cons_iff in Hn. destruct Hn as [Hx Hn].
  destruct Ha as [->|Ha], Hb as [->|Hb].
  - reflexivity.
  - exfalso. apply Hx. rewrite E. apply in_map. exact Hb.
  - exfalso. apply Hx. rewrite <- E. apply in_map. exact Ha.
  - apply IH; assumption.
Qed.

Lemma NoDup_map_filter (p : fileInfo -> bool) (l : list fileInfo) :
  NoDup (map path l) -> NoDup (map path (filter p l)).
Proof.
  induction l as [|x l IH]; simpl; intros Hn; [constructor|].
  apply NoDup_cons_iff in Hn. destruct Hn as [Hx Hn].
  destruct (p x); simpl; [|apply IH; exact Hn].
  constructor; [|apply IH; exact Hn].
  intros Hin. apply Hx. apply in_map_iff in Hin.
  destruct Hin as (y & Ey & Hy). apply filter_In in Hy.
  rewrite <- Ey. apply in_map. tauto.
Qed.

Lemma NoDup_snoc {A : Type} (l : list A) x :
  NoDup l -> ~ In x l -> NoDup (l ++ [x]).
Proof.
  induction l as [|y l IH]; simpl; intros Hn Hx.
  - constructor; [tauto | constructor].
  - apply NoDup_cons_iff in Hn. destruct Hn as [Hy Hn].
    constructor.
    + intros Hin. apply in_app_or in Hin. destruct Hin as [Hin|[->|[]]]; tauto.
    + apply IH; tauto.
Qed.

(** The head of a sorted group is none of the files after it. *)
Lemma keeper_not_among_losers (group : list fileInfo) k rest l :
  NoDup (map path group) ->
  JsArray.sort byScore group = k :: rest ->
  In l (JsArray.slice1 (JsArray.sort byScore group)) -> path l <> path k.
Proof.
  intros Hn E Hl. rewrite E in Hl. simpl in Hl.
  assert (Hp : Permutation (map path (k :: rest)) (map path group)).
  { apply Permutation_map. rewrite <- E. apply JsArrayFacts.sort_perm. }
  assert (Hn' : NoDup (map path (k :: rest))).
  { apply (Permutation_NoDup (Permutation_sym Hp)). exact Hn. }
  simpl in Hn'. apply NoDup_cons_iff in Hn'. destruct Hn' as [Hk _].
  intros Heq. apply Hk. rewrite <- Heq. apply in_map. exact Hl.
Qed.

Lemma loser_in_group (group : list fileInfo) l :
  In l (JsArray.slice1 (JsArray.sort byScore group)) -> In l group.
Proof.
  intros H. apply (JsArrayFacts.sort_In byScore).
  unfold JsArray.slice1 in H.
  destruct (JsArray.sort byScore group); [contradiction | right; exact H].
Qed.

Lemma keeper_in_group (group : list fileInfo) k rest :
  JsArray.sort byScore group = k :: rest -> In k group.
Proof.
  intros E. apply (JsArrayFacts.sort_In byScore). rewrite E. left. reflexivity.
Qed.

Lemma sizeMap_member fileInfos e l :
  In e (JsMap.groupBy N.eqb (fun f => Some (size f)) fileInfos) ->
  In l (snd e) -> In l fileInfos /\ size l = fst e.
Proof.
  destruct e as [sz group]. simpl. intros He Hl.
  destruct (JsMapFacts.groupBy_member _ EnhancedRunFacts.N_eqb_spec _ _ _ _ _ He Hl)
    as [Hin Hk].
  inversion Hk. auto.
Qed.

Lemma songKey_audio procd f key :
  songKey procd f = Some key ->
  isAudio (name f) = true /\ ~ In (path f) procd.
Proof.
  unfold songKey. destruct (isAudio (name f)); simpl; [|discriminate].
  destruct (existsb (eqb (path f)) procd) eqn:E; [discriminate|].
  intros _. split; [reflexivity|]. intros Hin.
  assert (E' : existsb (eqb (path f)) procd = true).
  { apply existsb_exists. exists (path f). split; [exact Hin | apply eqb_refl]. }
  congruence.
Qed.

Lemma semanticGroups_member procd fileInfos key group l :
  In (key, group) (semanticGroups procd fileInfos) -> In l group ->
  In l fileInfos /\ songKey procd l = Some key.
Proof.
  unfold semanticGroups, songMap. intros Hg Hl.
  apply filter_In in Hg. destruct Hg as [Hg _].
  exact (JsMapFacts.groupBy_member _ eqb_eq _ _ _ _ _ Hg Hl).
Qed.

Lemma semanticGroups_files procd fileInfos key group :
  In (key, group) (semanticGroups procd fileInfos) ->
  group = filter (JsMap.keyIs eqb (songKey procd) key) fileInfos.
Proof.
  unfold semanticGroups, songMap. intros Hg.
  apply filter_In in Hg. destruct Hg as [Hg _].
  apply (JsMapFacts.groupBy_In _ eqb_eq) in Hg. tauto.
Qed.

Section Run.
Variable World : Type.
Variable getFileHash : World -> jsstring -> option jsstring.
Variable existsSync : World -> jsstring -> bool.
Variable moveFile : jsstring -> jsstring -> World -> option jsstring * World.
Variable tempDir : jsstring.

Local Abbreviation state := (Mover.state World).
Local Abbreviation processed := (Mover.processed World).
Local Abbreviation movedCount := (Mover.movedCount World).
Local Abbreviation world := (Mover.world World).
Local Abbreviation moveLoser := (Mover.moveLoser World existsSync moveFile tempDir).
Local Abbreviation exactStep :=
  (Mover.exactStep World getFileHash existsSync moveFile tempDir).
Local Abbreviation phaseA :=
  (Mover.phaseA World getFileHash existsSync moveFile tempDir).
Local Abbreviation phaseB := (Mover.phaseB World existsSync moveFile tempDir).
Local Abbreviation run := (Mover.run World getFileHash existsSync moveFile tempDir).
Local Abbreviation hashOf := (Mover.hashOf World getFileHash).
Local Abbreviation hashStep := (Notions.hashStep World existsSync moveFile tempDir).
Local Abbreviation songStep := (Notions.songStep World existsSync moveFile tempDir).
Local Abbreviation counted := (Notions.counted World).
Local Abbreviation statesA :=
  (Notions.statesA World getFileHash existsSync moveFile tempDir).

(** One loser: nothing is recorded, or its path is, which was not
    recorded before and, in phase A, is the path of an audio file. *)
Lemma moveLoser_cases b (st : state) l :
  (processed (moveLoser b st l) = processed st
   /\ movedCount (moveLoser b st l) = movedCount st)
  \/ (processed (moveLoser b st l) = processed st ++ [path l]
      /\ movedCount (moveLoser b st l) = S (movedCount st)
      /\ ~ In (path l) (processed st)
      /\ (b = true -> isAudio (name l) = true)).
Proof.
  unfold Mover.moveLoser.
  destruct (existsb (eqb (path l)) (processed st)) eqn:Ep; [left; auto|].
  destruct (b && negb (isAudio (name l))) eqn:Ea; [left; auto|].
  destruct (moveFile (path l) tempDir (world st)) as [dest w1].
  destruct dest as [d|]; [|left; auto].
  destruct (truthy d); [|left; auto].
  right. simpl. repeat split.
  - intros Hin.
    assert (E : existsb (eqb (path l)) (processed st) = true).
    { apply existsb_exists. exists (path l). split; [exact Hin | apply eqb_refl]. }
    congruence.
  - intros ->. simpl in Ea. apply negb_false_iff in Ea. exact Ea.
Qed.

Lemma moveLoser_counted b (st : state) l :
  counted st -> counted (moveLoser b st l).
Proof.
  intros [Hn Hc]. unfold Notions.counted.
  destruct (moveLoser_cases b st l) as [[Ep Ec]|(Ep & Ec & Hnew & _)];
    rewrite Ep, Ec.
  - auto.
  - split; [apply NoDup_snoc; assumption|].
    rewrite length_app. simpl. lia.
Qed.

Lemma moveLoser_tracks (P : jsstring -> Prop) b (st : state) l :
  (forall p, In p (processed st) -> P p) ->
  ((b = true -> isAudio (name l) = true) -> P (path l)) ->
  forall p, In p (processed (moveLoser b st l)) -> P p.
Proof.
  intros Hst Hl p.
  destruct (moveLoser_cases b st l) as [[Ep _]|(Ep & _ & _ & Ha)]; rewrite Ep.
  - apply Hst.
  - intros Hin. apply in_app_or in Hin. destruct Hin as [Hin|[<-|[]]]; auto.
Qed.

Lemma losers_counted b ls (st : state) :
  counted st -> counted (fold_left (moveLoser b) ls st).
Proof.
  revert st. induction ls as [|l ls IH]; intros st H; simpl; [exact H|].
  apply IH. apply moveLoser_counted. exact H.
Qed.

Lemma losers_track (P : jsstring -> Prop) b ls (st : state) :
  (forall p, In p (processed st) -> P p) ->
  (forall l, In l ls -> (b = true -> isAudio (name l) = true) -> P (path l)) ->
  forall p, In p (processed (fold_left (moveLoser b) ls st)) -> P p.
Proof.
  revert st. induction ls as [|l ls IH]; intros st Hst Hls; simpl; [exact Hst|].
  apply IH.
  - apply moveLoser_tracks; [exact Hst|]. apply Hls. left. reflexivity.
  - intros l' Hl'. apply Hls. right. exact Hl'.
Qed.

Lemma exactStep_unfold (st : state) e :
  exactStep st e =
  if (List.length (snd e) <? 2)%nat || (fst e =? 0) then st
  else fold_left hashStep
         (JsMap.groupBy eqb (hashOf (world st)) (snd e)) st.
Proof. reflexivity. Qed.

Lemma phaseB_unfold (st : state) fileInfos :
  phaseB st fileInfos =
  fold_left songStep (semanticGroups (processed st) fileInfos) st.
Proof. reflexivity. Qed.

Lemma hashSteps_counted hm (st : state) :
  counted st -> counted (fold_left hashStep hm st).
Proof.
  revert st. induction hm as [|h hm IH]; intros st H; simpl; [exact H|].
  apply IH. unfold Notions.hashStep.
  destruct (1 <? List.length (snd h))%nat; [apply losers_counted|]; exact H.
Qed.

Lemma hashSteps_track (P : jsstring -> Prop) hm (st : state) :
  (forall p, In p (processed st) -> P p) ->
  (forall h same l, In (h, same) hm ->
     In l (JsArray.slice1 (JsArray.sort byScore same)) ->
     isAudio (name l) = true -> P (path l)) ->
  forall p, In p (processed (fold_left hashStep hm st)) -> P p.
Proof.
  revert st. induction hm as [|[h same] hm IH]; intros st Hst Hhm; simpl;
    [exact Hst|].
  apply IH.
  - unfold Notions.hashStep. simpl.
    destruct (1 <? List.length same)%nat; [|exact Hst].
    apply losers_track; [exact Hst|].
    intros l Hl Ha. apply (Hhm h same l); auto. left. reflexivity.
  - intros h' same' l Hin. apply (Hhm h' same' l). right. exact Hin.
Qed.

Lemma exactStep_counted (st : state) e : counted st -> counted (exactStep st e).
Proof.
  intros H. rewrite exactStep_unfold.
  destruct (_ || _); [exact H | apply hashSteps_counted; exact H].
Qed.

Lemma exactStep_tracks (P : jsstring -> Prop) (st : state) e :
  (forall p, In p (processed st) -> P p) ->
  (forall h same l,
     In (h, same) (JsMap.groupBy eqb (hashOf (world st)) (snd e)) ->
     In l (JsArray.slice1 (JsArray.sort byScore same)) ->
     isAudio (name l) = true -> P (path l)) ->
  forall p, In p (processed (exactStep st e)) -> P p.
Proof.
  intros Hst He. rewrite exactStep_unfold.
  destruct (_ || _); [exact Hst | apply hashSteps_track; assumption].
Qed.

Lemma exactStep_tracks_files (P : jsstring -> Prop) (st : state) e :
  (forall p, In p (processed st) -> P p) ->
  (forall l, In l (snd e) -> isAudio (name l) = true -> P (path l)) ->
  forall p, In p (processed (exactStep st e)) -> P p.
Proof.
  intros Hst He. apply exactStep_tracks; [exact Hst|].
  intros h same l Hh Hl Ha. apply He; [|exact Ha].
  apply loser_in_group in Hl.
  destruct (JsMapFacts.groupBy_member _ eqb_eq _ _ _ _ _ Hh Hl) as [Hin _].
  exact Hin.
Qed.

Lemma exactSteps_counted entries (st : state) :
  counted st -> counted (fold_left exactStep entries st).
Proof.
  revert st. induction entries as [|e es IH]; intros st H; simpl; [exact H|].
  apply IH. apply exactStep_counted. exact H.
Qed.

Lemma exactSteps_track (P : jsstring -> Prop) entries (st : state) :
  (forall p, In p (processed st) -> P p) ->
  (forall e l, In e entries -> In l (snd e) -> isAudio (name l) = true ->
               P (path l)) ->
  forall p, In p (processed (fold_left exactStep entries st)) -> P p.
Proof.
  revert st. induction entries as [|e es IH]; intros st Hst Hes; simpl;
    [exact Hst|].
  apply IH.
  - apply exactStep_tracks_files; [exact Hst|].
    intros l Hl. apply (Hes e l); auto. left. reflexivity.
  - intros e' l He'. apply (Hes e' l). right. exact He'.
Qed.

Lemma songSteps_counted groups (st : state) :
  counted st -> counted (fold_left songStep groups st).
Proof.
  revert st. induction groups as [|g gs IH]; intros st H; simpl; [exact H|].
  apply IH. apply losers_counted. exact H.
Qed.

Lemma songSteps_track (P : jsstring -> Prop) groups (st : state) :
  (forall p, In p (processed st) -> P p) ->
  (forall key group l, In (key, group) groups ->
     In l (JsArray.slice1 (JsArray.sort byScore group)) -> P (path l)) ->
  forall p, In p (processed (fold_left songStep groups st)) -> P p.
Proof.
  revert st. induction groups as [|[key group] gs IH]; intros st Hst Hgs; simpl;
    [exact Hst|].
  apply IH.
  - unfold Notions.songStep. simpl. apply losers_track; [exact Hst|].
    intros l Hl _. apply (Hgs key group l); auto. left. reflexivity.
  - intros key' group' l Hin. apply (Hgs key' group' l). right. exact Hin.
Qed.

Lemma statesA_entry (st0 st : state) entries e :
  In (st, e) (statesA st0 entries) -> In e entries.
Proof.
  revert st0. induction entries as [|e1 es IH]; simpl; intros st0 H;
    [contradiction|].
  destruct H as [H|H]; [inversion H; auto | right; exact (IH _ H)].
Qed.

(** The best-scored file of a hash group stays through all the turns
    of phase A. *)
Lemma keeper_stays fileInfos (st : state) e hash same k rest :
  NoDup (map path fileInfos) ->
  In (hash, same) (JsMap.groupBy eqb (hashOf (world st)) (snd e)) ->
  JsArray.sort byScore same = k :: rest ->
  forall entries (st0 : state),
    NoDup (map fst entries) ->
    (forall e' l, In e' entries -> In l (snd e') ->
                  In l fileInfos /\ size l = fst e') ->
    (forall e', In e' entries -> NoDup (map path (snd e'))) ->
    In (st, e) (statesA st0 entries) ->
    ~ In (path k) (processed st0) ->
    ~ In (path k) (processed (fold_left exactStep entries st0)).
Proof.
  intros Hn Hh Hs.
  assert (Hk : In k same) by exact (keeper_in_group _ _ _ Hs).
  destruct (JsMapFacts.groupBy_member _ eqb_eq _ _ _ _ _ Hh Hk) as [Hke Hkh].
  assert (Hsame : same = filter (JsMap.keyIs eqb (hashOf (world st)) hash) (snd e)).
  { apply (JsMapFacts.groupBy_In _ eqb_eq) in Hh. tauto. }
  induction entries as [|e1 es IH]; intros st0 Hkeys Hmem Hnd Hin Hk0;
    simpl in Hin; [contradiction|].
  apply NoDup_cons_iff in Hkeys. destruct Hkeys as [Hk1 Hkeys].
  assert (Hmem' : forall e' l, In e' es -> In l (snd e') ->
                               In l fileInfos /\ size l = fst e').
  { intros e' l He'. apply Hmem. right. exact He'. }
  assert (Hnd' : forall e', In e' es -> NoDup (map path (snd e'))).
  { intros e' He'. apply Hnd. right. exact He'. }
  simpl fold_left. destruct Hin as [Hin|Hin].
  - inversion Hin; subst st0 e1. clear Hin.
    destruct (Hmem e k (or_introl eq_refl) Hke) as [Hki Hksz].
    assert (Hne : NoDup (map path (snd e))) by (apply Hnd; left; reflexivity).
    intros Hfinal.
    refine (exactSteps_track (fun p => p <> path k) es (exactStep st e) _ _
              (path k) Hfinal eq_refl).
    + apply exactStep_tracks.
      * intros p Hp ->. contradiction.
      * intros h' same' l Hh' Hl _ Heq.
        assert (Hl' : In l same') by exact (loser_in_group _ _ Hl).
        destruct (JsMapFacts.groupBy_member _ eqb_eq _ _ _ _ _ Hh' Hl')
          as [Hle Hlh].
        destruct (Hmem e l (or_introl eq_refl) Hle) as [Hli _].
        assert (l = k) by exact (same_path_same_file _ _ _ Hn Hli Hki Heq).
        subst l. assert (h' = hash) by congruence. subst h'.
        assert (same' = same).
        { apply (JsMapFacts.groupBy_In _ eqb_eq) in Hh'. destruct Hh' as [-> _].
          symmetry. exact Hsame. }
        subst same'.
        apply (keeper_not_among_losers same k rest k); auto.
        rewrite Hsame. apply NoDup_map_filter. exact Hne.
    + intros e' l He' Hl _ Heq.
      destruct (Hmem' e' l He' Hl) as [Hli Hlsz].
      assert (l = k) by exact (same_path_same_file _ _ _ Hn Hli Hki Heq).
      subst l. apply Hk1. rewrite <- Hksz, Hlsz. apply in_map. exact He'.
  - assert (He : In e es) by exact (statesA_entry _ _ _ _ Hin).
    destruct (Hmem e k (or_intror He) Hke) as [Hki Hksz].
    apply (IH _ Hkeys Hmem' Hnd' Hin).
    intros Hfinal.
    refine (exactStep_tracks_files (fun p => p <> path k) st0 e1 _ _
              (path k) Hfinal eq_refl).
    + intros p Hp ->. contradiction.
    + intros l Hl _ Heq.
      destruct (Hmem e1 l (or_introl eq_refl) Hl) as [Hli Hlsz].
      assert (l = k) by exact (same_path_same_file _ _ _ Hn Hli Hki Heq).
      subst l. apply Hk1. rewrite <- Hlsz, Hksz. apply in_map. exact He.
Qed.

Lemma start_counted w : counted (Mover.mkState World w [] O).
Proof. split; [constructor | reflexivity]. Qed.

Lemma phaseA_counted w fileInfos : counted (phaseA w fileInfos).
Proof. apply exactSteps_counted. apply start_counted. Qed.

Lemma phaseA_audio w fileInfos p :
  In p (processed (phaseA w fileInfos)) ->
  exists f, In f fileInfos /\ path f = p /\ isAudio (name f) = true.
Proof.
  revert p. unfold Mover.phaseA. apply exactSteps_track.
  - intros p [].
  - intros e l He Hl Ha. exists l.
    destruct (sizeMap_member _ _ _ He Hl) as [Hin _]. auto.
Qed.

End Run.

(** The run moves audio files of the scan and nothing else on its own
    account, each of them once: no path is recorded twice, the count of
    the moved files is the number of the paths recorded, and every path
    recorded is that of a scanned file with an audio extension. *)
Theorem mover_moves_audio_files_once
    (World : Type) getFileHash existsSync moveFile tempDir (w : World) fileInfos :
  let st := Mover.run World getFileHash existsSync moveFile tempDir w fileInfos in
  NoDup (Mover.processed World st)
  /\ Mover.movedCount World st = List.length (Mover.processed World st)
  /\ (forall p, In p (Mover.processed World st) ->
        exists f, In f fileInfos /\ path f = p /\ isAudio (name f) = true).
Proof.
  intros st. subst st. unfold Mover.run.
  set (stA := Mover.phaseA World getFileHash existsSync moveFile tempDir w fileInfos).
  assert (Hc : Notions.counted World
                 (Mover.phaseB World existsSync moveFile tempDir stA fileInfos)).
  { rewrite phaseB_unfold. apply songSteps_counted. apply phaseA_counted. }
  destruct Hc as [Hn Hc]. split; [exact Hn|]. split; [exact Hc|].
  rewrite phaseB_unfold. apply songSteps_track.
  - apply phaseA_audio.
  - intros key group l Hg Hl. apply loser_in_group in Hl.
    destruct (semanticGroups_member _ _ _ _ _ Hg Hl) as [Hin Hk].
    destruct (songKey_audio _ _ _ Hk) as [Ha _].
    exists l. auto.
Qed.

(** The best-scored file of a group of phase B, the first of the sorted
    group, is never moved: not by phase A, which the grouping passes
    over, and not by phase B, where it is the loser of no group. *)
Theorem semantic_keeper_is_never_moved
    (World : Type) getFileHash existsSync moveFile tempDir (w : World)
    fileInfos key group k rest :
  let stA := Mover.phaseA World getFileHash existsSync moveFile tempDir w fileInfos in
  NoDup (map path fileInfos) ->
  In (key, group) (semanticGroups (Mover.processed World stA) fileInfos) ->
  JsArray.sort byScore group = k :: rest ->
  ~ In (path k)
       (Mover.processed World
          (Mover.run World getFileHash existsSync moveFile tempDir w fileInfos)).
Proof.
  intros stA Hn Hg Hs Hfinal. unfold Mover.run in Hfinal. fold stA in Hfinal.
  rewrite phaseB_unfold in Hfinal.
  assert (Hk : In k group) by exact (keeper_in_group _ _ _ Hs).
  destruct (semanticGroups_member _ _ _ _ _ Hg Hk) as [Hki Hkk].
  destruct (songKey_audio _ _ _ Hkk) as [_ Hkp].
  refine (songSteps_track World existsSync moveFile tempDir
            (fun p => p <> path k) _ stA _ _ (path k) Hfinal eq_refl).
  - intros p Hp ->. contradiction.
  - intros key' group' l Hg' Hl Heq.
    assert (Hl' : In l group') by exact (loser_in_group _ _ Hl).
    destruct (semanticGroups_member _ _ _ _ _ Hg' Hl') as [Hli Hlk].
    assert (l = k) by exact (same_path_same_file _ _ _ Hn Hli Hki Heq).
    subst l. assert (key' = key) by congruence. subst key'.
    assert (group' = group).
    { rewrite (semanticGroups_files _ _ _ _ Hg'), (semanticGroups_files _ _ _ _ Hg).
      reflexivity. }
    subst group'.
    apply (keeper_not_among_losers group k rest k); auto.
    rewrite (semanticGroups_files _ _ _ _ Hg). apply NoDup_map_filter. exact Hn.
Qed.

Lemma semantic_keeper_is_never_moved_witness :
  (NoDup (map path MoverSamples.infos)
   /\ In (js "beyond|海阔天空", [MoverSamples.cd; MoverSamples.flac])
        (semanticGroups (Mover.processed _ MoverSamples.afterA) MoverSamples.infos)
   /\ JsArray.sort byScore [MoverSamples.cd; MoverSamples.flac]
      = [MoverSamples.flac; MoverSamples.cd])
  /\ ~ In (path MoverSamples.flac) (Mover.processed _ MoverSamples.final).
Proof.
  assert (H : NoDup (map path MoverSamples.infos)
              /\ In (js "beyond|海阔天空", [MoverSamples.cd; MoverSamples.flac])
                   (semanticGroups (Mover.processed _ MoverSamples.afterA)
                      MoverSamples.infos)
              /\ JsArray.sort byScore [MoverSamples.cd; MoverSamples.flac]
                 = [MoverSamples.flac; MoverSamples.cd]).
  { split; [|split].
    - repeat (constructor; [vm_compute; intuition discriminate|]). constructor.
    - vm_compute. left. reflexivity.
    - vm_compute. reflexivity. }
  split; [exact H|]. destruct H as (Hn & Hg & Hs).
  exact (semantic_keeper_is_never_moved MoverSamples.World
           MoverSamples.getFileHash MoverSamples.existsSync MoverSamples.moveFile
           MoverSamples.tempDir tt MoverSamples.infos _ _ _ _ Hn Hg Hs).
Defined.

(** Phase A keeps the best-scored file of every group of one size and
    one hash: whatever the state in which the loop reaches the files of
    a size, the first of each sorted hash group is not among the paths
    that phase A moved. *)
Theorem exact_keeper_stays_in_phase_A
    (World : Type) getFileHash existsSync moveFile tempDir (w : World)
    fileInfos st e hash same k rest :
  NoDup (map path fileInfos) ->
  In (st, e)
     (Notions.statesA World getFileHash existsSync moveFile tempDir
        (Mover.mkState World w [] O)
        (JsMap.groupBy N.eqb (fun f => Some (size f)) fileInfos)) ->
  In (hash, same)
     (JsMap.groupBy eqb (Mover.hashOf World getFileHash (Mover.world World st))
        (snd e)) ->
  JsArray.sort byScore same = k :: rest ->
  ~ In (path k)
       (Mover.processed World
          (Mover.phaseA World getFileHash existsSync moveFile tempDir w fileInfos)).
Proof.
  intros Hn Hin Hh Hs. unfold Mover.phaseA.
  apply (keeper_stays World getFileHash existsSync moveFile tempDir
           fileInfos st e hash same k rest Hn Hh Hs).
  - apply JsMapFacts.groupBy_NoDup. exact EnhancedRunFacts.N_eqb_spec.
  - intros e' l He' Hl. exact (sizeMap_member _ _ _ He' Hl).
  - intros [sz group] He'. simpl.
    apply (JsMapFacts.groupBy_In _ EnhancedRunFacts.N_eqb_spec) in He'.
    destruct He' as [-> _]. apply NoDup_map_filter. exact Hn.
  - exact Hin.
  - simpl. tauto.
Qed.

Lemma exact_keeper_stays_in_phase_A_witness :
  (NoDup (map path MoverSamples.infos)
   /\ In (MoverSamples.start, (4000000, [MoverSamples.copy; MoverSamples.song]))
        (Notions.statesA _ MoverSamples.getFileHash MoverSamples.existsSync
           MoverSamples.moveFile MoverSamples.tempDir MoverSamples.start
           (JsMap.groupBy N.eqb (fun f => Some (size f)) MoverSamples.infos))
   /\ In (js "e4d909c290d0fb1ca068ffaddf22cbd0",
          [MoverSamples.copy; MoverSamples.song])
        (JsMap.groupBy eqb
           (Mover.hashOf _ MoverSamples.getFileHash
              (Mover.world _ MoverSamples.start))
           (snd (4000000, [MoverSamples.copy; MoverSamples.song])))
   /\ JsArray.sort byScore [MoverSamples.copy; MoverSamples.song]
      = [MoverSamples.copy; MoverSamples.song])
  /\ ~ In (path MoverSamples.copy) (Mover.processed _ MoverSamples.afterA).
Proof.
  assert (H : NoDup (map path MoverSamples.infos)
   /\ In (MoverSamples.start, (4000000, [MoverSamples.copy; MoverSamples.song]))
        (Notions.statesA _ MoverSamples.getFileHash MoverSamples.existsSync
           MoverSamples.moveFile MoverSamples.tempDir MoverSamples.start
           (JsMap.groupBy N.eqb (fun f => Some (size f)) MoverSamples.infos))
   /\ In (js "e4d909c290d0fb1ca068ffaddf22cbd0",
          [MoverSamples.copy; MoverSamples.song])
        (JsMap.groupBy eqb
           (Mover.hashOf _ MoverSamples.getFileHash
              (Mover.world _ MoverSamples.start))
           (snd (4000000, [MoverSamples.copy; MoverSamples.song])))
   /\ JsArray.sort byScore [MoverSamples.copy; MoverSamples.song]
      = [MoverSamples.copy; MoverSamples.song]).
  { split; [|split; [|split]].
    - repeat (constructor; [vm_compute; intuition discriminate|]). constructor.
    - vm_compute. left. reflexivity.
    - vm_compute. left. reflexivity.
    - vm_compute. reflexivity. }
  split; [exact H|]. destruct H as (Hn & Hin & Hh & Hs).
  exact (exact_keeper_stays_in_phase_A MoverSamples.World
           MoverSamples.getFileHash MoverSamples.existsSync MoverSamples.moveFile
           MoverSamples.tempDir tt MoverSamples.infos _ _ _ _ _ _ Hn Hin Hh Hs).
Defined.

End MoverFacts.

(** ** Live versions *)

Module LiveFacts.
Import Checker.

Lemma startsWith_nth (p s : jsstring) i c :
  startsWith p s = true -> nth_error p i = Some c -> nth_error s i = Some c.
Proof.
  revert s i. induction p as [|a p IH]; intros s i Hs Hp.
  - destruct i; discriminate.
  - destruct s as [|b s]; simpl in Hs; [discriminate|].
    apply andb_true_iff in Hs. destruct Hs as [Hab Hs].
    apply N.eqb_eq in Hab. subst b.
    destruct i as [|i]; simpl in *; [exact Hp | exact (IH s i Hs Hp)].
Qed.

Lemma allIndexOf_starts (p s : jsstring) o pos :
  In pos (allIndexOf p s o) ->
  (o <= pos)%nat /\ startsWith p (skipn (pos - o) s) = true.
Proof.
  revert o. induction s as [|c s IH]; intros o; simpl.
  - rewrite app_nil_r. destruct (startsWith p []) eqn:E; [|contradiction].
    intros [<-|[]]. split; [lia|]. rewrite Nat.sub_diag. exact E.
  - intros H. apply in_app_or in H. destruct H as [H|H].
    + destruct (startsWith p (c :: s)) eqn:E; [|contradiction].
      destruct H as [<-|[]]. split; [lia|]. rewrite Nat.sub_diag. exact E.
    + destruct (IH (S o) H) as [Hle Hs]. split; [lia|].
      replace (pos - o)%nat with (S (pos - S o)) by lia. exact Hs.
Qed.

Lemma indexOf_allIndexOf (p s : jsstring) o i :
  indexOf p s = Some i -> In (o + i)%nat (allIndexOf p s o).
Proof.
  revert o i. induction s as [|c s IH]; intros o i; simpl.
  - destruct (startsWith p []); [|discriminate].
    intros H. inversion H. left. lia.
  - destruct (startsWith p (c :: s)) eqn:E.
    + intros H. inversion H. left. lia.
    + destruct (indexOf p s) as [j|] eqn:Ej; [|discriminate].
      simpl. intros H. inversion H. subst i. simpl.
      replace (o + S j)%nat with (S o + j)%nat by lia. apply IH. reflexivity.
Qed.

Lemma includes_allIndexOf (p s : jsstring) :
  includes p s = true -> exists pos, In pos (allIndexOf p s O).
Proof.
  unfold includes. destruct (indexOf p s) as [i|] eqn:E; [|discriminate].
  intros _. exists i. exact (indexOf_allIndexOf p s O i E).
Qed.

Lemma cnKeywords_units kw :
  In kw cnKeywords ->
  (2 <= List.length kw <= 3)%nat
  /\ exists c, nth_error kw 1 = Some c /\ 0x80 <= c.
Proof.
  unfold cnKeywords.
  intros [<-|[<-|[<-|[<-|[]]]]]; (split; [simpl; lia|]);
    eexists; (split; [reflexivity|]); apply N.leb_le; reflexivity.
Qed.

Lemma exclusions_ascii ex c :
  In ex exclusions -> In c ex -> c < 0x80.
Proof.
  intros Hex Hc.
  assert (H : forallb (fun e => forallb (fun x => x <? 0x80) e) exclusions = true)
    by (vm_compute; reflexivity).
  rewrite forallb_forall in H. specialize (H ex Hex).
  rewrite forallb_forall in H. apply N.ltb_lt. exact (H c Hc).
Qed.

(** A place where a Chinese keyword stands is never blocked: the
    phrases of the white list are written in ASCII. *)
Lemma chinese_keyword_not_blocked (s kw : jsstring) pos :
  In kw cnKeywords -> In pos (allIndexOf kw s O) ->
  isBlocked (blockedRanges s) pos (pos + List.length kw) = false.
Proof.
  intros Hkw Hpos.
  destruct (isBlocked (blockedRanges s) pos (pos + List.length kw)) eqn:E;
    [|reflexivity].
  exfalso. unfold isBlocked in E. apply existsb_exists in E.
  destruct E as ([rs re] & Hr & Hc). simpl in Hc.
  apply andb_true_iff in Hc. destruct Hc as [H1 H2].
  apply Nat.leb_le in H1. apply Nat.ltb_lt in H2.
  unfold blockedRanges in Hr. apply in_flat_map in Hr.
  destruct Hr as (ex & Hex & Hr). apply in_map_iff in Hr.
  destruct Hr as (p & Ep & Hp). inversion Ep. subst rs re. clear Ep.
  destruct (cnKeywords_units kw Hkw) as (Hlen & c1 & Hc1 & Hhigh).
  destruct (allIndexOf_starts _ _ _ _ Hpos) as [_ Sk].
  destruct (allIndexOf_starts _ _ _ _ Hp) as [_ Se].
  rewrite Nat.sub_0_r in Sk, Se.
  pose proof (startsWith_nth _ _ _ _ Sk Hc1) as N1.
  rewrite nth_error_skipn in N1.
  assert (Hi : (pos + 1 - p < List.length ex)%nat) by lia.
  destruct (nth_error ex (pos + 1 - p)) as [c2|] eqn:Ec2;
    [|apply nth_error_None in Ec2; lia].
  pose proof (startsWith_nth _ _ _ _ Se Ec2) as N2.
  rewrite nth_error_skipn in N2.
  replace (p + (pos + 1 - p))%nat with (pos + 1)%nat in N2 by lia.
  rewrite N1 in N2. inversion N2. subst c2.
  pose proof (exclusions_ascii ex c1 Hex (nth_error_In _ _ Ec2)). lia.
Qed.

(** A file whose name holds one of the four Chinese keywords is a live
    version, whatever else the name holds: no phrase of the white list
    can block the keyword. *)
Theorem chinese_keyword_marks_live (filename kw : jsstring) :
  In kw cnKeywords ->
  includes kw (toLowerCase filename) = true ->
  isLiveVersion filename = true.
Proof.
  intros Hkw Hinc. unfold isLiveVersion.
  destruct (includes_allIndexOf _ _ Hinc) as [pos Hpos].
  assert (E : existsb
                (fun kw0 =>
                   existsb
                     (fun pos0 =>
                        negb (isBlocked (blockedRanges (toLowerCase filename))
                                pos0 (pos0 + List.length kw0)))
                     (allIndexOf kw0 (toLowerCase filename) O))
                cnKeywords = true).
  { apply existsb_exists. exists kw. split; [exact Hkw|].
    apply existsb_exists. exists pos. split; [exact Hpos|].
    rewrite (chinese_keyword_not_blocked _ _ _ Hkw Hpos). reflexivity. }
  rewrite E. reflexivity.
Qed.

Lemma chinese_keyword_marks_live_witness :
  (In (js "演唱会") cnKeywords
   /\ includes (js "演唱会") (toLowerCase (js "Long Live 演唱会.mp3")) = true)
  /\ isLiveVersion (js "Long Live 演唱会.mp3") = true.
Proof.
  assert (H : In (js "演唱会") cnKeywords
              /\ includes (js "演唱会") (toLowerCase (js "Long Live 演唱会.mp3")) = true).
  { split; [vm_compute; tauto | vm_compute; reflexivity]. }
  split; [exact H|]. destruct H as [Hkw Hinc].
  exact (chinese_keyword_marks_live (js "Long Live 演唱会.mp3") (js "演唱会") Hkw Hinc).
Defined.

End LiveFacts.

(** ** The lyrics in the ID3 chunk *)

Module EmbedFacts.
Import EmbedLyrics Wave.
Local Open Scope Z_scope.

Lemma len_app (a b : buffer) : len (a ++ b) = len a + len b.
Proof. unfold len. rewrite length_app. lia. Qed.

Lemma len_nonneg (a : buffer) : 0 <= len a.
Proof. unfold len. lia. Qed.

Lemma len_cons x (a : buffer) : len (x :: a) = 1 + len a.
Proof. unfold len. simpl List.length. lia. Qed.

Lemma len_nil : len [] = 0.
Proof. reflexivity. Qed.

Lemma beq_eq (a b : buffer) : beq a b = true <-> a = b.
Proof. unfold beq. destruct (list_eq_dec Z.eq_dec a b); split; congruence. Qed.

Lemma beq_refl (a : buffer) : beq a a = true.
Proof. apply beq_eq. reflexivity. Qed.

Lemma clamp_in (buf : buffer) i : 0 <= i <= len buf -> clamp buf i = i.
Proof. unfold clamp. lia. Qed.

Lemma clamp_over (buf : buffer) i : len buf <= i -> clamp buf i = len buf.
Proof. unfold clamp. pose proof (len_nonneg buf). lia. Qed.

Lemma to_nat_len (a : buffer) : Z.to_nat (len a) = List.length a.
Proof. unfold len. apply Nat2Z.id. Qed.

(** The bytes [x] that stand at the offset [len pre]. *)
Lemma slice_cursor (pre x post : buffer) :
  slice (pre ++ x ++ post) (len pre) (len pre + len x) = x.
Proof.
  unfold slice. cbv zeta.
  pose proof (len_nonneg pre); pose proof (len_nonneg x); pose proof (len_nonneg post).
  rewrite (clamp_in _ (len pre)) by (rewrite !len_app; lia).
  rewrite (clamp_in _ (len pre + len x)) by (rewrite !len_app; lia).
  rewrite to_nat_len.
  replace (len pre + len x - len pre) with (len x) by lia.
  rewrite to_nat_len.
  rewrite skipn_app, skipn_all, Nat.sub_diag. simpl.
  rewrite firstn_app, firstn_all, Nat.sub_diag. simpl. apply app_nil_r.
Qed.

Lemma slice_cursor_end (pre x : buffer) e :
  len pre + len x <= e -> slice (pre ++ x) (len pre) e = x.
Proof.
  intros He. unfold slice. cbv zeta.
  pose proof (len_nonneg pre); pose proof (len_nonneg x).
  rewrite (clamp_in _ (len pre)) by (rewrite !len_app; lia).
  rewrite (clamp_over _ e) by (rewrite len_app; lia).
  rewrite len_app.
  replace (len pre + len x - len pre) with (len x) by lia.
  rewrite !to_nat_len.
  rewrite skipn_app, skipn_all, Nat.sub_diag. simpl.
  apply firstn_all.
Qed.

Lemma slice_head (x post : buffer) : slice (x ++ post) 0 (len x) = x.
Proof. exact (slice_cursor [] x post). Qed.

Lemma byteAt_cursor (pre x post : buffer) i :
  0 <= i < len x ->
  byteAt (pre ++ x ++ post) (len pre + i) = nth (Z.to_nat i) x 0.
Proof.
  intros Hi. unfold byteAt.
  pose proof (len_nonneg pre). pose proof (len_nonneg post).
  assert (E : (0 <=? len pre + i) && (len pre + i <? len (pre ++ x ++ post)) = true).
  { rewrite !len_app. apply andb_true_iff. split; [apply Z.leb_le | apply Z.ltb_lt]; lia. }
  rewrite E.
  replace (Z.to_nat (len pre + i)) with (List.length pre + Z.to_nat i)%nat
    by (unfold len; lia).
  rewrite app_nth2_plus. apply app_nth1. unfold len in Hi. lia.
Qed.

Lemma uint32LE_value v :
  0 <= v < 2 ^ 32 ->
  v mod 256 + (v / 2 ^ 8) mod 256 * 2 ^ 8 + (v / 2 ^ 16) mod 256 * 2 ^ 16
  + (v / 2 ^ 24) mod 256 * 2 ^ 24 = v.
Proof.
  intros Hv.
  pose proof (Z.div_mod v 256 ltac:(lia)) as E0.
  pose proof (Z.div_mod (v / 256) 256 ltac:(lia)) as E1.
  pose proof (Z.div_mod (v / 256 / 256) 256 ltac:(lia)) as E2.
  assert (D1 : v / 2 ^ 8 = v / 256) by reflexivity.
  assert (D2 : v / 2 ^ 16 = v / 256 / 256).
  { rewrite Z.div_div by lia. reflexivity. }
  assert (D3 : v / 2 ^ 24 = v / 256 / 256 / 256).
  { rewrite !Z.div_div by lia. reflexivity. }
  rewrite D1, D2, D3.
  assert (Hs : 0 <= v / 256 / 256 / 256 < 256).
  { rewrite !Z.div_div by lia. split.
    - apply Z.div_pos; lia.
    - apply Z.div_lt_upper_bound; lia. }
  rewrite (Z.mod_small (v / 256 / 256 / 256) 256 Hs). lia.
Qed.

Lemma readUInt32LE_cursor (pre post : buffer) v :
  0 <= v < 2 ^ 32 ->
  readUInt32LE (pre ++ uint32LE v ++ post) (len pre) = Some v.
Proof.
  intros Hv. unfold readUInt32LE.
  pose proof (len_nonneg pre). pose proof (len_nonneg post).
  assert (E : (0 <=? len pre) && (len pre + 4 <=? len (pre ++ uint32LE v ++ post)) = true).
  { rewrite !len_app. change (len (uint32LE v)) with 4.
    apply andb_true_iff. split; apply Z.leb_le; lia. }
  rewrite E. f_equal.
  rewrite <- (Z.add_0_r (len pre)) at 1.
  rewrite !byteAt_cursor by (change (len (uint32LE v)) with 4; lia).
  simpl nth. apply uint32LE_value. exact Hv.
Qed.


Lemma piece_bit n k i :
  0 <= k -> 0 <= i ->
  Z.testbit (Z.shiftl (Z.land (Z.shiftr n k) 0x7F) k) i
  = (k <=? i) && (i <? k + 7) && Z.testbit n i.
Proof.
  intros Hk Hi. rewrite Z.shiftl_spec by exact Hi.
  destruct (Z.leb_spec k i) as [Hle|Hlt].
  - rewrite Z.land_spec, Z.shiftr_spec by lia.
    replace (i - k + k) with i by lia.
    change 0x7F with (Z.ones 7). rewrite Z.testbit_ones by lia.
    destruct (Z.ltb_spec i (k + 7)); destruct (Z.ltb_spec (i - k) 7); try lia;
      destruct (Z.leb_spec 0 (i - k)); try lia; simpl;
      rewrite ?andb_true_r, ?andb_false_r; reflexivity.
  - rewrite Z.testbit_neg_r by lia. reflexivity.
Qed.

Lemma syncsafe_value n :
  0 <= n ->
  Z.lor (Z.lor (Z.lor (Z.shiftl (Z.land (Z.shiftr n 21) 0x7F) 21)
                      (Z.shiftl (Z.land (Z.shiftr n 14) 0x7F) 14))
               (Z.shiftl (Z.land (Z.shiftr n 7) 0x7F) 7))
        (Z.land n 0x7F)
  = n mod 2 ^ 28.
Proof.
  intros Hn. apply Z.bits_inj'. intros i Hi.
  rewrite !Z.lor_spec.
  rewrite !piece_bit by lia.
  replace (Z.land n 0x7F) with (Z.shiftl (Z.land (Z.shiftr n 0) 0x7F) 0)
    by (rewrite Z.shiftl_0_r, Z.shiftr_0_r; reflexivity).
  rewrite piece_bit by lia.
  destruct (Z.ltb_spec i 28) as [Hlt|Hge].
  - rewrite Z.mod_pow2_bits_low by lia.
    destruct (Z.testbit n i); rewrite ?andb_false_r; [|reflexivity].
    rewrite !andb_true_r.
    destruct (Z.leb_spec 21 i); destruct (Z.ltb_spec i (21 + 7));
      destruct (Z.leb_spec 14 i); destruct (Z.ltb_spec i (14 + 7));
      destruct (Z.leb_spec 7 i); destruct (Z.ltb_spec i (7 + 7));
      destruct (Z.leb_spec 0 i); destruct (Z.ltb_spec i (0 + 7));
      try lia; reflexivity.
  - rewrite Z.mod_pow2_bits_high by lia.
    destruct (Z.ltb_spec i (21 + 7)); destruct (Z.ltb_spec i (14 + 7));
      destruct (Z.ltb_spec i (7 + 7)); destruct (Z.ltb_spec i (0 + 7));
      try lia; rewrite ?andb_false_r; reflexivity.
Qed.

Lemma readSyncsafe_cursor (pre post : buffer) n :
  0 <= n ->
  readSyncsafe (pre ++ syncsafe n ++ post) (len pre) = n mod 2 ^ 28.
Proof.
  intros Hn. unfold readSyncsafe.
  rewrite <- (Z.add_0_r (len pre)) at 1.
  rewrite !byteAt_cursor by (change (len (syncsafe n)) with 4; lia).
  simpl nth. apply syncsafe_value. exact Hn.
Qed.


Lemma mask_small x : 0 <= x < 128 -> Z.land x 0x7F = x.
Proof.
  intros Hx. change 0x7F with (Z.ones 7). rewrite Z.land_ones by lia.
  apply Z.mod_small. simpl. lia.
Qed.

Lemma mask_all (p : Z -> bool) (x : buffer) :
  (forall b, p b = true -> 0 <= b < 128) ->
  forallb p x = true -> map (fun b => Z.land b 0x7F) x = x.
Proof.
  intros Hp. induction x as [|b x IH]; simpl; intros H; [reflexivity|].
  apply andb_true_iff in H. destruct H as [Hb Hx].
  rewrite (mask_small b (Hp b Hb)), (IH Hx). reflexivity.
Qed.

Lemma printable_small b : printable b = true -> 0 <= b < 128.
Proof. unfold printable. intros H. apply andb_true_iff in H. lia. Qed.

Lemma frameUnit_small b :
  ((0x41 <=? b) && (b <=? 0x5A)) || ((0x30 <=? b) && (b <=? 0x39)) = true ->
  0 <= b < 128.
Proof. intros H. apply orb_true_iff in H. rewrite !andb_true_iff in H. lia. Qed.

(** The name [x], of characters below 128, read at the offset [len pre]. *)
Lemma toAscii_cursor (p : Z -> bool) (pre x post : buffer) :
  (forall b, p b = true -> 0 <= b < 128) -> forallb p x = true ->
  toAscii (pre ++ x ++ post) (len pre) (len pre + len x) = x.
Proof.
  intros Hp Hx. unfold toAscii. rewrite slice_cursor. exact (mask_all p x Hp Hx).
Qed.

Lemma len_uint32LE v : len (uint32LE v) = 4.
Proof. reflexivity. Qed.

Lemma len_syncsafe v : len (syncsafe v) = 4.
Proof. reflexivity. Qed.

Lemma len_pad (data : buffer) : len (pad data) = if Z.odd (len data) then 1 else 0.
Proof. unfold pad. destruct (Z.odd (len data)); reflexivity. Qed.

Lemma len_chunkBytes c :
  len (chunkBytes c)
  = len (c_id c) + 4 + len (c_data c) + (if Z.odd (len (c_data c)) then 1 else 0).
Proof. unfold chunkBytes. rewrite !len_app, len_uint32LE, len_pad. lia. Qed.

Lemma chunkOk_spec c :
  chunkOk c = true ->
  len (c_id c) = 4 /\ forallb printable (c_id c) = true
  /\ c_id c <> ascii "ID3 "
  /\ 0 < len (c_data c) < 2 ^ 32.
Proof.
  unfold chunkOk. rewrite !andb_true_iff. intros ((((H1 & H2) & H3) & H4) & H5).
  apply Nat.eqb_eq in H1. apply negb_true_iff in H3.
  apply Z.ltb_lt in H4, H5.
  repeat split; try assumption; try lia.
  - unfold len. rewrite H1. reflexivity.
  - intros E. rewrite E, beq_refl in H3. discriminate.
Qed.

Lemma nextChunk_spec offset size :
  0 <= size ->
  nextChunk offset size = offset + 8 + size + (if Z.odd size then 1 else 0).
Proof.
  intros Hs. unfold nextChunk. rewrite (Zmod_odd size).
  destruct (Z.odd size); simpl; lia.
Qed.

(** What a loop reads of the chunk [c] that stands at [len pre]. *)
Lemma chunk_at (buf pre post : buffer) c :
  buf = pre ++ chunkBytes c ++ post -> chunkOk c = true ->
  (len pre <? len buf - 8) = true
  /\ toAscii buf (len pre) (len pre + 4) = c_id c
  /\ readUInt32LE buf (len pre + 4) = Some (len (c_data c))
  /\ isValidChunk (c_id c) = true
  /\ (len buf - len pre <? len (c_data c)) = false
  /\ nextChunk (len pre) (len (c_data c)) = len pre + len (chunkBytes c)
  /\ slice buf (len pre)
        (Z.min (let chunkEnd := len pre + 8 + len (c_data c) in
                if negb (len (c_data c) mod 2 =? 0) then chunkEnd + 1 else chunkEnd)
               (len buf))
     = chunkBytes c.
Proof.
  intros E Hc. destruct (chunkOk_spec c Hc) as (Hid & Hp & Hn & Hd).
  pose proof (len_nonneg pre). pose proof (len_nonneg post).
  assert (Hl : len buf = len pre + len (chunkBytes c) + len post).
  { rewrite E, !len_app. lia. }
  pose proof (len_chunkBytes c) as Hcb.
  assert (Hodd : 0 <= (if Z.odd (len (c_data c)) then 1 else 0) <= 1)
    by (destruct (Z.odd _); lia).
  split; [apply Z.ltb_lt; lia|].
  split.
  { rewrite E. unfold chunkBytes. rewrite <- !app_assoc.
    rewrite <- Hid. apply (toAscii_cursor printable); [exact printable_small | exact Hp]. }
  split.
  { rewrite E. unfold chunkBytes. rewrite <- !app_assoc.
    rewrite <- Hid, <- len_app. rewrite app_assoc.
    apply readUInt32LE_cursor. lia. }
  split.
  { unfold isValidChunk. apply andb_true_iff. split.
    - apply Nat.eqb_eq. unfold len in Hid. lia.
    - exact Hp. }
  split; [apply Z.ltb_ge; lia|].
  split; [rewrite nextChunk_spec by lia; lia|].
  cbv zeta.
  replace (if negb (len (c_data c) mod 2 =? 0)
           then len pre + 8 + len (c_data c) + 1
           else len pre + 8 + len (c_data c))
    with (len pre + len (chunkBytes c)).
  - rewrite Z.min_l by lia. rewrite E. apply slice_cursor.
  - rewrite (Zmod_odd (len (c_data c))). destruct (Z.odd (len (c_data c))); simpl; lia.
Qed.


Lemma not_id3 (id : buffer) : id <> ascii "ID3 " -> beq id (ascii "ID3 ") = false.
Proof.
  intros H. destruct (beq id (ascii "ID3 ")) eqn:E; [|reflexivity].
  apply beq_eq in E. contradiction.
Qed.

Lemma keepLoop_step (buf pre post : buffer) c fuel chunks :
  buf = pre ++ chunkBytes c ++ post -> chunkOk c = true ->
  keepLoop (S fuel) buf (len pre) chunks
  = keepLoop fuel buf (len pre + len (chunkBytes c)) (chunks ++ [chunkBytes c]).
Proof.
  intros E Hc.
  destruct (chunk_at buf pre post c E Hc) as (H1 & H2 & H3 & H4 & H5 & H6 & H7).
  destruct (chunkOk_spec c Hc) as (_ & _ & Hn & _).
  cbn [keepLoop]. rewrite H1. cbv zeta. rewrite H2, H3, H4, H5.
  rewrite (not_id3 _ Hn). cbn [negb orb]. rewrite H6.
  cbv zeta in H7. rewrite H7. reflexivity.
Qed.

Lemma len_body_cons c cs : len (body (c :: cs)) = len (chunkBytes c) + len (body cs).
Proof. unfold body. simpl. apply len_app. Qed.

Lemma keepLoop_chunks cs : forall (buf pre post : buffer) fuel chunks,
  buf = pre ++ body cs ++ post -> forallb chunkOk cs = true ->
  keepLoop (List.length cs + fuel) buf (len pre) chunks
  = keepLoop fuel buf (len pre + len (body cs)) (chunks ++ map chunkBytes cs).
Proof.
  induction cs as [|c cs IH]; intros buf pre post fuel chunks E Hcs.
  - simpl. rewrite app_nil_r. unfold body. simpl. rewrite len_nil, Z.add_0_r.
    reflexivity.
  - simpl in Hcs. apply andb_true_iff in Hcs. destruct Hcs as [Hc Hcs].
    simpl List.length. cbn [Nat.add].
    rewrite (keepLoop_step buf pre (body cs ++ post) c).
    + rewrite <- len_app.
      rewrite (IH buf (pre ++ chunkBytes c) post).
      * rewrite len_body_cons, len_app. simpl map.
        rewrite <- app_assoc. simpl. f_equal. lia.
      * rewrite E. unfold body. simpl. rewrite <- !app_assoc. reflexivity.
      * exact Hcs.
    + rewrite E. unfold body. simpl. rewrite <- !app_assoc. reflexivity.
    + exact Hc.
Qed.

Lemma chunksLoop_step (buf pre post : buffer) c fuel :
  buf = pre ++ chunkBytes c ++ post -> chunkOk c = true ->
  chunksLoop (S fuel) buf (len pre)
  = chunksLoop fuel buf (len pre + len (chunkBytes c)).
Proof.
  intros E Hc.
  destruct (chunk_at buf pre post c E Hc) as (H1 & H2 & H3 & H4 & H5 & H6 & H7).
  destruct (chunkOk_spec c Hc) as (_ & _ & Hn & _).
  cbn [chunksLoop]. rewrite H1. cbv zeta. rewrite H2, H3, H4, H5.
  rewrite (not_id3 _ Hn). cbn [negb orb]. rewrite H6. reflexivity.
Qed.

Lemma chunksLoop_chunks cs : forall (buf pre post : buffer) fuel,
  buf = pre ++ body cs ++ post -> forallb chunkOk cs = true ->
  chunksLoop (List.length cs + fuel) buf (len pre)
  = chunksLoop fuel buf (len pre + len (body cs)).
Proof.
  induction cs as [|c cs IH]; intros buf pre post fuel E Hcs.
  - simpl. unfold body. simpl. rewrite len_nil, Z.add_0_r. reflexivity.
  - simpl in Hcs. apply andb_true_iff in Hcs. destruct Hcs as [Hc Hcs].
    simpl List.length. cbn [Nat.add].
    rewrite (chunksLoop_step buf pre (body cs ++ post) c).
    + rewrite <- len_app.
      rewrite (IH buf (pre ++ chunkBytes c) post).
      * rewrite len_body_cons, len_app. f_equal. lia.
      * rewrite E. unfold body. simpl. rewrite <- !app_assoc. reflexivity.
      * exact Hcs.
    + rewrite E. unfold body. simpl. rewrite <- !app_assoc. reflexivity.
    + exact Hc.
Qed.

Lemma lyricsLoop_step (buf pre post : buffer) c fuel :
  buf = pre ++ chunkBytes c ++ post -> chunkOk c = true ->
  lyricsLoop (S fuel) buf (len pre)
  = lyricsLoop fuel buf (len pre + len (chunkBytes c)).
Proof.
  intros E Hc.
  destruct (chunk_at buf pre post c E Hc) as (H1 & H2 & H3 & H4 & H5 & H6 & H7).
  destruct (chunkOk_spec c Hc) as (_ & _ & Hn & _).
  cbn [lyricsLoop]. rewrite H1. cbv zeta. rewrite H2, H3.
  rewrite (not_id3 _ Hn). cbn [andb]. rewrite H6. reflexivity.
Qed.

Lemma lyricsLoop_chunks cs : forall (buf pre post : buffer) fuel,
  buf = pre ++ body cs ++ post -> forallb chunkOk cs = true ->
  lyricsLoop (List.length cs + fuel) buf (len pre)
  = lyricsLoop fuel buf (len pre + len (body cs)).
Proof.
  induction cs as [|c cs IH]; intros buf pre post fuel E Hcs.
  - simpl. unfold body. simpl. rewrite len_nil, Z.add_0_r. reflexivity.
  - simpl in Hcs. apply andb_true_iff in Hcs. destruct Hcs as [Hc Hcs].
    simpl List.length. cbn [Nat.add].
    rewrite (lyricsLoop_step buf pre (body cs ++ post) c).
    + rewrite <- len_app.
      rewrite (IH buf (pre ++ chunkBytes c) post).
      * rewrite len_body_cons, len_app. f_equal. lia.
      * rewrite E. unfold body. simpl. rewrite <- !app_assoc. reflexivity.
      * exact Hcs.
    + rewrite E. unfold body. simpl. rewrite <- !app_assoc. reflexivity.
    + exact Hc.
Qed.

Lemma chunk_length c :
  chunkOk c = true -> (9 <= List.length (chunkBytes c))%nat.
Proof.
  intros Hc. destruct (chunkOk_spec c Hc) as (Hid & _ & _ & Hd).
  pose proof (len_chunkBytes c) as H. unfold len in *.
  destruct (Z.odd _); lia.
Qed.

(** Every chunk has nine bytes at least: the fuel that the length of
    the file gives is more than the number of the chunks. *)
Lemma body_length cs :
  forallb chunkOk cs = true -> (List.length cs <= List.length (body cs))%nat.
Proof.
  induction cs as [|c cs IH]; intros H; [simpl; lia|].
  simpl in H. apply andb_true_iff in H. destruct H as [Hc Hcs].
  unfold body in *. simpl. rewrite length_app.
  pose proof (chunk_length c Hc). specialize (IH Hcs). lia.
Qed.

Lemma keepLoop_end (buf : buffer) offset chunks fuel :
  len buf - 8 <= offset ->
  keepLoop (S fuel) buf offset chunks = Some (Value chunks).
Proof.
  intros H. cbn [keepLoop].
  destruct (Z.ltb_spec offset (len buf - 8)); [lia | reflexivity].
Qed.

Lemma chunksLoop_end (buf : buffer) offset fuel :
  len buf - 8 <= offset -> chunksLoop (S fuel) buf offset = Some (Value []).
Proof.
  intros H. cbn [chunksLoop].
  destruct (Z.ltb_spec offset (len buf - 8)); [lia | reflexivity].
Qed.

Lemma lyricsLoop_end (buf : buffer) offset fuel :
  len buf - 8 <= offset -> lyricsLoop (S fuel) buf offset = Some false.
Proof.
  intros H. cbn [lyricsLoop].
  destruct (Z.ltb_spec offset (len buf - 8)); [lia | reflexivity].
Qed.

(** *** The tag *)

Lemma len_tag frames : len (createID3v24Tag frames) = 10 + len (concat frames).
Proof.
  unfold createID3v24Tag. cbv zeta. rewrite !len_app, len_syncsafe.
  change (len (ascii "ID3")) with 3. change (len [4; 0; 0]) with 3. lia.
Qed.

Lemma toAscii_literal (pre post : buffer) (s : string) n :
  forallb (fun b => (0 <=? b) && (b <? 128)) (ascii s) = true ->
  n = len (ascii s) ->
  toAscii (pre ++ ascii s ++ post) (len pre) (len pre + n) = ascii s.
Proof.
  intros H ->.
  apply (toAscii_cursor (fun b => (0 <=? b) && (b <? 128))); [|exact H].
  intros b Hb. apply andb_true_iff in Hb. lia.
Qed.

(** What a loop reads of the chunk of the tag, the last of the file. *)
Lemma id3_at (buf pre : buffer) frames :
  buf = pre ++ id3Chunk frames ->
  len (createID3v24Tag frames) < 2 ^ 32 ->
  (len pre <? len buf - 8) = true
  /\ toAscii buf (len pre) (len pre + 4) = ascii "ID3 "
  /\ readUInt32LE buf (len pre + 4) = Some (len (createID3v24Tag frames))
  /\ (len buf - len pre <? len (createID3v24Tag frames)) = false
  /\ toAscii buf (len pre + 8) (len pre + 8 + 3) = ascii "ID3"
  /\ slice buf (len pre + 8) (len pre + 8 + len (createID3v24Tag frames))
     = createID3v24Tag frames
  /\ readSyncsafe buf (len pre + 8 + 6) = len (concat frames) mod 2 ^ 28
  /\ len buf - 8 <= nextChunk (len pre) (len (createID3v24Tag frames))
  /\ len buf = len pre + 8 + len (createID3v24Tag frames).
Proof.
  intros E Hlt.
  pose proof (len_nonneg pre). pose proof (len_nonneg (concat frames)).
  pose proof (len_tag frames) as Ht.
  assert (Hl : len buf = len pre + 8 + len (createID3v24Tag frames)).
  { rewrite E. unfold id3Chunk. rewrite !len_app, len_uint32LE.
    change (len (ascii "ID3 ")) with 4. lia. }
  split; [apply Z.ltb_lt; lia|].
  split.
  { rewrite E. unfold id3Chunk. apply toAscii_literal; reflexivity. }
  split.
  { rewrite E. unfold id3Chunk.
    replace (len pre + 4) with (len (pre ++ ascii "ID3 "))
      by (rewrite len_app; reflexivity).
    rewrite (app_assoc pre). rewrite <- (app_nil_r (createID3v24Tag frames)) at 2.
    rewrite readUInt32LE_cursor by lia. reflexivity. }
  split; [apply Z.ltb_ge; lia|].
  remember (pre ++ ascii "ID3 " ++ uint32LE (len (createID3v24Tag frames))) as P
    eqn:EP.
  assert (E8 : buf = P ++ createID3v24Tag frames).
  { rewrite E, EP. unfold id3Chunk. rewrite <- !app_assoc. reflexivity. }
  assert (L8 : len P = len pre + 8).
  { rewrite EP, !len_app, len_uint32LE. change (len (ascii "ID3 ")) with 4. lia. }
  split.
  { rewrite E8, <- L8. unfold createID3v24Tag. cbv zeta.
    rewrite <- !app_assoc. apply toAscii_literal; reflexivity. }
  split.
  { rewrite E8, <- L8. apply slice_cursor_end. lia. }
  split.
  { rewrite E8. unfold createID3v24Tag. cbv zeta.
    remember (P ++ ascii "ID3" ++ [4; 0; 0]) as Q eqn:EQ.
    assert (LQ : len Q = len pre + 8 + 6).
    { rewrite EQ, !len_app, L8. reflexivity. }
    rewrite <- LQ.
    replace (P ++ (ascii "ID3" ++ [4; 0; 0] ++ syncsafe (len (concat frames)))
               ++ concat frames)
      with (Q ++ syncsafe (len (concat frames)) ++ concat frames)
      by (rewrite EQ, <- !app_assoc; reflexivity).
    apply readSyncsafe_cursor. lia. }
  split; [|exact Hl].
  rewrite nextChunk_spec by lia. destruct (Z.odd _); lia.
Qed.


(** *** The frames *)

Lemma frameOk_spec fr :
  frameOk fr = true ->
  len (f_id fr) = 4
  /\ forallb (fun c => ((0x41 <=? c) && (c <=? 0x5A))
                        || ((0x30 <=? c) && (c <=? 0x39))) (f_id fr) = true
  /\ isFrameId (f_id fr) = true
  /\ len (f_flags fr) = 2 /\ 0 < len (f_data fr).
Proof.
  unfold frameOk. rewrite !andb_true_iff. intros ((H1 & H2) & H3).
  pose proof H1 as H1'. unfold isFrameId in H1'.
  apply andb_true_iff in H1'. destruct H1' as [Hl Hu].
  apply Nat.eqb_eq in Hl, H2. apply Z.ltb_lt in H3.
  unfold len. rewrite Hl, H2. auto.
Qed.

Lemma len_frameBytes fr :
  len (frameBytes fr) = len (f_id fr) + 4 + len (f_flags fr) + len (f_data fr).
Proof. unfold frameBytes. rewrite !len_app, len_syncsafe. lia. Qed.

Lemma frame_at (buf pre post : buffer) fr :
  buf = pre ++ frameBytes fr ++ post -> frameOk fr = true ->
  len (f_data fr) < 2 ^ 28 ->
  toAscii buf (len pre) (len pre + 4) = f_id fr
  /\ readSyncsafe buf (len pre + 4) = len (f_data fr)
  /\ slice buf (len pre) (len pre + 10 + len (f_data fr)) = frameBytes fr
  /\ len (frameBytes fr) = 10 + len (f_data fr).
Proof.
  intros E Hf Hlt. destruct (frameOk_spec fr Hf) as (Hid & Hu & _ & Hfl & Hd).
  pose proof (len_frameBytes fr) as Hl.
  split.
  { rewrite E. unfold frameBytes. rewrite <- !app_assoc. rewrite <- Hid.
    apply (toAscii_cursor _ _ _ _ frameUnit_small Hu). }
  split.
  { rewrite E. unfold frameBytes. rewrite <- !app_assoc.
    rewrite <- Hid, <- len_app. rewrite app_assoc.
    rewrite readSyncsafe_cursor by lia. apply Z.mod_small. lia. }
  split; [|lia].
  replace (len pre + 10 + len (f_data fr)) with (len pre + len (frameBytes fr)) by lia.
  rewrite E. apply slice_cursor.
Qed.

Lemma framesLoop_step (buf pre post : buffer) fr fuel acc id3Start id3Size :
  buf = pre ++ frameBytes fr ++ post -> frameOk fr = true ->
  id3Size < 2 ^ 28 ->
  len pre < id3Start + 10 + id3Size - 10 ->
  len (f_data fr) <= id3Size ->
  framesLoop (S fuel) buf id3Start id3Size (len pre) acc
  = framesLoop fuel buf id3Start id3Size (len pre + len (frameBytes fr))
      (acc ++ (if isLyrics fr then [] else [frameBytes fr])).
Proof.
  intros E Hf Hs Hin Hle.
  destruct (frame_at buf pre post fr E Hf ltac:(lia)) as (H1 & H2 & H3 & H4).
  destruct (frameOk_spec fr Hf) as (_ & _ & Hid & _ & Hd).
  cbn [framesLoop].
  destruct (Z.ltb_spec (len pre) (id3Start + 10 + id3Size - 10)); [|lia].
  cbv zeta. rewrite H1, Hid. cbn [negb]. rewrite H2.
  destruct (Z.leb_spec (len (f_data fr)) 0); [lia|].
  destruct (Z.ltb_spec id3Size (len (f_data fr))); [lia|].
  cbn [orb]. rewrite H3, H4.
  replace (len pre + 10 + len (f_data fr)) with (len pre + (10 + len (f_data fr)))
    by lia.
  unfold isLyrics. destruct (beq (f_id fr) (ascii "USLT")); cbn [negb].
  - rewrite app_nil_r. reflexivity.
  - reflexivity.
Qed.

Lemma framesLoop_frames frs :
  forall (buf pre post : buffer) fuel acc id3Start id3Size,
    buf = pre ++ concat (map frameBytes frs) ++ post ->
    forallb frameOk frs = true ->
    id3Size < 2 ^ 28 ->
    id3Start + 10 <= len pre ->
    len pre + len (concat (map frameBytes frs)) <= id3Start + 10 + id3Size ->
    framesLoop (List.length frs + fuel) buf id3Start id3Size (len pre) acc
    = framesLoop fuel buf id3Start id3Size
        (len pre + len (concat (map frameBytes frs)))
        (acc ++ map frameBytes (filter (fun fr => negb (isLyrics fr)) frs)).
Proof.
  induction frs as [|fr frs IH];
    intros buf pre post fuel acc id3Start id3Size E Hfs Hs Hlo Hhi.
  - simpl. rewrite app_nil_r, len_nil, Z.add_0_r. reflexivity.
  - simpl in Hfs. apply andb_true_iff in Hfs. destruct Hfs as [Hf Hfs].
    simpl map in *. simpl concat in *. rewrite len_app in *.
    destruct (frameOk_spec fr Hf) as (Hid & _ & _ & Hfl & Hd).
    pose proof (len_frameBytes fr) as Hl.
    pose proof (len_nonneg (concat (map frameBytes frs))).
    simpl List.length. cbn [Nat.add].
    rewrite (framesLoop_step buf pre (concat (map frameBytes frs) ++ post) fr);
      try assumption; try lia.
    + rewrite <- len_app.
      rewrite (IH buf (pre ++ frameBytes fr) post); try assumption.
      * rewrite len_app. simpl filter.
        destruct (isLyrics fr); cbn [negb]; simpl map;
          rewrite <- ?app_assoc; simpl; f_equal; lia.
      * rewrite E. rewrite <- !app_assoc. reflexivity.
      * rewrite len_app. lia.
      * rewrite len_app. lia.
    + rewrite E. rewrite <- !app_assoc. reflexivity.
Qed.

Lemma framesLoop_end (buf : buffer) fuel acc id3Start id3Size frameOffset :
  id3Start + 10 + id3Size - 10 <= frameOffset ->
  framesLoop (S fuel) buf id3Start id3Size frameOffset acc = Some acc.
Proof.
  intros H. cbn [framesLoop].
  destruct (Z.ltb_spec frameOffset (id3Start + 10 + id3Size - 10)); [lia|].
  reflexivity.
Qed.

Lemma frames_length frs :
  forallb frameOk frs = true ->
  (List.length frs <= List.length (concat (map frameBytes frs)))%nat.
Proof.
  induction frs as [|fr frs IH]; intros H; [simpl; lia|].
  simpl in H. apply andb_true_iff in H. destruct H as [Hf Hfs].
  simpl. rewrite length_app. specialize (IH Hfs).
  destruct (frameOk_spec fr Hf) as (Hid & _ & _ & Hfl & Hd).
  pose proof (len_frameBytes fr) as Hl. unfold len in *. lia.
Qed.


(** *** The header *)

Lemma len4 (sf : buffer) : List.length sf = 4%nat -> len sf = 4.
Proof. unfold len. intros ->. reflexivity. Qed.

Lemma len_wave sf rest : List.length sf = 4%nat -> len (wave sf rest) = 12 + len rest.
Proof.
  intros H. unfold wave. rewrite !len_app, (len4 sf H).
  change (len (ascii "RIFF")) with 4. change (len (ascii "WAVE")) with 4. lia.
Qed.

Lemma wave_header sf rest :
  List.length sf = 4%nat ->
  toAscii (wave sf rest) 0 4 = ascii "RIFF"
  /\ toAscii (wave sf rest) 0 3 = ascii "RIF"
  /\ toAscii (wave sf rest) 8 12 = ascii "WAVE"
  /\ slice (wave sf rest) 0 12 = ascii "RIFF" ++ sf ++ ascii "WAVE".
Proof.
  intros H. pose proof (len4 sf H) as H4. unfold wave.
  split; [exact (toAscii_literal [] _ "RIFF" 4 eq_refl eq_refl)|].
  split.
  { change (ascii "RIFF" ++ sf ++ ascii "WAVE" ++ rest)
      with ([] ++ ascii "RIF" ++ ([70] ++ sf ++ ascii "WAVE" ++ rest)).
    exact (toAscii_literal [] _ "RIF" 3 eq_refl eq_refl). }
  split.
  { replace 8 with (len (ascii "RIFF" ++ sf))
      by (rewrite len_app, H4; reflexivity).
    replace 12 with (len (ascii "RIFF" ++ sf) + 4)
      by (rewrite len_app, H4; reflexivity).
    rewrite (app_assoc (ascii "RIFF")).
    apply toAscii_literal; reflexivity. }
  replace (ascii "RIFF" ++ sf ++ ascii "WAVE" ++ rest)
    with ((ascii "RIFF" ++ sf ++ ascii "WAVE") ++ rest)
    by (rewrite <- !app_assoc; reflexivity).
  replace 12 with (len (ascii "RIFF" ++ sf ++ ascii "WAVE"))
    by (rewrite !len_app, H4; reflexivity).
  apply slice_head.
Qed.

Lemma write_size sf rest v :
  List.length sf = 4%nat -> 0 <= v < 2 ^ 32 ->
  writeUInt32LE (wave sf rest) v 4 = Some (wave (uint32LE v) rest).
Proof.
  intros H Hv. unfold writeUInt32LE.
  pose proof (len_wave sf rest H) as Hl. pose proof (len_nonneg rest).
  assert (E : (0 <=? v) && (v <? 2 ^ 32) && (0 <=? 4)
              && (4 + 4 <=? len (wave sf rest)) = true).
  { rewrite !andb_true_iff. repeat split;
      try (apply Z.leb_le; lia); apply Z.ltb_lt; lia. }
  rewrite E. f_equal. unfold wave.
  destruct sf as [|a [|b [|c [|d [|e sf]]]]]; try discriminate.
  reflexivity.
Qed.

Lemma write_chunk_size v :
  0 <= v < 2 ^ 32 -> writeUInt32LE [0; 0; 0; 0] v 0 = Some (uint32LE v).
Proof.
  intros Hv. unfold writeUInt32LE.
  assert (E : (0 <=? v) && (v <? 2 ^ 32) && (0 <=? 0)
              && (0 + 4 <=? len [0; 0; 0; 0]) = true).
  { rewrite !andb_true_iff. repeat split;
      try (apply Z.leb_le; lia); try reflexivity; apply Z.ltb_lt; lia. }
  rewrite E. simpl. reflexivity.
Qed.

Lemma riff_not_id3 sf rest :
  List.length sf = 4%nat -> beq (toAscii (wave sf rest) 0 3) (ascii "ID3") = false.
Proof.
  intros H. destruct (wave_header sf rest H) as (_ & -> & _). reflexivity.
Qed.

Lemma fuel_split (buf : buffer) n :
  (n + 1 <= List.length buf)%nat ->
  exists k, S (List.length buf) = (n + S (S k))%nat.
Proof. intros H. exists (List.length buf - n - 1)%nat. lia. Qed.

Lemma tag_fits_word (frs : list frame) :
  len (concat (map frameBytes frs)) < 2 ^ 28 ->
  len (createID3v24Tag (map frameBytes frs)) < 2 ^ 32.
Proof. intros H. rewrite len_tag. lia. Qed.

(** *** The functions on a file of chunks *)

Section File.
Variable sf : buffer.
Variable cs : list chunk.
Hypothesis sf_length : List.length sf = 4%nat.
Hypothesis cs_ok : forallb chunkOk cs = true.

Let header : buffer := ascii "RIFF" ++ sf ++ ascii "WAVE".

Lemma header_length : len header = 12.
Proof.
  unfold header. rewrite !len_app, (len4 sf sf_length). reflexivity.
Qed.

Lemma wave_split tail : wave sf (body cs ++ tail) = header ++ body cs ++ tail.
Proof. unfold wave, header. rewrite <- !app_assoc. reflexivity. Qed.

Lemma chunks_fuel tail :
  exists k,
    S (List.length (wave sf (body cs ++ tail))) = (List.length cs + S (S k))%nat.
Proof.
  apply fuel_split. rewrite wave_split, !length_app.
  pose proof (body_length cs cs_ok). unfold header.
  rewrite !length_app. simpl List.length. lia.
Qed.

Lemma extract_plain : extractExistingFrames (wave sf (body cs)) = Value [].
Proof.
  unfold extractExistingFrames.
  destruct (wave_header sf (body cs) sf_length) as (-> & _).
  rewrite beq_refl. cbn [negb].
  rewrite <- (app_nil_r (body cs)) at 1 2.
  destruct (chunks_fuel []) as [k ->].
  rewrite <- header_length.
  rewrite (chunksLoop_chunks cs _ header [] _ (wave_split []) cs_ok).
  rewrite chunksLoop_end; [reflexivity|].
  rewrite wave_split, !len_app, len_nil. lia.
Qed.

Lemma keep_plain :
  keepLoop (S (List.length (wave sf (body cs)))) (wave sf (body cs)) 12 []
  = Some (Value (map chunkBytes cs)).
Proof.
  rewrite <- (app_nil_r (body cs)) at 1 2.
  destruct (chunks_fuel []) as [k ->].
  rewrite <- header_length.
  rewrite (keepLoop_chunks cs _ header [] _ _ (wave_split []) cs_ok).
  rewrite keepLoop_end; [reflexivity|].
  rewrite wave_split, !len_app, len_nil. lia.
Qed.

Lemma concat_chunks : concat (map chunkBytes cs) = body cs.
Proof. unfold body. symmetry. apply flat_map_concat_map. Qed.

Lemma remove_plain :
  len (body cs) + 4 < 2 ^ 32 ->
  removeExistingID3Chunk (wave sf (body cs)) = Value (sized (body cs)).
Proof.
  intros Hlt. unfold removeExistingID3Chunk.
  rewrite (riff_not_id3 sf _ sf_length). cbv zeta.
  destruct (wave_header sf (body cs) sf_length) as (-> & _ & _ & ->).
  rewrite beq_refl. cbn [negb].
  rewrite keep_plain, concat_chunks.
  change (ascii "RIFF" ++ sf ++ ascii "WAVE") with header.
  replace (header ++ body cs) with (wave sf (body cs))
    by (unfold wave, header; rewrite <- !app_assoc; reflexivity).
  rewrite (len_wave sf _ sf_length).
  pose proof (len_nonneg (body cs)).
  rewrite write_size by (try assumption; lia).
  unfold sized. do 3 f_equal. lia.
Qed.

Section Tagged.
Variable frames : list buffer.
Hypothesis tag_fits : len (createID3v24Tag frames) < 2 ^ 32.

Lemma tagged_split :
  wave sf (body cs ++ id3Chunk frames) = (header ++ body cs) ++ id3Chunk frames.
Proof. rewrite wave_split, <- app_assoc. reflexivity. Qed.

Lemma cursor_length : len (header ++ body cs) = 12 + len (body cs).
Proof. rewrite len_app, header_length. reflexivity. Qed.

Lemma keep_tagged :
  keepLoop (S (List.length (wave sf (body cs ++ id3Chunk frames))))
    (wave sf (body cs ++ id3Chunk frames)) 12 []
  = Some (Value (map chunkBytes cs)).
Proof.
  destruct (chunks_fuel (id3Chunk frames)) as [k ->].
  rewrite <- header_length.
  rewrite (keepLoop_chunks cs _ header (id3Chunk frames) _ _
             (wave_split (id3Chunk frames)) cs_ok).
  rewrite <- len_app.
  destruct (id3_at _ (header ++ body cs) frames tagged_split tag_fits)
    as (H1 & H2 & H3 & H4 & _ & _ & _ & H8 & _).
  cbn [keepLoop]. rewrite H1. cbv zeta. rewrite H2, H3, H4.
  change (isValidChunk (ascii "ID3 ")) with true.
  rewrite beq_refl. cbn [negb orb].
  apply keepLoop_end. exact H8.
Qed.

Lemma remove_tagged :
  len (body cs) + 4 < 2 ^ 32 ->
  removeExistingID3Chunk (wave sf (body cs ++ id3Chunk frames))
  = Value (sized (body cs)).
Proof.
  intros Hlt. unfold removeExistingID3Chunk.
  rewrite (riff_not_id3 sf _ sf_length). cbv zeta.
  destruct (wave_header sf (body cs ++ id3Chunk frames) sf_length)
    as (-> & _ & _ & ->).
  rewrite beq_refl. cbn [negb].
  rewrite keep_tagged, concat_chunks.
  change (ascii "RIFF" ++ sf ++ ascii "WAVE") with header.
  replace (header ++ body cs) with (wave sf (body cs))
    by (unfold wave, header; rewrite <- !app_assoc; reflexivity).
  rewrite (len_wave sf _ sf_length).
  pose proof (len_nonneg (body cs)).
  rewrite write_size by (try assumption; lia).
  unfold sized. do 3 f_equal. lia.
Qed.

Lemma lyrics_tagged :
  hasLyrics (wave sf (body cs ++ id3Chunk frames))
  = includesBytes (ascii "USLT") (createID3v24Tag frames).
Proof.
  unfold hasLyrics.
  destruct (wave_header sf (body cs ++ id3Chunk frames) sf_length) as (-> & _).
  rewrite beq_refl. cbn [negb].
  destruct (chunks_fuel (id3Chunk frames)) as [k ->].
  rewrite <- header_length.
  rewrite (lyricsLoop_chunks cs _ header (id3Chunk frames) _
             (wave_split (id3Chunk frames)) cs_ok).
  rewrite <- len_app.
  destruct (id3_at _ (header ++ body cs) frames tagged_split tag_fits)
    as (H1 & H2 & H3 & _ & H5 & H6 & _).
  cbn [lyricsLoop]. rewrite H1. cbv zeta. rewrite H2, H3, H5, H6.
  rewrite !beq_refl. reflexivity.
Qed.

End Tagged.

Lemma lyrics_plain : hasLyrics (wave sf (body cs)) = false.
Proof.
  unfold hasLyrics.
  destruct (wave_header sf (body cs) sf_length) as (-> & _).
  rewrite beq_refl. cbn [negb].
  rewrite <- (app_nil_r (body cs)) at 1 2.
  destruct (chunks_fuel []) as [k ->].
  rewrite <- header_length.
  rewrite (lyricsLoop_chunks cs _ header [] _ (wave_split []) cs_ok).
  rewrite lyricsLoop_end; [reflexivity|].
  rewrite wave_split, !len_app, len_nil. lia.
Qed.

Section Frames.
Variable frs : list frame.
Hypothesis frs_ok : forallb frameOk frs = true.
Hypothesis frs_fit : len (concat (map frameBytes frs)) < 2 ^ 28.

Let frames : list buffer := map frameBytes frs.

Lemma extract_tagged :
  extractExistingFrames (wave sf (body cs ++ id3Chunk frames))
  = Value (map frameBytes (filter (fun fr => negb (isLyrics fr)) frs)).
Proof.
  unfold extractExistingFrames.
  destruct (wave_header sf (body cs ++ id3Chunk frames) sf_length) as (-> & _).
  rewrite beq_refl. cbn [negb].
  destruct (chunks_fuel (id3Chunk frames)) as [k ->].
  rewrite <- header_length.
  rewrite (chunksLoop_chunks cs _ header (id3Chunk frames) _
             (wave_split (id3Chunk frames)) cs_ok).
  rewrite <- len_app.
  set (buf := wave sf (body cs ++ id3Chunk frames)).
  set (pre := header ++ body cs).
  destruct (id3_at buf pre frames (tagged_split frames) (tag_fits_word frs frs_fit))
    as (H1 & H2 & H3 & H4 & H5 & _ & H7 & _ & Hl).
  cbn [chunksLoop]. rewrite H1. cbv zeta. rewrite H2, H3, H4.
  change (isValidChunk (ascii "ID3 ")) with true.
  rewrite !beq_refl. cbn [negb orb]. rewrite H5, beq_refl, H7.
  pose proof (len_nonneg (concat frames)) as Hc.
  rewrite Z.mod_small by (unfold frames in *; lia).
  set (tagHead := ascii "ID3" ++ [4; 0; 0] ++ syncsafe (len (concat frames))).
  set (pre' := pre ++ ascii "ID3 " ++ uint32LE (len (createID3v24Tag frames))
                   ++ tagHead).
  assert (Eb : buf = pre' ++ concat (map frameBytes frs) ++ []).
  { unfold buf, pre'. rewrite (tagged_split frames). fold pre.
    unfold id3Chunk, createID3v24Tag. cbv zeta. fold tagHead.
    unfold frames. rewrite <- !app_assoc, app_nil_r. reflexivity. }
  assert (Lp : len pre' = len pre + 8 + 10).
  { unfold pre'. rewrite !len_app, len_uint32LE. unfold tagHead.
    rewrite !len_app, len_syncsafe.
    change (len (ascii "ID3 ")) with 4. change (len (ascii "ID3")) with 3.
    change (len [4; 0; 0]) with 3. lia. }
  assert (Hfuel : exists j, S (List.length buf) = (List.length frs + S j)%nat).
  { pose proof (frames_length frs frs_ok) as Hf.
    assert (Hle : (List.length frs <= List.length buf)%nat)
      by (rewrite Eb, !length_app; lia).
    exists (List.length buf - List.length frs)%nat. lia. }
  destruct Hfuel as [j ->]. rewrite <- Lp.
  rewrite (framesLoop_frames frs buf pre' [] (S j) [] (len pre + 8)
             (len (concat frames)) Eb frs_ok frs_fit);
    [| lia | unfold frames; lia].
  rewrite framesLoop_end by (unfold frames; lia).
  reflexivity.
Qed.

End Frames.
End File.


Lemma includesBytes_at (small a b : buffer) :
  includesBytes small (a ++ small ++ b) = true.
Proof.
  induction a as [|x a IH].
  - simpl app. destruct (small ++ b) as [|y r] eqn:E.
    + destruct small; [reflexivity | discriminate].
    + cbn [includesBytes]. rewrite <- E.
      rewrite firstn_app, firstn_all, Nat.sub_diag. simpl firstn.
      rewrite app_nil_r, beq_refl. reflexivity.
  - simpl app. cbn [includesBytes]. rewrite IH. apply orb_true_r.
Qed.

Lemma tag_has_lyrics lyrics :
  includesBytes (ascii "USLT") (createID3v24Tag [createUSLTFrame lyrics]) = true.
Proof.
  unfold createID3v24Tag. cbv zeta.
  remember (ascii "ID3" ++ [4; 0; 0] ++ syncsafe (len (concat [createUSLTFrame lyrics])))
    as h eqn:Eh.
  clear Eh. cbn [concat]. rewrite app_nil_r.
  unfold createUSLTFrame. cbv zeta. apply includesBytes_at.
Qed.

Lemma lyrics_frame lyrics : createUSLTFrame lyrics = frameBytes (lyricsFrame lyrics).
Proof. reflexivity. Qed.

Lemma lyrics_frame_ok lyrics : frameOk (lyricsFrame lyrics) = true.
Proof.
  unfold frameOk, lyricsFrame. cbn [f_id f_flags f_data].
  change (isFrameId (ascii "USLT")) with true.
  change (List.length [0; 0] =? 2)%nat with true. cbn [andb].
  apply Z.ltb_lt. rewrite !len_app. pose proof (len_nonneg (utf8 lyrics)).
  change (len [3]) with 1. change (len (ascii "XXX")) with 3.
  change (len [0]) with 1. lia.
Qed.

Lemma len_id3Chunk frames : len (id3Chunk frames) = 18 + len (concat frames).
Proof.
  unfold id3Chunk. rewrite !len_app, len_uint32LE, len_tag.
  change (len (ascii "ID3 ")) with 4. lia.
Qed.

Lemma sized_wave rest : sized rest = wave (uint32LE (len rest + 4)) rest.
Proof. reflexivity. Qed.

(** The end of [embed]: the tag is written after the file without its
    old tag, and the size of the header is set. *)
Lemma embed_tail (wavBuf : buffer) lyrics existing rest :
  extractExistingFrames wavBuf = Value existing ->
  removeExistingID3Chunk wavBuf = Value (sized rest) ->
  len (rest ++ id3Chunk (existing ++ [createUSLTFrame lyrics])) + 4 < 2 ^ 32 ->
  embed wavBuf lyrics
  = Embedded (sized (rest ++ id3Chunk (existing ++ [createUSLTFrame lyrics])))
      (List.length lyrics) (List.length existing).
Proof.
  intros He Hr Hlt. unfold embed. rewrite He, Hr.
  assert (L4 : List.length (uint32LE (len rest + 4)) = 4%nat) by reflexivity.
  destruct (wave_header _ rest L4) as (H1 & _ & H3 & _).
  rewrite sized_wave, H1, H3, !beq_refl. cbn [negb orb]. cbv zeta.
  set (frames := existing ++ [createUSLTFrame lyrics]) in *.
  rewrite len_app, len_id3Chunk in Hlt.
  pose proof (len_nonneg rest). pose proof (len_nonneg (concat frames)).
  rewrite write_chunk_size by (rewrite len_tag; lia).
  replace (wave (uint32LE (len rest + 4)) rest
           ++ ascii "ID3 " ++ uint32LE (len (createID3v24Tag frames))
           ++ createID3v24Tag frames)
    with (wave (uint32LE (len rest + 4)) (rest ++ id3Chunk frames))
    by (unfold wave, id3Chunk; rewrite <- !app_assoc; reflexivity).
  rewrite (len_wave _ _ L4), len_app, len_id3Chunk.
  rewrite write_size by (try assumption; lia).
  unfold sized. rewrite len_app, len_id3Chunk. do 3 f_equal. lia.
Qed.

Lemma embed_plain sf cs lyrics :
  List.length sf = 4%nat -> forallb chunkOk cs = true ->
  len (body cs ++ id3Chunk [createUSLTFrame lyrics]) + 4 < 2 ^ 32 ->
  embed (wave sf (body cs)) lyrics
  = Embedded (sized (body cs ++ id3Chunk [createUSLTFrame lyrics]))
      (List.length lyrics) 0.
Proof.
  intros Hsf Hcs Hlt.
  apply (embed_tail _ lyrics [] (body cs)).
  - exact (extract_plain sf cs Hsf Hcs).
  - apply (remove_plain sf cs Hsf Hcs).
    rewrite len_app, len_id3Chunk in Hlt.
    pose proof (len_nonneg (concat [createUSLTFrame lyrics])). lia.
  - exact Hlt.
Qed.

Lemma embed_tagged sf cs frs lyrics :
  List.length sf = 4%nat -> forallb chunkOk cs = true ->
  forallb frameOk frs = true ->
  len (concat (map frameBytes frs)) < 2 ^ 28 ->
  len (body cs
       ++ id3Chunk (map frameBytes (filter (fun fr => negb (isLyrics fr)) frs)
                    ++ [createUSLTFrame lyrics])) + 4 < 2 ^ 32 ->
  embed (wave sf (body cs ++ id3Chunk (map frameBytes frs))) lyrics
  = Embedded
      (sized (body cs
              ++ id3Chunk (map frameBytes (filter (fun fr => negb (isLyrics fr)) frs)
                           ++ [createUSLTFrame lyrics])))
      (List.length lyrics)
      (List.length (filter (fun fr => negb (isLyrics fr)) frs)).
Proof.
  intros Hsf Hcs Hfrs Hfit Hlt.
  rewrite <- (length_map frameBytes (filter _ frs)).
  apply embed_tail.
  - exact (extract_tagged sf cs Hsf Hcs frs Hfrs Hfit).
  - apply (remove_tagged sf cs Hsf Hcs).
    + exact (tag_fits_word frs Hfit).
    + rewrite len_app, len_id3Chunk in Hlt.
      pose proof (len_nonneg
                    (concat (map frameBytes (filter (fun fr => negb (isLyrics fr)) frs)
                             ++ [createUSLTFrame lyrics]))). lia.
  - exact Hlt.
Qed.


Lemma byteAt_range buf i : bytesOk buf = true -> 0 <= byteAt buf i < 256.
Proof.
  intros H. unfold byteAt.
  destruct ((0 <=? i) && (i <? len buf)) eqn:E; [|lia].
  apply andb_true_iff in E. destruct E as [E1 E2].
  apply Z.leb_le in E1. apply Z.ltb_lt in E2.
  unfold bytesOk in H. rewrite forallb_forall in H.
  assert (Hin : In (nth (Z.to_nat i) buf 0) buf).
  { apply nth_In. unfold len in E2. lia. }
  specialize (H _ Hin). unfold isByte in H.
  apply andb_true_iff in H. destruct H as [H1 H2].
  apply Z.leb_le in H1. apply Z.ltb_lt in H2. lia.
Qed.

Lemma readUInt32LE_nonneg buf off v :
  bytesOk buf = true -> readUInt32LE buf off = Some v -> 0 <= v.
Proof.
  intros H. unfold readUInt32LE.
  destruct ((0 <=? off) && (off + 4 <=? len buf)); [|discriminate].
  intros E. inversion E.
  pose proof (byteAt_range buf off H). pose proof (byteAt_range buf (off + 1) H).
  pose proof (byteAt_range buf (off + 2) H). pose proof (byteAt_range buf (off + 3) H).
  lia.
Qed.

Lemma readUInt32LE_in buf off :
  0 <= off -> off + 4 <= len buf -> exists v, readUInt32LE buf off = Some v.
Proof.
  intros H1 H2. unfold readUInt32LE.
  replace ((0 <=? off) && (off + 4 <=? len buf)) with true; [eauto|].
  symmetry. apply andb_true_iff. split; apply Z.leb_le; lia.
Qed.

Lemma nextChunk_grows offset size : 0 <= size -> offset + 8 <= nextChunk offset size.
Proof. intros H. unfold nextChunk. cbv zeta. destruct (negb _); lia. Qed.

Lemma lyricsLoop_total buf : bytesOk buf = true ->
  forall fuel offset,
    0 <= offset -> (0 < fuel)%nat -> len buf - offset < Z.of_nat fuel ->
    exists found, lyricsLoop fuel buf offset = Some found.
Proof.
  intros Hb. induction fuel as [|fuel IH]; intros offset H0 Hf Hlt; [lia|].
  cbn [lyricsLoop]. destruct (offset <? len buf - 8) eqn:Ec; [|eauto].
  apply Z.ltb_lt in Ec. cbv zeta.
  destruct (readUInt32LE buf (offset + 4)) as [size|] eqn:Er; [|eauto].
  pose proof (readUInt32LE_nonneg _ _ _ Hb Er) as Hs.
  destruct (_ && _); [eauto|].
  pose proof (nextChunk_grows offset size Hs).
  apply IH; lia.
Qed.

Lemma slice_outside buf start end_ : len buf <= start -> slice buf start end_ = [].
Proof.
  intros H. unfold slice. cbv zeta.
  rewrite skipn_all2; [apply firstn_nil|].
  unfold clamp, len in *. lia.
Qed.

Lemma framesLoop_total buf id3Start id3Size :
  forall fuel frameOffset frames,
    0 <= frameOffset -> (0 < fuel)%nat -> len buf - frameOffset < Z.of_nat fuel ->
    exists r, framesLoop fuel buf id3Start id3Size frameOffset frames = Some r.
Proof.
  induction fuel as [|fuel IH]; intros frameOffset frames H0 Hf Hlt; [lia|].
  cbn [framesLoop]. destruct (frameOffset <? _); [|eauto]. cbv zeta.
  destruct (isFrameId (toAscii buf frameOffset (frameOffset + 4))) eqn:Ei;
    cbn [negb]; [|eauto].
  assert (Hin : frameOffset < len buf).
  { destruct (Z_lt_le_dec frameOffset (len buf)) as [L|L]; [exact L|].
    unfold toAscii in Ei. rewrite slice_outside in Ei by exact L. discriminate. }
  destruct ((readSyncsafe buf (frameOffset + 4) <=? 0) || _) eqn:Es; [eauto|].
  apply orb_false_iff in Es. destruct Es as [Es _]. apply Z.leb_gt in Es.
  apply IH; lia.
Qed.

Lemma chunksLoop_total buf : bytesOk buf = true ->
  forall fuel offset,
    0 <= offset -> (0 < fuel)%nat -> len buf - offset < Z.of_nat fuel ->
    exists frames, chunksLoop fuel buf offset = Some (Value frames).
Proof.
  intros Hb. induction fuel as [|fuel IH]; intros offset H0 Hf Hlt; [lia|].
  cbn [chunksLoop]. destruct (offset <? len buf - 8) eqn:Ec; [|eauto].
  apply Z.ltb_lt in Ec. cbv zeta.
  destruct (readUInt32LE_in buf (offset + 4)) as [size Er]; [lia|lia|].
  rewrite Er.
  pose proof (readUInt32LE_nonneg _ _ _ Hb Er) as Hs.
  destruct (_ || _); [eauto|].
  destruct (beq _ (ascii "ID3 ")).
  - destruct (beq _ (ascii "ID3")); [|eauto].
    destruct (framesLoop_total buf (offset + 8) (readSyncsafe buf (offset + 8 + 6))
                (S (List.length buf)) (offset + 8 + 10) []) as [r Hr].
    + lia.
    + lia.
    + unfold len. lia.
    + rewrite Hr. cbn [option_map]. eauto.
  - pose proof (nextChunk_grows offset size Hs). apply IH; lia.
Qed.

Lemma keepLoop_total buf : bytesOk buf = true ->
  forall fuel offset chunks,
    0 <= offset -> (0 < fuel)%nat -> len buf - offset < Z.of_nat fuel ->
    exists kept, keepLoop fuel buf offset chunks = Some (Value kept).
Proof.
  intros Hb. induction fuel as [|fuel IH]; intros offset chunks H0 Hf Hlt; [lia|].
  cbn [keepLoop]. destruct (offset <? len buf - 8) eqn:Ec; [|eauto].
  apply Z.ltb_lt in Ec. cbv zeta.
  destruct (readUInt32LE_in buf (offset + 4)) as [size Er]; [lia|lia|].
  rewrite Er.
  pose proof (readUInt32LE_nonneg _ _ _ Hb Er) as Hs.
  destruct (_ || _); [eauto|].
  pose proof (nextChunk_grows offset size Hs). apply IH; lia.
Qed.

(** On any bytes the three loops on the chunks come to their end in
    the turns counted for them, one more than the bytes of the buffer,
    and the loops of [extractExistingFrames] and
    [removeExistingID3Chunk] read no size out of the buffer: they end
    with a value, never with the exception. *)
Theorem chunk_loops_end_without_error (buf : buffer) :
  bytesOk buf = true ->
  (exists found, lyricsLoop (S (List.length buf)) buf 12 = Some found)
  /\ (exists frames, chunksLoop (S (List.length buf)) buf 12 = Some (Value frames))
  /\ (exists kept, keepLoop (S (List.length buf)) buf 12 [] = Some (Value kept)).
Proof.
  intros Hb.
  assert (Hlen : len buf - 12 < Z.of_nat (S (List.length buf))) by (unfold len; lia).
  split; [|split].
  - apply lyricsLoop_total; try assumption; lia.
  - apply chunksLoop_total; try assumption; lia.
  - apply keepLoop_total; try assumption; lia.
Qed.

Lemma chunk_loops_end_without_error_witness :
  bytesOk WaveSamples.tagged = true
  /\ exists frames,
       chunksLoop (S (List.length WaveSamples.tagged)) WaveSamples.tagged 12
       = Some (Value frames).
Proof.
  assert (H : bytesOk WaveSamples.tagged = true) by (vm_compute; reflexivity).
  split; [exact H|].
  exact (proj1 (proj2 (chunk_loops_end_without_error WaveSamples.tagged H))).
Defined.

(** [syncsafe] and the expression that reads a size back are inverse
    below 2^28; a greater size is read back less a multiple of 2^28. *)
Theorem syncsafe_size_round_trip (pre post : buffer) size :
  0 <= size ->
  readSyncsafe (pre ++ syncsafe size ++ post) (len pre) = size mod 2 ^ 28
  /\ (size < 2 ^ 28 ->
      readSyncsafe (pre ++ syncsafe size ++ post) (len pre) = size).
Proof.
  intros H. split.
  - apply readSyncsafe_cursor. exact H.
  - intros Hlt. rewrite readSyncsafe_cursor by exact H. apply Z.mod_small. lia.
Qed.

Lemma syncsafe_size_round_trip_witness :
  0 <= 1000 /\ readSyncsafe (ascii "USLT" ++ syncsafe 1000 ++ [0; 0]) 4 = 1000.
Proof.
  split; [lia|].
  exact (proj2 (syncsafe_size_round_trip (ascii "USLT") [0; 0] 1000 ltac:(lia))
           ltac:(lia)).
Defined.

(** On a WAVE file of chunks without a tag, [embedLyrics] writes the
    file with its chunks as they were, the chunk of the tag with the
    frame of the lyrics after them, and the size of the header set;
    [hasEmbeddedLyrics], which found no lyrics before, finds them after. *)
Theorem embedding_adds_the_lyrics (sf : buffer) (cs : list chunk) lyrics :
  List.length sf = 4%nat -> forallb chunkOk cs = true ->
  len (body cs ++ id3Chunk [createUSLTFrame lyrics]) + 4 < 2 ^ 32 ->
  embed (wave sf (body cs)) lyrics
  = Embedded (sized (body cs ++ id3Chunk [createUSLTFrame lyrics]))
      (List.length lyrics) 0
  /\ hasLyrics (wave sf (body cs)) = false
  /\ hasLyrics (sized (body cs ++ id3Chunk [createUSLTFrame lyrics])) = true.
Proof.
  intros Hsf Hcs Hlt. split; [exact (embed_plain sf cs lyrics Hsf Hcs Hlt)|].
  split; [exact (lyrics_plain sf cs Hsf Hcs)|].
  rewrite sized_wave.
  rewrite lyrics_tagged; try assumption; try reflexivity.
  - apply tag_has_lyrics.
  - rewrite len_app, len_id3Chunk in Hlt. rewrite len_tag.
    pose proof (len_nonneg (body cs)). lia.
Qed.

Lemma embedding_adds_the_lyrics_witness :
  (List.length WaveSamples.sizeField = 4%nat
   /\ forallb chunkOk [WaveSamples.fmt; WaveSamples.data] = true
   /\ len (body [WaveSamples.fmt; WaveSamples.data]
           ++ id3Chunk [createUSLTFrame (js "la la")]) + 4 < 2 ^ 32)
  /\ hasLyrics (sized (body [WaveSamples.fmt; WaveSamples.data]
                       ++ id3Chunk [createUSLTFrame (js "la la")])) = true.
Proof.
  assert (H : List.length WaveSamples.sizeField = 4%nat
              /\ forallb chunkOk [WaveSamples.fmt; WaveSamples.data] = true
              /\ len (body [WaveSamples.fmt; WaveSamples.data]
                      ++ id3Chunk [createUSLTFrame (js "la la")]) + 4 < 2 ^ 32).
  { split; [reflexivity|]. split; vm_compute; reflexivity. }
  split; [exact H|]. destruct H as (H1 & H2 & H3).
  exact (proj2 (proj2 (embedding_adds_the_lyrics WaveSamples.sizeField
                         [WaveSamples.fmt; WaveSamples.data] (js "la la")
                         H1 H2 H3))).
Defined.

(** The frames of a tag are read back as they were written: from a
    file that ends with a tag of well-formed frames,
    [extractExistingFrames] gives the frames of the tag in their order,
    the lyrics frames left out. *)
Theorem frames_are_read_back (sf : buffer) (cs : list chunk) (frs : list frame) :
  List.length sf = 4%nat -> forallb chunkOk cs = true ->
  forallb frameOk frs = true ->
  len (concat (map frameBytes frs)) < 2 ^ 28 ->
  extractExistingFrames (wave sf (body cs ++ id3Chunk (map frameBytes frs)))
  = Value (map frameBytes (filter (fun fr => negb (isLyrics fr)) frs)).
Proof.
  intros Hsf Hcs Hfrs Hfit. exact (extract_tagged sf cs Hsf Hcs frs Hfrs Hfit).
Qed.

Lemma frames_are_read_back_witness :
  (List.length WaveSamples.sizeField = 4%nat
   /\ forallb chunkOk [WaveSamples.fmt; WaveSamples.data] = true
   /\ forallb frameOk [WaveSamples.picture; lyricsFrame (js "la la")] = true
   /\ len (concat (map frameBytes [WaveSamples.picture; lyricsFrame (js "la la")]))
      < 2 ^ 28)
  /\ extractExistingFrames WaveSamples.tagged
     = Value [frameBytes WaveSamples.picture].
Proof.
  assert (H : List.length WaveSamples.sizeField = 4%nat
   /\ forallb chunkOk [WaveSamples.fmt; WaveSamples.data] = true
   /\ forallb frameOk [WaveSamples.picture; lyricsFrame (js "la la")] = true
   /\ len (concat (map frameBytes [WaveSamples.picture; lyricsFrame (js "la la")]))
      < 2 ^ 28).
  { split; [reflexivity|]. repeat split; vm_compute; reflexivity. }
  split; [exact H|]. destruct H as (H1 & H2 & H3 & H4).
  exact (frames_are_read_back WaveSamples.sizeField
           [WaveSamples.fmt; WaveSamples.data]
           [WaveSamples.picture; lyricsFrame (js "la la")] H1 H2 H3 H4).
Defined.

(** Embedding again: on a file that ends with a tag, [embedLyrics]
    keeps the chunks and the frames that are no lyrics, in their order,
    and writes the new lyrics in the place of the old. *)
Theorem embedding_replaces_the_lyrics
    (sf : buffer) (cs : list chunk) (frs : list frame) lyrics :
  List.length sf = 4%nat -> forallb chunkOk cs = true ->
  forallb frameOk frs = true ->
  len (concat (map frameBytes frs)) < 2 ^ 28 ->
  len (body cs
       ++ id3Chunk (map frameBytes (filter (fun fr => negb (isLyrics fr)) frs)
                    ++ [createUSLTFrame lyrics])) + 4 < 2 ^ 32 ->
  embed (wave sf (body cs ++ id3Chunk (map frameBytes frs))) lyrics
  = Embedded
      (sized (body cs
              ++ id3Chunk (map frameBytes (filter (fun fr => negb (isLyrics fr)) frs)
                           ++ [createUSLTFrame lyrics])))
      (List.length lyrics)
      (List.length (filter (fun fr => negb (isLyrics fr)) frs)).
Proof. exact (embed_tagged sf cs frs lyrics). Qed.

Lemma embedding_replaces_the_lyrics_witness :
  (List.length WaveSamples.sizeField = 4%nat
   /\ forallb chunkOk [WaveSamples.fmt; WaveSamples.data] = true
   /\ forallb frameOk [WaveSamples.picture; lyricsFrame (js "la la")] = true
   /\ len (concat (map frameBytes [WaveSamples.picture; lyricsFrame (js "la la")]))
      < 2 ^ 28
   /\ len (body [WaveSamples.fmt; WaveSamples.data]
           ++ id3Chunk
                (map frameBytes
                   (filter (fun fr => negb (isLyrics fr))
                      [WaveSamples.picture; lyricsFrame (js "la la")])
                 ++ [createUSLTFrame (js "海阔天空")])) + 4 < 2 ^ 32)
  /\ embed WaveSamples.tagged (js "海阔天空")
     = Embedded
         (sized (body [WaveSamples.fmt; WaveSamples.data]
                 ++ id3Chunk [frameBytes WaveSamples.picture;
                              createUSLTFrame (js "海阔天空")]))
         4 1.
Proof.
  assert (H : List.length WaveSamples.sizeField = 4%nat
   /\ forallb chunkOk [WaveSamples.fmt; WaveSamples.data] = true
   /\ forallb frameOk [WaveSamples.picture; lyricsFrame (js "la la")] = true
   /\ len (concat (map frameBytes [WaveSamples.picture; lyricsFrame (js "la la")]))
      < 2 ^ 28
   /\ len (body [WaveSamples.fmt; WaveSamples.data]
           ++ id3Chunk
                (map frameBytes
                   (filter (fun fr => negb (isLyrics fr))
                      [WaveSamples.picture; lyricsFrame (js "la la")])
                 ++ [createUSLTFrame (js "海阔天空")])) + 4 < 2 ^ 32).
  { split; [reflexivity|]. repeat split; vm_compute; reflexivity. }
  split; [exact H|]. destruct H as (H1 & H2 & H3 & H4 & H5).
  exact (embedding_replaces_the_lyrics WaveSamples.sizeField
           [WaveSamples.fmt; WaveSamples.data]
           [WaveSamples.picture; lyricsFrame (js "la la")] (js "海阔天空")
           H1 H2 H3 H4 H5).
Defined.

(** Embedding twice comes to embedding the last lyrics: what the second
    run writes on the file that the first wrote is what one run writes
    on the first file, so the tags do not pile up. *)
Theorem embedding_twice_is_embedding_once
    (sf : buffer) (cs : list chunk) first second newBuf lrcSize preserved :
  List.length sf = 4%nat -> forallb chunkOk cs = true ->
  len (body cs ++ id3Chunk [createUSLTFrame first]) + 4 < 2 ^ 32 ->
  len (body cs ++ id3Chunk [createUSLTFrame second]) + 4 < 2 ^ 32 ->
  len (createUSLTFrame first) < 2 ^ 28 ->
  embed (wave sf (body cs)) first = Embedded newBuf lrcSize preserved ->
  embed newBuf second = embed (wave sf (body cs)) second.
Proof.
  intros Hsf Hcs H1 H2 Hfit He.
  rewrite (embed_plain sf cs first Hsf Hcs H1) in He. inversion He. subst.
  rewrite (embed_plain sf cs second Hsf Hcs H2).
  rewrite sized_wave.
  change [createUSLTFrame first] with (map frameBytes [lyricsFrame first]).
  assert (Hok : forallb frameOk [lyricsFrame first] = true).
  { cbn [forallb]. rewrite lyrics_frame_ok. reflexivity. }
  assert (Hlen : len (concat (map frameBytes [lyricsFrame first])) < 2 ^ 28).
  { cbn [map concat]. rewrite app_nil_r, <- lyrics_frame. exact Hfit. }
  rewrite (embed_tagged
             (uint32LE (len (body cs ++ id3Chunk (map frameBytes [lyricsFrame first])) + 4))
             cs [lyricsFrame first] second eq_refl Hcs Hok Hlen).
  - reflexivity.
  - exact H2.
Qed.

Lemma embedding_twice_is_embedding_once_witness :
  (List.length WaveSamples.sizeField = 4%nat
   /\ forallb chunkOk [WaveSamples.fmt; WaveSamples.data] = true
   /\ len (body [WaveSamples.fmt; WaveSamples.data]
           ++ id3Chunk [createUSLTFrame (js "la la")]) + 4 < 2 ^ 32
   /\ len (body [WaveSamples.fmt; WaveSamples.data]
           ++ id3Chunk [createUSLTFrame (js "海阔天空")]) + 4 < 2 ^ 32
   /\ len (createUSLTFrame (js "la la")) < 2 ^ 28
   /\ embed WaveSamples.plain (js "la la")
      = Embedded (sized (body [WaveSamples.fmt; WaveSamples.data]
                         ++ id3Chunk [createUSLTFrame (js "la la")])) 5 0)
  /\ embed (sized (body [WaveSamples.fmt; WaveSamples.data]
                   ++ id3Chunk [createUSLTFrame (js "la la")])) (js "海阔天空")
     = embed WaveSamples.plain (js "海阔天空").
Proof.
  assert (H : List.length WaveSamples.sizeField = 4%nat
   /\ forallb chunkOk [WaveSamples.fmt; WaveSamples.data] = true
   /\ len (body [WaveSamples.fmt; WaveSamples.data]
           ++ id3Chunk [createUSLTFrame (js "la la")]) + 4 < 2 ^ 32
   /\ len (body [WaveSamples.fmt; WaveSamples.data]
           ++ id3Chunk [createUSLTFrame (js "海阔天空")]) + 4 < 2 ^ 32
   /\ len (createUSLTFrame (js "la la")) < 2 ^ 28
   /\ embed WaveSamples.plain (js "la la")
      = Embedded (sized (body [WaveSamples.fmt; WaveSamples.data]
                         ++ id3Chunk [createUSLTFrame (js "la la")])) 5 0).
  { split; [reflexivity|]. repeat split; vm_compute; reflexivity. }
  split; [exact H|]. destruct H as (H1 & H2 & H3 & H4 & H5 & H6).
  exact (embedding_twice_is_embedding_once WaveSamples.sizeField
           [WaveSamples.fmt; WaveSamples.data] (js "la la") (js "海阔天空")
           _ _ _ H1 H2 H3 H4 H5 H6).
Defined.

(** [removeExistingID3Chunk] takes the tag off a file that ends with
    one and leaves the chunks as they were, with the size of the header
    set; a file without a tag comes out the same but for that size, and
    what the function gives it gives again when applied to it. *)
Theorem removing_the_tag_keeps_the_chunks
    (sf : buffer) (cs : list chunk) (frames : list buffer) :
  List.length sf = 4%nat -> forallb chunkOk cs = true ->
  len (createID3v24Tag frames) < 2 ^ 32 ->
  len (body cs) + 4 < 2 ^ 32 ->
  removeExistingID3Chunk (wave sf (body cs ++ id3Chunk frames))
  = Value (sized (body cs))
  /\ removeExistingID3Chunk (wave sf (body cs)) = Value (sized (body cs))
  /\ removeExistingID3Chunk (sized (body cs)) = Value (sized (body cs)).
Proof.
  intros Hsf Hcs Ht Hb.
  split; [exact (remove_tagged sf cs Hsf Hcs frames Ht Hb)|].
  split; [exact (remove_plain sf cs Hsf Hcs Hb)|].
  rewrite sized_wave. apply remove_plain; try assumption. reflexivity.
Qed.

Lemma removing_the_tag_keeps_the_chunks_witness :
  (List.length WaveSamples.sizeField = 4%nat
   /\ forallb chunkOk [WaveSamples.fmt; WaveSamples.data] = true
   /\ len (createID3v24Tag
             (map frameBytes [WaveSamples.picture; lyricsFrame (js "la la")]))
      < 2 ^ 32
   /\ len (body [WaveSamples.fmt; WaveSamples.data]) + 4 < 2 ^ 32)
  /\ removeExistingID3Chunk WaveSamples.tagged
     = Value (sized (body [WaveSamples.fmt; WaveSamples.data])).
Proof.
  assert (H : List.length WaveSamples.sizeField = 4%nat
   /\ forallb chunkOk [WaveSamples.fmt; WaveSamples.data] = true
   /\ len (createID3v24Tag
             (map frameBytes [WaveSamples.picture; lyricsFrame (js "la la")]))
      < 2 ^ 32
   /\ len (body [WaveSamples.fmt; WaveSamples.data]) + 4 < 2 ^ 32).
  { split; [reflexivity|]. repeat split; vm_compute; reflexivity. }
  split; [exact H|]. destruct H as (H1 & H2 & H3 & H4).
  exact (proj1 (removing_the_tag_keeps_the_chunks WaveSamples.sizeField
                  [WaveSamples.fmt; WaveSamples.data]
                  (map frameBytes [WaveSamples.picture; lyricsFrame (js "la la")])
                  H1 H2 H3 H4)).
Defined.

End EmbedFacts.

(** ** The scans of the directories *)

Module TreeFacts.
Import Tree TreeNotions.

Lemma node_induction (P : node -> Prop) :
  P File -> P Missing -> P (Dir None) ->
  (forall items, (forall file sub, In (file, sub) items -> P sub) ->
                 P (Dir (Some items))) ->
  forall n, P n.
Proof.
  intros HF HM HN HD. fix IH 1.
  intros [| |[items|]]; [exact HF | exact HM | | exact HN].
  apply HD. induction items as [|[f s] r IHr]; intros file sub Hin.
  - destruct Hin.
  - pose proof (IH s) as Hs. destruct Hin as [E|Hin].
    + replace sub with s by congruence. exact Hs.
    + exact (IHr file sub Hin).
Qed.

Lemma fold_left_each {A B : Type} (F : list B -> A -> list B) (l : list A) init :
  (forall acc e, F acc e = acc ++ F [] e) ->
  fold_left F l init = init ++ flat_map (F []) l.
Proof.
  intros HF. revert init. induction l as [|e l IH]; intros init; simpl.
  - symmetry. apply app_nil_r.
  - rewrite IH, (HF init e), app_assoc. reflexivity.
Qed.

(** What one entry adds to the result of [findAllFiles]. *)
Lemma findAllFiles_dir dir listing :
  findAllFiles dir (Dir (Some listing))
  = flat_map (fun entry : jsstring * node =>
                if startsWith (js ".") (fst entry) then []
                else match snd entry with
                     | Dir _ => findAllFiles (Path.join dir (fst entry)) (snd entry)
                     | File => [Path.join dir (fst entry)]
                     | Missing => []
                     end) listing.
Proof.
  cbn [findAllFiles]. rewrite fold_left_each.
  - cbn [app]. apply flat_map_ext. intros [file sub]. cbn [fst snd].
    destruct (startsWith (js ".") file); [reflexivity|].
    destruct sub; reflexivity.
  - intros acc [file sub]. destruct (startsWith (js ".") file).
    + symmetry. apply app_nil_r.
    + destruct sub; cbn [app]; try reflexivity. symmetry. apply app_nil_r.
Qed.

Lemma findFiles_dir dir audioOnly listing :
  findFiles dir audioOnly (Dir (Some listing))
  = flat_map (fun entry : jsstring * node =>
                if startsWith (js ".") (fst entry) then []
                else match snd entry with
                     | Dir _ => findFiles (Path.join dir (fst entry)) audioOnly (snd entry)
                     | File => if audioOnly && negb (Mover.isAudio (fst entry))
                               then [] else [Path.join dir (fst entry)]
                     | Missing => []
                     end) listing.
Proof.
  cbn [findFiles]. rewrite fold_left_each.
  - cbn [app]. apply flat_map_ext. intros [file sub]. cbn [fst snd].
    destruct (startsWith (js ".") file); [reflexivity|].
    destruct (audioOnly && negb (Mover.isAudio file)); destruct sub; reflexivity.
  - intros acc [file sub]. destruct (startsWith (js ".") file).
    + symmetry. apply app_nil_r.
    + destruct (audioOnly && negb (Mover.isAudio file)); destruct sub; cbn [app];
        try reflexivity; symmetry; apply app_nil_r.
Qed.


(** *** Paths *)

Lemma lca_plain file cur :
  existsb Path.isSlash file = false ->
  Path.lastComponentAux file cur = rev cur ++ file.
Proof.
  revert cur. induction file as [|c file IH]; intros cur H.
  - simpl. symmetry. apply app_nil_r.
  - simpl in H. apply orb_false_iff in H. destruct H as [Hc H].
    cbn [Path.lastComponentAux]. rewrite Hc, IH by exact H.
    simpl. rewrite <- app_assoc. reflexivity.
Qed.

Lemma lca_slash B s cur :
  Path.lastComponentAux (B ++ Path.slash :: s) cur = Path.lastComponentAux s [].
Proof.
  revert cur. induction B as [|c B IH]; intros cur.
  - reflexivity.
  - simpl app. cbn [Path.lastComponentAux]. destruct (Path.isSlash c); apply IH.
Qed.

Lemma plain_last file :
  plainName file = true ->
  exists init c, file = init ++ [c] /\ Path.isSlash c = false.
Proof.
  unfold plainName. intros H. apply andb_true_iff in H. destruct H as [Ht Hs].
  apply negb_true_iff in Hs.
  destruct (exists_last (l := file)) as (init & c & E).
  { destruct file; [discriminate | discriminate]. }
  exists init, c. split; [exact E|].
  rewrite E, existsb_app in Hs. apply orb_false_iff in Hs. destruct Hs as [_ Hs].
  simpl in Hs. rewrite orb_false_r in Hs. exact Hs.
Qed.

Lemma plain_no_slash file : plainName file = true -> existsb Path.isSlash file = false.
Proof.
  unfold plainName. intros H. apply andb_true_iff in H. destruct H as [_ H].
  apply negb_true_iff in H. exact H.
Qed.

Lemma dropTrailingSlashes_plain B file :
  plainName file = true -> Path.dropTrailingSlashes (B ++ file) = B ++ file.
Proof.
  intros H. destruct (plain_last file H) as (init & c & -> & Hc).
  unfold Path.dropTrailingSlashes.
  assert (Er : rev (B ++ init ++ [c]) = c :: rev (B ++ init)).
  { rewrite app_assoc, rev_app_distr. reflexivity. }
  rewrite Er. cbn [spanLen]. rewrite Hc. cbn [skipn].
  rewrite <- Er. apply rev_involutive.
Qed.

(** What [path.join] puts before the name depends on the directory
    alone: nothing, or a text that ends with the separator. *)
Lemma join_base dir :
  exists B, (B = [] \/ exists B', B = B' ++ [Path.slash])
            /\ forall file, Path.join dir file = B ++ file.
Proof.
  unfold Path.join. destruct (eqb dir [Path.dot]).
  - exists []. split; [left; reflexivity | reflexivity].
  - destruct (Path.endsWith [Path.slash] dir) eqn:E.
    + exists dir. split; [|reflexivity]. right.
      unfold Path.endsWith in E. simpl rev in E.
      destruct (rev dir) as [|c r] eqn:Er; [discriminate|].
      cbn [startsWith] in E. rewrite andb_true_r in E. apply N.eqb_eq in E.
      subst c. exists (rev r). rewrite <- (rev_involutive dir), Er. reflexivity.
    + exists (dir ++ [Path.slash]). split.
      * right. exists dir. reflexivity.
      * intros file. rewrite <- app_assoc. reflexivity.
Qed.

Lemma basename_base B file :
  (B = [] \/ exists B', B = B' ++ [Path.slash]) -> plainName file = true ->
  Path.basename (B ++ file) = file.
Proof.
  intros HB H. unfold Path.basename. rewrite dropTrailingSlashes_plain by exact H.
  destruct HB as [->|[B' ->]].
  - simpl. rewrite lca_plain by (apply plain_no_slash; exact H). reflexivity.
  - rewrite <- app_assoc. simpl app. rewrite lca_slash.
    rewrite lca_plain by (apply plain_no_slash; exact H). reflexivity.
Qed.

Lemma basename_join dir file :
  plainName file = true -> Path.basename (Path.join dir file) = file.
Proof.
  intros H. destruct (join_base dir) as (B & HB & E). rewrite E.
  apply basename_base; assumption.
Qed.

(** A directory met by the scan, whose name is plain and does not start
    with a dot, is joined to its names with one separator. *)
Lemma join_below B file :
  (B = [] \/ exists B', B = B' ++ [Path.slash]) -> plainName file = true ->
  startsWith (js ".") file = false ->
  forall g, Path.join (B ++ file) g = (B ++ file ++ [Path.slash]) ++ g.
Proof.
  intros HB H Hdot g. unfold Path.join.
  destruct (eqb (B ++ file) [Path.dot]) eqn:E.
  - apply eqb_eq in E. exfalso.
    destruct (plain_last file H) as (init & c & -> & Hc).
    destruct HB as [->|[B' ->]].
    + cbn [app] in E. destruct init as [|x init].
      * cbn [app] in E. inversion E. subst c. discriminate Hdot.
      * cbn [app] in E. inversion E. destruct init; discriminate.
    + rewrite <- app_assoc in E. destruct B' as [|x B'].
      * cbn [app] in E. inversion E.
      * cbn [app] in E. inversion E. destruct B'; discriminate.
  - destruct (Path.endsWith [Path.slash] (B ++ file)) eqn:E2.
    + exfalso. destruct (plain_last file H) as (init & c & -> & Hc).
      unfold Path.endsWith in E2. rewrite app_assoc, rev_app_distr in E2.
      simpl rev in E2. cbn [app startsWith] in E2. rewrite andb_true_r in E2.
      unfold Path.isSlash in Hc. rewrite N.eqb_sym in Hc. congruence.
    + rewrite <- !app_assoc. reflexivity.
Qed.


(** *** The scans of files *)

Lemma wellFormed_entry items file sub :
  wellFormed (Dir (Some items)) = true -> In (file, sub) items ->
  plainName file = true /\ wellFormed sub = true.
Proof.
  cbn [wellFormed]. intros H Hin. apply andb_true_iff in H. destruct H as [_ H].
  rewrite forallb_forall in H. specialize (H _ Hin). cbn beta iota in H.
  apply andb_true_iff in H. exact H.
Qed.

Lemma findAllFiles_found n :
  forall dir p, In p (findAllFiles dir n) <-> found dir n p.
Proof.
  induction n as [| | |items IH] using node_induction; intros dir p;
    try (split; [intros [] | intros H; inversion H]).
  rewrite findAllFiles_dir, in_flat_map. split.
  - intros [[file sub] [Hin Hp]]. cbn [fst snd] in Hp.
    destruct (startsWith (js ".") file) eqn:Ed; [destruct Hp|].
    destruct sub as [| |l].
    + destruct Hp as [<-|[]]. apply found_file; assumption.
    + destruct Hp.
    + apply (found_below dir items file l p Hin Ed).
      apply (IH file (Dir l) Hin). exact Hp.
  - intros H. inversion H as [d ls file Hin Ed|d ls file l q Hin Ed Hf]; subst.
    + exists (file, File). split; [exact Hin|]. cbn [fst snd]. rewrite Ed.
      left. reflexivity.
    + exists (file, Dir l). split; [exact Hin|]. cbn [fst snd]. rewrite Ed.
      apply (IH file (Dir l) Hin). exact Hf.
Qed.

Lemma flat_map_ext_in {A B : Type} (f g : A -> list B) (l : list A) :
  (forall a, In a l -> f a = g a) -> flat_map f l = flat_map g l.
Proof.
  induction l as [|a l IH]; intros H; [reflexivity|]. simpl.
  rewrite (H a (or_introl eq_refl)), IH; [reflexivity|].
  intros b Hb. apply H. right. exact Hb.
Qed.

Lemma filter_flat_map {A B : Type} (f : B -> bool) (g : A -> list B) (l : list A) :
  filter f (flat_map g l) = flat_map (fun a => filter f (g a)) l.
Proof.
  induction l as [|a l IH]; [reflexivity|]. simpl.
  rewrite filter_app, IH. reflexivity.
Qed.

Lemma findFiles_all n : forall dir, findFiles dir false n = findAllFiles dir n.
Proof.
  induction n as [| | |items IH] using node_induction; intros dir; try reflexivity.
  rewrite findFiles_dir, findAllFiles_dir. apply flat_map_ext_in.
  intros [file sub] Hin. cbn [fst snd andb].
  destruct (startsWith (js ".") file); [reflexivity|].
  destruct sub; try reflexivity. apply (IH file _ Hin).
Qed.

Lemma findFiles_audio n :
  wellFormed n = true ->
  forall dir,
    findFiles dir true n
    = filter (fun p => Mover.isAudio (Path.basename p)) (findAllFiles dir n).
Proof.
  induction n as [| | |items IH] using node_induction; intros Hw dir;
    try reflexivity.
  rewrite findFiles_dir, findAllFiles_dir, filter_flat_map.
  apply flat_map_ext_in. intros [file sub] Hin. cbn [fst snd andb].
  destruct (wellFormed_entry _ _ _ Hw Hin) as [Hp Hs].
  destruct (startsWith (js ".") file); [reflexivity|].
  destruct sub as [| |l]; try reflexivity.
  - cbn [filter]. rewrite (basename_join dir file Hp).
    destruct (Mover.isAudio file); reflexivity.
  - apply (IH file _ Hin Hs).
Qed.

(** A text is the end of a portion of a path: nothing, or what a
    separator starts. *)
Lemma first_portion (f1 f2 r1 r2 : jsstring) :
  f1 ++ r1 = f2 ++ r2 ->
  existsb Path.isSlash f1 = false -> existsb Path.isSlash f2 = false ->
  (r1 = [] \/ exists r, r1 = Path.slash :: r) ->
  (r2 = [] \/ exists r, r2 = Path.slash :: r) ->
  f1 = f2.
Proof.
  revert f2. induction f1 as [|c f1 IH]; intros f2 E H1 H2 R1 R2.
  - destruct f2 as [|c2 f2]; [reflexivity|]. exfalso.
    cbn [existsb] in H2. apply orb_false_iff in H2. destruct H2 as [H2 _].
    cbn [app] in E. destruct R1 as [->|[r ->]]; [discriminate|].
    inversion E. subst c2. discriminate.
  - cbn [existsb] in H1. apply orb_false_iff in H1. destruct H1 as [Hc H1].
    destruct f2 as [|c2 f2].
    + exfalso. cbn [app] in E. destruct R2 as [->|[r ->]]; [discriminate|].
      inversion E. subst c. discriminate.
    + cbn [existsb] in H2. apply orb_false_iff in H2. destruct H2 as [_ H2].
      cbn [app] in E. inversion E. subst c2.
      rewrite (IH f2); auto.
Qed.

Lemma found_shape dir n p :
  found dir n p -> wellFormed n = true ->
  forall B, (B = [] \/ exists B', B = B' ++ [Path.slash]) ->
            (forall file, Path.join dir file = B ++ file) ->
  exists listing file sub rest,
    n = Dir (Some listing) /\ In (file, sub) listing
    /\ p = B ++ file ++ rest
    /\ (rest = [] \/ exists r, rest = Path.slash :: r).
Proof.
  induction 1 as [dir listing file Hin Ed|dir listing file l p Hin Ed Hf IH];
    intros Hw B HB HJ.
  - exists listing, file, File, []. rewrite app_nil_r. auto.
  - destruct (wellFormed_entry _ _ _ Hw Hin) as [Hp Hs].
    destruct (IH Hs (B ++ file ++ [Path.slash])) as (ls & f & sub & rest & _ & _ & E & _).
    + right. exists (B ++ file). rewrite <- app_assoc. reflexivity.
    + intros g. rewrite HJ. apply join_below; assumption.
    + exists listing, file, (Dir l), (Path.slash :: f ++ rest).
      split; [reflexivity|]. split; [exact Hin|]. split.
      * rewrite E, <- !app_assoc. reflexivity.
      * right. eauto.
Qed.

Lemma noRepeat_cons x rest :
  noRepeat (x :: rest) = true -> ~ In x rest /\ noRepeat rest = true.
Proof.
  cbn [noRepeat]. intros H. apply andb_true_iff in H. destruct H as [H1 H2].
  split; [|exact H2]. intros Hin. apply negb_true_iff in H1.
  assert (Ht : existsb (eqb x) rest = true).
  { apply existsb_exists. exists x. split; [exact Hin | apply eqb_refl]. }
  congruence.
Qed.

Lemma findAllFiles_NoDup n :
  wellFormed n = true -> forall dir, NoDup (findAllFiles dir n).
Proof.
  induction n as [| | |items IH] using node_induction; intros Hw dir;
    try constructor.
  rewrite findAllFiles_dir.
  destruct (join_base dir) as (B & HB & HJ).
  set (g := fun entry : jsstring * node =>
              if startsWith (js ".") (fst entry) then []
              else match snd entry with
                   | Dir _ => findAllFiles (Path.join dir (fst entry)) (snd entry)
                   | File => [Path.join dir (fst entry)]
                   | Missing => []
                   end).
  assert (Hshape : forall file sub p,
            In (file, sub) items -> In p (g (file, sub)) ->
            exists rest, p = B ++ file ++ rest
                         /\ (rest = [] \/ exists r, rest = Path.slash :: r)).
  { intros file sub p Hin Hp. unfold g in Hp. cbn [fst snd] in Hp.
    destruct (startsWith (js ".") file) eqn:Ed; [destruct Hp|].
    destruct (wellFormed_entry _ _ _ Hw Hin) as [Hpl Hs].
    destruct sub as [| |l].
    - destruct Hp as [<-|[]]. exists []. rewrite HJ, app_nil_r. auto.
    - destruct Hp.
    - apply findAllFiles_found in Hp.
      destruct (found_shape _ _ _ Hp Hs (B ++ file ++ [Path.slash]))
        as (ls & f & sub & rest & _ & _ & E & _).
      + right. exists (B ++ file). rewrite <- app_assoc. reflexivity.
      + intros h. rewrite HJ. apply join_below; assumption.
      + exists (Path.slash :: f ++ rest). split; [|right; eauto].
        rewrite E, <- !app_assoc. reflexivity. }
  assert (Hpiece : forall file sub, In (file, sub) items -> NoDup (g (file, sub))).
  { intros file sub Hin. unfold g. cbn [fst snd].
    destruct (startsWith (js ".") file); [constructor|].
    destruct (wellFormed_entry _ _ _ Hw Hin) as [_ Hs].
    destruct sub as [| |l].
    - constructor; [intros [] | constructor].
    - constructor.
    - apply (IH file _ Hin Hs). }
  assert (Hplain : forall file sub, In (file, sub) items ->
                                    existsb Path.isSlash file = false).
  { intros file sub Hin. apply plain_no_slash.
    exact (proj1 (wellFormed_entry _ _ _ Hw Hin)). }
  assert (Hnames : noRepeat (map fst items) = true).
  { cbn [wellFormed] in Hw. apply andb_true_iff in Hw. exact (proj1 Hw). }
  clearbody g. clear IH Hw HJ.
  induction items as [|[file sub] rest IHr]; [constructor|].
  cbn [flat_map]. cbn [map fst] in Hnames.
  apply noRepeat_cons in Hnames. destruct Hnames as [Hnot Hnames].
  apply NoDup_app.
  - apply Hpiece. left. reflexivity.
  - apply IHr; try assumption; intros; eauto using in_cons.
  - intros p Hp Hq. apply in_flat_map in Hq. destruct Hq as [[file2 sub2] [Hin2 Hq]].
    destruct (Hshape file sub p (or_introl eq_refl) Hp) as (r1 & E1 & R1).
    destruct (Hshape file2 sub2 p (or_intror Hin2) Hq) as (r2 & E2 & R2).
    rewrite E1 in E2. apply app_inv_head in E2.
    apply first_portion in E2; try assumption.
    + apply Hnot. subst file2. apply in_map_iff. exists (file, sub2). auto.
    + apply (Hplain file sub). left. reflexivity.
    + apply (Hplain file2 sub2). right. exact Hin2.
Qed.

(** *** The scan of empty directories *)

(** The answer of [scanEmptyDirs] and what it adds to the array. *)
Lemma scanEmptyDirs_acc n :
  forall root dir acc,
    scanEmptyDirs root dir n acc
    = (hollow n, acc ++ snd (scanEmptyDirs root dir n [])).
Proof.
  induction n as [| | |items IH] using node_induction; intros root dir acc;
    try (cbn [scanEmptyDirs hollow snd]; rewrite app_nil_r; reflexivity).
  cbn [scanEmptyDirs hollow].
  match goal with
  | |- context [fold_left ?F items (false, acc)] => set (step := F)
  end.
  set (ok := fun entry : jsstring * node =>
               let (item, sub) := entry in
               isSystemFile item
               || match sub with
                  | Missing => true
                  | File => eqb (toLowerCase item) (js "cover.jpg")
                  | Dir _ => hollow sub
                  end).
  assert (Hfold : forall l, (forall file sub, In (file, sub) l -> In (file, sub) items) ->
            forall h a,
              fold_left step l (h, a)
              = (h || negb (forallb ok l), a ++ snd (fold_left step l (false, [])))).
  { induction l as [|[item sub] l IHl]; intros Hl h a.
    - cbn [fold_left forallb negb snd]. rewrite orb_false_r, app_nil_r. reflexivity.
    - cbn [fold_left forallb].
      assert (Hs : forall h a,
                step (h, a) (item, sub)
                = (h || negb (ok (item, sub)), a ++ snd (step (false, []) (item, sub)))).
      { intros h' a'. unfold step, ok.
        destruct (isSystemFile item).
        - cbn [orb negb snd]. rewrite orb_false_r, app_nil_r. reflexivity.
        - cbn [orb]. destruct sub as [| |l'].
          + destruct (eqb (toLowerCase item) (js "cover.jpg")).
            * cbn [negb snd]. rewrite orb_false_r, app_nil_r. reflexivity.
            * cbn [negb snd]. rewrite orb_true_r, app_nil_r. reflexivity.
          + cbn [negb snd]. rewrite orb_false_r, app_nil_r. reflexivity.
          + rewrite (IH item (Dir l') (Hl item (Dir l') (or_introl eq_refl))
                       root (Path.join dir item) a').
            rewrite (IH item (Dir l') (Hl item (Dir l') (or_introl eq_refl))
                       root (Path.join dir item) []).
            cbn [snd app]. destruct (hollow (Dir l')); cbn [negb].
            * rewrite orb_false_r. reflexivity.
            * rewrite orb_true_r. reflexivity. }
      rewrite (Hs h a).
      rewrite IHl by (intros; apply Hl; right; assumption).
      rewrite (Hs false []).
      rewrite (IHl (fun f s H => Hl f s (or_intror H)) (false || negb (ok (item, sub)))).
      cbn [snd app orb]. rewrite negb_andb, orb_assoc, app_assoc. reflexivity. }
  rewrite (Hfold items (fun _ _ H => H) false acc).
  pose proof (Hfold items (fun _ _ H => H) false []) as H0.
  destruct (fold_left step items (false, [])) as [h e].
  cbn [snd app orb] in H0 |- *. inversion H0 as [Hh]. fold ok.
  destruct (forallb ok items); cbn [negb snd].
  - destruct (negb (eqb dir root)); rewrite <- ?app_assoc; reflexivity.
  - reflexivity.
Qed.

Lemma scanEmptyDirs_dir root dir items :
  snd (scanEmptyDirs root dir (Dir (Some items)) [])
  = flat_map (fun entry : jsstring * node =>
                if isSystemFile (fst entry) then []
                else match snd entry with
                     | Dir _ => snd (scanEmptyDirs root (Path.join dir (fst entry))
                                       (snd entry) [])
                     | _ => []
                     end) items
    ++ (if hollow (Dir (Some items)) && negb (eqb dir root) then [dir] else []).
Proof.
  pose proof (scanEmptyDirs_acc (Dir (Some items)) root dir []) as Hacc.
  cbn [app] in Hacc.
  cbn [scanEmptyDirs] in Hacc |- *.
  match goal with
  | |- context [fold_left ?F items (false, [])] => set (step := F) in *
  end.
  set (G := fun entry : jsstring * node =>
              if isSystemFile (fst entry) then []
              else match snd entry with
                   | Dir _ => snd (scanEmptyDirs root (Path.join dir (fst entry))
                                     (snd entry) [])
                   | _ => []
                   end).
  assert (Hfold : forall l h a,
            snd (fold_left step l (h, a)) = a ++ flat_map G l).
  { induction l as [|[item sub] l IHl]; intros h a.
    - cbn [fold_left snd flat_map]. symmetry. apply app_nil_r.
    - cbn [fold_left flat_map].
      assert (Hs : exists h', step (h, a) (item, sub) = (h', a ++ G (item, sub))).
      { unfold step, G. cbn [fst snd]. destruct (isSystemFile item).
        - exists h. rewrite app_nil_r. reflexivity.
        - destruct sub as [| |l'].
          + destruct (eqb (toLowerCase item) (js "cover.jpg"));
              eexists; rewrite app_nil_r; reflexivity.
          + exists h. rewrite app_nil_r. reflexivity.
          + rewrite (scanEmptyDirs_acc (Dir l') root (Path.join dir item) a).
            eexists. reflexivity. }
      destruct Hs as [h' ->]. rewrite IHl, app_assoc. reflexivity. }
  specialize (Hfold items false []). cbn [app] in Hfold.
  destruct (fold_left step items (false, [])) as [h e]. cbn [snd] in Hfold.
  subst e. destruct h; cbn [negb snd] in Hacc |- *;
    pose proof (f_equal fst Hacc) as Hh; cbn [fst] in Hh;
    rewrite <- Hh; cbn [andb].
  - rewrite app_nil_r. reflexivity.
  - destruct (negb (eqb dir root)); [reflexivity | rewrite app_nil_r; reflexivity].
Qed.

Lemma scanEmptyDirs_listed n :
  forall root dir p,
    In p (snd (scanEmptyDirs root dir n []))
    <-> p <> root /\ exists m, below dir n p m /\ hollow m = true.
Proof.
  induction n as [| | |items IH] using node_induction; intros root dir p;
    try (split;
         [ intros []
         | intros [_ (m & Hb & Hm)]; inversion Hb; subst; discriminate ]).
  rewrite scanEmptyDirs_dir, in_app_iff, in_flat_map. split.
  - intros [[[item sub] [Hin Hp]]|Hp].
    + cbn [fst snd] in Hp. destruct (isSystemFile item) eqn:Es; [destruct Hp|].
      destruct sub as [| |l]; try destruct Hp.
      apply (IH item _ Hin) in Hp. destruct Hp as [Hne (m & Hb & Hm)].
      split; [exact Hne|]. exists m. split; [|exact Hm].
      exact (below_entry dir items item l p m Hin Es Hb).
    + destruct (hollow (Dir (Some items))) eqn:Eh; [|destruct Hp].
      destruct (eqb dir root) eqn:Er; [destruct Hp|].
      destruct Hp as [<-|[]]. split; [apply eqb_neq; exact Er|].
      exists (Dir (Some items)). split; [constructor | exact Eh].
  - intros [Hne (m & Hb & Hm)].
    inversion Hb as [d n'|d its item l q m' Hin Es Hb']; subst.
    + right. rewrite Hm. apply eqb_neq in Hne. rewrite Hne. left. reflexivity.
    + left. exists (item, Dir l). split; [exact Hin|]. cbn [fst snd]. rewrite Es.
      apply (IH item _ Hin). split; [exact Hne|]. exists m. auto.
Qed.

(** [findAllFiles] gives the paths of what is no directory and is
    reached through names that do not start with a dot, and those
    only: nothing under a hidden name, nothing that cannot be read. *)
Theorem findAllFiles_lists_the_visible_files (n : node) (dir p : jsstring) :
  In p (findAllFiles dir n) <-> found dir n p.
Proof. apply findAllFiles_found. Qed.

(** The two scans agree: [findFiles] without options gives what
    [findAllFiles] gives, and with [audioOnly] it gives, in the same
    order, those of these paths whose last portion ends as an audio
    file does. *)
Theorem findFiles_audio_only_filters (n : node) (dir : jsstring) :
  wellFormed n = true ->
  findFiles dir false n = findAllFiles dir n
  /\ findFiles dir true n
     = filter (fun p => Mover.isAudio (Path.basename p)) (findAllFiles dir n).
Proof.
  intros Hw. split; [apply findFiles_all | apply findFiles_audio; exact Hw].
Qed.

Lemma findFiles_audio_only_filters_witness :
  wellFormed TreeSamples.album = true
  /\ findFiles (js "/music") true TreeSamples.album
     = [js "/music/a.mp3"; js "/music/CD1/b.flac"].
Proof.
  assert (H : wellFormed TreeSamples.album = true) by (vm_compute; reflexivity).
  split; [exact H|].
  rewrite (proj2 (findFiles_audio_only_filters TreeSamples.album (js "/music") H)).
  vm_compute. reflexivity.
Defined.


(** No file comes twice in the result of [findAllFiles], nor in that
    of [findFiles] with or without [audioOnly], when the names that a
    directory lists are plain and differ from one another. *)
Theorem findAllFiles_gives_no_file_twice (n : node) (dir : jsstring) :
  wellFormed n = true ->
  NoDup (findAllFiles dir n)
  /\ forall audioOnly, NoDup (findFiles dir audioOnly n).
Proof.
  intros Hw. split; [apply findAllFiles_NoDup; exact Hw|].
  intros [|].
  - rewrite findFiles_audio by exact Hw. apply NoDup_filter.
    apply findAllFiles_NoDup. exact Hw.
  - rewrite findFiles_all. apply findAllFiles_NoDup. exact Hw.
Qed.

Lemma findAllFiles_gives_no_file_twice_witness :
  wellFormed TreeSamples.album = true
  /\ NoDup (findAllFiles (js "/music") TreeSamples.album).
Proof.
  assert (H : wellFormed TreeSamples.album = true) by (vm_compute; reflexivity).
  split; [exact H|].
  exact (proj1 (findAllFiles_gives_no_file_twice TreeSamples.album (js "/music") H)).
Defined.


(** [scanEmptyDirs] answers whether the directory holds nothing to
    keep, and the directories that it lists for removal are those of
    that kind which it reaches, the target itself left out: no listed
    directory holds, at any depth, a file other than covers and system
    files. *)
Theorem scanEmptyDirs_lists_the_hollow_directories
    (root dir : jsstring) (n : node) :
  fst (scanEmptyDirs root dir n []) = hollow n
  /\ forall p,
       In p (snd (scanEmptyDirs root dir n []))
       <-> p <> root /\ exists m, below dir n p m /\ hollow m = true.
Proof.
  split.
  - rewrite scanEmptyDirs_acc. reflexivity.
  - intros p. apply scanEmptyDirs_listed.
Qed.

End TreeFacts.

(** ** The directories of split_cd.js *)

Module SplitFacts.
Import SplitCd.

(** The tracks filed under a key. *)
Lemma push_nonempty (k : nat) (v : jsstring) m :
  (forall k' vs, In (k', vs) m -> vs <> []) ->
  forall k' vs, In (k', vs) (JsMap.push Nat.eqb k v m) -> vs <> [].
Proof.
  induction m as [|[k0 vs0] m IH]; intros H k' vs Hin; cbn [JsMap.push] in Hin.
  - destruct Hin as [E|[]]. inversion E. discriminate.
  - destruct (Nat.eqb k k0).
    + destruct Hin as [E|Hin].
      * inversion E. destruct vs0; discriminate.
      * apply (H k' vs). right. exact Hin.
    + destruct Hin as [E|Hin].
      * apply (H k' vs). left. exact E.
      * apply (IH (fun a b Hab => H a b (or_intror Hab)) k' vs Hin).
Qed.

(** The elements of a list whose indices lie in an interval. *)
Lemma filter_interval {A : Type} (l : list A) (s a b : nat) :
  map snd (filter (fun e : nat * A => (a <=? fst e)%nat && (fst e <? b)%nat)
                  (combine (seq s (List.length l)) l))
  = firstn (b - Nat.max a s) (skipn (a - s) l).
Proof.
  revert s. induction l as [|x l IH]; intros s.
  - cbn. rewrite skipn_nil, firstn_nil. reflexivity.
  - cbn [List.length seq combine filter fst].
    destruct (a <=? s)%nat eqn:Ea.
    + apply Nat.leb_le in Ea. destruct (s <? b)%nat eqn:Eb.
      * apply Nat.ltb_lt in Eb. cbn [andb map snd]. rewrite IH.
        replace (a - s)%nat with 0%nat by lia.
        replace (a - S s)%nat with 0%nat by lia. cbn [skipn].
        replace (b - Nat.max a s)%nat with (S (b - Nat.max a (S s))) by lia.
        reflexivity.
      * apply Nat.ltb_ge in Eb. cbn [andb]. rewrite IH.
        replace (b - Nat.max a (S s))%nat with 0%nat by lia.
        replace (b - Nat.max a s)%nat with 0%nat by lia. reflexivity.
    + apply Nat.leb_gt in Ea. cbn [andb]. rewrite IH.
      replace (a - s)%nat with (S (a - S s)) by lia. cbn [skipn].
      replace (Nat.max a (S s)) with (Nat.max a s) by lia. reflexivity.
Qed.

Lemma filter_none {A : Type} (f : A -> bool) (l : list A) :
  (forall e, In e l -> f e = false) -> filter f l = [].
Proof.
  induction l as [|x l IH]; intros H; [reflexivity|]. cbn [filter].
  rewrite (H x (or_introl eq_refl)). apply IH. intros e He. apply H. right. exact He.
Qed.

Lemma slot_interval (size i k : nat) :
  (0 < size)%nat -> (1 <= k)%nat ->
  ((i / size + 1 =? k)%nat
   = ((k - 1) * size <=? i)%nat && (i <? (k - 1) * size + size)%nat).
Proof.
  intros Hs Hk.
  pose proof (Nat.div_mod_eq i size) as Hd.
  pose proof (Nat.mod_upper_bound i size ltac:(lia)) as Hm.
  destruct (i / size + 1 =? k)%nat eqn:E.
  - apply Nat.eqb_eq in E. symmetry. apply andb_true_iff.
    split; [apply Nat.leb_le | apply Nat.ltb_lt]; nia.
  - apply Nat.eqb_neq in E. symmetry. apply andb_false_iff.
    destruct (Nat.lt_ge_cases (i / size + 1) k) as [L|L].
    + left. apply Nat.leb_gt. nia.
    + right. apply Nat.ltb_ge. nia.
Qed.

Section Disk.
Variable World : Type.
Variable existsSync : World -> jsstring -> bool.
Variable mkdirSync : jsstring -> World -> option World.
Variable renameSync : jsstring -> jsstring -> World -> option World.
Variable writeFileSync : jsstring -> jsstring -> World -> option World.

Local Abbreviation step targetDir size dryRun :=
  (fun (st : option (state World)) (entry : nat * song) =>
     match st with
     | Some st => splitStep World existsSync mkdirSync renameSync targetDir size
                    dryRun st entry
     | None => None
     end).

Local Abbreviation tracksOf m k :=
  (match JsMap.get Nat.eqb k m with Some vs => vs | None => [] end).

Lemma step_none targetDir size dryRun l :
  fold_left (step targetDir size dryRun) l None = None.
Proof. induction l as [|e l IH]; [reflexivity | exact IH]. Qed.

Lemma splitStep_tracks targetDir size dryRun st i song st' :
  splitStep World existsSync mkdirSync renameSync targetDir size dryRun st (i, song)
  = Some st' ->
  cdTracks World st'
  = JsMap.push Nat.eqb (i / size + 1)%nat (Path.basename (audio song))
      (cdTracks World st).
Proof.
  unfold splitStep.
  assert (E : (if negb (i / size + 1 =? cdIndex World st)%nat
               then (i / size + 1)%nat else cdIndex World st) = (i / size + 1)%nat).
  { destruct (i / size + 1 =? cdIndex World st)%nat eqn:E; cbn [negb];
      [apply Nat.eqb_eq in E; congruence | reflexivity]. }
  rewrite E.
  destruct (ensureCdDir _ _ _ _ _ _) as [[cdDir w]|]; [|discriminate].
  intros H. inversion H. reflexivity.
Qed.

(** What the loop leaves in [cdTracks]. *)
Lemma loop_tracks targetDir size dryRun (l : list (nat * song)) :
  forall st st',
    fold_left (step targetDir size dryRun) l (Some st) = Some st' ->
    NoDup (map fst (cdTracks World st)) ->
    (forall k vs, In (k, vs) (cdTracks World st) -> vs <> []) ->
    NoDup (map fst (cdTracks World st'))
    /\ (forall k vs, In (k, vs) (cdTracks World st') -> vs <> [])
    /\ forall k,
         tracksOf (cdTracks World st') k
         = tracksOf (cdTracks World st) k
           ++ map (fun e : nat * song => Path.basename (audio (snd e)))
                (filter (fun e : nat * song => (fst e / size + 1 =? k)%nat) l).
Proof.
  induction l as [|[i song] l IH]; intros st st' H Hnd Hne.
  - cbn in H. inversion H. subst st'. split; [exact Hnd|]. split; [exact Hne|].
    intros k. cbn. symmetry. apply app_nil_r.
  - cbn [fold_left] in H.
    destruct (splitStep World existsSync mkdirSync renameSync targetDir size dryRun
                st (i, song)) as [st1|] eqn:E1.
    + pose proof (splitStep_tracks _ _ _ _ _ _ _ E1) as Et.
      destruct (IH st1 st' H) as (N' & E' & T').
      * rewrite Et. apply (JsMapFacts.push_NoDup Nat.eqb Nat.eqb_eq (fun _ => None)). exact Hnd.
      * rewrite Et. apply push_nonempty. exact Hne.
      * split; [exact N'|]. split; [exact E'|]. intros k. rewrite T', Et.
        rewrite (JsMapFacts.get_push Nat.eqb Nat.eqb_eq).
        cbn [filter fst]. rewrite (Nat.eqb_sym (i / size + 1) k).
        destruct (k =? i / size + 1)%nat eqn:Ek.
        -- apply Nat.eqb_eq in Ek. subst k. cbn [map snd].
           rewrite <- app_assoc. reflexivity.
        -- reflexivity.
    + rewrite step_none in H. discriminate.
Qed.

Lemma block_of (songs : list song) size k :
  (0 < size)%nat -> (1 <= k)%nat ->
  map (fun e : nat * song => Path.basename (audio (snd e)))
      (filter (fun e : nat * song => (fst e / size + 1 =? k)%nat)
              (JsArray.indexed songs))
  = map (fun s => Path.basename (audio s))
        (firstn size (skipn ((k - 1) * size) songs)).
Proof.
  intros Hs Hk.
  rewrite (filter_ext
             (fun e : nat * song => (fst e / size + 1 =? k)%nat)
             (fun e : nat * song =>
                ((k - 1) * size <=? fst e)%nat
                && (fst e <? (k - 1) * size + size)%nat))
    by (intros e; apply slot_interval; assumption).
  rewrite <- (map_map snd (fun s => Path.basename (audio s))).
  unfold JsArray.indexed. rewrite filter_interval.
  replace ((k - 1) * size + size - Nat.max ((k - 1) * size) 0)%nat with size by lia.
  rewrite Nat.sub_0_r. reflexivity.
Qed.

Lemma dry_step targetDir size st i song :
  option_map (disk World)
    (splitStep World existsSync mkdirSync renameSync targetDir size true st (i, song))
  = option_map snd
      (ensureCdDir World existsSync mkdirSync targetDir (i / size + 1) (disk World st)).
Proof.
  unfold splitStep.
  assert (E : (if negb (i / size + 1 =? cdIndex World st)%nat
               then (i / size + 1)%nat else cdIndex World st) = (i / size + 1)%nat).
  { destruct (i / size + 1 =? cdIndex World st)%nat eqn:E; cbn [negb];
      [apply Nat.eqb_eq in E; congruence | reflexivity]. }
  rewrite E.
  destruct (ensureCdDir _ _ _ _ _ _) as [[cdDir w]|]; [|reflexivity].
  cbn [option_map snd disk]. unfold moveFile.
  destruct (lrc song) as [l|]; [destruct (truthy l)|]; reflexivity.
Qed.

Lemma dry_loop targetDir size (l : list song) :
  forall s st,
    option_map (disk World)
      (fold_left (step targetDir size true) (combine (seq s (List.length l)) l)
         (Some st))
    = fold_left
        (fun (w : option World) (i : nat) =>
           match w with
           | Some w =>
               option_map snd
                 (ensureCdDir World existsSync mkdirSync targetDir (i / size + 1) w)
           | None => None
           end)
        (seq s (List.length l)) (Some (disk World st)).
Proof.
  induction l as [|song l IH]; intros s st; [reflexivity|].
  cbn [List.length seq combine fold_left].
  pose proof (dry_step targetDir size st s song) as Hs.
  destruct (splitStep World existsSync mkdirSync renameSync targetDir size true st
              (s, song)) as [st1|].
  - cbn [option_map] in Hs. rewrite <- Hs. apply IH.
  - cbn [option_map] in Hs. rewrite <- Hs. rewrite step_none.
    clear. induction (seq (S s) (List.length l)) as [|x r IHr]; [reflexivity|exact IHr].
Qed.

End Disk.

(** The loop of [splitDirectory] files every song under the number of
    its directory: under the key [k] stand the names of the songs from
    the place [(k - 1) * size] on, [size] of them at most, in the order
    of the songs; no key comes twice, and the directory of every song
    has its entry. *)
Theorem split_files_the_songs_in_blocks
    (World : Type) existsSync mkdirSync renameSync
    (targetDir : jsstring) (size : nat) (dryRun : bool) (songs : list song)
    (w : World) (st : state World) :
  (0 < size)%nat ->
  splitLoop World existsSync mkdirSync renameSync targetDir size dryRun songs w
  = Some st ->
  NoDup (map fst (cdTracks World st))
  /\ (forall k tracks,
        In (k, tracks) (cdTracks World st) ->
        (1 <= k)%nat /\ tracks <> [] /\ (List.length tracks <= size)%nat
        /\ tracks = map (fun s => Path.basename (audio s))
                        (firstn size (skipn ((k - 1) * size) songs)))
  /\ (forall i s,
        nth_error songs i = Some s ->
        exists tracks, In ((i / size + 1)%nat, tracks) (cdTracks World st)).
Proof.
  intros Hs H. unfold splitLoop in H.
  destruct (loop_tracks World existsSync mkdirSync renameSync targetDir size dryRun
              (JsArray.indexed songs) (mkState World 1 [] w) st H)
    as (Hnd & Hne & Ht).
  { constructor. }
  { intros k vs []. }
  cbn [cdTracks JsMap.get app] in Ht.
  split; [exact Hnd|]. split.
  - intros k tracks Hin. pose proof (Hne k tracks Hin) as Hn.
    apply (JsMapFacts.get_In Nat.eqb Nat.eqb_eq _ _ _ Hnd) in Hin.
    specialize (Ht k). rewrite Hin in Ht.
    assert (Hk : (1 <= k)%nat).
    { destruct k as [|k]; [|lia]. exfalso. apply Hn. rewrite Ht.
      replace (filter _ (JsArray.indexed songs)) with (@nil (nat * song));
        [reflexivity|].
      symmetry. apply filter_none.
      intros e _. apply Nat.eqb_neq. lia. }
    rewrite (block_of songs size k Hs Hk) in Ht.
    split; [exact Hk|]. split; [exact Hn|]. split; [|exact Ht].
    rewrite Ht, length_map. apply firstn_le_length.
  - intros i s Hi. apply JsArrayFacts.nth_error_indexed in Hi.
    specialize (Ht (i / size + 1)%nat).
    destruct (JsMap.get Nat.eqb (i / size + 1)%nat (cdTracks World st)) as [vs|] eqn:Eg.
    + exists vs. apply (JsMapFacts.get_In Nat.eqb Nat.eqb_eq _ _ _ Hnd). exact Eg.
    + exfalso.
      assert (Hf : In (i, s) (filter (fun e : nat * song =>
                                        (fst e / size + 1 =? i / size + 1)%nat)
                                     (JsArray.indexed songs))).
      { apply filter_In. split; [exact Hi | apply Nat.eqb_refl]. }
      destruct (filter _ (JsArray.indexed songs)); [destruct Hf | discriminate].
Qed.

Lemma split_files_the_songs_in_blocks_witness :
  ((0 < 2)%nat
   /\ splitLoop SplitSamples.World SplitSamples.existsSync SplitSamples.mkdirSync
        SplitSamples.renameSync (js "/m") 2 false SplitSamples.songs tt
      = Some SplitSamples.afterLoop)
  /\ NoDup (map fst (cdTracks SplitSamples.World SplitSamples.afterLoop)).
Proof.
  assert (H : (0 < 2)%nat
   /\ splitLoop SplitSamples.World SplitSamples.existsSync SplitSamples.mkdirSync
        SplitSamples.renameSync (js "/m") 2 false SplitSamples.songs tt
      = Some SplitSamples.afterLoop).
  { split; [lia | vm_compute; reflexivity]. }
  split; [exact H|]. destruct H as [H1 H2].
  exact (proj1 (split_files_the_songs_in_blocks SplitSamples.World
                  SplitSamples.existsSync SplitSamples.mkdirSync
                  SplitSamples.renameSync (js "/m") 2 false SplitSamples.songs tt
                  SplitSamples.afterLoop H1 H2)).
Defined.

(** A dry run renames no file and writes no playlist, but it is not
    without effect: for the sizes that [parseArgs] gives, what it does
    to the disk is what [ensureCdDir] does, called once for each song
    with the number of its directory, and it ends the process as that
    function does. *)
Theorem dry_run_only_makes_the_directories
    (World : Type) existsSync mkdirSync renameSync writeFileSync
    (songs : list song) (targetDir : jsstring) (size : nat) (w : World) :
  (0 < size)%nat ->
  splitDirectory World existsSync mkdirSync renameSync writeFileSync songs
    targetDir size true w
  = fold_left
      (fun (w : option World) (i : nat) =>
         match w with
         | Some w =>
             option_map snd
               (ensureCdDir World existsSync mkdirSync targetDir (i / size + 1) w)
         | None => None
         end)
      (seq 0 (List.length songs)) (Some w).
Proof.
  intros _. unfold splitDirectory. destruct songs as [|s0 songs]; [reflexivity|].
  change (List.length (s0 :: songs) =? 0)%nat with false. cbn [negb].
  pose proof (dry_loop World existsSync mkdirSync renameSync targetDir size
                (s0 :: songs) 0 (mkState World 1 [] w)) as H.
  cbn [disk] in H. rewrite <- H. unfold splitLoop, JsArray.indexed.
  destruct (fold_left _ _ _); reflexivity.
Qed.

Lemma dry_run_only_makes_the_directories_witness :
  (0 < 2)%nat
  /\ splitDirectory SplitSamples.World SplitSamples.existsSync
       SplitSamples.mkdirSync SplitSamples.renameFails SplitSamples.writeFails
       SplitSamples.songs (js "/m") 2 true tt
     = Some tt.
Proof.
  split; [lia|].
  rewrite (dry_run_only_makes_the_directories SplitSamples.World
             SplitSamples.existsSync SplitSamples.mkdirSync
             SplitSamples.renameFails SplitSamples.writeFails
             SplitSamples.songs (js "/m") 2 tt ltac:(lia)).
  reflexivity.
Defined.

End SplitFacts.

(** ** The file that the checker keeps *)

Module CheckerFacts.
Import Checker Spec.

(** The file that the checker keeps is a studio version whenever the
    group has one, and no file of its kind, Live or not, is larger;
    the files to remove are the others of the group. *)
Theorem checker_keeps_the_largest_studio_version (g : group) (k : musicFile) :
  keepFile g = Some k ->
  (forall f, In f (files g) ->
     isLiveVersion (originalName k) = true ->
     isLiveVersion (originalName f) = true)
  /\ (forall f, In f (files g) ->
        isLiveVersion (originalName f) = isLiveVersion (originalName k) ->
        (size f <= size k)%N)
  /\ Permutation (files g) (k :: deleteFiles g).
Proof.
  unfold keepFile, deleteFiles, JsArray.slice1. intros Hk.
  pose proof (JsArrayFacts.sort_perm sgnFiles (files g)) as Hp.
  pose proof (RankFacts.sort_strongly_sorted sgnFiles RankFacts.sgnFiles_consistent
                (files g)) as Hs.
  fold (sortFiles (files g)) in Hp, Hs.
  destruct (sortFiles (files g)) as [|k0 rest] eqn:E; [discriminate|].
  cbn [hd_error] in Hk. inversion Hk. subst k0. cbn [tl].
  inversion Hs as [|? ? _ Hall]; subst. rewrite Forall_forall in Hall.
  assert (Hcmp : forall f, In f (files g) -> f = k \/ (compareFiles k f <= 0)%Z).
  { intros f Hf. apply (Permutation_in _ (Permutation_sym Hp)) in Hf.
    destruct Hf as [->|Hf]; [left; reflexivity|]. right.
    specialize (Hall f Hf). unfold notAfter, sgnFiles in Hall.
    destruct (Z.compare_spec (compareFiles k f) 0); try lia. congruence. }
  split; [|split].
  - intros f Hf Hl. destruct (Hcmp f Hf) as [->|Hc]; [exact Hl|].
    unfold compareFiles in Hc. rewrite Hl in Hc. cbv zeta in Hc.
    destruct (isLiveVersion (originalName f)); [reflexivity|].
    cbn [andb negb] in Hc. lia.
  - intros f Hf Hl. destruct (Hcmp f Hf) as [->|Hc]; [lia|].
    unfold compareFiles in Hc. rewrite Hl in Hc. cbv zeta in Hc.
    destruct (isLiveVersion (originalName k)); cbn [andb negb] in Hc;
      (destruct (N.eqb_spec (size k) (size f)) as [Es|Es]; cbn [negb] in Hc;
       [rewrite Es; lia | lia]).
  - apply Permutation_sym. exact Hp.
Qed.

Lemma checker_keeps_the_largest_studio_version_witness :
  keepFile CheckerSamples.qilixiang = Some CheckerSamples.studio
  /\ Permutation (files CheckerSamples.qilixiang)
       (CheckerSamples.studio :: deleteFiles CheckerSamples.qilixiang).
Proof.
  assert (H : keepFile CheckerSamples.qilixiang = Some CheckerSamples.studio)
    by (vm_compute; reflexivity).
  split; [exact H|].
  exact (proj2 (proj2 (checker_keeps_the_largest_studio_version
                         CheckerSamples.qilixiang CheckerSamples.studio H))).
Defined.

End CheckerFacts.

(** ** The groups of the sample library *)

Module GroupWitnesses.
Import Enhanced EnhancedRun Spec Samples GroupFacts.

Lemma kept_file_has_the_best_score_witness :
  (In beyondSemantic (o_semantic beyondRun)
   /\ sd_files beyondSemantic = live :: [cd1; cd2]
   /\ In cd1 [cd1; cd2])
  /\ (getScore cd1 <= getScore live)%Q.
Proof.
  assert (H : In beyondSemantic (o_semantic beyondRun)
              /\ sd_files beyondSemantic = live :: [cd1; cd2]
              /\ In cd1 [cd1; cd2]).
  { split; [vm_compute; auto|]. split; [reflexivity | left; reflexivity]. }
  split; [exact H|]. destruct H as (Hd & Hf & Hin).
  exact (proj2 (kept_file_has_the_best_score beyondHash relative now beyondDir
                  beyondFiles beyondLyrics)
           beyondSemantic live [cd1; cd2] cd1 Hd Hf Hin).
Defined.

Lemma exact_groups_are_disjoint_witness :
  In beyondExact (o_exact beyondRun)
  /\ (2 <= List.length (ed_files beyondExact))%nat /\ (0 < ed_size beyondExact)%N.
Proof.
  assert (H : In beyondExact (o_exact beyondRun)) by (vm_compute; auto).
  split; [exact H|].
  exact (proj1 (exact_groups_are_disjoint beyondHash relative now beyondDir
                  beyondFiles beyondLyrics) beyondExact H).
Defined.

Lemma semantic_groups_are_keyed_witness :
  (In beyondSemantic (o_semantic beyondRun) /\ In live (sd_files beyondSemantic))
  /\ key live = sd_key beyondSemantic /\ title live <> [].
Proof.
  assert (H : In beyondSemantic (o_semantic beyondRun)
              /\ In live (sd_files beyondSemantic)).
  { split; vm_compute; auto. }
  split; [exact H|]. destruct H as [Hd Hf].
  exact (proj2 (proj1 (semantic_groups_are_keyed beyondHash relative now beyondDir
                         beyondFiles beyondLyrics) beyondSemantic Hd) live Hf).
Defined.

End GroupWitnesses.


(** ** The lyric file beside a moved file *)

Module LyricPathFacts.
Import Mover.

Lemma extMatches_dot (ext : jsstring) :
  ext <> [] ->
  forallb (fun x => negb ((x =? 0x2F) || (x =? 0x2E))%N) ext = true ->
  extMatches (0x2E%N :: ext) = true.
Proof.
  intros Hne H. destruct ext as [|c r]; [congruence|].
  unfold extMatches. rewrite H. reflexivity.
Qed.

Lemma extMatches_before (c : N) (pre ext : jsstring) :
  extMatches (c :: pre ++ 0x2E%N :: ext) = false.
Proof.
  unfold extMatches. destruct (pre ++ 0x2E%N :: ext) as [|x r] eqn:E.
  - destruct pre; discriminate.
  - rewrite <- E. apply andb_false_iff. right.
    rewrite forallb_app. apply andb_false_iff. right.
    cbn [forallb]. rewrite N.eqb_refl, orb_true_r. reflexivity.
Qed.

Lemma extMatches_suffix (p : jsstring) :
  extMatches p = true ->
  exists ext, p = 0x2E%N :: ext /\ ext <> []
              /\ forallb (fun x => negb ((x =? 0x2F) || (x =? 0x2E))%N) ext = true.
Proof.
  unfold extMatches. destruct p as [|c [|x r]]; try discriminate.
  intros H. apply andb_true_iff in H. destruct H as [Hc H].
  apply N.eqb_eq in Hc. subst c. exists (x :: r).
  split; [reflexivity|]. split; [discriminate | exact H].
Qed.

(** The lyric file that the mover looks for beside a file: the path
    with [.lrc] in the place of its extension, the text from the last
    dot on when no separator comes after that dot and something does;
    a path without such an ending is left as it is. *)
Theorem lrcOf_replaces_the_extension :
  (forall pre ext,
     ext <> [] ->
     forallb (fun x => negb ((x =? 0x2F) || (x =? 0x2E))%N) ext = true ->
     lrcOf (pre ++ 0x2E%N :: ext) = pre ++ js ".lrc")
  /\ (forall p,
        (forall pre ext,
           p = pre ++ 0x2E%N :: ext ->
           ext = []
           \/ forallb (fun x => negb ((x =? 0x2F) || (x =? 0x2E))%N) ext = false) ->
        lrcOf p = p).
Proof.
  split.
  - intros pre ext Hne H. induction pre as [|c pre IH].
    + cbn [app]. destruct ext as [|x r]; [congruence|].
      cbn [lrcOf]. rewrite (extMatches_dot (x :: r) Hne H). reflexivity.
    + cbn [app lrcOf]. rewrite extMatches_before, IH. reflexivity.
  - induction p as [|c p IH]; intros H; [reflexivity|].
    cbn [lrcOf]. destruct (extMatches (c :: p)) eqn:E.
    + exfalso. apply extMatches_suffix in E. destruct E as (ext & E & Hne & Hf).
      destruct (H [] ext E) as [He|He]; congruence.
    + rewrite IH; [reflexivity|]. intros pre ext E'.
      apply (H (c :: pre) ext). rewrite E'. reflexivity.
Qed.

Lemma lrcOf_replaces_the_extension_witness :
  (js "mp3" <> []
   /\ forallb (fun x => negb ((x =? 0x2F) || (x =? 0x2E))%N) (js "mp3") = true)
  /\ lrcOf (js "/music/b.c/d.tar" ++ 0x2E%N :: js "mp3")
     = js "/music/b.c/d.tar" ++ js ".lrc".
Proof.
  assert (H : js "mp3" <> []
              /\ forallb (fun x => negb ((x =? 0x2F) || (x =? 0x2E))%N) (js "mp3")
                 = true).
  { split; [discriminate | vm_compute; reflexivity]. }
  split; [exact H|]. destruct H as [Hne Hf].
  exact (proj1 lrcOf_replaces_the_extension (js "/music/b.c/d.tar") (js "mp3")
           Hne Hf).
Defined.

End LyricPathFacts.


(** ** The model on the names the scripts are written for *)

Module Examples.

Example js_ascii : js "a - b" = [0x61; 0x20; 0x2D; 0x20; 0x62].
Proof. reflexivity. Qed.

Example js_cjk :
  js "齊秦 (國語版)" = [0x9F4A; 0x79E6; 0x20; 0x28; 0x570B; 0x8A9E; 0x7248; 0x29].
Proof. reflexivity. Qed.

Example split_dash :
  split (js " - ") (js "A - B - C") = [js "A"; js "B"; js "C"].
Proof. reflexivity. Qed.

Example split_without_overlap :
  split (js " - ") (js "a - - b") = [js "a"; js "- b"].
Proof. reflexivity. Qed.

Example path_parts :
  Path.extname (js "a/b.c/d.tar.gz") = js ".gz"
  /\ Path.extname (js ".bashrc") = []
  /\ Path.dirname (js "/a/b/c.mp3") = js "/a/b"
  /\ Path.basenameExt (js "x/y.mp3") (js ".mp3") = js "y".
Proof. vm_compute. auto. Qed.

(** The comment of [removeTrackNumber] lists these names. *)
Example track_numbers :
  map Enhanced.removeTrackNumber
      [js "01 - xxx"; js "01.xxx"; js "01-xxx"; js "1-01 xxx"; js "2002年"]
  = [js "xxx"; js "xxx"; js "xxx"; js "xxx"; js "2002年"].
Proof. vm_compute. reflexivity. Qed.

Example roman_numerals :
  Enhanced.normalizeRomanNumerals (js "Rocky IV and viii x XI")
  = js "Rocky 4 and 8 10 XI".
Proof. vm_compute. reflexivity. Qed.

Example suffix_live :
  Enhanced.removeDescriptiveSuffix (js "海阔天空 (Live)") = js "海阔天空".
Proof. vm_compute. reflexivity. Qed.

Example enhanced_parse :
  Enhanced.parseSongInfo (js "01 - Beyond - 海阔天空 (Live).mp3") (Some (js "X"))
  = Enhanced.mkSongInfo (js "Beyond") (js "海阔天空")
      (js "01 - Beyond - 海阔天空 (Live).mp3").
Proof. vm_compute. reflexivity. Qed.

Example collaborators :
  Enhanced.splitCollab (js "A feat. B & C ft D")
  = [js "A"; js "B "; js " C"; js "D"].
Proof. vm_compute. reflexivity. Qed.

Example enhanced_key :
  Enhanced.getSongKey (js "Beyond") (js "海闊天空 II") (js "beyond")
  = js "beyond|海闊天空2".
Proof. vm_compute. reflexivity. Qed.

Example utils_parse :
  Utils.parseSongInfo (js "01. 周杰伦 - 七里香 (Live).mp3") None
  = Utils.mkSongInfo (js "周杰伦") (js "七里香") (js "01. 周杰伦 - 七里香 (Live).mp3")
  /\ Utils.parseSongInfo (js "七里香(周杰伦).mp3") None
     = Utils.mkSongInfo (js "周杰伦") (js "七里香") (js "七里香(周杰伦).mp3")
  /\ Utils.parseSongInfo (js "05.mp3") None
     = Utils.mkSongInfo (js "Unknown") (js "05") (js "05.mp3")
  /\ Utils.parseSongInfo (js "unknown - Song.mp3") (Some (js "Beyond"))
     = Utils.mkSongInfo (js "Beyond") (js "Song") (js "unknown - Song.mp3").
Proof. vm_compute. auto. Qed.

(** Names of the test list of test_song_key.js, the converter leaving
    the simplified names as they are. *)
Example song_keys :
  map (SongKey.getSongKey (fun x => x))
      [js "海阔天空 (Live)"; js "海阔天空 [Remastered]";
       js "Beyond - 海阔天空 [Live]"; js "我是愤怒 - 伴奏"]
  = [js "海阔天空"; js "海阔天空"; js "beyond-海阔天空"; js "我是愤怒-伴奏"].
Proof. vm_compute. reflexivity. Qed.

(** After a match the scan goes on behind the unit that closed it, so a
    second keyword right behind is not seen. *)
Example live_versions :
  map Checker.isLiveVersion
      [js "Song (Live).mp3"; js "Long Live.mp3"; js "Alive.mp3";
       js "Song 演唱会.flac"; js "live.mp3"; js "Long Live live.mp3";
       js "Demo.mp3"]
  = [true; false; false; true; true; false; true].
Proof. vm_compute. reflexivity. Qed.

Example lyric_path :
  Mover.lrcOf (js "/a/b.c/d.tar.mp3") = js "/a/b.c/d.tar.lrc"
  /\ Mover.lrcOf (js "/a/b.c/d") = js "/a/b.c/d".
Proof. vm_compute. auto. Qed.

Example beyond_groups :
  map (fun d => map EnhancedRun.path (EnhancedRun.ed_files d))
      (EnhancedRun.o_exact Samples.beyondRun)
  = [[js "/music/Beyond/cd1/海阔天空.mp3"; js "/music/Beyond/cd2/海阔天空.mp3"]]
  /\ map (fun d => (EnhancedRun.sd_key d,
                    map EnhancedRun.path (EnhancedRun.sd_files d)))
         (EnhancedRun.o_semantic Samples.beyondRun)
     = [(js "beyond|海阔天空",
         [js "/music/Beyond/海阔天空 (Live).flac";
          js "/music/Beyond/cd1/海阔天空.mp3";
          js "/music/Beyond/cd2/海阔天空.mp3"])].
Proof. vm_compute. auto. Qed.

Example mover_groups :
  map (fun e => (fst e, map Utils.name (snd e)))
      (Mover.songMap [] Samples.moverInfos)
  = [(js "beyond|海阔天空", [js "Beyond - 海阔天空.mp3"; js "Beyond - 海阔天空.flac"])].
Proof. vm_compute. reflexivity. Qed.

(** Doubles: one third, the sum of a tenth and a fifth, a whole number
    of 54 bits half way between two doubles, and the smallest double. *)
Example doubles :
  Double.round (1 # 3) = (6004799503160661 # 18014398509481984)%Q
  /\ Double.add (Double.round (1 # 10)) (Double.round (2 # 10))
     = (1351079888211149 # 4503599627370496)%Q
  /\ Double.ofN 9007199254740993 = 9007199254740992%Q
  /\ Double.ofN 9007199254740995 = 9007199254740996%Q
  /\ Double.round (1 # 2 ^ 1075) = 0%Q
  /\ Double.round (3 # 2 ^ 1075) = Qred (2 # 2 ^ 1074)%Q.
Proof. repeat split; vm_compute; reflexivity. Qed.

Example lower_case :
  toLowerCase (js "İstanbul ＡBC") = [0x69; 0x307] ++ js "stanbul ａbc".
Proof. reflexivity. Qed.

End Examples.
